(** * Name translation and rename planning: a shallow embedding

    This development embeds [translate_names.py] (dictionary matching with a
    fallback translator, name normalisation, the bottom-up tree scan and the
    rename executor) and states its properties. The set-up of the translator
    and the blueprint tool [modify_blueprint.py], which wraps the library
    [dspbptk], are embedded as far as the two files go; the library is a
    class, [ModifyBlueprint.Library].

    Conventions.
    - A Python [str] is a list of Unicode code points ([Z]).
    - Indices and offsets are [nat]; [str.find]'s [-1] is [None].
    - The external translator, the Unicode character classes used by the
      regular expressions ([\s], [\w]) and the operating system's answers
      that the tree does not determine (whether [stat] fails on a path,
      whether a rename is permitted) are the fields of the class [Env].
    - The file system is a tree of files, directories and symbolic links;
      [exists()], [is_dir()] and [os.walk] follow links as the system does,
      [os.rename] acts on the entry itself and replaces what it may.
    - Effects (the translator calls, the file system, the printed lines) are
      threaded through a state-and-exception monad [M]. *)

From Stdlib Require Import String Ascii.
From Stdlib Require Import List ZArith Arith Bool Lia.
From Stdlib Require Import Sorting.Sorted Sorting.Permutation.
From Stdlib Require Import DecimalNat.
Import ListNotations.

(** ** Strings *)

Definition char := Z.
Definition str := list char.

(** ASCII literals, for replacement texts and fixed names. *)
Definition cp (s : string) : str :=
  map (fun a => Z.of_N (N_of_ascii a)) (list_ascii_of_string s).
Arguments cp s%_string.

Fixpoint str_eqb (a b : str) : bool :=
  match a, b with
  | [], [] => true
  | x :: a', y :: b' => (x =? y)%Z && str_eqb a' b'
  | _, _ => false
  end.

Definition hyphen : char := 45%Z.
Definition period : char := 46%Z.
Definition slash : char := 47%Z.
Definition underscore : char := 95%Z.

(** [re.search(r'[\u4e00-\u9fff]', c)] on one character. *)
Definition is_chinese (c : char) : bool :=
  ((19968 <=? c) && (c <=? 40959))%Z.

Definition contains_chinese (text : str) : bool := existsb is_chinese text.

(** ** Python string primitives *)

(** [s.startswith(sub)] *)
Fixpoint startswith (s sub : str) {struct sub} : bool :=
  match sub, s with
  | [], _ => true
  | c :: sub', d :: s' => (c =? d)%Z && startswith s' sub'
  | _ :: _, [] => false
  end.

(** The search of [str.find] on the text that starts at offset [pos]. *)
Fixpoint find_from (s sub : str) (pos : nat) : option nat :=
  if startswith s sub then Some pos
  else match s with
       | [] => None
       | _ :: s' => find_from s' sub (S pos)
       end.

(** [s.find(sub, start)] for [start >= 0]: the lowest index [>= start] at
    which [sub] occurs, [None] for [-1]. A [start] beyond the end finds
    nothing, not even the empty string. *)
Definition find (s sub : str) (start : nat) : option nat :=
  if length s <? start then None else find_from (skipn start s) sub start.

(** [s[a:b]] for non-negative bounds. *)
Definition slice (s : str) (a b : nat) : str := firstn (b - a) (skipn a s).

Fixpoint dropwhile (p : char -> bool) (s : str) : str :=
  match s with
  | [] => []
  | c :: s' => if p c then dropwhile p s' else s
  end.

(** [s.strip(chars)], with the set of characters as a predicate. *)
Definition strip (p : char -> bool) (s : str) : str :=
  rev (dropwhile p (rev (dropwhile p s))).

(** [re.sub(r'[p]+', rep, s)]: every maximal run of characters of class [p]
    is replaced by [rep]; [in_run] tells that the previous character was in
    the class. *)
Fixpoint sub_runs_from (p : char -> bool) (rep : str) (in_run : bool) (s : str) : str :=
  match s with
  | [] => []
  | c :: s' =>
    if p c then
      (if in_run then [] else rep) ++ sub_runs_from p rep true s'
    else c :: sub_runs_from p rep false s'
  end.

Definition re_sub_runs (p : char -> bool) (rep : str) (s : str) : str :=
  sub_runs_from p rep false s.

(** [sorted(l, key=...)] / [list.sort(key=...)]: a stable sort, with the
    order given as a boolean "may stay in front of". *)
Fixpoint insert_by {A : Type} (le : A -> A -> bool) (x : A) (l : list A) : list A :=
  match l with
  | [] => [x]
  | y :: l' => if le x y then x :: l else y :: insert_by le x l'
  end.

Definition sort_by {A : Type} (le : A -> A -> bool) (l : list A) : list A :=
  fold_right (insert_by le) [] l.

(** ** The dictionary *)

(** A Python dict in insertion order; the literal has no repeated key. *)
Definition dict := list (str * str).

Definition keys (d : dict) : list str := map fst d.

Fixpoint dict_get (d : dict) (k : str) : option str :=
  match d with
  | [] => None
  | (k', v) :: d' => if str_eqb k' k then Some v else dict_get d' k
  end.

Local Open Scope Z_scope.

Definition DSP_DICTIONARY : dict := [
  (* Natural Resources *)
  ([38081; 30719], cp "Iron-Ore");  (* 铁矿 *)
  ([38108; 30719], cp "Copper-Ore");  (* 铜矿 *)
  ([30707; 30719], cp "Stone");  (* 石矿 *)
  ([29028; 30719], cp "Coal");  (* 煤矿 *)
  ([29028], cp "Coal");  (* 煤 *)
  ([30789; 30707], cp "Silicon-Ore");  (* 硅石 *)
  ([38043; 30719], cp "Titanium-Ore");  (* 钛矿 *)
  ([27700], cp "Water");  (* 水 *)
  ([21407; 27833], cp "Crude-Oil");  (* 原油 *)
  ([27682], cp "Hydrogen");  (* 氢 *)
  ([37325; 27682], cp "Deuterium");  (* 重氢 *)
  ([27672], cp "Deuterium");  (* 氘 *)
  ([21453; 29289; 36136], cp "Antimatter");  (* 反物质 *)
  ([20020; 30028; 20809; 23376], cp "Critical-Photon");  (* 临界光子 *)
  ([26680; 24515; 32032], cp "Core-Element");  (* 核心素 *)
  ([37329; 20271; 21033; 30719; 30707], cp "Kimberlite-Ore");  (* 金伯利矿石 *)
  ([21487; 29123; 20912], cp "Fire-Ice");  (* 可燃冰 *)
  ([26408; 26448], cp "Log");  (* 木材 *)
  ([26377; 26426; 26230; 20307], cp "Organic-Crystal");  (* 有机晶体 *)
  ([26893; 29289; 29123; 26009], cp "Plant-Fuel");  (* 植物燃料 *)
  ([30827; 37240], cp "Sulfuric-Acid");  (* 硫酸 *)
  ([21333; 26497; 30913; 30707], cp "Unipolar-Magnet");  (* 单极磁石 *)
  ([20809; 26629; 30707], cp "Grating-Crystal");  (* 光栅石 *)
  ([21050; 31499; 32467; 26230], cp "Spiniform-Stalagmite-Crystal");  (* 刺笋结晶 *)
  ([21050; 31499], cp "Spiniform-Stalagmite");  (* 刺笋 *)
  ([20998; 24418; 30789; 30707], cp "Fractal-Silicon");  (* 分形硅石 *)
  (* Intermediate Products *)
  ([38081; 22359], cp "Iron-Ingot");  (* 铁块 *)
  ([38108; 22359], cp "Copper-Ingot");  (* 铜块 *)
  ([30707; 26448], cp "Stone-Brick");  (* 石材 *)
  ([39640; 33021; 30707; 22696], cp "Energetic-Graphite");  (* 高能石墨 *)
  ([39640; 32431; 30789; 22359], cp "High-Purity-Silicon");  (* 高纯硅块 *)
  ([26230; 26684; 30789], cp "High-Purity-Silicon");  (* 晶格硅 *)
  ([38043; 22359], cp "Titanium-Ingot");  (* 钛块 *)
  ([38043; 21512; 37329], cp "Titanium-Alloy");  (* 钛合金 *)
  ([31934; 28860; 27833], cp "Refined-Oil");  (* 精炼油 *)
  ([38050; 26448], cp "Steel");  (* 钢材 *)
  ([30005; 36335; 26495], cp "Circuit-Board");  (* 电路板 *)
  ([26865; 38236], cp "Prism");  (* 棱镜 *)
  ([30005; 21160; 26426], cp "Electric-Motor");  (* 电动机 *)
  ([24494; 26230; 20803; 20214], cp "Microcrystalline-Component");  (* 微晶元件 *)
  ([38043; 26230; 30707], cp "Titanium-Crystal");  (* 钛晶石 *)
  ([30899; 32435; 31859; 31649], cp "Carbon-Nanotube");  (* 碳纳米管 *)
  ([31890; 23376; 23485; 24102], cp "Particle-Broadband");  (* 粒子宽带 *)
  ([40831; 36718], cp "Gear");  (* 齿轮 *)
  ([31561; 31163; 23376; 28608; 21457; 22120], cp "Plasma-Exciter");  (* 等离子激发器 *)
  ([20809; 23376; 21512; 24182; 22120], cp "Photon-Combiner");  (* 光子合并器 *)
  ([30005; 30913; 28065; 36718], cp "Electromagnetic-Turbine");  (* 电磁涡轮 *)
  ([22788; 29702; 22120], cp "Processor");  (* 处理器 *)
  ([21345; 35199; 31859; 23572; 26230; 20307], cp "Casimir-Crystal");  (* 卡西米尔晶体 *)
  ([38043; 21270; 29627; 29827], cp "Titanium-Glass");  (* 钛化玻璃 *)
  ([20301; 38754; 36807; 28388; 22120], cp "Plane-Filter");  (* 位面过滤器 *)
  ([37327; 23376; 33455; 29255], cp "Quantum-Chip");  (* 量子芯片 *)
  ([24341; 25806], cp "Engine");  (* 引擎 *)
  ([25512; 36827; 22120], cp "Thruster");  (* 推进器 *)
  ([21152; 21147; 25512; 36827; 22120], cp "Reinforced-Thruster");  (* 加力推进器 *)
  ([36229; 32423; 30913; 22330; 29615], cp "Super-Magnetic-Ring");  (* 超级磁场环 *)
  ([31890; 23376; 23481; 22120], cp "Particle-Container");  (* 粒子容器 *)
  ([22855; 24322; 29289; 36136], cp "Strange-Matter");  (* 奇异物质 *)
  ([29627; 29827], cp "Glass");  (* 玻璃 *)
  ([30913; 38081], cp "Magnet");  (* 磁铁 *)
  ([30913; 32447; 22280], cp "Magnetic-Coil");  (* 磁线圈 *)
  ([37329; 21018; 30707], cp "Diamond");  (* 金刚石 *)
  ([30707; 22696; 28911], cp "Graphene");  (* 石墨烯 *)
  ([30789; 22522; 31070; 32463; 20803], cp "Silicon-based-Neuron");  (* 硅基神经元 *)
  ([29289; 36136; 37325; 32452; 22120], cp "Matter-Recombinator");  (* 物质重组器 *)
  ([33021; 37327; 30862; 29255], cp "Energy-Shard");  (* 能量碎片 *)
  ([36127; 29109; 22855; 28857], cp "Negentropy-Singularity");  (* 负熵奇点 *)
  (* Proliferators *)
  ([22686; 20135; 21058], cp "Proliferator");  (* 增产剂 *)
  (* Logistics Items *)
  ([29289; 27969; 36816; 36755; 26426], cp "Logistics-Bot");  (* 物流运输机 *)
  ([29289; 27969; 36816; 36755; 33337], cp "Logistics-Vessel");  (* 物流运输船 *)
  ([26143; 38469; 29289; 27969; 36816; 36755; 33337], cp "Logistics-Vessel");  (* 星际物流运输船 *)
  ([31354; 38388; 32728; 26354; 22120], cp "Space-Warper");  (* 空间翘曲器 *)
  ([32728; 26354; 22120], cp "Space-Warper");  (* 翘曲器 *)
  ([24341; 21147; 36879; 38236], cp "Graviton-Lens");  (* 引力透镜 *)
  ([22320; 22522], cp "Foundation");  (* 地基 *)
  (* Dyson Sphere Components *)
  ([22826; 38451; 24070], cp "Solar-Sail");  (* 太阳帆 *)
  ([26694; 26550; 26448; 26009], cp "Frame-Material");  (* 框架材料 *)
  ([25140; 26862; 29699; 32452; 20214], cp "Dyson-Sphere-Component");  (* 戴森球组件 *)
  ([23567; 22411; 36816; 36733; 28779; 31661], cp "Small-Carrier-Rocket");  (* 小型运载火箭 *)
  ([36816; 36733; 28779; 31661], cp "Carrier-Rocket");  (* 运载火箭 *)
  ([25140; 26862; 29699], cp "Dyson-Sphere");  (* 戴森球 *)
  (* Fuel Rods *)
  ([27682; 29123; 26009; 26834], cp "Hydrogen-Fuel-Rod");  (* 氢燃料棒 *)
  ([28082; 27682; 29123; 26009; 26834], cp "Hydrogen-Fuel-Rod");  (* 液氢燃料棒 *)
  ([27672; 26680; 29123; 26009; 26834], cp "Deuteron-Fuel-Rod");  (* 氘核燃料棒 *)
  ([21453; 29289; 36136; 29123; 26009; 26834], cp "Antimatter-Fuel-Rod");  (* 反物质燃料棒 *)
  ([22855; 24322; 28270; 28781; 29123; 26009; 26834], cp "Strange-Annihilation-Fuel-Rod");  (* 奇异湮灭燃料棒 *)
  ([29123; 26009; 26834], cp "Fuel-Rod");  (* 燃料棒 *)
  (* Science Matrices *)
  ([30005; 30913; 30697; 38453], cp "Electromagnetic-Matrix");  (* 电磁矩阵 *)
  ([33021; 37327; 30697; 38453], cp "Energy-Matrix");  (* 能量矩阵 *)
  ([32467; 26500; 30697; 38453], cp "Structure-Matrix");  (* 结构矩阵 *)
  ([20449; 24687; 30697; 38453], cp "Information-Matrix");  (* 信息矩阵 *)
  ([24341; 21147; 30697; 38453], cp "Gravity-Matrix");  (* 引力矩阵 *)
  ([23431; 23449; 30697; 38453], cp "Universe-Matrix");  (* 宇宙矩阵 *)
  ([40657; 38654; 30697; 38453], cp "Dark-Fog-Matrix");  (* 黑雾矩阵 *)
  ([30697; 38453], cp "Matrix");  (* 矩阵 *)
  ([34013; 31958], cp "Electromagnetic-Matrix");  (* 蓝糖 *)
  ([32418; 31958], cp "Energy-Matrix");  (* 红糖 *)
  ([40644; 31958], cp "Structure-Matrix");  (* 黄糖 *)
  ([32043; 31958], cp "Information-Matrix");  (* 紫糖 *)
  ([32511; 31958], cp "Gravity-Matrix");  (* 绿糖 *)
  ([30333; 31958], cp "Universe-Matrix");  (* 白糖 *)
  ([24425; 31958], cp "Science-Matrix");  (* 彩糖 *)
  (* Power Buildings *)
  ([29305; 26031; 25289; 22612], cp "Tesla-Tower");  (* 特斯拉塔 *)
  ([26080; 32447; 36755; 30005; 22612], cp "Wireless-Power-Tower");  (* 无线输电塔 *)
  ([36755; 30005; 22612], cp "Power-Tower");  (* 输电塔 *)
  ([21355; 26143; 37197; 30005; 31449], cp "Satellite-Substation");  (* 卫星配电站 *)
  ([39118; 21147; 28065; 36718; 26426], cp "Wind-Turbine");  (* 风力涡轮机 *)
  ([39118; 30005], cp "Wind-Turbine");  (* 风电 *)
  ([39118; 33021], cp "Wind-Power");  (* 风能 *)
  ([28779; 21147; 21457; 30005; 21378], cp "Thermal-Power-Plant");  (* 火力发电厂 *)
  ([28779; 21147; 21457; 30005], cp "Thermal-Power");  (* 火力发电 *)
  ([28779; 30005], cp "Thermal-Power");  (* 火电 *)
  ([28779; 21147], cp "Thermal-Power");  (* 火力 *)
  ([22826; 38451; 33021; 26495], cp "Solar-Panel");  (* 太阳能板 *)
  ([22826; 38451; 33021], cp "Solar-Power");  (* 太阳能 *)
  ([22320; 28909; 21457; 30005; 31449], cp "Geothermal-Power-Station");  (* 地热发电站 *)
  ([22320; 28909; 21457; 30005], cp "Geothermal-Power");  (* 地热发电 *)
  ([24494; 22411; 32858; 21464; 21457; 30005; 31449], cp "Mini-Fusion-Power-Station");  (* 微型聚变发电站 *)
  ([32858; 21464; 21457; 30005], cp "Fusion-Power");  (* 聚变发电 *)
  ([26680; 30005], cp "Nuclear-Power");  (* 核电 *)
  ([33021; 37327; 26530; 32445], cp "Energy-Exchanger");  (* 能量枢纽 *)
  ([33988; 30005; 22120], cp "Accumulator");  (* 蓄电器 *)
  ([28385; 33988; 30005; 22120], cp "Full-Accumulator");  (* 满蓄电器 *)
  ([23556; 32447; 25509; 25910; 31449], cp "Ray-Receiver");  (* 射线接收站 *)
  ([20154; 36896; 24658; 26143], cp "Artificial-Star");  (* 人造恒星 *)
  ([23567; 22826; 38451], cp "Artificial-Star");  (* 小太阳 *)
  ([21457; 30005], cp "Power-Generation");  (* 发电 *)
  (* Logistics Buildings *)
  ([20256; 36865; 24102], cp "Conveyor-Belt");  (* 传送带 *)
  ([22235; 21521; 20998; 27969; 22120], cp "Splitter");  (* 四向分流器 *)
  ([20998; 27969; 22120], cp "Splitter");  (* 分流器 *)
  ([33258; 21160; 38598; 35013; 26426], cp "Automatic-Piler");  (* 自动集装机 *)
  ([27969; 36895; 30417; 27979; 22120], cp "Traffic-Monitor");  (* 流速监测器 *)
  ([27969; 36895; 35745], cp "Traffic-Monitor");  (* 流速计 *)
  ([20648; 29289; 20179], cp "Storage");  (* 储物仓 *)
  ([31665; 23376], cp "Storage");  (* 箱子 *)
  ([20179; 20648], cp "Storage");  (* 仓储 *)
  ([20648; 28082; 32592], cp "Storage-Tank");  (* 储液罐 *)
  ([29289; 27969; 37197; 36865; 22120], cp "Logistics-Distributor");  (* 物流配送器 *)
  ([34892; 26143; 20869; 29289; 27969; 36816; 36755; 31449], cp "Planetary-Logistics-Station");  (* 行星内物流运输站 *)
  ([26143; 38469; 29289; 27969; 36816; 36755; 31449], cp "Interstellar-Logistics-Station");  (* 星际物流运输站 *)
  ([29289; 27969; 22612], cp "Logistics-Station");  (* 物流塔 *)
  ([29289; 27969; 31449], cp "Logistics-Station");  (* 物流站 *)
  ([36712; 36947; 37319; 38598; 22120], cp "Orbital-Collector");  (* 轨道采集器 *)
  ([20998; 25315; 22120], cp "Sorter");  (* 分拣器 *)
  ([38598; 35013; 20998; 25315; 22120], cp "Pile-Sorter");  (* 集装分拣器 *)
  ([20805; 30005], cp "Charging");  (* 充电 *)
  (* Resource Extraction *)
  ([37319; 30719; 26426], cp "Mining-Machine");  (* 采矿机 *)
  ([22823; 22411; 37319; 30719; 26426], cp "Advanced-Mining-Machine");  (* 大型采矿机 *)
  ([30719; 26426], cp "Mining-Machine");  (* 矿机 *)
  ([37319; 30719], cp "Mining");  (* 采矿 *)
  ([25277; 27700; 31449], cp "Water-Pump");  (* 抽水站 *)
  ([25277; 27700; 26426], cp "Water-Pump");  (* 抽水机 *)
  ([21407; 27833; 33795; 21462; 31449], cp "Oil-Extractor");  (* 原油萃取站 *)
  ([21407; 27833; 31934; 28860; 21378], cp "Oil-Refinery");  (* 原油精炼厂 *)
  ([20998; 39311; 22612], cp "Fractionator");  (* 分馏塔 *)
  ([20998; 39311], cp "Fractionation");  (* 分馏 *)
  (* Production Buildings *)
  ([30005; 24359; 29076; 28809], cp "Arc-Smelter");  (* 电弧熔炉 *)
  ([29076; 28809], cp "Smelter");  (* 熔炉 *)
  ([20301; 38754; 29076; 28809], cp "Plane-Smelter");  (* 位面熔炉 *)
  ([36127; 29109; 29076; 28809], cp "Negentropy-Smelter");  (* 负熵熔炉 *)
  ([21046; 36896; 21488], cp "Assembling-Machine");  (* 制造台 *)
  ([37325; 32452; 24335; 21046; 36896; 21488], cp "Re-composing-Assembler");  (* 重组式制造台 *)
  ([30697; 38453; 30740; 31350; 31449], cp "Matrix-Lab");  (* 矩阵研究站 *)
  ([30740; 31350; 31449], cp "Lab");  (* 研究站 *)
  ([33258; 28436; 21270; 30740; 31350; 31449], cp "Self-evolution-Lab");  (* 自演化研究站 *)
  ([21943; 28034; 26426], cp "Spray-Coater");  (* 喷涂机 *)
  ([21270; 24037; 21378], cp "Chemical-Plant");  (* 化工厂 *)
  ([37327; 23376; 21270; 24037; 21378], cp "Quantum-Chemical-Plant");  (* 量子化工厂 *)
  ([24494; 22411; 31890; 23376; 23545; 25758; 26426], cp "Miniature-Particle-Collider");  (* 微型粒子对撞机 *)
  ([31890; 23376; 23545; 25758; 26426], cp "Particle-Collider");  (* 粒子对撞机 *)
  (* Military Buildings *)
  ([30005; 30913; 36712; 36947; 24377; 23556; 22120], cp "EM-Rail-Ejector");  (* 电磁轨道弹射器 *)
  ([24377; 23556; 22120], cp "EM-Rail-Ejector");  (* 弹射器 *)
  ([22402; 30452; 21457; 23556; 20117], cp "Vertical-Launching-Silo");  (* 垂直发射井 *)
  ([21457; 23556; 20117], cp "Launching-Silo");  (* 发射井 *)
  ([39640; 26031; 26426; 26538; 22612], cp "Gauss-Turret");  (* 高斯机枪塔 *)
  ([23548; 24377; 38450; 24481; 22612], cp "Missile-Turret");  (* 导弹防御塔 *)
  ([32858; 29190; 21152; 20892; 28846], cp "Implosion-Cannon");  (* 聚爆加农炮 *)
  ([28608; 20809; 22612], cp "Laser-Turret");  (* 激光塔 *)
  ([31561; 31163; 23376; 28846; 22612], cp "Plasma-Turret");  (* 等离子炮塔 *)
  ([25112; 22330; 20998; 26512; 22522; 31449], cp "Battlefield-Analysis-Base");  (* 战场分析基站 *)
  ([24178; 25200; 22612], cp "Jammer-Tower");  (* 干扰塔 *)
  ([20449; 21495; 22612], cp "Signal-Tower");  (* 信号塔 *)
  ([34892; 26143; 25252; 30462; 21457; 29983; 22120], cp "Planetary-Shield-Generator");  (* 行星护盾发生器 *)
  ([40657; 38654], cp "Dark-Fog");  (* 黑雾 *)
  (* Game Terms *)
  ([34013; 22270], cp "Blueprint");  (* 蓝图 *)
  ([34013; 22270; 21253], cp "Blueprint-Book");  (* 蓝图包 *)
  ([26032; 34013; 22270], cp "New-Blueprint");  (* 新蓝图 *)
  ([24320; 33618], cp "Early-Game");  (* 开荒 *)
  ([21069; 26399], cp "Early-Game");  (* 前期 *)
  ([20013; 26399], cp "Mid-Game");  (* 中期 *)
  ([21518; 26399], cp "Late-Game");  (* 后期 *)
  ([22823; 21518; 26399], cp "End-Game");  (* 大后期 *)
  ([20840; 27969; 31243], cp "Full-Playthrough");  (* 全流程 *)
  ([20840; 29699], cp "Global");  (* 全球 *)
  ([36196; 36947], cp "Equator");  (* 赤道 *)
  ([26497; 22320], cp "Polar");  (* 极地 *)
  ([22534; 21472], cp "Stacked");  (* 堆叠 *)
  ([26080; 24102], cp "Belt-Free");  (* 无带 *)
  ([26377; 24102], cp "With-Belt");  (* 有带 *)
  ([40657; 30418], cp "Black-Box");  (* 黑盒 *)
  ([36229; 24066], cp "Mall");  (* 超市 *)
  ([24314; 31569; 36229; 24066], cp "Building-Mall");  (* 建筑超市 *)
  ([21407; 30719], cp "Raw-Ore");  (* 原矿 *)
  ([27169; 32452], cp "Mod");  (* 模组 *)
  ([27169; 22359], cp "Module");  (* 模块 *)
  ([33402; 26415], cp "Art");  (* 艺术 *)
  ([38899; 20048], cp "Music");  (* 音乐 *)
  ([36807; 26399], cp "Expired");  (* 过期 *)
  ([20185; 26415], cp "Exploit");  (* 仙术 *)
  ([22403; 22334; 26742], cp "Garbage-Disposal");  (* 垃圾桶 *)
  ([20854; 23427], cp "Other");  (* 其它 *)
  ([20854; 20182], cp "Other");  (* 其他 *)
  ([35828; 26126], cp "Instructions");  (* 说明 *)
  ([31616; 20171], cp "Introduction");  (* 简介 *)
  ([27880; 37322], cp "Notes");  (* 注释 *)
  ([20351; 29992], cp "Usage");  (* 使用 *)
  ([20135; 37327], cp "Output");  (* 产量 *)
  ([23618], cp "Layer");  (* 层 *)
  ([29256; 26412], cp "Version");  (* 版本 *)
  ([33410; 28857], cp "Node");  (* 节点 *)
  ([26368; 23494], cp "Densest");  (* 最密 *)
  ([26497; 23494], cp "Ultra-Dense");  (* 极密 *)
  ([23494; 38138], cp "Dense-Tile");  (* 密铺 *)
  ([21487; 25193; 23637], cp "Expandable");  (* 可扩展 *)
  ([20302; 32428; 24230], cp "Low-Latitude");  (* 低纬度 *)
  ([39640; 32428; 24230], cp "High-Latitude");  (* 高纬度 *)
  ([20998; 24067; 24335], cp "Distributed");  (* 分布式 *)
  ([37197; 22871], cp "Supporting");  (* 配套 *)
  ([35774; 26045], cp "Facilities");  (* 设施 *)
  ([24314; 36896], cp "Construction");  (* 建造 *)
  ([29983; 20135], cp "Production");  (* 生产 *)
  ([21046; 36896], cp "Manufacturing");  (* 制造 *)
  ([21457; 23556], cp "Launch");  (* 发射 *)
  ([36879; 38236], cp "Lens");  (* 透镜 *)
  ([38149; 30422], cp "Ray-Receiver")  (* 锅盖 *)
].

Local Close Scope Z_scope.

(** ** Dictionary matching: the first pass of [translate_with_dictionary] *)

(** A matched range [(start, end, replacement)]. *)
Definition span := (nat * nat * str)%type.
Definition span_start (m : span) : nat := fst (fst m).
Definition span_end (m : span) : nat := snd (fst m).
Definition span_text (m : span) : str := snd m.

(** [any(not (end <= m_start or idx >= m_end) for m_start, m_end, _ in matched_ranges)] *)
Definition overlaps (idx end_ : nat) (matched : list span) : bool :=
  existsb (fun m => negb ((end_ <=? span_start m) || (span_end m <=? idx))) matched.

(** The [while True] loop for one term. [fuel] bounds the iterations of the
    model; [None] is an abnormal end (the bound was reached, or the
    dictionary has no such key). [scan_term_returns] shows that
    [length result + 2] iterations always suffice. *)
Fixpoint scan_term (fuel : nat) (d : dict) (result term : str) (start : nat)
         (matched : list span) : option (list span) :=
  match fuel with
  | O => None
  | S fuel' =>
    match find result term start with
    | None => Some matched
    | Some idx =>
      let end_ := idx + length term in
      if overlaps idx end_ matched then
        scan_term fuel' d result term (idx + 1) matched
      else
        match dict_get d term with
        | None => None
        | Some replacement =>
          scan_term fuel' d result term (idx + 1) (matched ++ [(idx, end_, replacement)])
        end
    end
  end.

(** The [for term in sorted_terms] loop. *)
Fixpoint first_pass (fuel : nat) (d : dict) (result : str) (terms : list str)
         (matched : list span) : option (list span) :=
  match terms with
  | [] => Some matched
  | term :: rest =>
    match scan_term fuel d result term 0 matched with
    | None => None
    | Some matched' => first_pass fuel d result rest matched'
    end
  end.

(** [sorted(DSP_DICTIONARY.keys(), key=len, reverse=True)]: longest first,
    equal lengths in insertion order. *)
Definition sorted_terms (d : dict) : list str :=
  sort_by (fun a b => length b <=? length a) (keys d).

(** [matched_ranges] after [matched_ranges.sort(key=lambda x: x[0])]. *)
Definition matched_ranges_in (d : dict) (result : str) : option (list span) :=
  option_map (sort_by (fun a b => span_start a <=? span_start b))
             (first_pass (length result + 2) d result (sorted_terms d) []).

Definition matched_ranges (result : str) : option (list span) :=
  matched_ranges_in DSP_DICTIONARY result.

(** ** Paths ([pathlib], POSIX flavour) *)

(** An absolute path is the list of its components below the root. The
    components of a path are never empty and never [.]; [..] is kept, as
    [pathlib] keeps it. *)
Definition path := list str.

Fixpoint path_eqb (p q : path) : bool :=
  match p, q with
  | [], [] => true
  | a :: p', b :: q' => str_eqb a b && path_eqb p' q'
  | _, _ => false
  end.

Definition is_empty_list {A : Type} (l : list A) : bool :=
  match l with [] => true | _ :: _ => false end.

Definition is_empty (s : str) : bool := is_empty_list s.

(** [s.split(sep)], with the piece read so far in [cur]. *)
Fixpoint split_on (sep : char) (s : str) (cur : str) : list str :=
  match s with
  | [] => [cur]
  | c :: s' =>
    if (c =? sep)%Z then cur :: split_on sep s' [] else split_on sep s' (cur ++ [c])
  end.

(** The components [pathlib] keeps of a string: empty pieces and [.] are
    dropped. *)
Definition parts_of (s : str) : list str :=
  filter (fun c => negb (is_empty c || str_eqb c [period])) (split_on slash s []).

(** [p / s]: an absolute [s] replaces [p]. *)
Definition path_join (p : path) (s : str) : path :=
  match s with
  | c :: _ => if (c =? slash)%Z then parts_of s else p ++ parts_of s
  | [] => p
  end.

Definition path_name (p : path) : str := last p [].
Definition path_parent (p : path) : path := removelast p.

(** [s.rfind(c)] *)
Fixpoint rfind (c : char) (s : str) : option nat :=
  match s with
  | [] => None
  | x :: s' =>
    match rfind c s' with
    | Some i => Some (S i)
    | None => if (x =? c)%Z then Some 0 else None
    end
  end.

(** [PurePath.suffix] and [PurePath.stem] of a final component: the
    extension starts at the last period, unless that period is the first or
    the last character ([0 < i < len(name) - 1]). *)
Definition name_suffix (name : str) : str :=
  match rfind period name with
  | Some i => if (0 <? i) && (i <? length name - 1) then skipn i name else []
  | None => []
  end.

Definition name_stem (name : str) : str :=
  match rfind period name with
  | Some i => if (0 <? i) && (i <? length name - 1) then firstn i name else name
  | None => name
  end.

Definition path_suffix (p : path) : str := name_suffix (path_name p).
Definition path_stem (p : path) : str := name_stem (path_name p).

(** [Path(name)] for a string: only its final component has a suffix. *)
Definition str_suffix (name : str) : str := name_suffix (last (parts_of name) []).
Definition str_stem (name : str) : str := name_stem (last (parts_of name) []).

(** [str(n)] for a counter. *)
Fixpoint digits (u : Decimal.uint) : str :=
  match u with
  | Decimal.Nil => []
  | Decimal.D0 u' => 48%Z :: digits u'
  | Decimal.D1 u' => 49%Z :: digits u'
  | Decimal.D2 u' => 50%Z :: digits u'
  | Decimal.D3 u' => 51%Z :: digits u'
  | Decimal.D4 u' => 52%Z :: digits u'
  | Decimal.D5 u' => 53%Z :: digits u'
  | Decimal.D6 u' => 54%Z :: digits u'
  | Decimal.D7 u' => 55%Z :: digits u'
  | Decimal.D8 u' => 56%Z :: digits u'
  | Decimal.D9 u' => 57%Z :: digits u'
  end.

Definition str_of_nat (n : nat) : str := digits (Nat.to_uint n).

(** ** The file system *)

(** A directory lists its entries in the order the operating system
    reports them. A symbolic link holds the text it was made with: a path
    from the root when it starts with a slash, else a path from the
    directory of the link. *)
#[warnings="-register-all"]
Inductive node : Type :=
| File
| Dir (entries : list (str * node))
| Link (target : str).

Fixpoint lookup_entry (name : str) (es : list (str * node)) : option node :=
  match es with
  | [] => None
  | (n, x) :: es' => if str_eqb n name then Some x else lookup_entry name es'
  end.

Fixpoint remove_entry (name : str) (es : list (str * node)) : list (str * node) :=
  match es with
  | [] => []
  | (n, x) :: es' => if str_eqb n name then es' else (n, x) :: remove_entry name es'
  end.

Fixpoint replace_entry (name : str) (y : node) (es : list (str * node)) : list (str * node) :=
  match es with
  | [] => []
  | (n, x) :: es' =>
    if str_eqb n name then (n, y) :: es' else (n, x) :: replace_entry name y es'
  end.

Definition dotdot : str := [period; period].

(** The entry at a path, reached through directories only: no link is
    followed and [..] is no entry ([os.lstat] on a path whose folders are
    the directories themselves). *)
Fixpoint lookup_path (n : node) (p : path) : option node :=
  match p with
  | [] => Some n
  | c :: p' =>
    match n with
    | Dir es =>
      match lookup_entry c es with
      | Some child => lookup_path child p'
      | None => None
      end
    | _ => None
    end
  end.

Definition is_absolute (s : str) : bool :=
  match s with
  | c :: _ => (c =? slash)%Z
  | [] => false
  end.

(** The number of symbolic links the system follows in one resolution
    before it gives up with [ELOOP] (Linux). *)
Definition max_links : nat := 40.

(** Path resolution as the system does it for [stat]: from the directory
    at [cwd], itself reached through directories only, along [p]. A
    symbolic link is followed, the last component included, as long as
    [links] more may be followed; [..] is the directory above, and stays
    at the root when there is none. The result is the place arrived at and
    the number of links that may still be followed. *)
Fixpoint realpath (links : nat) (fs : node) : path -> path -> option (nat * path) :=
  fix go (cwd p : path) {struct p} : option (nat * path) :=
    match p with
    | [] => Some (links, cwd)
    | c :: p' =>
      match lookup_path fs cwd with
      | Some (Dir es) =>
        if str_eqb c dotdot then go (removelast cwd) p'
        else
          match lookup_entry c es with
          | Some (Link target) =>
            match links with
            | O => None
            | S links' =>
              realpath links' fs (if is_absolute target then [] else cwd)
                       (parts_of target ++ p')
            end
          | Some _ => go (cwd ++ [c]) p'
          | None => None
          end
      | _ => None
      end
    end.

(** What [os.stat] finds at a path, if anything. *)
Definition fs_stat (fs : node) (p : path) : option node :=
  match realpath max_links fs [] p with
  | Some (_, q) => lookup_path fs q
  | None => None
  end.

(** The answer of [Path.exists()] when [stat] ends with success or with
    one of the errors [exists()] takes for a no (a missing entry, a file
    in the way, too many links). *)
Definition fs_exists (fs : node) (p : path) : bool :=
  match fs_stat fs p with Some _ => true | None => false end.

(** The answer of [Path.is_dir()], likewise. *)
Definition fs_is_dir (fs : node) (p : path) : bool :=
  match fs_stat fs p with Some (Dir _) => true | _ => false end.

(** A component that names an entry: not empty, not [.] or [..], no
    slash. *)
Definition plain_name (c : str) : bool :=
  negb (is_empty c) && negb (str_eqb c [period]) && negb (str_eqb c dotdot)
  && negb (existsb (Z.eqb slash) c).

Definition plain_path (p : path) : bool := forallb plain_name p.

(** Detach the entry at [p]: the entry and the tree without it. *)
Fixpoint fs_take (fs : node) (p : path) : option (node * node) :=
  match p, fs with
  | [], _ => None
  | [c], Dir es =>
    match lookup_entry c es with
    | Some x => Some (x, Dir (remove_entry c es))
    | None => None
    end
  | c :: p', Dir es =>
    match lookup_entry c es with
    | Some child =>
      match fs_take child p' with
      | Some (x, child') => Some (x, Dir (replace_entry c child' es))
      | None => None
      end
    | None => None
    end
  | _, _ => None
  end.

(** Attach [x] at the free place [p] of an existing directory. *)
Fixpoint fs_put (fs : node) (p : path) (x : node) : option node :=
  match p, fs with
  | [], _ => None
  | [c], Dir es =>
    match lookup_entry c es with
    | Some _ => None
    | None => Some (Dir (es ++ [(c, x)]))
    end
  | c :: p', Dir es =>
    match lookup_entry c es with
    | Some child =>
      match fs_put child p' x with
      | Some child' => Some (Dir (replace_entry c child' es))
      | None => None
      end
    | None => None
    end
  | _, _ => None
  end.

(** What [os.rename] does when there is an entry [y] at the target
    already (POSIX): a directory replaces an empty directory, and a file
    or a link replaces a file or a link; everything else is an error. *)
Definition replaces (x y : node) : bool :=
  match x, y with
  | Dir _, Dir [] => true
  | Dir _, _ => false
  | _, Dir _ => false
  | _, _ => true
  end.

(** The entry at [old] moves to [new], where it takes the place of an
    entry it may replace; both paths lead through directories. *)
Definition move_entry (fs : node) (old new : path) : option node :=
  match fs_take fs old with
  | Some (x, fs1) =>
    match fs_take fs1 new with
    | Some (y, fs2) => if replaces x y then fs_put fs2 new x else None
    | None => fs_put fs1 new x
    end
  | None => None
  end.

(** The effect of a successful [os.rename(old, new)] on the tree (POSIX).
    The folders of both paths are resolved, links followed; the entry at
    [old], a link itself and not what it points to, moves with everything
    below it to [new]. [None] is an [OSError]: a missing source, a missing
    target folder or one inside the source, an entry at the target that
    cannot be replaced, a last component that names no entry. *)
Definition fs_rename (fs : node) (old new : path) : option node :=
  if negb (is_empty_list old) && negb (is_empty_list new)
     && plain_name (path_name old) && plain_name (path_name new) then
    match realpath max_links fs [] (path_parent old),
          realpath max_links fs [] (path_parent new) with
    | Some (_, old_dir), Some (_, new_dir) =>
      move_entry fs (old_dir ++ [path_name old]) (new_dir ++ [path_name new])
    | _, _ => None
    end
  else None.

Fixpoint node_count (n : node) : nat :=
  match n with
  | Dir es => S (list_sum (map (fun e => node_count (snd e)) es))
  | _ => 1
  end.

(** [os.walk(top, topdown=False)] below a directory [n] at path [top]: the
    triples [(dirpath, dirnames, filenames)] of every subdirectory, in
    listing order, before the triple of the directory itself. A link is
    listed with the directories when it leads to a directory and with the
    files when it does not; the walk does not go through it. Every
    directory that is there can be listed ([os.walk] passes over one that
    cannot, without an error). *)
Definition is_dir_entry (fs : node) (top : path) (e : str * node) : bool :=
  match snd e with
  | Dir _ => true
  | File => false
  | Link _ => fs_is_dir fs (top ++ [fst e])
  end.

Definition dirnames_of (fs : node) (top : path) (es : list (str * node)) : list str :=
  map fst (filter (is_dir_entry fs top) es).

Definition filenames_of (fs : node) (top : path) (es : list (str * node)) : list str :=
  map fst (filter (fun e => negb (is_dir_entry fs top e)) es).

Fixpoint walk_node (fs : node) (top : path) (n : node) : list (path * list str * list str) :=
  match n with
  | Dir es =>
    flat_map (fun e => walk_node fs (top ++ [fst e]) (snd e)) es
    ++ [(top, dirnames_of fs top es, filenames_of fs top es)]
  | _ => []
  end.

Definition os_walk (fs : node) (top : path) : list (path * list str * list str) :=
  match fs_stat fs top with
  | Some n => walk_node fs top n
  | None => []
  end.

(** ** Effects *)

(** The exceptions of a run. [OSError old new] is the [OSError] of
    [os.rename(old, new)], [StatError p] the [OSError] that [Path.exists()]
    or [Path.is_dir()] passes on from [stat] on [p]. *)
Inductive exn : Type :=
| TranslationError (run : str)
| OSError (old new : path)
| StatError (p : path)
| SystemExit (code : Z).

(** What is printed. The two rename lines show [old_path.name] and
    [new_name]; the event keeps the whole [old_path]. *)
Inductive event : Type :=
| PrintDryRun (old_path : path) (new_name : str)
| PrintRenamed (old_path : path) (new_name : str)
| PrintNoneFound
| PrintFound (count : nat)
| PrintSummary (dry_run : bool) (count : nat)
| PrintNotDirectory (root_dir : path)
| PrintBanner (root_dir : path) (dry_run : bool) (terms : nat).

(** The state a run threads: the tree, the texts sent to the translator,
    the [os.rename] calls that succeeded, and the output, all in order. *)
Record world : Type := World {
  w_fs : node;
  w_calls : list str;
  w_renames : list (path * path);
  w_out : list event
}.

(** A world in which nothing has happened yet. *)
Definition empty_world (fs : node) : world := World fs [] [] [].

Inductive outcome (A : Type) : Type :=
| Ok (a : A)
| Raise (e : exn)
| OutOfFuel.
Arguments Ok {A} a.
Arguments Raise {A} e.
Arguments OutOfFuel {A}.

(** [OutOfFuel] is not a Python outcome: it marks that a loop bound of the
    model was reached. The bounds are shown to suffice where runs are
    claimed to end. *)
Definition M (A : Type) : Type := world -> outcome A * world.

Definition ret {A : Type} (a : A) : M A := fun w => (Ok a, w).

Definition bind {A B : Type} (m : M A) (k : A -> M B) : M B :=
  fun w =>
    match m w with
    | (Ok a, w') => k a w'
    | (Raise e, w') => (Raise e, w')
    | (OutOfFuel, w') => (OutOfFuel, w')
    end.

Notation "x <- m ;; k" := (bind m (fun x => k))
  (at level 61, m at next level, right associativity).
Notation "m ;;; k" := (bind m (fun _ => k))
  (at level 61, right associativity).

Definition raise {A : Type} (e : exn) : M A := fun w => (Raise e, w).
Definition out_of_fuel {A : Type} : M A := fun w => (OutOfFuel, w).
Definition get_fs : M node := fun w => (Ok (w_fs w), w).

Definition print (e : event) : M unit :=
  fun w => (Ok tt, World (w_fs w) (w_calls w) (w_renames w) (w_out w ++ [e])).

(** A [for] loop with an accumulator. *)
Fixpoint foldM {A B : Type} (f : B -> A -> M B) (l : list A) (acc : B) : M B :=
  match l with
  | [] => ret acc
  | x :: l' => acc' <- f acc x ;; foldM f l' acc'
  end.

(** What the program takes from outside: the Argos translator ([None]: the
    call raises), the Unicode classes behind [\s] / [str.strip()] and [\w],
    whether the operating system lets a rename through, and whether [stat]
    on a path ends in a way [Path.exists()] has an answer for ([false]: it
    fails otherwise, as for a name that is too long or a folder that may
    not be searched, and [exists()] raises). *)
Class Env : Type := {
  argos_translate : str -> option str;
  is_space : char -> bool;
  is_word : char -> bool;
  os_permits : path -> path -> bool;
  stat_permits : path -> bool
}.

(** ** Name translation *)

Section Translation.
Context {E : Env}.

(** [translator.translate(chinese)]: the text is recorded, and the call
    returns or raises. *)
Definition translator_translate (chinese : str) : M str :=
  fun w =>
    let w' := World (w_fs w) (w_calls w ++ [chinese]) (w_renames w) (w_out w) in
    match argos_translate chinese with
    | Some translated => (Ok translated, w')
    | None => (Raise (TranslationError chinese), w')
    end.

(** [re.finditer(r'[\u4e00-\u9fff]+', text)] from offset [pos] on, with the
    run read so far in [run]: the maximal runs as
    [(m.group(), m.start(), m.end())]. *)
Fixpoint segments_from (s : str) (pos : nat) (run : str) : list (str * nat * nat) :=
  match s with
  | [] => if is_empty run then [] else [(run, pos - length run, pos)]
  | c :: s' =>
    if is_chinese c then segments_from s' (S pos) (run ++ [c])
    else (if is_empty run then [] else [(run, pos - length run, pos)])
           ++ segments_from s' (S pos) []
  end.

Definition extract_chinese_segments (text : str) : list (str * nat * nat) :=
  segments_from text 0 [].

(** The three clean-up steps on a translated run: [strip()],
    [re.sub(r'\s+', '-', _)], [re.sub(r'[^\w\-.]', '', _)]. *)
Definition allowed_char (c : char) : bool :=
  is_word c || (c =? hyphen)%Z || (c =? period)%Z.

Definition clean_translation (translated : str) : str :=
  let translated := strip is_space translated in
  let translated := re_sub_runs is_space [hyphen] translated in
  filter allowed_char translated.

(** The body of the loop of [translate_remaining_chinese]: one run is
    translated and put in place of [result[start:end]]. *)
Definition replace_segment (result : str) (seg : str * nat * nat) : M str :=
  let '(chinese, start, end_) := seg in
  translated <- translator_translate chinese ;;
  let translated := clean_translation translated in
  ret (firstn start result ++ translated ++ skipn end_ result).

(** [translate_remaining_chinese(text, translator)]: the segments are
    taken last to first. *)
Definition translate_remaining_chinese (text : str) : M str :=
  let segments := extract_chinese_segments text in
  if is_empty_list segments then ret text
  else foldM replace_segment (rev segments) text.

(** The text between two matches, or after the last one: when not empty
    it is appended to [parts], its Chinese runs translated. The source
    writes these lines twice, for [before] and for [after]. *)
Definition append_gap (parts : list str) (gap : str) : M (list str) :=
  if is_empty gap then ret parts
  else
    gap <- (if contains_chinese gap then translate_remaining_chinese gap
            else ret gap) ;;
    ret (parts ++ [gap]).

(** The body of the loop over the sorted matches. *)
Definition append_match (result : str) (st : list str * nat) (m : span)
  : M (list str * nat) :=
  let '(parts, last_end) := st in
  let '(start, end_, replacement) := m in
  let before := slice result last_end start in
  parts <- append_gap parts before ;;
  ret (parts ++ [replacement], end_).

(** [translate_with_dictionary(chinese_text, translator)]. The first pass
    and the sort are [matched_ranges]; its abnormal end, which
    [matched_ranges_total] excludes, shows as [OutOfFuel]. *)
Definition translate_with_dictionary (chinese_text : str) : M str :=
  let result := chinese_text in
  match matched_ranges result with
  | None => out_of_fuel
  | Some matched =>
    if is_empty_list matched then translate_remaining_chinese result
    else
      st <- foldM (append_match result) matched ([], 0) ;;
      let '(parts, last_end) := st in
      let after := skipn last_end result in
      parts <- append_gap parts after ;;
      ret (concat parts)
  end.

Definition is_hyphen (c : char) : bool := (c =? hyphen)%Z.

(** The clean-up of the translated stem: [re.sub(r'-+', '-', _)], then
    [strip('-')]. *)
Definition normalize_stem (translated_stem : str) : str :=
  strip is_hyphen (re_sub_runs is_hyphen [hyphen] translated_stem).

(** [translate_name(name, translator)] *)
Definition translate_name (name : str) : M str :=
  if negb (contains_chinese name) then ret name
  else
    let stem := if is_empty (str_suffix name) then name else str_stem name in
    let suffix := str_suffix name in
    translated_stem <- translate_with_dictionary stem ;;
    let translated_stem := normalize_stem translated_stem in
    ret (translated_stem ++ suffix).

End Translation.

(** ** Renaming *)

Section Renaming.
Context {E : Env}.

(** [os.rename(old, new)] *)
Definition os_rename (old new : path) : M unit :=
  fun w =>
    if os_permits old new then
      match fs_rename (w_fs w) old new with
      | Some fs' =>
        (Ok tt, World fs' (w_calls w) (w_renames w ++ [(old, new)]) (w_out w))
      | None => (Raise (OSError old new), w)
      end
    else (Raise (OSError old new), w).

(** [p.exists()] *)
Definition path_exists (p : path) : M bool :=
  fun w =>
    if stat_permits p then (Ok (fs_exists (w_fs w) p), w)
    else (Raise (StatError p), w).

(** [p.is_dir()] *)
Definition path_is_dir (p : path) : M bool :=
  fun w =>
    if stat_permits p then (Ok (fs_is_dir (w_fs w) p), w)
    else (Raise (StatError p), w).

(** [f"{stem}_{counter}{suffix}"] *)
Definition numbered (stem : str) (counter : nat) (suffix : str) : str :=
  stem ++ [underscore] ++ str_of_nat counter ++ suffix.

(** The [while new_path.exists()] loop; it returns the name and the path
    it stops at. *)
Fixpoint free_name (fuel : nat) (parent : path) (stem suffix : str)
         (new_name : str) (new_path : path) (counter : nat) : M (str * path) :=
  match fuel with
  | O => out_of_fuel
  | S fuel' =>
    taken <- path_exists new_path ;;
    if taken then
      let new_name := numbered stem counter suffix in
      let new_path := path_join parent new_name in
      free_name fuel' parent stem suffix new_name new_path (counter + 1)
    else ret (new_name, new_path)
  end.

(** [rename_item(old_path, new_name, dry_run)]; the result is [None] when
    there is nothing to rename, else the path renamed to. The loop bound of
    the model is the size of the tree. *)
Definition rename_item (old_path : path) (new_name : str) (dry_run : bool)
  : M (option path) :=
  let new_path := path_join (path_parent old_path) new_name in
  if path_eqb old_path new_path then ret None
  else
    taken <- path_exists new_path ;;
    found <- (if taken then
                let counter := 1 in
                let stem := if is_empty (path_suffix new_path) then new_name
                            else path_stem new_path in
                let suffix := path_suffix new_path in
                fs <- get_fs ;;
                free_name (S (node_count fs)) (path_parent old_path) stem suffix
                          new_name new_path counter
              else ret (new_name, new_path)) ;;
    let '(new_name, new_path) := found in
    (if dry_run then print (PrintDryRun old_path new_name)
     else os_rename old_path new_path ;;;
          print (PrintRenamed old_path new_name)) ;;;
    ret (Some new_path).

Inductive item_type : Type := ItemFile | ItemDir.

Definition git_name : str := cp ".git".
Definition venv_name : str := cp ".venv".

Definition in_parts (name : str) (p : path) : bool := existsb (str_eqb name) p.

(** The body of the collecting loop: the candidates of one directory,
    files first. *)
Definition collect_triple (triple : path * list str * list str)
  : list (item_type * path) :=
  let '(dirpath, dirnames, filenames) := triple in
  if in_parts git_name dirpath || in_parts venv_name dirpath then []
  else
    map (fun filename => (ItemFile, path_join dirpath filename))
        (filter contains_chinese filenames)
    ++
    map (fun dirname => (ItemDir, path_join dirpath dirname))
        (filter (fun dirname =>
                   negb (str_eqb dirname git_name || str_eqb dirname venv_name)
                   && contains_chinese dirname)
                dirnames).

(** The collecting loop over [os.walk(root_dir, topdown=False)]. *)
Definition collect_items (fs : node) (root_dir : path) : list (item_type * path) :=
  flat_map collect_triple (os_walk fs root_dir).

(** One turn of the processing loop. *)
Definition process_item (dry_run : bool) (renamed_count : nat)
           (item : item_type * path) : M nat :=
  let '(_, item_path) := item in
  present <- path_exists item_path ;;
  if negb present then ret renamed_count
  else
    let old_name := path_name item_path in
    new_name <- translate_name old_name ;;
    if negb (str_eqb old_name new_name) then
      rename_item item_path new_name dry_run ;;;
      ret (renamed_count + 1)
    else ret renamed_count.

(** [translate_directory(root_dir, translator, dry_run)], with [root_dir]
    already resolved. *)
Definition translate_directory (root_dir : path) (dry_run : bool) : M unit :=
  fs <- get_fs ;;
  let items_to_process := collect_items fs root_dir in
  if is_empty_list items_to_process then print PrintNoneFound
  else
    print (PrintFound (length items_to_process)) ;;;
    renamed_count <- foldM (process_item dry_run) items_to_process 0 ;;
    print (PrintSummary dry_run renamed_count).

(** [main()] after argument parsing: [root_dir] is
    [Path(args.directory).resolve()]. The three lines about the directory,
    the mode and the number of terms are one event; the translator of the
    environment stands for what [setup_translation()] returns. *)
Definition main (root_dir : path) (dry_run : bool) : M unit :=
  is_dir <- path_is_dir root_dir ;;
  if negb is_dir then
    print (PrintNotDirectory root_dir) ;;;
    raise (SystemExit 1)
  else
    print (PrintBanner root_dir dry_run (length DSP_DICTIONARY)) ;;;
    translate_directory root_dir dry_run.

End Renaming.

(** ** Setting up the translator ([setup_translation]) *)

(** A language package of Argos Translate, as far as the program looks at
    it: the two language codes; [pkg_id] tells packages apart. *)
Record package : Type := Package {
  from_code : str;
  to_code : str;
  pkg_id : nat
}.

(** What [setup_translation] does to the outside, in order: its calls to
    the library that have an effect, and its prints. *)
Inductive setup_event : Type :=
| UpdatePackageIndex
| PrintNoPackage (from_code to_code : str)
| PrintDownloading
| InstallFromPath (downloaded : package)
| PrintInstalled
| GetTranslation (from_code to_code : str).

Definition zh : str := cp "zh".
Definition en : str := cp "en".

(** [pkg.from_code == from_code and pkg.to_code == to_code] *)
Definition translates (from_code_ to_code_ : str) (pkg : package) : bool :=
  str_eqb (from_code pkg) from_code_ && str_eqb (to_code pkg) to_code_.

(** [setup_translation()], given what [get_available_packages()] and
    [get_installed_packages()] return; the calls to the library are taken
    to return. The result is the outcome (the translator the last call
    returns is not looked at) and the events. [next(..., None)] is
    [find]: the first package of the index that fits. *)
Definition setup_translation (available_packages installed_packages : list package)
  : outcome unit * list setup_event :=
  let from_code := zh in
  let to_code := en in
  match List.find (translates from_code to_code) available_packages with
  | None =>
    (Raise (SystemExit 1), [UpdatePackageIndex; PrintNoPackage from_code to_code])
  | Some package_to_install =>
    let is_installed := existsb (translates from_code to_code) installed_packages in
    (Ok tt,
     [UpdatePackageIndex]
       ++ (if negb is_installed
           then [PrintDownloading; InstallFromPath package_to_install; PrintInstalled]
           else [])
       ++ [GetTranslation from_code to_code])
  end.

(** * The blueprint tool ([modify_blueprint.py]) *)

Module ModifyBlueprint.

(** ** Values read by [json.load] *)

(** A float is kept only as far as the program can tell floats apart:
    whether it is zero. The members of an object are the items of the
    Python dict, in order, with pairwise different keys. *)
#[warnings="-register-all"]
Inductive json : Type :=
| JNull
| JBool (b : bool)
| JInt (n : Z)
| JFloat (is_zero : bool)
| JString (s : str)
| JArray (items : list json)
| JObject (members : list (str * json)).

Inductive error : Type :=
| TypeError
| LibraryError (code : nat).

Inductive result (A : Type) : Type :=
| Done (a : A)
| Failed (e : error).
Arguments Done {A} a.
Arguments Failed {A} e.

(** [bool(v)] *)
Definition truthy (v : json) : bool :=
  match v with
  | JNull => false
  | JBool b => b
  | JInt n => negb (n =? 0)%Z
  | JFloat is_zero => negb is_zero
  | JString s => negb (is_empty s)
  | JArray items => negb (is_empty_list items)
  | JObject members => negb (is_empty_list members)
  end.

(** [v == key] for a string [key]: only a string is equal to a string. *)
Definition equals_string (key : str) (v : json) : bool :=
  match v with
  | JString s => str_eqb s key
  | _ => false
  end.

(** [key in v] for a string [key]: a key of a dict, an element of a list,
    a piece of a string; a [TypeError] for what is not iterable. *)
Definition contains (key : str) (v : json) : result bool :=
  match v with
  | JObject members => Done (existsb (fun m => str_eqb (fst m) key) members)
  | JArray items => Done (existsb (equals_string key) items)
  | JString s => Done (match find s key 0 with Some _ => true | None => false end)
  | _ => Failed TypeError
  end.

Fixpoint member (key : str) (members : list (str * json)) : option json :=
  match members with
  | [] => None
  | (k, v) :: members' => if str_eqb k key then Some v else member key members'
  end.

(** [v[key]] for a string [key], asked for only after [key in v] held: a
    list and a string take no string as index. *)
Definition getitem (v : json) (key : str) : result json :=
  match v with
  | JObject members =>
    match member key members with
    | Some x => Done x
    | None => Failed (LibraryError 0)
    end
  | _ => Failed TypeError
  end.

(** [for x in v: pass]: a [TypeError] for what is not iterable. *)
Definition iterate (v : json) : result unit :=
  match v with
  | JObject _ | JArray _ | JString _ => Done tt
  | _ => Failed TypeError
  end.

Definition buildings_key : str := cp "buildings".
Definition logistics_stations_key : str := cp "logistics_stations".

(** One of the two blocks of [modify_blueprint_data]:
    [if key in modifications: for mod in modifications[key]: pass]. *)
Definition visit_section (key : str) (modifications : json) : result unit :=
  match contains key modifications with
  | Failed e => Failed e
  | Done false => Done tt
  | Done true =>
    match getitem modifications key with
    | Failed e => Failed e
    | Done section => iterate section
    end
  end.

(** [modify_blueprint_data(bp_data, modifications)] *)
Definition modify_blueprint_data {D : Type} (bp_data : D) (modifications : json)
  : result D :=
  match visit_section buildings_key modifications with
  | Failed e => Failed e
  | Done _ =>
    match visit_section logistics_stations_key modifications with
    | Failed e => Failed e
    | Done _ => Done bp_data
    end
  end.

(** ** Blueprints *)

(** A building of the decoded data, as far as the program reads it:
    [building.data.item_id]. *)
Definition building := Z.

(** A [Blueprint] object: the two descriptions the program can set, the
    game version, and the encoded data, of which the program knows
    nothing. Setting [bp.short_desc] or [bp.long_desc] replaces that field
    and nothing else. *)
Record blueprint (P : Type) : Type := Blueprint {
  short_desc : str;
  long_desc : str;
  game_version : str;
  payload : P
}.
Arguments Blueprint {P}.
Arguments short_desc {P}.
Arguments long_desc {P}.
Arguments game_version {P}.
Arguments payload {P}.

(** What the program takes from [dspbptk], the file system and the enum of
    items: [None] stands for an exception. *)
Class Library (P : Type) : Type := {
  read_from_file : str -> bool -> option (blueprint P);
  decoded_data : blueprint P -> option (list building);
  can_write : str -> blueprint P -> bool;
  load_json : str -> option json;
  item_name : Z -> option str;
  run_bp2json : str -> str -> bool -> bool -> bool;
  run_json2bp : str -> str -> bool -> bool
}.

(** What the tool prints and writes. *)
Inductive action (P : Type) : Type :=
| PrintReading (input_file : str)
| PrintShortDesc (short_desc : str)
| PrintLongDesc (long_desc : str)
| PrintApplying
| PrintWriting (output_file : str)
| WriteToFile (output_file : str) (bp : blueprint P)
| PrintDone
| PrintConverting (to_json : bool) (input_file output_file : str)
| PrintText (short_desc : str)
| PrintDescription (long_desc : str)
| PrintGameVersion (game_version : str)
| PrintBuildingCount (count : nat)
| PrintItem (count : nat) (item_name : str)
| PrintHelp
| PrintError (e : error).
Arguments PrintReading {P}.
Arguments PrintShortDesc {P}.
Arguments PrintLongDesc {P}.
Arguments PrintApplying {P}.
Arguments PrintWriting {P}.
Arguments WriteToFile {P}.
Arguments PrintDone {P}.
Arguments PrintConverting {P}.
Arguments PrintText {P}.
Arguments PrintDescription {P}.
Arguments PrintGameVersion {P}.
Arguments PrintBuildingCount {P}.
Arguments PrintItem {P}.
Arguments PrintHelp {P}.
Arguments PrintError {P}.

Section Tool.
Context {P : Type} {L : Library P}.

(** A computation that prints and writes, and ends with a value or an
    exception; what was done before the exception stays done. *)
Definition T (A : Type) : Type := list (action P) -> result A * list (action P).

Definition tret {A : Type} (a : A) : T A := fun log => (Done a, log).

Definition tbind {A B : Type} (m : T A) (k : A -> T B) : T B :=
  fun log =>
    match m log with
    | (Done a, log') => k a log'
    | (Failed e, log') => (Failed e, log')
    end.

Definition emit (a : action P) : T unit := fun log => (Done tt, log ++ [a]).

Definition lift {A : Type} (r : result A) : T A := fun log => (r, log).

Definition from_option {A : Type} (code : nat) (o : option A) : T A :=
  match o with
  | Some a => tret a
  | None => lift (Failed (LibraryError code))
  end.

(** [modify_blueprint_file(input_file, output_file, modifications,
    short_desc, long_desc, ignore_corrupt)]. [None] for an argument that
    is [None]. *)
Definition modify_blueprint_file (input_file output_file : str)
           (modifications : option json) (short_desc_ long_desc_ : option str)
           (ignore_corrupt : bool) : T unit :=
  tbind (emit (PrintReading input_file)) (fun _ =>
  tbind (from_option 1 (read_from_file input_file (negb ignore_corrupt))) (fun bp =>
  tbind (match short_desc_ with
         | Some s =>
           tbind (emit (PrintShortDesc s)) (fun _ =>
           tret (Blueprint s (long_desc bp) (game_version bp) (payload bp)))
         | None => tret bp
         end) (fun bp =>
  tbind (match long_desc_ with
         | Some s =>
           tbind (emit (PrintLongDesc s)) (fun _ =>
           tret (Blueprint (short_desc bp) s (game_version bp) (payload bp)))
         | None => tret bp
         end) (fun bp =>
  tbind (if match modifications with Some m => truthy m | None => false end then
           tbind (emit PrintApplying) (fun _ =>
           tbind (from_option 2 (decoded_data bp)) (fun bp_data =>
           tbind (lift (modify_blueprint_data bp_data
                          (match modifications with Some m => m | None => JNull end)))
                 (fun modified_data => tret tt)))
         else tret tt) (fun _ =>
  tbind (emit (PrintWriting output_file)) (fun _ =>
  tbind (if can_write output_file bp then emit (WriteToFile output_file bp)
         else lift (Failed (LibraryError 3))) (fun _ =>
  emit PrintDone))))))).

(** [convert_to_json] and [convert_from_json]: a print, the action of
    [dspbptk] with [force=True] and [verbose=0], a print. *)
Definition convert_to_json (input_file output_file : str)
           (pretty_print ignore_corrupt : bool) : T unit :=
  tbind (emit (PrintConverting true input_file output_file)) (fun _ =>
  tbind (if run_bp2json input_file output_file pretty_print ignore_corrupt
         then tret tt else lift (Failed (LibraryError 4))) (fun _ =>
  emit PrintDone)).

Definition convert_from_json (input_file output_file : str)
           (ignore_corrupt : bool) : T unit :=
  tbind (emit (PrintConverting false input_file output_file)) (fun _ =>
  tbind (if run_json2bp input_file output_file ignore_corrupt
         then tret tt else lift (Failed (LibraryError 5))) (fun _ =>
  emit PrintDone)).

(** [building_counter[item_id] += 1] on a [collections.Counter], kept as
    the items of the dict in insertion order. *)
Fixpoint counter_add (counter : list (Z * nat)) (item_id : Z) : list (Z * nat) :=
  match counter with
  | [] => [(item_id, 1)]
  | (k, n) :: counter' =>
    if (k =? item_id)%Z then (k, n + 1) :: counter'
    else (k, n) :: counter_add counter' item_id
  end.

Definition count_buildings (buildings : list building) : list (Z * nat) :=
  fold_left counter_add buildings [].

(** [Counter.most_common()]: [sorted(items, key=itemgetter(1),
    reverse=True)], a stable sort. *)
Definition most_common (counter : list (Z * nat)) : list (Z * nat) :=
  sort_by (fun a b => snd b <=? snd a) counter.

(** [str(n)] for an integer. *)
Definition str_of_int (n : Z) : str :=
  if (n <? 0)%Z then hyphen :: str_of_nat (Z.to_nat (- n)) else str_of_nat (Z.to_nat n).

(** The name shown for an item: that of the enum, or [f"[{item_id}]"]
    when the enum has no such value. *)
Definition shown_name (item_id : Z) : str :=
  match item_name item_id with
  | Some name => name
  | None => cp "[" ++ str_of_int item_id ++ cp "]"
  end.

(** [dump_blueprint_info(input_file, ignore_corrupt)] *)
Definition dump_blueprint_info (input_file : str) (ignore_corrupt : bool) : T unit :=
  tbind (from_option 1 (read_from_file input_file (negb ignore_corrupt))) (fun bp =>
  tbind (from_option 2 (decoded_data bp)) (fun buildings =>
  let building_counter := count_buildings buildings in
  tbind (if negb (is_empty (short_desc bp)) then emit (PrintText (short_desc bp))
         else tret tt) (fun _ =>
  tbind (if negb (is_empty (long_desc bp)) then emit (PrintDescription (long_desc bp))
         else tret tt) (fun _ =>
  tbind (emit (PrintGameVersion (game_version bp))) (fun _ =>
  tbind (emit (PrintBuildingCount (length buildings))) (fun _ =>
  fun log =>
    (Done tt,
     log ++ map (fun entry => PrintItem (snd entry) (shown_name (fst entry)))
                (most_common building_counter)))))))).

(** The parsed command line. *)
Inductive command : Type :=
| NoCommand
| Modify (input output : str) (short_desc long_desc modifications : option str)
         (ignore_corrupt : bool)
| ToJson (input output : str) (pretty ignore_corrupt : bool)
| FromJson (input output : str) (ignore_corrupt : bool)
| Dump (input : str) (ignore_corrupt : bool).

(** [if args.modifications:] holds for a string that is not empty. *)
Definition given (path : option str) : bool :=
  match path with
  | Some s => negb (is_empty s)
  | None => false
  end.

(** [main()] after [parser.parse_args()]: the exit status. Every
    [Exception] of the command is caught, reported and turned into the
    status 1. *)
Definition main (args : command) : list (action P) -> Z * list (action P) :=
  fun log =>
    match args with
    | NoCommand => (1%Z, log ++ [PrintHelp])
    | _ =>
      let run : T unit :=
        match args with
        | NoCommand => tret tt
        | Modify input output short_desc_ long_desc_ modifications ignore_corrupt =>
          tbind (if given modifications then
                   match modifications with
                   | Some file =>
                     tbind (from_option 6 (load_json file)) (fun m => tret (Some m))
                   | None => tret None
                   end
                 else tret None) (fun modifications =>
          modify_blueprint_file input output modifications short_desc_ long_desc_
                                ignore_corrupt)
        | ToJson input output pretty ignore_corrupt =>
          convert_to_json input output pretty ignore_corrupt
        | FromJson input output ignore_corrupt =>
          convert_from_json input output ignore_corrupt
        | Dump input ignore_corrupt =>
          dump_blueprint_info input ignore_corrupt
        end in
      match run log with
      | (Done _, log') => (0%Z, log')
      | (Failed e, log') => (1%Z, log' ++ [PrintError e])
      end
    end.

End Tool.

End ModifyBlueprint.

(** * Specification vocabulary *)

(** ** Occurrences and match sets *)

(** [sub] occurs in [s] at offset [i]. *)
Definition occurs_at (s sub : str) (i : nat) : bool :=
  (i <=? length s) && startswith (skipn i s) sub.

Definition span_len (m : span) : nat := span_end m - span_start m.

(** The test of the source, read positively: the two ranges do not overlap. *)
Definition apart (idx end_ : nat) (m : span) : Prop :=
  end_ <= span_start m \/ span_end m <= idx.

Definition disjoint (a b : span) : Prop := apart (span_start a) (span_end a) b.

Definition non_overlapping (l : list span) : Prop := ForallOrdPairs disjoint l.

(** What became of an occurrence of [term] at [idx]: it was accepted, or it
    met an accepted range that is at least as long. *)
Definition retained (idx : nat) (term : str) (l : list span) : Prop :=
  exists r, In (idx, idx + length term, r) l.

Definition blocked (idx : nat) (term : str) (l : list span) : Prop :=
  exists m, In m l /\ ~ apart idx (idx + length term) m /\ length term <= span_len m.

Definition handled (idx : nat) (term : str) (l : list span) : Prop :=
  retained idx term l \/ blocked idx term l.

(** A range of the match set comes from a dictionary entry that occurs
    there. *)
Definition is_match (d : dict) (result : str) (m : span) : Prop :=
  exists term, In term (keys d) /\ dict_get d term = Some (span_text m) /\
               occurs_at result term (span_start m) = true /\
               span_end m = span_start m + length term.

Definition longest_first (terms : list str) : Prop :=
  StronglySorted (fun a b => (length b <=? length a) = true) terms.

Definition by_start (a b : span) : Prop := span_start a <= span_start b.


Definition in_span (k : nat) (m : span) : Prop := span_start m <= k < span_end m.

(** The ranges [i, e) and [j, f) overlap: the test of the source. *)
Definition ranges_overlap (i e j f : nat) : Prop := ~ (e <= j \/ f <= i).

(** The reading of the specification: of two overlapping occurrences, the
    one of the longer term is in the match set and the other is not. *)
Definition longer_term_wins (s : str) : Prop :=
  forall t1 t2 i j,
    In t1 (keys DSP_DICTIONARY) -> In t2 (keys DSP_DICTIONARY) ->
    occurs_at s t1 i = true -> occurs_at s t2 j = true ->
    length t2 < length t1 ->
    ranges_overlap i (i + length t1) j (j + length t2) ->
    exists l, matched_ranges s = Some l /\ retained i t1 l /\ ~ retained j t2 l.

(** ** Hyphens *)

(** No two hyphens in a row; [prev] tells that a hyphen came just before. *)
Fixpoint squeezed_from (prev : bool) (s : str) : bool :=
  match s with
  | [] => true
  | c :: s' =>
    if is_hyphen c then negb prev && squeezed_from true s'
    else squeezed_from false s'
  end.

Definition no_double_hyphen (s : str) : Prop :=
  forall l1 l2, s <> l1 ++ hyphen :: hyphen :: l2.

Definition starts_clear (p : char -> bool) (s : str) : Prop :=
  match s with
  | [] => True
  | c :: _ => p c = false
  end.

(** ** Gap resolution *)

(** Gap resolution in the words of the specification: going through the
    text once, every maximal run of Chinese characters is replaced by what
    [f] makes of it, and every other character stays. [run] is the run read
    so far. *)
Fixpoint resolve_runs (f : str -> str) (s : str) (run : str) : str :=
  match s with
  | [] => if is_empty run then [] else f run
  | c :: s' =>
    if is_chinese c then resolve_runs f s' (run ++ [c])
    else (if is_empty run then [] else f run) ++ c :: resolve_runs f s' []
  end.

Definition seg_run (seg : str * nat * nat) : str := fst (fst seg).
Definition seg_start (seg : str * nat * nat) : nat := snd (fst seg).
Definition seg_end (seg : str * nat * nat) : nat := snd seg.

(** [seg] is a maximal run of Chinese characters of [text]: what comes
    just before it and just after it is not Chinese. *)
Definition maximal_run (text : str) (seg : str * nat * nat) : Prop :=
  exists l1 l2,
    text = l1 ++ seg_run seg ++ l2 /\
    length l1 = seg_start seg /\
    seg_end seg = seg_start seg + length (seg_run seg) /\
    seg_run seg <> [] /\
    forallb is_chinese (seg_run seg) = true /\
    starts_clear is_chinese (rev l1) /\
    starts_clear is_chinese l2.

Definition add_calls (w : world) (cs : list str) : world :=
  World (w_fs w) (w_calls w ++ cs) (w_renames w) (w_out w).

(** What [replace_segment] makes of [result] when the translator answers
    a run [r] with [f r]. *)
Definition put_translation {E : Env} (f : str -> str) (seg : str * nat * nat)
           (result : str) : str :=
  firstn (seg_start seg) result ++ clean_translation (f (seg_run seg))
         ++ skipn (seg_end seg) result.

(** ** Names *)

(** [c] is a piece of [text]. *)
Definition infix (c text : str) : Prop := exists l1 l2, text = l1 ++ c ++ l2.

(** The computation only talks to the translator, and only about pieces
    of [text]: the tree, the renames and the output stay as they are. *)
Definition calls_within {A : Type} (text : str) (m : M A) : Prop :=
  forall w o w', m w = (o, w') ->
    exists cs, w' = add_calls w cs /\ Forall (fun c => infix c text) cs.

(** A base name: a string without a slash. *)
Definition no_slash (s : str) : Prop := existsb (Z.eqb slash) s = false.

(** An extension as [pathlib] sees it: nothing, or a period followed by
    at least one character and no further period. *)
Definition last_extension (suffix : str) : Prop :=
  suffix = [] \/
  exists ext, suffix = period :: ext /\ ext <> [] /\ ~ In period ext.

(** The reading of C10: a name with Chinese characters in its extension
    only comes back unchanged. *)
Definition extension_only_unchanged {E : Env} (name : str) : Prop :=
  no_slash name -> contains_chinese name = true ->
  contains_chinese (str_stem name) = false -> str_suffix name <> [] ->
  forall w, translate_name name w = (Ok name, w).

(** ** Trees and candidates *)

Fixpoint nodup_names (l : list str) : bool :=
  match l with
  | [] => true
  | x :: l' => negb (existsb (str_eqb x) l') && nodup_names l'
  end.

(** A tree as a file system has it: in every directory the names are
    plain and pairwise different. *)
Fixpoint wf_node (n : node) : bool :=
  match n with
  | Dir es =>
    nodup_names (map fst es) && forallb plain_name (map fst es)
    && forallb (fun e => wf_node (snd e)) es
  | _ => true
  end.

Definition is_link (n : node) : bool :=
  match n with Link _ => true | _ => false end.

(** An entry without what it holds. *)
Definition shape (n : node) : node :=
  match n with Dir _ => Dir [] | _ => n end.

(** At [p] there is a file or a directory, reached through directories. *)
Definition real_at (fs : node) (p : path) : Prop :=
  exists n, lookup_path fs p = Some n /\ is_link n = false.

(** A tree without symbolic links. *)
Fixpoint link_free (n : node) : bool :=
  match n with
  | File => true
  | Dir es => forallb (fun e => link_free (snd e)) es
  | Link _ => false
  end.

Definition prefix (p q : path) : Prop := exists r, q = p ++ r.

(** [q] lies strictly below [p]. *)
Definition below (p q : path) : Prop := exists r, q = p ++ r /\ r <> [].

(** No path of the list has a path below it later in the list. *)
Definition bottom_up (paths : list path) : Prop :=
  ForallOrdPairs (fun earlier later => ~ below earlier later) paths.



(** The candidates found at and below a directory [n] at path [top]. *)
Definition scan (fs : node) (top : path) (n : node) : list (item_type * path) :=
  flat_map collect_triple (walk_node fs top n).

(** What a scan of a well-formed tree yields: paths in bottom-up order,
    without repetition, each a plain existing path strictly below [top]. *)
Definition good_scan (fs : node) (top : path) (n : node) : Prop :=
  bottom_up (map snd (scan fs top n)) /\
  NoDup (map snd (scan fs top n)) /\
  forall q, In q (map snd (scan fs top n)) ->
    exists r, q = top ++ r /\ r <> [] /\ plain_path r = true /\
              lookup_path n r <> None.

(** ** Runs *)

Definition add_out (w : world) (es : list event) : world :=
  World (w_fs w) (w_calls w) (w_renames w) (w_out w ++ es).

(** The computation leaves the tree and the list of renames alone. *)
Definition keeps_tree {A : Type} (m : M A) : Prop :=
  forall w o w', m w = (o, w') ->
    w_fs w' = w_fs w /\ w_renames w' = w_renames w.

(** The computation has the same outcome in every world, and only adds to
    the texts sent to the translator. *)
Definition call_only {A : Type} (m : M A) : Prop :=
  exists o cs, forall w, m w = (o, add_calls w cs).


Section RunVocabulary.
Context {E : Env}.

(** What [translate_name] makes of a name, in any world. *)
Definition resolved (name : str) : outcome str :=
  fst (translate_name name (empty_world File)).



(** The reading of C3: with a valid root directory no exception leaves
    the run. *)
Definition errors_isolated (root_dir : path) (dry_run : bool) (w : world) : Prop :=
  fs_is_dir (w_fs w) root_dir = true ->
  forall o w', main root_dir dry_run w = (o, w') -> forall e, o <> Raise e.


End RunVocabulary.


(** The search of [rename_item] for its target: the proposed sibling
    path, or the first numbered one that is free. *)
Definition find_target {E : Env} (old_path : path) (new_name : str) : M (str * path) :=
  let new_path := path_join (path_parent old_path) new_name in
  taken <- path_exists new_path ;;
  if taken then
    let stem := if is_empty (path_suffix new_path) then new_name
                else path_stem new_path in
    let suffix := path_suffix new_path in
    fs <- get_fs ;;
    free_name (S (node_count fs)) (path_parent old_path) stem suffix
              new_name new_path 1
  else ret (new_name, new_path).

(** The stem and the suffix the numbered names are built from. *)
Definition numbering_stem (old_path : path) (new_name : str) : str :=
  if is_empty (path_suffix (path_join (path_parent old_path) new_name)) then new_name
  else path_stem (path_join (path_parent old_path) new_name).

Definition numbering_suffix (old_path : path) (new_name : str) : str :=
  path_suffix (path_join (path_parent old_path) new_name).

(** [final_name] is what the collision rule gives for [new_name] in the
    tree [fs]: [new_name] itself when [exists()] says no for the proposed
    path, else the numbered name with the least counter from 1 on for
    whose path it says no. *)
Definition collision_rule (fs : node) (old_path : path) (new_name final_name : str) : Prop :=
  let parent := path_parent old_path in
  fs_exists fs (path_join parent final_name) = false /\
  ((final_name = new_name) \/
   (fs_exists fs (path_join parent new_name) = true /\
    exists counter,
      1 <= counter /\
      final_name = numbered (numbering_stem old_path new_name) counter
                            (numbering_suffix old_path new_name) /\
      forall j, 1 <= j < counter ->
        fs_exists fs (path_join parent
                        (numbered (numbering_stem old_path new_name) j
                                  (numbering_suffix old_path new_name))) = true)).

(** What a computation returns, when it returns, satisfies [P]. *)
Definition returns {A : Type} (P : A -> Prop) (m : M A) : Prop :=
  forall w a w', m w = (Ok a, w') -> P a.

(** The computation never reaches a loop bound of the model. *)
Definition within_bounds {A : Type} (m : M A) : Prop :=
  forall w w', m w <> (OutOfFuel, w').

(** ** The renames of a live run *)

(** The renames done so far, oldest first: each target still exists
    unless a later rename moved it or a directory above it; no target is
    the path of a candidate renamed later or still to come; targets are
    plain. [later] holds the paths of the candidates still to come. *)
Fixpoint targets_tracked (fs : node) (later : list path) (done : list (path * path)) : Prop :=
  match done with
  | [] => True
  | (_, target) :: done' =>
    (fs_exists fs target = true \/
     exists a, In a (map fst done') /\ prefix a target) /\
    ~ In target (map fst done' ++ later) /\
    plain_path target = true /\
    targets_tracked fs later done'
  end.

(** What holds between two turns of the processing loop of a live run
    over a tree without links. *)
Record live_invariant (fs : node) (todo : list path) (done : list (path * path)) : Prop := {
  inv_free : link_free fs = true;
  inv_order : bottom_up (map fst done ++ todo);
  inv_nodup : NoDup (map fst done ++ todo);
  inv_todo : forall q, In q todo ->
               q <> [] /\ plain_path q = true /\
               (fs_exists fs q = true \/ exists a, In a (map fst done) /\ prefix a q);
  inv_targets : targets_tracked fs todo done;
  inv_distinct : NoDup (map snd done)
}.

(** ** Further vocabulary *)

(** The computation only talks to the translator, and every text it sends
    satisfies [P]: the general form of [calls_within]. *)
Definition calls_all {A : Type} (P : str -> Prop) (m : M A) : Prop :=
  forall w o w', m w = (o, w') ->
    exists cs, w' = add_calls w cs /\ Forall P cs.

(** A non-empty text of Chinese characters only. *)
Definition chinese_run (c : str) : Prop :=
  c <> [] /\ forallb is_chinese c = true.

(** No term of the dictionary occurs anywhere in [c]. *)
Definition term_free (c : str) : Prop :=
  forall t i, In t (keys DSP_DICTIONARY) -> occurs_at c t i = false.

(** What the second loop of [translate_with_dictionary] keeps, for the
    sorted match list [l]: the matches passed end at or before [last_end],
    and the matches to come, [rest], start at or after it. *)
Definition matches_split (l : list span) (last_end : nat) (rest : list span) : Prop :=
  exists passed,
    l = passed ++ rest /\
    Forall (fun m => span_end m <= last_end) passed /\
    Forall (fun m => last_end <= span_start m) rest /\
    StronglySorted by_start rest /\ non_overlapping rest.

(** What the translator answers for a run; the empty text stands in where
    the call raises. *)
Definition answer {E : Env} (run : str) : str :=
  match argos_translate run with
  | Some translated => translated
  | None => []
  end.

(** [result] is [text] with stretches of Chinese characters replaced:
    every character that is not Chinese stays, in its place among the
    others, and every Chinese character lies in a replaced stretch. *)
Inductive keeps_rest : str -> str -> Prop :=
| keeps_nil : keeps_rest [] []
| keeps_char (c : char) (text result : str) :
    is_chinese c = false -> keeps_rest text result ->
    keeps_rest (c :: text) (c :: result)
| keeps_run (run replacement text result : str) :
    run <> [] -> forallb is_chinese run = true -> keeps_rest text result ->
    keeps_rest (run ++ text) (replacement ++ result).

(** ** Further vocabulary for runs *)

Section MoreRunVocabulary.
Context {E : Env}.

(** The name of the candidate resolves to another name. *)
Definition name_changes (item : item_type * path) : bool :=
  match resolved (path_name (snd item)) with
  | Ok new_name => negb (str_eqb (path_name (snd item)) new_name)
  | _ => false
  end.

(** The texts [translate_name] sends to the translator for a name. *)
Definition calls_of (name : str) : list str :=
  w_calls (snd (translate_name name (empty_world File))).

(** The translator calls of a loop in which every candidate is there at
    its turn. *)
Definition calls_for (items : list (item_type * path)) : list str :=
  flat_map (fun item => calls_of (path_name (snd item))) items.

(** The reading of C8: in a live run that ends normally, every candidate
    that lies below another candidate, and whose name resolves to another
    name, has been renamed. *)
Definition children_renamed (root_dir : path) (w : world) : Prop :=
  forall w' tp tq p q,
    translate_directory root_dir false w = (Ok tt, w') ->
    In (tp, p) (collect_items (w_fs w) root_dir) ->
    In (tq, q) (collect_items (w_fs w) root_dir) ->
    below p q -> name_changes (tq, q) = true ->
    In q (map fst (w_renames w')).

End MoreRunVocabulary.

(** The line a live run prints for a rename. *)
Definition renamed_line (r : path * path) : event :=
  PrintRenamed (fst r) (path_name (snd r)).

(** A rename that keeps the entry in its directory and gives it a plain
    name other than the one it had. *)
Definition sibling_rename (r : path * path) : Prop :=
  exists final_name,
    snd r = path_parent (fst r) ++ [final_name] /\
    plain_name final_name = true /\
    final_name <> path_name (fst r).

(** The two kinds of rename lines, from the path of the entry and the
    name shown after the arrow. *)
Definition dry_line (l : path * str) : event := PrintDryRun (fst l) (snd l).
Definition live_line (l : path * str) : event := PrintRenamed (fst l) (snd l).

(** ** Vocabulary for the blueprint tool *)

Section BlueprintVocabulary.
Import ModifyBlueprint.

(** A value a [for] loop cannot run over. *)
Definition not_iterable (v : json) : Prop :=
  match v with
  | JObject _ | JArray _ | JString _ => False
  | _ => True
  end.

(** The modifications make the block for [key] raise a [TypeError]: they
    are no container at all; or a list that holds [key], or a string in
    which [key] occurs, and so take no string as index; or a dict whose
    value for [key] cannot be run over. *)
Definition section_fails (key : str) (modifications : json) : Prop :=
  match modifications with
  | JObject members => exists v, member key members = Some v /\ not_iterable v
  | JArray items => In (JString key) items
  | JString s => exists i, occurs_at s key i = true
  | _ => True
  end.



(** The item lines of a dump. *)
Definition item_lines {P : Type} {L : Library P} (counts : list (Z * nat))
  : list (action P) :=
  map (fun entry => PrintItem (snd entry) (shown_name (fst entry))) counts.

End BlueprintVocabulary.

(** ** Vocabulary for the set-up of the translator *)

(** The packages a run of [setup_translation] installs. *)
Definition installs (events : list setup_event) : list package :=
  flat_map (fun e => match e with InstallFromPath p => [p] | _ => [] end) events.

(** The count a counter holds for an item. *)
Fixpoint count_of (counter : list (Z * nat)) (item_id : Z) : nat :=
  match counter with
  | [] => 0
  | (k, n) :: counter' => (if (k =? item_id)%Z then n else 0) + count_of counter' item_id
  end.

(** ** Vocabulary for the first pass as one sweep *)

(** The offsets from [start] on at which [term] occurs in [text], in
    rising order. *)
Definition positions_from (text term : str) (start : nat) : list nat :=
  filter (occurs_at text term) (seq start (length text + 1 - start)).

Definition replacement_of (d : dict) (term : str) : str :=
  match dict_get d term with
  | Some replacement => replacement
  | None => []
  end.

(** The range an occurrence of [term] at [idx] would give. *)
Definition span_at (d : dict) (term : str) (idx : nat) : span :=
  (idx, idx + length term, replacement_of d term).

(** The test and the [append] of the first pass, for one occurrence. *)
Definition accept (matched : list span) (m : span) : list span :=
  if overlaps (span_start m) (span_end m) matched then matched else matched ++ [m].

Definition accept_all (candidates : list span) (matched : list span) : list span :=
  fold_left accept candidates matched.

(** The occurrences the first pass looks at, in the order in which it
    looks at them: term by term, and for a term from left to right. *)
Definition occurrences (d : dict) (text : str) (terms : list str) : list span :=
  flat_map (fun term => map (span_at d term) (positions_from text term 0)) terms.

(** A range moved [k] places to the right. *)
Definition shift (k : nat) (m : span) : span :=
  (span_start m + k, span_end m + k, span_text m).

(** The result of the second loop as a function of the match list: before
    each match the text since the last one with its runs resolved by [g],
    then the replacement; after the last match the rest of the text. *)
Fixpoint render (g : str -> str) (text : str) (l : list span) (last_end : nat) : str :=
  match l with
  | [] => resolve_runs g (skipn last_end text) []
  | (start, end_, replacement) :: l' =>
    resolve_runs g (slice text last_end start) [] ++ replacement
                 ++ render g text l' end_
  end.

(** A range lies on one side of the offset [k]: it ends before [k], or it
    starts at [k] or later. *)
Definition is_left (k : nat) (m : span) : bool := span_end m <? k.

Definition sided (k : nat) (m : span) : Prop :=
  span_start m <= span_end m /\ (is_left k m = false -> k <= span_start m).

(** The computation returns, whatever the world. *)
Definition succeeds {A : Type} (m : M A) : Prop :=
  forall w, exists a w', m w = (Ok a, w').



(** ** Test doubles *)

(** A deterministic environment for examples: ASCII white space, ASCII
    word characters together with the Chinese block, every rename
    permitted, every [stat] answered, and a translator that answers every
    run with the same text. *)
Definition ascii_space (c : char) : bool :=
  existsb (Z.eqb c) [9; 10; 11; 12; 13; 32]%Z.

Definition ascii_word (c : char) : bool :=
  ((48 <=? c) && (c <=? 57) || (65 <=? c) && (c <=? 90)
   || (97 <=? c) && (c <=? 122) || (c =? 95))%Z
  || is_chinese c.

Definition stub_answer : str := cp " Ware house! ".

Definition stub_env : Env := {|
  argos_translate := fun _ => Some stub_answer;
  is_space := ascii_space;
  is_word := ascii_word;
  os_permits := fun _ _ => true;
  stat_permits := fun _ => true
|}.

(** The same with a translator that is unreachable. *)
Definition offline_env : Env := {|
  argos_translate := fun _ => None;
  is_space := ascii_space;
  is_word := ascii_word;
  os_permits := fun _ _ => true;
  stat_permits := fun _ => true
|}.

Definition name_coal : str := [29028]%Z.            (* U+7164 *)
Definition name_coal_mine : str := [29028; 30719]%Z. (* U+7164 U+77FF *)

(** A project directory with a Chinese-named folder that holds a
    Chinese-named file. *)
Definition nested_tree : node :=
  Dir [(cp "proj", Dir [(name_coal, Dir [(name_coal_mine, File)])])].

(** A project directory with two files whose names both resolve to
    [Coal] through the dictionary. *)
Definition twin_tree : node :=
  Dir [(cp "proj", Dir [(name_coal, File); (name_coal_mine, File)])].


Definition name_warehouse : str := [20179; 24211]%Z. (* U+4ED3 U+5E93 *)

(** A project directory with a name the dictionary does not cover, listed
    before a name it covers. *)
Definition mixed_tree : node :=
  Dir [(cp "proj", Dir [(name_warehouse, File); (name_coal, File)])].


(** A project directory with a Chinese-named folder that holds a file and
    a symbolic link to that file, both with Chinese names. *)
Definition link_child_tree : node :=
  Dir [(cp "proj", Dir [(name_coal, Dir [(name_warehouse, File);
                                         (name_coal_mine, Link name_warehouse)])])].

(** ** Further examples *)

(** A project inside a virtual environment folder, with a Chinese-named
    file. *)
Definition venv_tree : node :=
  Dir [(cp ".venv", Dir [(cp "proj", Dir [(name_coal, File)])])].

(** A project in a folder with an extension. *)
Definition versioned_tree : node :=
  Dir [(cp "pack.v2", Dir [(name_coal, File)])].

(** A project with a Chinese-named file next to a plain one. *)
Definition readme_tree : node :=
  Dir [(cp "proj", Dir [(name_coal, File); (cp "readme.txt", File)])].


(** A blueprint library for examples: every file holds the same
    blueprint of four buildings, every write goes through, every
    modifications file holds the list [["buildings"]], and the enum knows
    one item. *)
Definition stub_blueprint : ModifyBlueprint.blueprint unit :=
  ModifyBlueprint.Blueprint (cp "old") (cp "") (cp "0.10.30") tt.

Definition stub_library : ModifyBlueprint.Library unit := {|
  ModifyBlueprint.read_from_file := fun _ _ => Some stub_blueprint;
  ModifyBlueprint.decoded_data := fun _ => Some [2001; 2011; 2001; 2001]%Z;
  ModifyBlueprint.can_write := fun _ _ => true;
  ModifyBlueprint.load_json :=
    fun _ => Some (ModifyBlueprint.JArray
                     [ModifyBlueprint.JString ModifyBlueprint.buildings_key]);
  ModifyBlueprint.item_name :=
    fun item_id => if (item_id =? 2001)%Z then Some (cp "ConveyorBeltMKI") else None;
  ModifyBlueprint.run_bp2json := fun _ _ _ _ => true;
  ModifyBlueprint.run_json2bp := fun _ _ _ => true
|}.

(** * Properties *)

(** ** Strings and searching *)

Lemma str_eqb_eq (a b : str) : str_eqb a b = true <-> a = b.
Proof.
  revert b; induction a as [|x a IH]; intros [|y b]; simpl; split;
    try congruence; try reflexivity.
  - rewrite andb_true_iff, Z.eqb_eq, IH. intros [-> ->]; reflexivity.
  - intros [= -> ->]. rewrite Z.eqb_refl. simpl. apply IH. reflexivity.
Qed.

Lemma str_eqb_refl (a : str) : str_eqb a a = true.
Proof. apply str_eqb_eq; reflexivity. Qed.

Lemma str_eqb_neq (a b : str) : str_eqb a b = false <-> a <> b.
Proof.
  rewrite <- str_eqb_eq. destruct (str_eqb a b); split; congruence.
Qed.

Lemma startswith_iff (s sub : str) :
  startswith s sub = true <-> exists post, s = sub ++ post.
Proof.
  revert s; induction sub as [|c sub IH]; intros s; simpl.
  - split; [intros _; exists s; reflexivity | reflexivity].
  - destruct s as [|d s].
    + split; [discriminate | intros [post H]; discriminate].
    + rewrite andb_true_iff, Z.eqb_eq, IH. split.
      * intros [-> [post ->]]. exists post; reflexivity.
      * intros [post [= -> ->]]. split; [reflexivity | exists post; reflexivity].
Qed.

Lemma occurs_at_iff (s sub : str) (i : nat) :
  occurs_at s sub i = true <->
  exists pre post, s = pre ++ sub ++ post /\ length pre = i.
Proof.
  unfold occurs_at. rewrite andb_true_iff, Nat.leb_le, startswith_iff. split.
  - intros [Hi [post Hp]]. exists (firstn i s), post. split.
    + rewrite <- Hp. symmetry; apply firstn_skipn.
    + apply firstn_length_le; assumption.
  - intros (pre & post & -> & <-). split.
    + rewrite length_app. lia.
    + exists post. rewrite skipn_app, skipn_all, Nat.sub_diag. reflexivity.
Qed.

Lemma find_from_some (sub : str) (s : str) (pos i : nat) :
  find_from s sub pos = Some i ->
  exists k, i = pos + k /\ k <= length s /\
            startswith (skipn k s) sub = true /\
            forall j, j < k -> startswith (skipn j s) sub = false.
Proof.
  revert pos; induction s as [|c s IH]; intros pos; simpl.
  - destruct (startswith [] sub) eqn:E; [|discriminate].
    intros [= <-]. exists 0. repeat split; auto with arith. lia.
  - destruct (startswith (c :: s) sub) eqn:E.
    + intros [= <-]. exists 0. repeat split; auto with arith. lia.
    + intros H. destruct (IH _ H) as (k & -> & Hk & Hs & Hmin).
      exists (S k). repeat split; try lia; try assumption.
      intros [|j] Hj; simpl; [assumption | apply Hmin; lia].
Qed.

Lemma find_from_none (sub : str) (s : str) (pos : nat) :
  find_from s sub pos = None ->
  forall k, k <= length s -> startswith (skipn k s) sub = false.
Proof.
  revert pos; induction s as [|c s IH]; intros pos; simpl.
  - destruct (startswith [] sub) eqn:E; [discriminate|].
    intros _ k Hk. replace k with 0 by lia. assumption.
  - destruct (startswith (c :: s) sub) eqn:E; [discriminate|].
    intros H [|k] Hk; simpl; [assumption|]. apply (IH _ H). lia.
Qed.

(** [find] returns the first occurrence at or after [start]. *)
Lemma find_some (s sub : str) (start i : nat) :
  find s sub start = Some i ->
  start <= i /\ occurs_at s sub i = true /\
  forall j, start <= j -> j < i -> occurs_at s sub j = false.
Proof.
  unfold find. destruct (Nat.ltb_spec (length s) start) as [|Hle]; [discriminate|].
  intros H. destruct (find_from_some _ _ _ _ H) as (k & -> & Hk & Hs & Hmin).
  rewrite length_skipn in Hk. rewrite skipn_skipn in Hs.
  split; [lia|]. split.
  - unfold occurs_at. rewrite Nat.add_comm, Hs.
    replace (k + start <=? length s) with true; [reflexivity|].
    symmetry; apply Nat.leb_le; lia.
  - intros j Hj1 Hj2. unfold occurs_at.
    replace j with ((j - start) + start) by lia.
    rewrite <- skipn_skipn, Hmin by lia. apply andb_false_r.
Qed.

Lemma find_none (s sub : str) (start : nat) :
  find s sub start = None ->
  forall j, start <= j -> occurs_at s sub j = false.
Proof.
  unfold find, occurs_at. intros H j Hj.
  destruct (Nat.leb_spec j (length s)) as [Hjs|]; [|reflexivity]. simpl.
  destruct (Nat.ltb_spec (length s) start) as [|Hle]; [lia|].
  replace j with ((j - start) + start) by lia.
  rewrite <- skipn_skipn. apply (find_from_none _ _ _ H).
  rewrite length_skipn. lia.
Qed.

Lemma occurs_at_bound (s sub : str) (i : nat) :
  occurs_at s sub i = true -> i + length sub <= length s.
Proof.
  rewrite occurs_at_iff. intros (pre & post & -> & <-).
  rewrite !length_app. lia.
Qed.

(** ** Stable sorting *)

Section Sorting.
Context {A : Type}.
Variable le : A -> A -> bool.

Lemma insert_by_perm (x : A) (l : list A) : Permutation (insert_by le x l) (x :: l).
  Proof.
    induction l as [|y l IH]; simpl; [reflexivity|].
    destruct (le x y); [reflexivity|].
    rewrite IH. apply perm_swap.
  Qed.

Lemma sort_by_perm (l : list A) : Permutation (sort_by le l) l.
  Proof.
    induction l as [|x l IH]; simpl; [reflexivity|].
    rewrite insert_by_perm. constructor. exact IH.
  Qed.

Lemma sort_by_in (l : list A) (x : A) : In x (sort_by le l) <-> In x l.
  Proof.
    split; apply Permutation_in; [|symmetry]; apply sort_by_perm.
  Qed.

Hypothesis le_total : forall a b, le a b = true \/ le b a = true.
Hypothesis le_trans : forall a b c, le a b = true -> le b c = true -> le a c = true.

Lemma insert_by_sorted (x : A) (l : list A) :
    StronglySorted (fun a b => le a b = true) l ->
    StronglySorted (fun a b => le a b = true) (insert_by le x l).
  Proof.
    induction 1 as [|y l Hs IH Hy]; simpl.
    - repeat constructor.
    - destruct (le x y) eqn:E.
      + constructor; [constructor; assumption|].
        constructor; [assumption|].
        eapply Forall_impl; [|exact Hy]. intros z Hz. eapply le_trans; eassumption.
      + constructor; [assumption|].
        apply Forall_forall. intros z Hz.
        apply (Permutation_in _ (insert_by_perm x l)) in Hz.
        destruct Hz as [<-|Hz].
        * destruct (le_total x y); congruence.
        * rewrite Forall_forall in Hy. auto.
  Qed.

Lemma sort_by_sorted (l : list A) :
    StronglySorted (fun a b => le a b = true) (sort_by le l).
  Proof.
    induction l as [|x l IH]; simpl; [constructor | apply insert_by_sorted, IH].
  Qed.
End Sorting.

(** A symmetric pairwise property survives the sort. *)
Lemma insert_by_pairs {A : Type} (le : A -> A -> bool) (R : A -> A -> Prop)
      (Rsym : forall a b, R a b -> R b a) (x : A) (l : list A) :
  Forall (R x) l -> ForallOrdPairs R l -> ForallOrdPairs R (insert_by le x l).
Proof.
  induction l as [|y l IH]; simpl; intros Hx Hl.
  - repeat constructor.
  - destruct (le x y).
    + constructor; assumption.
    + inversion Hx; subst. inversion Hl; subst.
      constructor; [|apply IH; assumption].
      apply Forall_forall. intros z Hz.
      apply (Permutation_in _ (insert_by_perm le x l)) in Hz.
      destruct Hz as [<-|Hz]; [apply Rsym; assumption|].
      match goal with H : Forall (R y) l |- _ => rewrite Forall_forall in H; auto end.
Qed.

Lemma sort_by_pairs {A : Type} (le : A -> A -> bool) (R : A -> A -> Prop)
      (Rsym : forall a b, R a b -> R b a) (l : list A) :
  ForallOrdPairs R l -> ForallOrdPairs R (sort_by le l).
Proof.
  induction 1 as [|x l Hx Hl IH]; simpl; [constructor|].
  apply insert_by_pairs; try assumption.
  apply Forall_forall. intros z Hz. apply sort_by_in in Hz.
  rewrite Forall_forall in Hx. auto.
Qed.

Lemma pairs_snoc {A : Type} (R : A -> A -> Prop) (l : list A) (x : A) :
  ForallOrdPairs R l -> Forall (fun a => R a x) l -> ForallOrdPairs R (l ++ [x]).
Proof.
  induction 1 as [|y l Hy Hl IH]; simpl; intros Hx.
  - repeat constructor.
  - inversion Hx; subst. constructor; [|apply IH; assumption].
    apply Forall_app; split; [assumption | repeat constructor; assumption].
Qed.

Lemma StronglySorted_impl {A : Type} (R R' : A -> A -> Prop) (l : list A) :
  (forall a b, R a b -> R' a b) -> StronglySorted R l -> StronglySorted R' l.
Proof.
  intros HR. induction 1 as [|a l Hs IH Ha]; constructor; [assumption|].
  eapply Forall_impl; [|exact Ha]. intros b; apply HR.
Qed.

(** ** The match set *)

Lemma disjoint_sym (a b : span) : disjoint a b -> disjoint b a.
Proof. unfold disjoint, apart. tauto. Qed.

Lemma overlaps_false (idx end_ : nat) (l : list span) :
  overlaps idx end_ l = false <-> Forall (apart idx end_) l.
Proof.
  unfold overlaps, apart. induction l as [|m l IH]; simpl.
  - split; [constructor | reflexivity].
  - rewrite orb_false_iff, IH, negb_false_iff, orb_true_iff, !Nat.leb_le.
    split; [intros [? ?]; constructor; assumption | inversion 1; auto].
Qed.

Lemma overlaps_true (idx end_ : nat) (l : list span) :
  overlaps idx end_ l = true <-> exists m, In m l /\ ~ apart idx end_ m.
Proof.
  unfold overlaps, apart. rewrite existsb_exists.
  split; intros (m & Hm & H); exists m; split; try assumption.
  - rewrite negb_true_iff, orb_false_iff, !Nat.leb_gt in H. lia.
  - rewrite negb_true_iff, orb_false_iff, !Nat.leb_gt. lia.
Qed.

Lemma handled_app (idx : nat) (term : str) (l l' : list span) :
  handled idx term l -> handled idx term (l ++ l').
Proof.
  intros [[r H]|(m & H & Hm)]; [left; exists r | right; exists m; split; [|assumption]];
    apply in_or_app; left; assumption.
Qed.

Section OneTerm.
Variable d : dict.
Variable result term : str.
Variable r : str.
Hypothesis Hr : dict_get d term = Some r.

  (** The loop for one term ends within its bound; it only appends
      occurrences of the term, keeps the ranges apart and leaves no
      occurrence at or after [start] unaccounted for. *)
Lemma scan_term_returns (fuel start : nat) (matched : list span) :
    start <= length result + 1 ->
    length result + 2 <= fuel + start ->
    Forall (fun m => length term <= span_len m) matched ->
    exists added,
      scan_term fuel d result term start matched = Some (matched ++ added) /\
      Forall (fun m => exists idx, m = (idx, idx + length term, r) /\
                                   occurs_at result term idx = true) added /\
      (non_overlapping matched -> non_overlapping (matched ++ added)) /\
      (forall idx, start <= idx -> occurs_at result term idx = true ->
                   handled idx term (matched ++ added)).
  Proof.
    revert start matched.
    induction fuel as [|fuel IH]; intros start matched Hs Hf Hlen; [lia|].
    simpl. destruct (find result term start) as [idx|] eqn:Hfind.
    - destruct (find_some _ _ _ _ Hfind) as (Hge & Hocc & Hmin).
      assert (Hb := occurs_at_bound _ _ _ Hocc).
      destruct (overlaps idx (idx + length term) matched) eqn:Hov.
      + destruct (IH (idx + 1) matched) as (added & E & Hadd & Hno & Hh);
          try lia; try assumption.
        exists added. repeat split; try assumption.
        intros j Hj Hoj.
        destruct (Nat.lt_trichotomy j idx) as [Hlt|[->|Hgt]].
        * rewrite Hmin in Hoj by assumption. discriminate.
        * apply handled_app. right.
          apply overlaps_true in Hov. destruct Hov as (m & Hm & Hap).
          exists m. repeat split; try assumption.
          rewrite Forall_forall in Hlen. auto.
        * apply Hh; [lia | assumption].
      + rewrite Hr.
        destruct (IH (idx + 1) (matched ++ [(idx, idx + length term, r)]))
          as (added & E & Hadd & Hno & Hh); try lia.
        { apply Forall_app; split; [assumption|].
          constructor; [|constructor]. unfold span_len, span_end, span_start; simpl. lia. }
        exists ((idx, idx + length term, r) :: added).
        rewrite <- app_assoc in E, Hno, Hh. simpl in E, Hno, Hh.
        repeat split; try assumption.
        * constructor; [exists idx; split; [reflexivity | assumption] | assumption].
        * intros Hm. apply Hno. apply pairs_snoc; [assumption|].
          apply overlaps_false in Hov.
          eapply Forall_impl; [|exact Hov].
          intros m Hap. apply disjoint_sym. exact Hap.
        * intros j Hj Hoj.
          destruct (Nat.lt_trichotomy j idx) as [Hlt|[->|Hgt]].
          -- rewrite Hmin in Hoj by assumption. discriminate.
          -- left. exists r. apply in_or_app; right; left; reflexivity.
          -- apply Hh; [lia | assumption].
    - exists []. rewrite app_nil_r.
      split; [reflexivity|]. split; [constructor|]. split; [tauto|].
      intros j Hj Hoj. rewrite (find_none _ _ _ Hfind) in Hoj by assumption.
      discriminate.
  Qed.
End OneTerm.

Lemma dict_get_key (d : dict) (k : str) :
  In k (keys d) -> exists v, dict_get d k = Some v.
Proof.
  induction d as [|[k' v] d IH]; simpl; [tauto|].
  destruct (str_eqb k' k) eqn:E; [eauto|].
  intros [->|H]; [rewrite str_eqb_refl in E; discriminate | auto].
Qed.

Lemma dict_get_in (d : dict) (k v : str) :
  dict_get d k = Some v -> In (k, v) d.
Proof.
  induction d as [|[k' v'] d IH]; simpl; [discriminate|].
  destruct (str_eqb k' k) eqn:E; [|auto].
  apply str_eqb_eq in E. intros [= ->]. subst. auto.
Qed.

Lemma first_pass_returns (d : dict) (result : str) (terms : list str) :
  forall matched : list span,
    (forall t, In t terms -> In t (keys d)) ->
    longest_first terms ->
    Forall (fun m => forall t, In t terms -> length t <= span_len m) matched ->
    exists added,
      first_pass (length result + 2) d result terms matched = Some (matched ++ added) /\
      Forall (is_match d result) added /\
      (non_overlapping matched -> non_overlapping (matched ++ added)) /\
      (forall t idx, In t terms -> occurs_at result t idx = true ->
                     handled idx t (matched ++ added)).
Proof.
  induction terms as [|term rest IH]; intros matched Hk Hs Hlen; simpl.
  - exists []. rewrite app_nil_r.
    split; [reflexivity|]. split; [constructor|]. split; tauto.
  - destruct (dict_get_key d term) as [r Hr]; [apply Hk; left; reflexivity|].
    inversion Hs as [|? ? Hs' Hfirst]; subst.
    destruct (scan_term_returns d result term r Hr (length result + 2) 0 matched)
      as (a1 & E1 & Ha1 & Hn1 & Hh1); try lia.
    { eapply Forall_impl; [|exact Hlen]. intros m H; apply H; left; reflexivity. }
    rewrite E1.
    destruct (IH (matched ++ a1)) as (a2 & E2 & Ha2 & Hn2 & Hh2).
    { intros t Ht; apply Hk; right; assumption. }
    { assumption. }
    { apply Forall_app; split.
      - eapply Forall_impl; [|exact Hlen]. intros m H t Ht; apply H; right; assumption.
      - eapply Forall_impl; [|exact Ha1].
        intros m (idx & -> & _) t Ht. unfold span_len, span_end, span_start; simpl.
        rewrite Forall_forall in Hfirst. apply Hfirst, Nat.leb_le in Ht. lia. }
    exists (a1 ++ a2). rewrite app_assoc. repeat split.
    + assumption.
    + apply Forall_app; split; [|assumption].
      eapply Forall_impl; [|exact Ha1].
      intros m (idx & -> & Ho). exists term. simpl.
      repeat split; try assumption. apply Hk; left; reflexivity.
    + intros H. apply Hn2, Hn1, H.
    + intros t idx [<-|Ht] Ho.
      * apply handled_app. apply Hh1; [lia | assumption].
      * apply Hh2; assumption.
Qed.

Lemma sorted_terms_longest_first (d : dict) : longest_first (sorted_terms d).
Proof.
  apply sort_by_sorted.
  - intros a b. rewrite !Nat.leb_le. lia.
  - intros a b c. rewrite !Nat.leb_le. lia.
Qed.

(** The match set of any dictionary: it is computed (the model's bound is
    never reached), it is sorted by start, its ranges are pairwise apart and
    are occurrences of dictionary terms, and every occurrence of a term is
    accounted for. *)
Lemma matched_ranges_in_spec (d : dict) (result : str) :
  exists l,
    matched_ranges_in d result = Some l /\
    StronglySorted by_start l /\
    non_overlapping l /\
    Forall (is_match d result) l /\
    (forall t idx, In t (keys d) -> occurs_at result t idx = true -> handled idx t l).
Proof.
  destruct (first_pass_returns d result (sorted_terms d) [])
    as (l & E & Hm & Hn & Hh).
  - intros t. apply sort_by_in.
  - apply sorted_terms_longest_first.
  - constructor.
  - simpl in *. unfold matched_ranges_in. rewrite E. simpl.
    eexists; split; [reflexivity|]. repeat split.
    + eapply StronglySorted_impl; [|apply sort_by_sorted].
      * intros a b Hab. apply Nat.leb_le, Hab.
      * intros a b. rewrite !Nat.leb_le. lia.
      * intros a b c. rewrite !Nat.leb_le. lia.
    + apply sort_by_pairs; [exact disjoint_sym | apply Hn; constructor].
    + apply Forall_forall. intros m Hin. apply sort_by_in in Hin.
      rewrite Forall_forall in Hm. auto.
    + intros t idx Ht Ho.
      assert (H : handled idx t l) by (apply Hh; [apply sort_by_in|]; assumption).
      destruct H as [[r H]|(m & H & Hb)]; [left; exists r | right; exists m; split; [|assumption]];
        apply sort_by_in; assumption.
Qed.

Lemma in_keys_dec (d : dict) (t : str) :
  existsb (str_eqb t) (keys d) = true -> In t (keys d).
Proof.
  rewrite existsb_exists. intros (k & Hk & He).
  apply str_eqb_eq in He. subst. exact Hk.
Defined.

(** C2. For every input string the match set of [translate_with_dictionary]
    is computed, is ordered ascending by start offset after the final sort,
    and no two of its spans share an offset. *)
Theorem matched_ranges_sorted_disjoint (s : str) :
  exists l,
    matched_ranges s = Some l /\
    StronglySorted by_start l /\
    ForallOrdPairs (fun a b => forall k, ~ (in_span k a /\ in_span k b)) l.
Proof.
  destruct (matched_ranges_in_spec DSP_DICTIONARY s) as (l & E & Hs & Hn & _).
  exists l. repeat split; try assumption.
  clear E Hs. induction Hn as [|a l Ha Hl IH]; constructor; [|assumption].
  eapply Forall_impl; [|exact Ha].
  intros b Hab k [Hka Hkb]. unfold disjoint, apart, in_span in *. lia.
Qed.

(** C1, as the code has it. Of two overlapping occurrences of dictionary
    terms, the one of the longer term is retained unless it meets a
    retained range that is at least as long; and when it is retained, the
    occurrence of the shorter term is not. *)
Theorem longer_term_wins_unless_blocked (s t1 t2 : str) (i j : nat) :
  In t1 (keys DSP_DICTIONARY) -> In t2 (keys DSP_DICTIONARY) ->
  occurs_at s t1 i = true -> occurs_at s t2 j = true ->
  length t2 < length t1 ->
  ranges_overlap i (i + length t1) j (j + length t2) ->
  exists l,
    matched_ranges s = Some l /\
    (retained i t1 l \/ blocked i t1 l) /\
    (retained i t1 l -> ~ retained j t2 l).
Proof.
  intros H1 H2 O1 O2 Hlen Hov.
  destruct (matched_ranges_in_spec DSP_DICTIONARY s) as (l & E & _ & Hn & _ & Hh).
  exists l. split; [exact E|]. split; [exact (Hh t1 i H1 O1)|].
  intros [r1 R1] [r2 R2].
  destruct (ForallOrdPairs_In Hn _ _ R1 R2) as [Heq|[D|D]].
  - injection Heq. lia.
  - unfold disjoint, apart, span_start, span_end, ranges_overlap in *. simpl in D. lia.
  - unfold disjoint, apart, span_start, span_end, ranges_overlap in *. simpl in D. lia.
Qed.

Lemma longer_term_wins_unless_blocked_witness :
  In [29028; 30719]%Z (keys DSP_DICTIONARY) /\
  In [29028]%Z (keys DSP_DICTIONARY) /\
  occurs_at [29028; 30719]%Z [29028; 30719]%Z 0 = true /\
  occurs_at [29028; 30719]%Z [29028]%Z 0 = true /\
  1 < 2 /\
  ranges_overlap 0 2 0 1 /\
  exists l,
    matched_ranges [29028; 30719]%Z = Some l /\
    (retained 0 [29028; 30719]%Z l \/ blocked 0 [29028; 30719]%Z l) /\
    (retained 0 [29028; 30719]%Z l -> ~ retained 0 [29028]%Z l).
Proof.
  assert (K1 : In [29028; 30719]%Z (keys DSP_DICTIONARY))
    by (apply in_keys_dec; vm_compute; reflexivity).
  assert (K2 : In [29028]%Z (keys DSP_DICTIONARY))
    by (apply in_keys_dec; vm_compute; reflexivity).
  assert (R : ranges_overlap 0 2 0 1) by (unfold ranges_overlap; lia).
  repeat (split; [first [assumption | reflexivity | lia]|]).
  exact (longer_term_wins_unless_blocked [29028; 30719]%Z [29028; 30719]%Z [29028]%Z
           0 0 K1 K2 eq_refl eq_refl (le_n 2) R).
Defined.

(** C1 as stated fails on the name of the Dark-Fog matrix lab
    (U+9ED1 U+96FE U+77E9 U+9635 U+7814 U+7A76 U+7AD9): the five-character
    term at offset 2 is accepted first, so the four-character term at
    offset 0 is rejected and the two-character term inside it is kept. *)
Lemma longer_term_wins_fails :
  ~ longer_term_wins [40657; 38654; 30697; 38453; 30740; 31350; 31449]%Z.
Proof.
  intros H.
  destruct (H [40657; 38654; 30697; 38453]%Z [40657; 38654]%Z 0 0)
    as (l & E & [r R] & _).
  - apply in_keys_dec; vm_compute; reflexivity.
  - apply in_keys_dec; vm_compute; reflexivity.
  - reflexivity.
  - reflexivity.
  - simpl; lia.
  - unfold ranges_overlap; simpl; lia.
  - vm_compute in E. injection E as <-.
    simpl in R. destruct R as [R|[R|[]]]; discriminate R.
Qed.

(** ** Normalisation of the translated stem *)

Lemma is_hyphen_eq (c : char) : is_hyphen c = true -> c = hyphen.
Proof. apply Z.eqb_eq. Qed.

Lemma dropwhile_split (p : char -> bool) (s : str) :
  exists pre, s = pre ++ dropwhile p s /\ forallb p pre = true.
Proof.
  induction s as [|c s (pre & IH & Hp)]; simpl.
  - exists []; split; reflexivity.
  - destruct (p c) eqn:E.
    + exists (c :: pre); simpl. rewrite E, Hp. split; [congruence | reflexivity].
    + exists []; split; reflexivity.
Qed.

Lemma dropwhile_clear (p : char -> bool) (s : str) : starts_clear p (dropwhile p s).
Proof.
  induction s as [|c s IH]; simpl; [exact I|].
  destruct (p c) eqn:E; [exact IH | exact E].
Qed.

Lemma dropwhile_id (p : char -> bool) (s : str) :
  starts_clear p s -> dropwhile p s = s.
Proof. destruct s as [|c s]; simpl; [reflexivity | intros ->; reflexivity]. Qed.

Lemma rev_dropwhile_rev_clear (p : char -> bool) (a : str) :
  starts_clear p a -> starts_clear p (rev (dropwhile p (rev a))).
Proof.
  intros Ha. destruct (dropwhile_split p (rev a)) as (pre & Hs & _).
  apply (f_equal (@rev char)) in Hs. rewrite rev_involutive, rev_app_distr in Hs.
  destruct (rev (dropwhile p (rev a))) as [|c b]; [exact I|].
  rewrite Hs in Ha. exact Ha.
Qed.

Lemma strip_clear (p : char -> bool) (s : str) : starts_clear p (strip p s).
Proof. apply rev_dropwhile_rev_clear, dropwhile_clear. Qed.

Lemma strip_idempotent (p : char -> bool) (s : str) :
  strip p (strip p s) = strip p s.
Proof.
  unfold strip at 1. rewrite (dropwhile_id p (strip p s)) by apply strip_clear.
  unfold strip. rewrite rev_involutive.
  rewrite (dropwhile_id p (dropwhile p _)) by apply dropwhile_clear.
  reflexivity.
Qed.

(** [strip] keeps a piece of the text. *)
Lemma strip_infix (p : char -> bool) (s : str) :
  exists l1 l2, s = l1 ++ strip p s ++ l2.
Proof.
  unfold strip.
  destruct (dropwhile_split p s) as (pre & Hs & _).
  destruct (dropwhile_split p (rev (dropwhile p s))) as (post & Hr & _).
  exists pre, (rev post).
  rewrite <- rev_app_distr, <- Hr, rev_involutive. exact Hs.
Qed.

Lemma squeezed_no_double (prev : bool) (s : str) :
  squeezed_from prev s = true -> no_double_hyphen s.
Proof.
  intros H l1. revert prev s H.
  induction l1 as [|x l1 IH]; intros prev s H l2 ->; simpl in H.
  - change (is_hyphen hyphen) with true in H. simpl in H.
    rewrite andb_false_r in H. discriminate.
  - destruct (is_hyphen x).
    + apply andb_true_iff in H. destruct H as [_ H]. exact (IH _ _ H l2 eq_refl).
    + exact (IH _ _ H l2 eq_refl).
Qed.

Lemma no_double_squeezed (prev : bool) (s : str) :
  no_double_hyphen s -> (prev = true -> starts_clear is_hyphen s) ->
  squeezed_from prev s = true.
Proof.
  revert prev; induction s as [|c s IH]; intros prev Hn Hp; simpl; [reflexivity|].
  assert (Hn' : no_double_hyphen s).
  { intros l1 l2 ->. exact (Hn (c :: l1) l2 eq_refl). }
  destruct (is_hyphen c) eqn:E.
  - apply andb_true_iff; split.
    + destruct prev; [|reflexivity]. simpl in Hp. rewrite Hp in E by reflexivity.
      discriminate.
    + apply IH; [exact Hn'|]. intros _.
      destruct s as [|c' s]; simpl; [exact I|].
      destruct (is_hyphen c') eqn:E'; [|reflexivity].
      apply is_hyphen_eq in E, E'. subst. exfalso. exact (Hn [] s eq_refl).
  - apply IH; [exact Hn' | discriminate].
Qed.

Lemma sub_runs_squeezed (prev : bool) (s : str) :
  squeezed_from prev (sub_runs_from is_hyphen [hyphen] prev s) = true.
Proof.
  revert prev; induction s as [|c s IH]; intros prev; simpl; [reflexivity|].
  destruct (is_hyphen c) eqn:E.
  - destruct prev; simpl.
    + apply IH.
    + change (is_hyphen hyphen) with true. simpl. apply IH.
  - simpl. rewrite E. apply IH.
Qed.

Lemma sub_runs_fixed (prev : bool) (s : str) :
  squeezed_from prev s = true -> sub_runs_from is_hyphen [hyphen] prev s = s.
Proof.
  revert prev; induction s as [|c s IH]; intros prev; simpl; [reflexivity|].
  destruct (is_hyphen c) eqn:E.
  - rewrite andb_true_iff, negb_true_iff. intros [-> H]. simpl.
    rewrite (IH _ H). apply is_hyphen_eq in E. congruence.
  - intros H. rewrite (IH _ H). reflexivity.
Qed.

Lemma no_double_infix (l1 s l2 : str) :
  no_double_hyphen (l1 ++ s ++ l2) -> no_double_hyphen s.
Proof.
  intros H a b ->. apply (H (l1 ++ a) (b ++ l2)).
  rewrite <- !app_assoc. reflexivity.
Qed.

(** C6. Collapsing runs of hyphens and then stripping hyphens at both ends
    is idempotent. *)
Theorem normalize_stem_idempotent (x : str) :
  normalize_stem (normalize_stem x) = normalize_stem x.
Proof.
  unfold normalize_stem, re_sub_runs.
  set (y := sub_runs_from is_hyphen [hyphen] false x).
  assert (Hy : no_double_hyphen y)
    by (eapply squeezed_no_double, sub_runs_squeezed).
  destruct (strip_infix is_hyphen y) as (l1 & l2 & Hs).
  rewrite Hs in Hy. apply no_double_infix in Hy.
  rewrite (sub_runs_fixed false (strip is_hyphen y)).
  - apply strip_idempotent.
  - apply no_double_squeezed; [exact Hy | discriminate].
Qed.

(** ** The monad *)

Lemma add_calls_nil (w : world) : add_calls w [] = w.
Proof. destruct w; unfold add_calls; simpl. rewrite app_nil_r. reflexivity. Qed.

Lemma add_calls_app (w : world) (a b : list str) :
  add_calls (add_calls w a) b = add_calls w (a ++ b).
Proof. unfold add_calls; simpl. rewrite app_assoc. reflexivity. Qed.

Lemma bind_ok {A B : Type} (m : M A) (k : A -> M B) (w w1 : world) (a : A) :
  m w = (Ok a, w1) -> bind m k w = k a w1.
Proof. unfold bind. intros ->. reflexivity. Qed.

Lemma bind_raise {A B : Type} (m : M A) (k : A -> M B) (w w1 : world) (e : exn) :
  m w = (Raise e, w1) -> bind m k w = (Raise e, w1).
Proof. unfold bind. intros ->. reflexivity. Qed.

Lemma foldM_app {A B : Type} (f : B -> A -> M B) (l1 l2 : list A) (acc : B) (w : world) :
  foldM f (l1 ++ l2) acc w = bind (foldM f l1 acc) (foldM f l2) w.
Proof.
  revert acc w; induction l1 as [|x l1 IH]; intros acc w; simpl.
  - reflexivity.
  - unfold bind. destruct (f acc x w) as [[a'| |] w1]; try reflexivity.
    rewrite IH. reflexivity.
Qed.

(** ** Gap resolution *)

Section Gaps.
Context {E : Env}.

Lemma replace_loop_ok (f : str -> str) (l : list (str * nat * nat)) :
  forall (acc : str) (w : world),
    (forall seg, In seg l -> argos_translate (seg_run seg) = Some (f (seg_run seg))) ->
    foldM replace_segment l acc w =
    (Ok (fold_left (fun result seg => put_translation f seg result) l acc),
     add_calls w (map seg_run l)).
Proof.
  induction l as [|[[r a] b] l IH]; intros acc w H; simpl.
  - rewrite add_calls_nil. reflexivity.
  - pose proof (H _ (or_introl eq_refl)) as Hr. unfold seg_run in Hr; simpl in Hr.
    erewrite bind_ok.
    2:{ unfold replace_segment, translator_translate, bind, ret. rewrite Hr. reflexivity. }
    rewrite IH by (intros seg Hs; apply H; right; exact Hs).
    unfold add_calls, put_translation, seg_run, seg_start, seg_end; simpl.
    rewrite <- app_assoc. reflexivity.
Qed.

End Gaps.

(** Replacing from the right leaves the offsets of the runs to the left
    valid: with [text = pre ++ run ++ s], replacing the runs found in
    [run ++ s] gives [pre] followed by the left-to-right resolution. *)
Lemma replace_right_to_left (g : str -> str) (s : str) :
  forall (pre run : str) (pos : nat),
    pos = length pre + length run ->
    fold_right (fun seg result =>
                  firstn (seg_start seg) result ++ g (seg_run seg)
                         ++ skipn (seg_end seg) result)
               (pre ++ run ++ s) (segments_from s pos run)
    = pre ++ resolve_runs g s run.
Proof.
  assert (step : forall (pre run rest : str) (pos : nat),
             pos = length pre + length run ->
             firstn (pos - length run) (pre ++ run ++ rest) ++ g run
                    ++ skipn pos (pre ++ run ++ rest)
             = pre ++ g run ++ rest).
  { intros pre run rest pos ->.
    replace (length pre + length run - length run) with (length pre) by lia.
    assert (F : firstn (length pre) (pre ++ run ++ rest) = pre).
    { rewrite firstn_app, Nat.sub_diag, firstn_0, app_nil_r. apply firstn_all. }
    assert (S : skipn (length pre + length run) (pre ++ run ++ rest) = rest).
    { rewrite app_assoc, skipn_app, skipn_all2 by (rewrite length_app; lia).
      rewrite length_app. replace (_ - _) with 0 by lia. reflexivity. }
    rewrite F, S. reflexivity. }
  induction s as [|c s IH]; intros pre run pos Hpos; cbn [segments_from resolve_runs].
  - destruct (is_empty run) eqn:Er.
    + destruct run; [|discriminate]. reflexivity.
    + cbn [fold_right]. unfold seg_start, seg_end, seg_run; cbn [fst snd].
      rewrite (step pre run [] pos Hpos), app_nil_r. reflexivity.
  - destruct (is_chinese c).
    + specialize (IH pre (run ++ [c]) (S pos)).
      rewrite <- app_assoc in IH. simpl in IH. apply IH.
      rewrite length_app; simpl; lia.
    + rewrite fold_right_app.
      replace (pre ++ run ++ c :: s) with ((pre ++ run ++ [c]) ++ [] ++ s)
        by (rewrite <- !app_assoc; reflexivity).
      rewrite (IH (pre ++ run ++ [c]) [] (S pos))
        by (rewrite !length_app; simpl; lia).
      rewrite <- !app_assoc. cbn [app].
      destruct (is_empty run) eqn:Er.
      * destruct run; [|discriminate]. reflexivity.
      * cbn [fold_right]. unfold seg_start, seg_end, seg_run; cbn [fst snd].
        rewrite (step pre run (c :: resolve_runs g s []) pos Hpos).
        reflexivity.
Qed.

(** The segments are the maximal runs, in order, and no Chinese character
    is outside them. *)
Lemma segments_from_maximal (s : str) :
  forall (pre run : str) (pos : nat),
    pos = length pre + length run ->
    forallb is_chinese run = true ->
    starts_clear is_chinese (rev pre) ->
    Forall (fun seg => maximal_run (pre ++ run ++ s) seg /\ length pre <= seg_start seg)
           (segments_from s pos run).
Proof.
  induction s as [|c s IH]; intros pre run pos Hpos Hrun Hpre; simpl.
  - destruct run as [|x run]; simpl; constructor; [|constructor].
    split.
    + exists pre, []. unfold seg_run, seg_start, seg_end; simpl fst; simpl snd.
      repeat split; try assumption; try discriminate; simpl in *; lia.
    + unfold seg_start; simpl. simpl in Hpos. lia.
  - destruct (is_chinese c) eqn:Ec.
    + specialize (IH pre (run ++ [c]) (S pos)).
      rewrite <- app_assoc in IH. apply IH.
      * rewrite length_app; simpl; lia.
      * rewrite forallb_app, Hrun. simpl. rewrite Ec. reflexivity.
      * assumption.
    + apply Forall_app; split.
      * destruct run as [|x run]; simpl; constructor; [|constructor].
        split.
        -- exists pre, (c :: s). unfold seg_run, seg_start, seg_end; simpl fst; simpl snd.
           repeat split; try assumption; try discriminate; simpl in *; lia.
        -- unfold seg_start; simpl. simpl in Hpos. lia.
      * specialize (IH (pre ++ run ++ [c]) [] (S pos)).
        rewrite <- !app_assoc in IH. simpl in IH.
        eapply Forall_impl; [|apply IH].
        -- intros seg [Hm Hl]. split; [exact Hm|]. rewrite !length_app in Hl. lia.
        -- rewrite !length_app; simpl; lia.
        -- reflexivity.
        -- rewrite !rev_app_distr. simpl. exact Ec.
Qed.

Lemma segments_from_sorted (s : str) :
  forall (run : str) (pos : nat),
    length run <= pos ->
    StronglySorted (fun a b => seg_end a < seg_start b) (segments_from s pos run) /\
    Forall (fun seg => pos - length run <= seg_start seg) (segments_from s pos run).
Proof.
  induction s as [|c s IH]; intros run pos Hpos; simpl.
  - destruct run as [|x run]; simpl; split; repeat constructor.
  - destruct (is_chinese c).
    + destruct (IH (run ++ [c]) (S pos)) as [Hs Hf].
      * rewrite length_app; simpl; lia.
      * split; [exact Hs|]. eapply Forall_impl; [|exact Hf].
        intros seg. rewrite length_app; cbn [length]. lia.
    + destruct (IH [] (S pos)) as [Hs Hf]; [cbn [length]; lia|]. cbn [length] in Hf.
      destruct run as [|x run]; cbn [is_empty is_empty_list app].
      * split; [exact Hs|]. eapply Forall_impl; [|exact Hf]. intros seg.
        cbn [length]. lia.
      * split.
        -- constructor; [exact Hs|]. eapply Forall_impl; [|exact Hf].
           intros seg. unfold seg_end; cbn [fst snd]. lia.
        -- constructor; [unfold seg_start; cbn [fst snd]; lia|].
           eapply Forall_impl; [|exact Hf]. intros seg. cbn beta. lia.
Qed.

Lemma segments_from_cover (s : str) :
  forall (pre run : str) (pos : nat) (l1 l2 : str) (c : char),
    pos = length pre + length run ->
    pre ++ run ++ s = l1 ++ c :: l2 ->
    length pre <= length l1 ->
    is_chinese c = true ->
    exists seg, In seg (segments_from s pos run) /\
                seg_start seg <= length l1 < seg_end seg.
Proof.
  induction s as [|x s IH]; intros pre run pos l1 l2 c Hpos Heq Hl Hc; simpl.
  - assert (Hlen : length (pre ++ run ++ []) = length (l1 ++ c :: l2)) by congruence.
    rewrite !length_app in Hlen. simpl in Hlen.
    destruct run as [|y run]; [simpl in *; lia|].
    exists (y :: run, pos - length (y :: run), pos). split; [left; reflexivity|].
    unfold seg_start, seg_end; simpl in *. lia.
  - destruct (is_chinese x) eqn:Ex.
    + apply (IH pre (run ++ [x]) (S pos) l1 l2 c); try assumption.
      * rewrite length_app; simpl; lia.
      * rewrite <- app_assoc. exact Heq.
    + destruct (Nat.lt_ge_cases (length l1) pos) as [Hlt|Hge].
      * destruct run as [|y run]; [simpl in *; lia|].
        exists (y :: run, pos - length (y :: run), pos). split.
        -- apply in_or_app; left; left; reflexivity.
        -- unfold seg_start, seg_end; simpl in *. lia.
      * destruct (Nat.eq_dec (length l1) pos) as [Heq'|Hne].
        -- exfalso.
           assert (H : nth_error (pre ++ run ++ x :: s) pos = Some x).
           { rewrite app_assoc, nth_error_app2 by (rewrite length_app; lia).
             rewrite length_app. replace (pos - _) with 0 by lia. reflexivity. }
           rewrite Heq, nth_error_app2, Heq', Nat.sub_diag in H by lia.
           simpl in H. congruence.
        -- destruct (IH (pre ++ run ++ [x]) [] (S pos) l1 l2 c) as (seg & Hin & Hr);
             try assumption.
           ++ rewrite !length_app; simpl; lia.
           ++ rewrite <- !app_assoc. exact Heq.
           ++ rewrite !length_app; simpl; lia.
           ++ exists seg. split; [apply in_or_app; right; exact Hin | exact Hr].
Qed.

Lemma filter_forallb {A : Type} (p : A -> bool) (l : list A) :
  forallb p (filter p l) = true.
Proof.
  induction l as [|x l IH]; simpl; [reflexivity|].
  destruct (p x) eqn:E; simpl; [rewrite E|]; exact IH.
Qed.

(** C7. Gap resolution sends each maximal run of Chinese characters to the
    translator once (the runs are disjoint, cover every Chinese character
    and are sent last to first); what comes back is cleaned to word
    characters, hyphens and periods; and the result of the right-to-left
    substitution is the text with each run replaced in place and every
    other character unchanged. *)
Theorem translate_remaining_chinese_resolves_runs
        {E : Env} (f : str -> str) (text : str) (w : world) :
  (forall seg, In seg (extract_chinese_segments text) ->
               argos_translate (seg_run seg) = Some (f (seg_run seg))) ->
  Forall (maximal_run text) (extract_chinese_segments text) /\
  StronglySorted (fun a b => seg_end a < seg_start b) (extract_chinese_segments text) /\
  (forall l1 c l2, text = l1 ++ c :: l2 -> is_chinese c = true ->
     exists seg, In seg (extract_chinese_segments text) /\
                 seg_start seg <= length l1 < seg_end seg) /\
  (forall run, forallb allowed_char (clean_translation (f run)) = true) /\
  translate_remaining_chinese text w =
  (Ok (resolve_runs (fun run => clean_translation (f run)) text []),
   add_calls w (rev (map seg_run (extract_chinese_segments text)))).
Proof.
  intros H. unfold extract_chinese_segments in *.
  split; [|split; [|split; [|split]]].
  - eapply Forall_impl; [|apply (segments_from_maximal text [] [] 0); reflexivity].
    intros seg [Hm _]. exact Hm.
  - apply (segments_from_sorted text [] 0). apply Nat.le_0_l.
  - intros l1 c l2 Ht Hc.
    apply (segments_from_cover text [] [] 0 l1 l2 c); auto. apply Nat.le_0_l.
  - intros run. apply filter_forallb.
  - pose proof (replace_right_to_left (fun run => clean_translation (f run)) text [] [] 0 eq_refl)
      as R. simpl in R.
    unfold translate_remaining_chinese, extract_chinese_segments.
    destruct (segments_from text 0 []) as [|seg segs] eqn:Es.
    + simpl in *. rewrite <- R, add_calls_nil. reflexivity.
    + cbn [is_empty_list]. rewrite <- Es in *. clear Es.
      rewrite (replace_loop_ok f).
      * rewrite map_rev. f_equal. f_equal.
        rewrite <- R.
        rewrite <- (fold_left_rev_right (fun seg result => put_translation f seg result)).
        rewrite rev_involutive. reflexivity.
      * intros s Hs. apply H. apply in_rev. exact Hs.
Qed.

Lemma translate_remaining_chinese_resolves_runs_witness :
  (forall seg, In seg (extract_chinese_segments (cp "a" ++ [20179; 24211] ++ cp "b")%Z) ->
               @argos_translate stub_env (seg_run seg) = Some stub_answer) /\
  @translate_remaining_chinese stub_env (cp "a" ++ [20179; 24211] ++ cp "b")%Z
                               (empty_world File) =
  (Ok (cp "aWare-houseb"), World File [[20179; 24211]%Z] [] []).
Proof.
  split.
  - intros seg _. reflexivity.
  - exact (proj2 (proj2 (proj2 (proj2
      (@translate_remaining_chinese_resolves_runs stub_env (fun _ => stub_answer)
         (cp "a" ++ [20179; 24211] ++ cp "b")%Z (empty_world File)
         (fun seg _ => eq_refl)))))).
Defined.

(** ** Translating a name *)

Lemma infix_refl (t : str) : infix t t.
Proof. exists [], []. rewrite app_nil_r. reflexivity. Qed.

Lemma infix_trans (a b c : str) : infix a b -> infix b c -> infix a c.
Proof.
  intros (l1 & l2 & ->) (m1 & m2 & ->). exists (m1 ++ l1), (l2 ++ m2).
  rewrite <- !app_assoc. reflexivity.
Qed.

Lemma infix_skipn (n : nat) (t : str) : infix (skipn n t) t.
Proof.
  exists (firstn n t), []. rewrite app_nil_r. symmetry. apply firstn_skipn.
Qed.

Lemma infix_firstn (n : nat) (t : str) : infix (firstn n t) t.
Proof. exists [], (skipn n t). symmetry. apply firstn_skipn. Qed.

Lemma infix_slice (a b : nat) (t : str) : infix (slice t a b) t.
Proof.
  unfold slice. eapply infix_trans; [apply infix_firstn | apply infix_skipn].
Qed.

Lemma calls_within_ret {A : Type} (t : str) (a : A) : calls_within t (ret a).
Proof.
  intros w o w' [= <- <-]. exists []. rewrite add_calls_nil. split; constructor.
Qed.

Lemma calls_within_out_of_fuel {A : Type} (t : str) : calls_within t (@out_of_fuel A).
Proof.
  intros w o w' [= <- <-]. exists []. rewrite add_calls_nil. split; constructor.
Qed.

Lemma calls_within_bind {A B : Type} (t : str) (m : M A) (k : A -> M B) :
  calls_within t m -> (forall a, calls_within t (k a)) -> calls_within t (bind m k).
Proof.
  intros Hm Hk w o w'. unfold bind.
  destruct (m w) as [[a|e|] w1] eqn:Em;
    destruct (Hm _ _ _ Em) as (cs & -> & Hcs).
  - intros Ek. destruct (Hk a _ _ _ Ek) as (cs' & -> & Hcs').
    exists (cs ++ cs'). rewrite add_calls_app. split; [reflexivity|].
    apply Forall_app; split; assumption.
  - intros [= <- <-]. exists cs. split; [reflexivity | assumption].
  - intros [= <- <-]. exists cs. split; [reflexivity | assumption].
Qed.

Lemma calls_within_foldM {A B : Type} (t : str) (f : B -> A -> M B) (l : list A) :
  (forall acc x, In x l -> calls_within t (f acc x)) ->
  forall acc, calls_within t (foldM f l acc).
Proof.
  induction l as [|x l IH]; intros H acc; simpl.
  - apply calls_within_ret.
  - apply calls_within_bind.
    + apply H. left; reflexivity.
    + intros a. apply IH. intros acc' y Hy. apply H. right; exact Hy.
Qed.

Lemma calls_within_mono {A : Type} (t t' : str) (m : M A) :
  infix t t' -> calls_within t m -> calls_within t' m.
Proof.
  intros Hi Hm w o w' Hw. destruct (Hm _ _ _ Hw) as (cs & -> & Hcs).
  exists cs. split; [reflexivity|].
  eapply Forall_impl; [|exact Hcs]. intros c Hc. exact (infix_trans _ _ _ Hc Hi).
Qed.

Section Names.
Context {E : Env}.

Lemma calls_within_translate (t chinese : str) :
  infix chinese t -> calls_within t (translator_translate chinese).
Proof.
  intros Hi w o w'. unfold translator_translate.
  destruct (argos_translate chinese); intros [= <- <-];
    exists [chinese]; (split; [reflexivity | repeat constructor; exact Hi]).
Qed.

Lemma maximal_run_infix (text : str) (seg : str * nat * nat) :
  maximal_run text seg -> infix (seg_run seg) text.
Proof. intros (l1 & l2 & H & _). exists l1, l2. exact H. Qed.

Lemma segments_maximal (text : str) :
  Forall (maximal_run text) (extract_chinese_segments text).
Proof.
  eapply Forall_impl; [|apply (segments_from_maximal text [] [] 0); reflexivity].
  intros seg [Hm _]. exact Hm.
Qed.

Lemma calls_within_remaining (text : str) :
  calls_within text (translate_remaining_chinese text).
Proof.
  unfold translate_remaining_chinese.
  destruct (is_empty_list _); [apply calls_within_ret|].
  apply calls_within_foldM. intros acc [[r a] b] Hin.
  apply in_rev in Hin.
  pose proof (segments_maximal text) as Hm. rewrite Forall_forall in Hm.
  apply Hm, maximal_run_infix in Hin. unfold seg_run in Hin; simpl in Hin.
  unfold replace_segment. apply calls_within_bind.
  - apply calls_within_translate. exact Hin.
  - intros t. apply calls_within_ret.
Qed.

Lemma calls_within_gap (text : str) (parts : list str) (gap : str) :
  infix gap text -> calls_within text (append_gap parts gap).
Proof.
  intros Hi. unfold append_gap.
  destruct (is_empty gap); [apply calls_within_ret|].
  apply calls_within_bind; [|intros g; apply calls_within_ret].
  destruct (contains_chinese gap); [|apply calls_within_ret].
  eapply calls_within_mono; [exact Hi | apply calls_within_remaining].
Qed.

Lemma calls_within_dictionary (text : str) :
  calls_within text (translate_with_dictionary text).
Proof.
  unfold translate_with_dictionary.
  destruct (matched_ranges text) as [matched|]; [|apply calls_within_out_of_fuel].
  destruct (is_empty_list matched); [apply calls_within_remaining|].
  apply calls_within_bind.
  - apply calls_within_foldM. intros [parts last_end] [[a b] r] _.
    unfold append_match. apply calls_within_bind.
    + apply calls_within_gap, infix_slice.
    + intros p. apply calls_within_ret.
  - intros [parts last_end]. apply calls_within_bind.
    + apply calls_within_gap, infix_skipn.
    + intros p. apply calls_within_ret.
Qed.

End Names.

(** *** Stem and suffix *)

Lemma rfind_some (c : char) (s : str) (i : nat) :
  rfind c s = Some i ->
  exists l1 l2, s = l1 ++ c :: l2 /\ length l1 = i /\ ~ In c l2.
Proof.
  revert i; induction s as [|x s IH]; intros i; simpl; [discriminate|].
  destruct (rfind c s) as [j|] eqn:Ej.
  - intros [= <-]. destruct (IH j eq_refl) as (l1 & l2 & -> & <- & Hn).
    exists (x :: l1), l2. repeat split; assumption.
  - destruct (Z.eqb_spec x c) as [->|]; [|discriminate].
    intros [= <-]. exists [], s. repeat split.
    clear IH. induction s as [|y s IH]; simpl in *; [tauto|].
    destruct (rfind c s); [discriminate|].
    destruct (Z.eqb_spec y c); [discriminate|].
    intros [H|H]; [congruence | exact (IH eq_refl H)].
Qed.

Lemma rfind_none (c : char) (s : str) : ~ In c s -> rfind c s = None.
Proof.
  induction s as [|x s IH]; simpl; [reflexivity|].
  intros H. rewrite IH by tauto.
  destruct (Z.eqb_spec x c); [exfalso; apply H; left; assumption | reflexivity].
Qed.

Lemma rfind_last (c : char) (l1 l2 : str) :
  ~ In c l2 -> rfind c (l1 ++ c :: l2) = Some (length l1).
Proof.
  intros H. induction l1 as [|x l1 IH]; simpl.
  - rewrite (rfind_none _ _ H), Z.eqb_refl. reflexivity.
  - rewrite IH. reflexivity.
Qed.

Lemma name_suffix_found (l1 ext : str) :
  l1 <> [] -> ext <> [] -> ~ In period ext ->
  name_suffix (l1 ++ period :: ext) = period :: ext.
Proof.
  intros H1 H2 Hn. unfold name_suffix. rewrite (rfind_last _ l1 _ Hn).
  rewrite length_app. simpl.
  replace ((0 <? length l1) && (length l1 <? length l1 + S (length ext) - 1)) with true.
  - rewrite skipn_app, skipn_all, Nat.sub_diag. reflexivity.
  - symmetry. apply andb_true_iff. rewrite !Nat.ltb_lt.
    destruct l1; [congruence|]. destruct ext; [congruence|]. simpl. lia.
Qed.

Lemma name_stem_suffix (name : str) : name_stem name ++ name_suffix name = name.
Proof.
  unfold name_stem, name_suffix.
  destruct (rfind period name) as [i|]; [|apply app_nil_r].
  destruct ((0 <? i) && (i <? length name - 1)); [apply firstn_skipn | apply app_nil_r].
Qed.

Lemma name_suffix_last_extension (name : str) : last_extension (name_suffix name).
Proof.
  unfold name_suffix, last_extension.
  destruct (rfind period name) as [i|] eqn:Er; [|left; reflexivity].
  destruct ((0 <? i) && (i <? length name - 1)) eqn:Ei; [|left; reflexivity].
  right. apply andb_true_iff in Ei. destruct Ei as [_ Ei]. apply Nat.ltb_lt in Ei.
  destruct (rfind_some _ _ _ Er) as (l1 & l2 & -> & <- & Hn).
  exists l2. rewrite skipn_app, skipn_all, Nat.sub_diag. simpl.
  repeat split; [|exact Hn].
  intros ->. rewrite length_app in Ei. simpl in Ei. lia.
Qed.

Lemma split_on_no_sep (sep : char) (s cur : str) :
  existsb (Z.eqb sep) s = false -> split_on sep s cur = [cur ++ s].
Proof.
  revert cur; induction s as [|c s IH]; intros cur; simpl.
  - rewrite app_nil_r. reflexivity.
  - rewrite orb_false_iff, Z.eqb_sym. intros [-> H].
    rewrite IH by exact H. rewrite <- app_assoc. reflexivity.
Qed.

Lemma parts_of_base_name (name : str) :
  no_slash name -> is_empty name = false -> str_eqb name [period] = false ->
  parts_of name = [name].
Proof.
  intros Hs He Hp. unfold parts_of. rewrite split_on_no_sep by exact Hs.
  simpl. rewrite He, Hp. reflexivity.
Qed.

Lemma chinese_not_trivial (name : str) :
  contains_chinese name = true ->
  is_empty name = false /\ str_eqb name [period] = false.
Proof.
  intros H. split.
  - destruct name; [discriminate H | reflexivity].
  - destruct (str_eqb name [period]) eqn:Ep; [|reflexivity].
    apply str_eqb_eq in Ep. subst. discriminate H.
Qed.

Lemma str_suffix_base_name (name : str) :
  no_slash name -> contains_chinese name = true ->
  str_suffix name = name_suffix name /\ str_stem name = name_stem name.
Proof.
  intros Hs Hc. destruct (chinese_not_trivial _ Hc) as [He Hp].
  unfold str_suffix, str_stem. rewrite parts_of_base_name by assumption.
  split; reflexivity.
Qed.

(** C5. A base name that [translate_name] processes is split into a stem
    and its last extension (a period that is neither first nor last,
    followed by no other period; empty when there is none); the translator
    is only asked about pieces of the stem, the stem alone goes through
    [translate_with_dictionary], and the result is the normalised
    translation of the stem followed by the extension as it was. *)
Theorem translate_name_preserves_extension
        {E : Env} (name : str) (w : world) :
  no_slash name -> contains_chinese name = true ->
  exists stem suffix,
    name = stem ++ suffix /\
    last_extension suffix /\
    (forall l1 ext, name = l1 ++ period :: ext -> l1 <> [] -> ext <> [] ->
                    ~ In period ext -> suffix = period :: ext) /\
    forall o w', translate_name name w = (o, w') ->
      (exists cs, w' = add_calls w cs /\ Forall (fun c => infix c stem) cs) /\
      (forall r, o = Ok r ->
         exists t, translate_with_dictionary stem w = (Ok t, w') /\
                   r = normalize_stem t ++ suffix).
Proof.
  intros Hs Hc. destruct (str_suffix_base_name _ Hs Hc) as [Esuf Estem].
  set (stem := if is_empty (str_suffix name) then name else str_stem name).
  exists stem, (str_suffix name).
  assert (Hsplit : name = stem ++ str_suffix name).
  { subst stem. destruct (is_empty (str_suffix name)) eqn:Ee.
    - destruct (str_suffix name); [|discriminate Ee].
      rewrite app_nil_r. reflexivity.
    - rewrite Esuf, Estem. symmetry. apply name_stem_suffix. }
  split; [exact Hsplit|]. split; [rewrite Esuf; apply name_suffix_last_extension|].
  split.
  { intros l1 ext Hn H1 H2 Hp. rewrite Esuf, Hn. apply name_suffix_found; assumption. }
  intros o w'. unfold translate_name. rewrite Hc. cbn [negb]. fold stem.
  intros H. split.
  - revert H. apply (calls_within_bind stem).
    + apply calls_within_dictionary.
    + intros t. apply calls_within_ret.
  - intros r ->. unfold bind in H.
    destruct (translate_with_dictionary stem w) as [[t|e|] w1]; try discriminate.
    injection H as <- <-. exists t. split; reflexivity.
Qed.

Lemma translate_name_preserves_extension_witness :
  no_slash ([38081; 30719; 20179; 24211]%Z ++ cp ".txt") /\
  contains_chinese ([38081; 30719; 20179; 24211]%Z ++ cp ".txt") = true /\
  exists stem suffix,
    [38081; 30719; 20179; 24211]%Z ++ cp ".txt" = stem ++ suffix /\
    last_extension suffix /\
    (forall l1 ext,
        [38081; 30719; 20179; 24211]%Z ++ cp ".txt" = l1 ++ period :: ext ->
        l1 <> [] -> ext <> [] -> ~ In period ext -> suffix = period :: ext) /\
    forall o w',
      @translate_name stub_env ([38081; 30719; 20179; 24211]%Z ++ cp ".txt")
                      (empty_world File) = (o, w') ->
      (exists cs, w' = add_calls (empty_world File) cs /\
                  Forall (fun c => infix c stem) cs) /\
      (forall r, o = Ok r ->
         exists t, @translate_with_dictionary stub_env stem (empty_world File)
                   = (Ok t, w') /\
                   r = normalize_stem t ++ suffix).
Proof.
  split; [reflexivity|]. split; [reflexivity|].
  exact (@translate_name_preserves_extension stub_env
           ([38081; 30719; 20179; 24211]%Z ++ cp ".txt") (empty_world File)
           eq_refl eq_refl).
Defined.

(** *** Names with Chinese characters in the extension only *)

Lemma dictionary_terms_chinese :
  forallb (fun t => existsb is_chinese t) (keys DSP_DICTIONARY) = true.
Proof. vm_compute. reflexivity. Qed.

Lemma occurs_at_contains (s t : str) (i : nat) :
  occurs_at s t i = true -> contains_chinese t = true -> contains_chinese s = true.
Proof.
  rewrite occurs_at_iff. intros (pre & post & -> & _) H.
  unfold contains_chinese in *. rewrite !existsb_app, H. apply orb_true_r.
Qed.

Lemma matched_ranges_no_chinese (s : str) :
  contains_chinese s = false -> matched_ranges s = Some [].
Proof.
  intros Hs. destruct (matched_ranges_in_spec DSP_DICTIONARY s) as (l & E & _ & _ & Hm & _).
  unfold matched_ranges. rewrite E. destruct l as [|m l]; [reflexivity|].
  exfalso. inversion Hm as [|? ? Hx _]; subst.
  destruct Hx as (t & Ht & _ & Ho & _).
  pose proof dictionary_terms_chinese as Hd. rewrite forallb_forall in Hd.
  rewrite (occurs_at_contains _ _ _ Ho (Hd _ Ht)) in Hs. discriminate.
Qed.

Lemma segments_no_chinese (s : str) :
  contains_chinese s = false -> extract_chinese_segments s = [].
Proof.
  intros Hs. pose proof (segments_maximal s) as Hm.
  destruct (extract_chinese_segments s) as [|seg l]; [reflexivity|].
  exfalso. inversion Hm as [|? ? Hx _]; subst.
  destruct Hx as (l1 & l2 & Ht & _ & _ & Hne & Hall & _).
  destruct (seg_run seg) as [|c r]; [congruence|]. simpl in Hall.
  apply andb_true_iff in Hall. destruct Hall as [Hc _].
  rewrite Ht in Hs. unfold contains_chinese in Hs.
  rewrite existsb_app in Hs. simpl in Hs. rewrite Hc, orb_true_r in Hs. discriminate.
Qed.

Section ExtensionOnly.
Context {E : Env}.

Lemma translate_with_dictionary_no_chinese (s : str) (w : world) :
  contains_chinese s = false -> translate_with_dictionary s w = (Ok s, w).
Proof.
  intros Hs. unfold translate_with_dictionary, translate_remaining_chinese.
  rewrite (matched_ranges_no_chinese _ Hs). cbn [is_empty_list].
  rewrite (segments_no_chinese _ Hs). reflexivity.
Qed.

Lemma collect_items_in (fs : node) (root_dir dirpath : path)
      (dirnames filenames : list str) (name : str) :
  In (dirpath, dirnames, filenames) (os_walk fs root_dir) ->
  in_parts git_name dirpath || in_parts venv_name dirpath = false ->
  contains_chinese name = true ->
  (In name filenames -> In (ItemFile, path_join dirpath name) (collect_items fs root_dir)) /\
  (In name dirnames -> In (ItemDir, path_join dirpath name) (collect_items fs root_dir)).
Proof.
  intros Hw Hg Hc. unfold collect_items.
  split; intros Hn; apply in_flat_map; exists (dirpath, dirnames, filenames);
    (split; [exact Hw|]); unfold collect_triple; rewrite Hg; apply in_or_app.
  - left. apply in_map with (f := fun filename => (ItemFile, path_join dirpath filename)).
    apply filter_In. split; assumption.
  - right. apply in_map with (f := fun dirname => (ItemDir, path_join dirpath dirname)).
    apply filter_In. split; [exact Hn|]. rewrite Hc, andb_true_r.
    apply negb_true_iff, orb_false_iff.
    split; apply str_eqb_neq; intros ->; discriminate Hc.
Qed.

(** C10, as the code has it. A base name whose Chinese characters are all
    in its extension needs no translator: [translate_name] returns the
    normalised stem followed by the extension. When the stem is already
    normalised that is the name itself; the entry is then among the
    collected candidates and its turn of the processing loop renames
    nothing: it leaves the count and the world as they are, and raises
    only when [exists()] raises for the path of the entry. *)
Theorem extension_only_name (name : str) (w : world) :
  no_slash name -> contains_chinese name = true ->
  contains_chinese (str_stem name) = false -> str_suffix name <> [] ->
  translate_name name w = (Ok (normalize_stem (str_stem name) ++ str_suffix name), w) /\
  (normalize_stem (str_stem name) = str_stem name ->
   translate_name name w = (Ok name, w) /\
   forall dry_run ty item_path n,
     path_name item_path = name ->
     process_item dry_run n (ty, item_path) w
     = if stat_permits item_path then (Ok n, w)
       else (Raise (StatError item_path), w)) /\
  (forall fs root_dir dirpath dirnames filenames,
     In (dirpath, dirnames, filenames) (os_walk fs root_dir) ->
     in_parts git_name dirpath || in_parts venv_name dirpath = false ->
     (In name filenames ->
      In (ItemFile, path_join dirpath name) (collect_items fs root_dir)) /\
     (In name dirnames ->
      In (ItemDir, path_join dirpath name) (collect_items fs root_dir))).
Proof.
  intros Hs Hc Hstem Hsuf.
  assert (T : translate_name name w
              = (Ok (normalize_stem (str_stem name) ++ str_suffix name), w)).
  { unfold translate_name. rewrite Hc. cbn [negb].
    destruct (is_empty (str_suffix name)) eqn:Ee.
    - destruct (str_suffix name); [congruence | discriminate Ee].
    - erewrite bind_ok by (apply translate_with_dictionary_no_chinese; exact Hstem).
      reflexivity. }
  split; [exact T|]. split.
  - intros Hn.
    assert (T' : translate_name name w = (Ok name, w)).
    { rewrite T, Hn. destruct (str_suffix_base_name _ Hs Hc) as [-> ->].
      rewrite name_stem_suffix. reflexivity. }
    split; [exact T'|].
    intros dry_run ty item_path n Hp. unfold process_item, path_exists.
    unfold bind at 1. destruct (stat_permits item_path); [|reflexivity].
    destruct (fs_exists (w_fs w) item_path); [|reflexivity].
    cbn [negb]. rewrite Hp. erewrite bind_ok by exact T'.
    rewrite str_eqb_refl. reflexivity.
  - intros fs root_dir dirpath dirnames filenames Hw Hg.
    exact (collect_items_in fs root_dir dirpath dirnames filenames name Hw Hg Hc).
Qed.

End ExtensionOnly.

Lemma extension_only_name_witness :
  no_slash (cp "a-b." ++ [29028]%Z) /\
  contains_chinese (cp "a-b." ++ [29028]%Z) = true /\
  contains_chinese (str_stem (cp "a-b." ++ [29028]%Z)) = false /\
  str_suffix (cp "a-b." ++ [29028]%Z) <> [] /\
  @translate_name stub_env (cp "a-b." ++ [29028]%Z) (empty_world File)
  = (Ok (cp "a-b." ++ [29028]%Z), empty_world File).
Proof.
  assert (H : str_suffix (cp "a-b." ++ [29028]%Z) <> []) by discriminate.
  repeat (split; [first [reflexivity | exact H]|]).
  exact (proj1 (@extension_only_name stub_env (cp "a-b." ++ [29028]%Z)
                  (empty_world File) eq_refl eq_refl eq_refl H)).
Defined.

(** C10 as stated fails on a name whose stem has two hyphens in a row:
    the stem is normalised although nothing in it is translated. *)
Lemma extension_only_unchanged_fails :
  ~ @extension_only_unchanged stub_env (cp "a--b." ++ [29028]%Z).
Proof.
  intros H.
  specialize (H eq_refl eq_refl eq_refl).
  assert (Hs : str_suffix (cp "a--b." ++ [29028]%Z) <> []) by discriminate.
  specialize (H Hs (empty_world File)).
  vm_compute in H. discriminate H.
Qed.

(** ** The tree scan *)

Lemma node_induction (P : node -> Prop) :
  P File ->
  (forall es, Forall (fun e => P (snd e)) es -> P (Dir es)) ->
  (forall target, P (Link target)) ->
  forall n, P n.
Proof.
  intros HF HD HL. fix IH 1. intros [|es|target]; [exact HF| |apply HL].
  apply HD. induction es as [|e es IHes]; constructor; [apply IH | exact IHes].
Qed.

Lemma nodup_names_iff (l : list str) : nodup_names l = true <-> NoDup l.
Proof.
  induction l as [|x l IH]; simpl.
  - split; [constructor | reflexivity].
  - rewrite andb_true_iff, negb_true_iff, IH. split.
    + intros [Hx Hl]. constructor; [|exact Hl]. intros Hin.
      assert (Ht : existsb (str_eqb x) l = true).
      { apply existsb_exists. exists x. split; [exact Hin | apply str_eqb_refl]. }
      congruence.
    + inversion 1; subst. split; [|assumption].
      destruct (existsb (str_eqb x) l) eqn:Ex; [|reflexivity].
      apply existsb_exists in Ex. destruct Ex as (y & Hy & He).
      apply str_eqb_eq in He. subst. contradiction.
Qed.

Lemma wf_dir (es : list (str * node)) :
  wf_node (Dir es) = true ->
  NoDup (map fst es) /\ forallb plain_name (map fst es) = true /\
  Forall (fun e => wf_node (snd e) = true) es.
Proof.
  simpl. intros H. apply andb_true_iff in H. destruct H as [H Hw].
  apply andb_true_iff in H. destruct H as [Hn Hp].
  split; [apply nodup_names_iff; exact Hn|]. split; [exact Hp|].
  apply Forall_forall. rewrite forallb_forall in Hw. exact Hw.
Qed.

Lemma path_join_plain (p : path) (name : str) :
  plain_name name = true -> path_join p name = p ++ [name].
Proof.
  unfold plain_name. rewrite !andb_true_iff, !negb_true_iff.
  intros [[[He Hp] _] Hs].
  unfold path_join. destruct name as [|c name]; [discriminate He|].
  assert (Hc : (c =? slash)%Z = false).
  { simpl in Hs. apply orb_false_iff in Hs. destruct Hs as [Hs _].
    rewrite Z.eqb_sym. exact Hs. }
  rewrite Hc, parts_of_base_name; auto.
Qed.

Lemma lookup_entry_in (es : list (str * node)) (name : str) (x : node) :
  NoDup (map fst es) -> In (name, x) es -> lookup_entry name es = Some x.
Proof.
  induction es as [|[n y] es IH]; simpl; [tauto|].
  intros Hn [H|H].
  - injection H as -> ->. rewrite str_eqb_refl. reflexivity.
  - inversion Hn as [|? ? Hnot Hn']; subst. destruct (str_eqb n name) eqn:En.
    + apply str_eqb_eq in En. subst. exfalso. apply Hnot.
      apply in_map_iff. exists (name, x). split; [reflexivity | exact H].
    + apply IH; assumption.
Qed.

Lemma lookup_entry_some (es : list (str * node)) (name : str) :
  In name (map fst es) -> exists x, lookup_entry name es = Some x /\ In (name, x) es.
Proof.
  induction es as [|[n y] es IH]; simpl; [tauto|].
  destruct (str_eqb n name) eqn:En.
  - apply str_eqb_eq in En. subst. intros _. exists y. split; [reflexivity | left; reflexivity].
  - intros [H|H]; [subst; rewrite str_eqb_refl in En; discriminate|].
    destruct (IH H) as (x & Hx & Hin). exists x. split; [exact Hx | right; exact Hin].
Qed.

Lemma pairs_app {A : Type} (R : A -> A -> Prop) (l1 l2 : list A) :
  ForallOrdPairs R l1 -> ForallOrdPairs R l2 ->
  (forall x y, In x l1 -> In y l2 -> R x y) ->
  ForallOrdPairs R (l1 ++ l2).
Proof.
  induction 1 as [|a l1 Ha H1 IH]; simpl; intros H2 Hc; [exact H2|].
  constructor.
  - apply Forall_app; split; [exact Ha|]. apply Forall_forall.
    intros y Hy. apply Hc; [left; reflexivity | exact Hy].
  - apply IH; [exact H2|]. intros x y Hx Hy. apply Hc; [right; exact Hx | exact Hy].
Qed.

Lemma flat_map_nested {A B C : Type} (f : B -> list C) (g : A -> list B) (l : list A) :
  flat_map f (flat_map g l) = flat_map (fun x => flat_map f (g x)) l.
Proof.
  induction l as [|x l IH]; simpl; [reflexivity|].
  rewrite flat_map_app, IH. reflexivity.
Qed.

Lemma scan_dir (fs : node) (top : path) (es : list (str * node)) :
  scan fs top (Dir es) =
  flat_map (fun e => scan fs (top ++ [fst e]) (snd e)) es
  ++ collect_triple (top, dirnames_of fs top es, filenames_of fs top es).
Proof.
  unfold scan. simpl. rewrite flat_map_app, flat_map_nested. simpl.
  rewrite app_nil_r. reflexivity.
Qed.

Lemma filter_names_nodup (p : str * node -> bool) (es : list (str * node)) :
  NoDup (map fst es) -> NoDup (map fst (filter p es)).
Proof.
  induction es as [|e es IH]; simpl; intros Hn; [constructor|].
  inversion Hn as [|? ? Hnot Hn']; subst.
  destruct (p e); simpl; [|apply IH; exact Hn'].
  constructor; [|apply IH; exact Hn'].
  intros Hin. apply Hnot. apply in_map_iff in Hin.
  destruct Hin as (e' & He & Hf). apply filter_In in Hf.
  apply in_map_iff. exists e'. tauto.
Qed.

Lemma filter_nodup {A : Type} (p : A -> bool) (l : list A) :
  NoDup l -> NoDup (filter p l).
Proof.
  induction 1 as [|x l Hx Hl IH]; simpl; [constructor|].
  destruct (p x); [|exact IH]. constructor; [|exact IH].
  intros Hin. apply filter_In in Hin. tauto.
Qed.

Lemma map_snoc_nodup (top : path) (l : list str) :
  NoDup l -> NoDup (map (fun name => top ++ [name]) l).
Proof.
  induction 1 as [|x l Hx Hl IH]; simpl; constructor; [|exact IH].
  intros Hin. apply in_map_iff in Hin. destruct Hin as (y & Hy & Hin).
  apply app_inv_head in Hy. injection Hy as ->. contradiction.
Qed.

(** The candidates of one directory: its own entries, each once. *)
Lemma direct_items (fs : node) (top : path) (es : list (str * node)) :
  forallb plain_name (map fst es) = true -> NoDup (map fst es) ->
  NoDup (map snd (collect_triple (top, dirnames_of fs top es, filenames_of fs top es))) /\
  forall q, In q (map snd (collect_triple (top, dirnames_of fs top es,
                                           filenames_of fs top es))) ->
            exists name, In name (map fst es) /\ q = top ++ [name].
Proof.
  intros Hp Hn. unfold collect_triple.
  destruct (in_parts git_name top || in_parts venv_name top).
  { split; [constructor | intros q []]. }
  set (files := filter contains_chinese (filenames_of fs top es)).
  set (ds := filter (fun dirname =>
                       negb (str_eqb dirname git_name || str_eqb dirname venv_name)
                       && contains_chinese dirname) (dirnames_of fs top es)).
  assert (Hfs : forall name, In name files -> In name (filenames_of fs top es))
    by (intros name H; apply filter_In in H; tauto).
  assert (Hds : forall name, In name ds -> In name (dirnames_of fs top es))
    by (intros name H; apply filter_In in H; tauto).
  assert (Hfin : forall name, In name (filenames_of fs top es) ->
                   exists x, In (name, x) es /\ is_dir_entry fs top (name, x) = false).
  { intros name H. apply in_map_iff in H. destruct H as ([n x] & <- & H).
    apply filter_In in H. destruct H as [H Hx]. exists x.
    split; [exact H | apply negb_true_iff; exact Hx]. }
  assert (Hdin : forall name, In name (dirnames_of fs top es) ->
                   exists x, In (name, x) es /\ is_dir_entry fs top (name, x) = true).
  { intros name H. apply in_map_iff in H. destruct H as ([n x] & <- & H).
    apply filter_In in H. destruct H as [H Hx]. exists x. split; assumption. }
  assert (Hall : forall name, In name (files ++ ds) -> In name (map fst es)).
  { intros name H. apply in_app_or in H. destruct H as [H|H].
    - apply Hfs, Hfin in H. destruct H as (x & H & _). apply in_map_iff.
      exists (name, x). auto.
    - apply Hds, Hdin in H. destruct H as (x & H & _). apply in_map_iff.
      exists (name, x). auto. }
  assert (Heq : map snd
                  (map (fun filename => (ItemFile, path_join top filename)) files
                   ++ map (fun dirname => (ItemDir, path_join top dirname)) ds)
                = map (fun name => top ++ [name]) (files ++ ds)).
  { rewrite !map_app, !map_map. simpl.
    rewrite forallb_forall in Hp.
    f_equal; apply map_ext_in; intros name H; apply path_join_plain, Hp, Hall;
      apply in_or_app; [left | right]; exact H. }
  rewrite Heq. split.
  - apply map_snoc_nodup. apply NoDup_app.
    + apply filter_nodup, filter_names_nodup, Hn.
    + apply filter_nodup, filter_names_nodup, Hn.
    + intros name Hf Hd. apply Hfs, Hfin in Hf. apply Hds, Hdin in Hd.
      destruct Hf as (x & Hf & Ef). destruct Hd as (y & Hd & Ed).
      pose proof (lookup_entry_in es name x Hn Hf) as L1.
      pose proof (lookup_entry_in es name y Hn Hd) as L2.
      assert (x = y) by congruence. subst y. congruence.
  - intros q Hq. apply in_map_iff in Hq. destruct Hq as (name & <- & Hin).
    exists name. split; [apply Hall; exact Hin | reflexivity].
Qed.

Lemma sub_scans_good (fs : node) (top : path) (es : list (str * node)) :
  NoDup (map fst es) ->
  Forall (fun e => forall top', good_scan fs top' (snd e)) es ->
  bottom_up (map snd (flat_map (fun e => scan fs (top ++ [fst e]) (snd e)) es)) /\
  NoDup (map snd (flat_map (fun e => scan fs (top ++ [fst e]) (snd e)) es)) /\
  forall q, In q (map snd (flat_map (fun e => scan fs (top ++ [fst e]) (snd e)) es)) ->
    exists e r, In e es /\ q = top ++ fst e :: r /\ r <> [] /\
                plain_path r = true /\ lookup_path (snd e) r <> None.
Proof.
  induction es as [|e es IH]; simpl; intros Hn Hg.
  - split; [constructor|]. split; [constructor | intros q []].
  - inversion Hn as [|? ? Hnot Hn']; subst. inversion Hg as [|? ? He Hg']; subst.
    destruct (IH Hn' Hg') as (B & N & Q).
    destruct (He (top ++ [fst e])) as (Be & Ne & Qe).
    assert (Qe' : forall q, In q (map snd (scan fs (top ++ [fst e]) (snd e))) ->
                    exists r, q = top ++ fst e :: r /\ r <> [] /\
                              plain_path r = true /\ lookup_path (snd e) r <> None).
    { intros q Hq. destruct (Qe q Hq) as (r & -> & Hr).
      exists r. rewrite <- app_assoc. split; [reflexivity | exact Hr]. }
    assert (Hdiff : forall x y,
               In x (map snd (scan fs (top ++ [fst e]) (snd e))) ->
               In y (map snd (flat_map (fun e => scan fs (top ++ [fst e]) (snd e)) es)) ->
               forall r'', y <> x ++ r'').
    { intros x y Hx Hy r'' Hr.
      destruct (Qe' x Hx) as (r & -> & _).
      destruct (Q y Hy) as (e' & r' & He' & -> & _).
      rewrite <- app_assoc in Hr. apply app_inv_head in Hr. simpl in Hr.
      injection Hr as Hname _. apply Hnot. rewrite <- Hname.
      apply in_map. exact He'. }
    rewrite map_app. split; [|split].
    + apply pairs_app; try assumption.
      intros x y Hx Hy (r'' & Hr & _). exact (Hdiff x y Hx Hy r'' Hr).
    + apply NoDup_app; try assumption.
      intros q Hx Hy. apply (Hdiff q q Hx Hy []). symmetry. apply app_nil_r.
    + intros q Hq. apply in_app_or in Hq. destruct Hq as [Hq|Hq].
      * destruct (Qe' q Hq) as (r & Hr). exists e, r. split; [left; reflexivity | exact Hr].
      * destruct (Q q Hq) as (e' & r & He' & Hr). exists e', r.
        split; [right; exact He' | exact Hr].
Qed.

(** The scan of a well-formed tree is bottom-up, without repetition, and
    made of existing plain paths. *)
Lemma scan_good (fs : node) (n : node) :
  wf_node n = true -> forall top, good_scan fs top n.
Proof.
  induction n as [|es IH|target] using node_induction; intros Hw top.
  - split; [constructor|]. split; [constructor | intros q []].
  - destruct (wf_dir es Hw) as (Hn & Hp & Hws).
    assert (Hg : Forall (fun e => forall top', good_scan fs top' (snd e)) es).
    { rewrite Forall_forall in *. intros e He. apply IH; [exact He | apply Hws; exact He]. }
    destruct (sub_scans_good fs top es Hn Hg) as (B & N & Q).
    destruct (direct_items fs top es Hp Hn) as (Nd & Qd).
    unfold good_scan. rewrite scan_dir, map_app.
    split; [|split].
    + apply pairs_app; try assumption.
      * clear Nd. revert Qd.
        generalize (map snd (collect_triple (top, dirnames_of fs top es, filenames_of fs top es))).
        intros l Hl. induction l as [|x l IHl]; constructor.
        -- apply Forall_forall. intros y Hy (r & Hr & Hne).
           destruct (Hl x (or_introl eq_refl)) as (n1 & _ & ->).
           destruct (Hl y (or_intror Hy)) as (n2 & _ & ->).
           apply (f_equal (@length str)) in Hr. rewrite !length_app in Hr. simpl in Hr.
           destruct r; [congruence | simpl in Hr; lia].
        -- apply IHl. intros q Hq. apply Hl. right; exact Hq.
      * intros x y Hx Hy (r'' & Hr & _).
        destruct (Q x Hx) as (e & r & _ & -> & Hne & _).
        destruct (Qd y Hy) as (name & _ & ->).
        apply (f_equal (@length str)) in Hr. rewrite !length_app in Hr. simpl in Hr.
        destruct r; [congruence | simpl in Hr; lia].
    + apply NoDup_app; try assumption.
      intros q Hx Hy.
      destruct (Q q Hx) as (e & r & _ & -> & Hne & _).
      destruct (Qd _ Hy) as (name & _ & Hr).
      apply app_inv_head in Hr. injection Hr as _ Hr. congruence.
    + intros q Hq. apply in_app_or in Hq. destruct Hq as [Hq|Hq].
      * destruct (Q q Hq) as ([name x] & r & He & -> & Hne & Hpl & Hl).
        exists (name :: r). simpl in *. split; [reflexivity|].
        split; [discriminate|]. split.
        -- rewrite forallb_forall in Hp. rewrite Hpl, (Hp name); [reflexivity|].
           apply in_map_iff. exists (name, x). auto.
        -- rewrite (lookup_entry_in es name x Hn He). exact Hl.
      * destruct (Qd q Hq) as (name & Hin & ->).
        exists [name]. split; [reflexivity|]. split; [discriminate|]. split.
        -- simpl. rewrite forallb_forall in Hp. rewrite (Hp name Hin). reflexivity.
        -- simpl. destruct (lookup_entry_some es name Hin) as (x & -> & _). discriminate.
  - split; [constructor|]. split; [constructor | intros q []].
Qed.
(** ** Path resolution *)

Lemma realpath_nil (links : nat) (fs : node) (cwd : path) :
  realpath links fs cwd [] = Some (links, cwd).
Proof. destruct links; reflexivity. Qed.

Lemma realpath_cons (links : nat) (fs : node) (cwd : path) (c : str) (p : path) :
  realpath links fs cwd (c :: p) =
  match lookup_path fs cwd with
  | Some (Dir es) =>
    if str_eqb c dotdot then realpath links fs (removelast cwd) p
    else
      match lookup_entry c es with
      | Some (Link target) =>
        match links with
        | O => None
        | S links' =>
          realpath links' fs (if is_absolute target then [] else cwd)
                   (parts_of target ++ p)
        end
      | Some _ => realpath links fs (cwd ++ [c]) p
      | None => None
      end
  | _ => None
  end.
Proof. destruct links; reflexivity. Qed.

Lemma plain_name_not_dotdot (c : str) : plain_name c = true -> str_eqb c dotdot = false.
Proof.
  unfold plain_name. rewrite !andb_true_iff, !negb_true_iff. tauto.
Qed.

Lemma lookup_entry_wf (es : list (str * node)) (c : str) (x : node) :
  wf_node (Dir es) = true -> lookup_entry c es = Some x -> wf_node x = true.
Proof.
  intros Hw. destruct (wf_dir es Hw) as (_ & _ & Hws). clear Hw.
  induction es as [|[n y] es IH]; simpl; [discriminate|].
  inversion Hws; subst. destruct (str_eqb n c); [intros [= <-]; assumption | auto].
Qed.

Lemma lookup_path_wf (p : path) :
  forall n m, wf_node n = true -> lookup_path n p = Some m -> wf_node m = true.
Proof.
  induction p as [|c p IH]; intros n m Hw; simpl.
  - intros [= <-]. exact Hw.
  - destruct n as [|es|target]; try discriminate.
    destruct (lookup_entry c es) as [x|] eqn:Ex; [|discriminate].
    apply IH. exact (lookup_entry_wf es c x Hw Ex).
Qed.

Lemma lookup_path_app (p q : path) :
  forall n, lookup_path n (p ++ q) =
            match lookup_path n p with
            | Some m => lookup_path m q
            | None => None
            end.
Proof.
  induction p as [|c p IH]; intros n; simpl; [reflexivity|].
  destruct n as [|es|target]; try reflexivity.
  destruct (lookup_entry c es); [apply IH | reflexivity].
Qed.

Lemma plain_path_app (p q : path) :
  plain_path (p ++ q) = plain_path p && plain_path q.
Proof. apply forallb_app. Qed.

(** A plain path that leads through directories to an entry that is no
    link is its own resolution. *)
Lemma realpath_real (fs : node) (links : nat) (p : path) :
  forall cwd n,
    plain_path p = true -> lookup_path fs (cwd ++ p) = Some n -> is_link n = false ->
    realpath links fs cwd p = Some (links, cwd ++ p).
Proof.
  induction p as [|c p IH]; intros cwd n Hp Hl Hn.
  - rewrite realpath_nil, app_nil_r. reflexivity.
  - cbn [plain_path forallb] in Hp. apply andb_true_iff in Hp. destruct Hp as [Hc Hp].
    rewrite realpath_cons. rewrite lookup_path_app in Hl.
    destruct (lookup_path fs cwd) as [[|es|target]|] eqn:El; try discriminate.
    rewrite (plain_name_not_dotdot c Hc). cbn [lookup_path] in Hl.
    destruct (lookup_entry c es) as [child|] eqn:Ec; [|discriminate].
    assert (Hstep : lookup_path fs ((cwd ++ [c]) ++ p) = Some n).
    { rewrite <- app_assoc. cbn [app]. rewrite lookup_path_app, El.
      cbn [lookup_path]. rewrite Ec. exact Hl. }
    destruct child as [|es'|target].
    + rewrite (IH (cwd ++ [c]) n Hp Hstep Hn), <- app_assoc. reflexivity.
    + rewrite (IH (cwd ++ [c]) n Hp Hstep Hn), <- app_assoc. reflexivity.
    + destruct p; cbn [lookup_path] in Hl; [|discriminate].
      injection Hl as <-. discriminate Hn.
Qed.

Lemma fs_stat_real (fs : node) (p : path) (n : node) :
  plain_path p = true -> lookup_path fs p = Some n -> is_link n = false ->
  fs_stat fs p = Some n.
Proof.
  intros Hp Hl Hn. unfold fs_stat.
  rewrite (realpath_real fs max_links p [] n Hp Hl Hn). exact Hl.
Qed.

Lemma fs_exists_real (fs : node) (p : path) (n : node) :
  plain_path p = true -> lookup_path fs p = Some n -> is_link n = false ->
  fs_exists fs p = true.
Proof.
  intros Hp Hl Hn. unfold fs_exists. rewrite (fs_stat_real fs p n Hp Hl Hn). reflexivity.
Qed.

(** Resolution goes component by component. *)
Lemma realpath_app (fs : node) :
  forall links p cwd q,
    realpath links fs cwd (p ++ q) =
    match realpath links fs cwd p with
    | Some (links', cwd') => realpath links' fs cwd' q
    | None => None
    end.
Proof.
  induction links as [|links IHl]; induction p as [|c p IHp]; intros cwd q;
    try (rewrite realpath_nil; reflexivity);
    cbn [app]; rewrite !realpath_cons;
    destruct (lookup_path fs cwd) as [[|es|target]|]; try reflexivity;
    (destruct (str_eqb c dotdot); [apply IHp|]);
    destruct (lookup_entry c es) as [[|es'|target]|]; try reflexivity; try apply IHp.
  rewrite app_assoc. apply IHl.
Qed.

(** An entry that [stat] finds lies in a directory that [stat] finds. *)
Lemma fs_exists_snoc (fs : node) (p : path) (c : str) :
  fs_exists fs (p ++ [c]) = true ->
  exists links q es,
    realpath max_links fs [] p = Some (links, q) /\
    lookup_path fs q = Some (Dir es) /\
    (str_eqb c dotdot = false -> In c (map fst es)).
Proof.
  unfold fs_exists, fs_stat. rewrite realpath_app.
  destruct (realpath max_links fs [] p) as [[links q]|]; [|discriminate].
  rewrite realpath_cons.
  destruct (lookup_path fs q) as [[|es|target]|] eqn:El; try discriminate.
  intros H. exists links, q, es. split; [reflexivity|]. split; [exact El|].
  intros Hd. rewrite Hd in H.
  destruct (lookup_entry c es) as [x|] eqn:Ec; [|discriminate].
  clear H El. induction es as [|[n y] es IH]; simpl in *; [discriminate|].
  destruct (str_eqb n c) eqn:En; [left; apply str_eqb_eq; exact En|].
  right. exact (IH Ec).
Qed.

(** In a directory that [stat] finds, [..] is found too. *)
Lemma fs_exists_dotdot (fs : node) (p : path) (links : nat) (q : path)
      (es : list (str * node)) :
  realpath max_links fs [] p = Some (links, q) ->
  lookup_path fs q = Some (Dir es) ->
  fs_exists fs p = true /\ fs_exists fs (p ++ [dotdot]) = true.
Proof.
  intros Hr Hl. unfold fs_exists, fs_stat. rewrite realpath_app, Hr, Hl.
  split; [reflexivity|].
  rewrite realpath_cons, Hl. change (str_eqb dotdot dotdot) with true. cbn iota.
  rewrite realpath_nil.
  destruct q as [|d q] using rev_ind.
  - cbn [removelast]. rewrite Hl. reflexivity.
  - rewrite removelast_last.
    destruct (lookup_path fs q) eqn:Eq; [reflexivity|].
    rewrite lookup_path_app, Eq in Hl. discriminate.
Qed.

(** ** Trees without links *)

Lemma link_free_entry (es : list (str * node)) (c : str) (x : node) :
  link_free (Dir es) = true -> lookup_entry c es = Some x -> link_free x = true.
Proof.
  cbn [link_free]. induction es as [|[n y] es IH]; cbn [forallb lookup_entry snd];
    [discriminate|].
  rewrite andb_true_iff. intros [Hy Hes].
  destruct (str_eqb n c); [intros [= <-]; exact Hy | apply IH; exact Hes].
Qed.

Lemma link_free_lookup (p : path) :
  forall n m, link_free n = true -> lookup_path n p = Some m -> link_free m = true.
Proof.
  induction p as [|c p IH]; intros n m Hn; cbn [lookup_path].
  - intros [= <-]. exact Hn.
  - destruct n as [|es|target]; try discriminate.
    destruct (lookup_entry c es) as [x|] eqn:Ex; [|discriminate].
    apply IH. exact (link_free_entry es c x Hn Ex).
Qed.

Lemma link_free_not_link (n : node) : link_free n = true -> is_link n = false.
Proof. destruct n; [reflexivity | reflexivity | discriminate]. Qed.

(** Without links, resolution of a plain path is descent. *)
Lemma realpath_link_free (fs : node) (links : nat) (p : path) :
  link_free fs = true -> plain_path p = true ->
  forall cwd,
    lookup_path fs cwd <> None ->
    realpath links fs cwd p =
    match lookup_path fs (cwd ++ p) with
    | Some _ => Some (links, cwd ++ p)
    | None => None
    end.
Proof.
  intros Hfree. induction p as [|c p IH]; intros Hp cwd Hcwd.
  - rewrite realpath_nil, app_nil_r.
    destruct (lookup_path fs cwd); [reflexivity | congruence].
  - destruct (lookup_path fs (cwd ++ c :: p)) as [n|] eqn:El.
    + apply (realpath_real fs links (c :: p) cwd n Hp El).
      apply link_free_not_link. exact (link_free_lookup _ _ _ Hfree El).
    + cbn [plain_path forallb] in Hp. apply andb_true_iff in Hp. destruct Hp as [Hc Hp].
      rewrite realpath_cons. rewrite lookup_path_app in El.
      destruct (lookup_path fs cwd) as [[|es|target]|] eqn:Ecwd; try reflexivity.
      rewrite (plain_name_not_dotdot c Hc). cbn [lookup_path] in El.
      destruct (lookup_entry c es) as [child|] eqn:Ec; [|reflexivity].
      assert (Hchild : lookup_path fs (cwd ++ [c]) = Some child).
      { rewrite lookup_path_app, Ecwd. cbn [lookup_path]. rewrite Ec. reflexivity. }
      assert (Hrest : lookup_path fs ((cwd ++ [c]) ++ p) = None).
      { rewrite lookup_path_app, Hchild. exact El. }
      pose proof (IH Hp (cwd ++ [c])) as Hi. rewrite Hchild, Hrest in Hi.
      destruct child as [|es'|target]; try (apply Hi; discriminate).
      pose proof (link_free_lookup _ _ _ Hfree Hchild) as Hl. discriminate Hl.
Qed.

Lemma fs_stat_link_free (fs : node) (p : path) :
  link_free fs = true -> plain_path p = true -> fs_stat fs p = lookup_path fs p.
Proof.
  intros Hfree Hp. unfold fs_stat.
  rewrite (realpath_link_free fs max_links p Hfree Hp []) by discriminate.
  cbn [app]. destruct (lookup_path fs p) as [n|] eqn:El; [exact El | reflexivity].
Qed.

Lemma fs_exists_plain (fs : node) (p : path) :
  link_free fs = true -> plain_path p = true ->
  fs_exists fs p = match lookup_path fs p with Some _ => true | None => false end.
Proof.
  intros Hfree Hp. unfold fs_exists. rewrite fs_stat_link_free by assumption. reflexivity.
Qed.

(** What [stat] finds is an entry of the tree. *)
Lemma fs_stat_entry (fs : node) (p : path) (n : node) :
  fs_stat fs p = Some n -> exists q, lookup_path fs q = Some n.
Proof.
  unfold fs_stat. destruct (realpath max_links fs [] p) as [[links q]|]; [|discriminate].
  intros H. exists q. exact H.
Qed.

(** ** The candidate list *)

(** The candidate list of a well-formed tree: bottom-up, without
    repetition, and made of paths that lead from the root directory along
    plain names to an entry. *)
Lemma collect_items_scan (fs : node) (root_dir : path) :
  wf_node fs = true ->
  bottom_up (map snd (collect_items fs root_dir)) /\
  NoDup (map snd (collect_items fs root_dir)) /\
  forall q, In q (map snd (collect_items fs root_dir)) ->
    exists n r, fs_stat fs root_dir = Some n /\ q = root_dir ++ r /\ r <> [] /\
                plain_path r = true /\ lookup_path n r <> None.
Proof.
  intros Hw. unfold collect_items, os_walk.
  destruct (fs_stat fs root_dir) as [n|] eqn:En.
  - destruct (fs_stat_entry _ _ _ En) as (q0 & Hq0).
    destruct (scan_good fs n (lookup_path_wf _ _ _ Hw Hq0) root_dir) as (B & N & Q).
    unfold scan in *. split; [exact B|]. split; [exact N|].
    intros q Hq. destruct (Q q Hq) as (r & Hr). exists n, r. split; [reflexivity | exact Hr].
  - simpl. split; [constructor|]. split; [constructor | intros q []].
Qed.

(** In a tree without links every candidate exists. *)
Lemma collect_items_good (fs : node) (root_dir : path) :
  wf_node fs = true -> link_free fs = true -> plain_path root_dir = true ->
  bottom_up (map snd (collect_items fs root_dir)) /\
  NoDup (map snd (collect_items fs root_dir)) /\
  forall q, In q (map snd (collect_items fs root_dir)) ->
            q <> [] /\ plain_path q = true /\ fs_exists fs q = true.
Proof.
  intros Hw Hfree Hp.
  destruct (collect_items_scan fs root_dir Hw) as (B & N & Q).
  split; [exact B|]. split; [exact N|].
  intros q Hq. destruct (Q q Hq) as (n & r & En & -> & Hne & Hpl & Hl).
  rewrite fs_stat_link_free in En by assumption.
  split; [destruct root_dir; destruct r; simpl; congruence|].
  assert (Hpq : plain_path (root_dir ++ r) = true)
    by (rewrite plain_path_app, Hp, Hpl; reflexivity).
  split; [exact Hpq|].
  rewrite fs_exists_plain, lookup_path_app, En by assumption.
  destruct (lookup_path n r); [reflexivity | congruence].
Qed.

Lemma pairs_nth {A : Type} (R : A -> A -> Prop) (l : list A) :
  ForallOrdPairs R l ->
  forall i j x y, i < j -> nth_error l i = Some x -> nth_error l j = Some y -> R x y.
Proof.
  induction 1 as [|a l Ha Hl IH]; intros i j x y Hij Hi Hj.
  - destruct i; discriminate.
  - destruct j as [|j]; [lia|]. simpl in Hj. destruct i as [|i]; simpl in Hi.
    + injection Hi as <-. rewrite Forall_forall in Ha.
      apply Ha. eapply nth_error_In. exact Hj.
    + apply (IH i j); [lia | assumption..].
Qed.

Lemma below_irrefl (p : path) : ~ below p p.
Proof.
  intros (r & Hr & Hne). apply (f_equal (@length str)) in Hr.
  rewrite length_app in Hr. destruct r; [congruence | simpl in Hr; lia].
Qed.

Lemma bind_ext {A B : Type} (m : M A) (k k' : A -> M B) (w : world) :
  (forall a w', k a w' = k' a w') -> bind m k w = bind m k' w.
Proof.
  intros H. unfold bind. destruct (m w) as [[a|e|] w']; [apply H | reflexivity..].
Qed.

(** ** Runs *)

Lemma bind_inv {A B : Type} {m : M A} {k : A -> M B} {w w' : world} {o : outcome B} :
  bind m k w = (o, w') ->
  (exists a w1, m w = (Ok a, w1) /\ k a w1 = (o, w')) \/
  (exists e, m w = (Raise e, w') /\ o = Raise e) \/
  (m w = (OutOfFuel, w') /\ o = OutOfFuel).
Proof.
  unfold bind. destruct (m w) as [[a|e|] w1]; intros H.
  - left. eauto.
  - injection H as <- <-. right; left. eauto.
  - injection H as <- <-. right; right. auto.
Qed.

Lemma keeps_tree_ret {A : Type} (a : A) : keeps_tree (ret a).
Proof. intros w o w' [= <- <-]. split; reflexivity. Qed.

Lemma keeps_tree_bind {A B : Type} (m : M A) (k : A -> M B) :
  keeps_tree m -> (forall a, keeps_tree (k a)) -> keeps_tree (bind m k).
Proof.
  intros Hm Hk w o w' H.
  destruct (bind_inv H) as [(a & w1 & H1 & H2)|[(e & H1 & _)|(H1 & _)]].
  - destruct (Hm _ _ _ H1) as [F1 R1]. destruct (Hk a _ _ _ H2) as [F2 R2].
    split; congruence.
  - exact (Hm _ _ _ H1).
  - exact (Hm _ _ _ H1).
Qed.

Lemma keeps_tree_foldM {A B : Type} (f : B -> A -> M B) (l : list A) :
  (forall acc x, keeps_tree (f acc x)) -> forall acc, keeps_tree (foldM f l acc).
Proof.
  intros H. induction l as [|x l IH]; intros acc; simpl.
  - apply keeps_tree_ret.
  - apply keeps_tree_bind; [apply H | exact IH].
Qed.

Lemma keeps_tree_print (e : event) : keeps_tree (print e).
Proof. intros w o w' [= <- <-]. split; reflexivity. Qed.

Lemma keeps_tree_calls {A : Type} (t : str) (m : M A) : calls_within t m -> keeps_tree m.
Proof.
  intros H w o w' Hw. destruct (H _ _ _ Hw) as (cs & -> & _). split; reflexivity.
Qed.

Lemma call_only_ret {A : Type} (a : A) : call_only (ret a).
Proof. exists (Ok a), []. intros w. rewrite add_calls_nil. reflexivity. Qed.

Lemma call_only_bind {A B : Type} (m : M A) (k : A -> M B) :
  call_only m -> (forall a, call_only (k a)) -> call_only (bind m k).
Proof.
  intros (o & cs & Hm) Hk. destruct o as [a|e|].
  - destruct (Hk a) as (o' & cs' & Ha). exists o', (cs ++ cs'). intros w.
    unfold bind. rewrite Hm, Ha, add_calls_app. reflexivity.
  - exists (Raise e), cs. intros w. unfold bind. rewrite Hm. reflexivity.
  - exists OutOfFuel, cs. intros w. unfold bind. rewrite Hm. reflexivity.
Qed.

Lemma call_only_foldM {A B : Type} (f : B -> A -> M B) (l : list A) :
  (forall acc x, call_only (f acc x)) -> forall acc, call_only (foldM f l acc).
Proof.
  intros H. induction l as [|x l IH]; intros acc; simpl.
  - apply call_only_ret.
  - apply call_only_bind; [apply H | exact IH].
Qed.

Section Runs.
Context {E : Env}.

Lemma call_only_remaining (text : str) : call_only (translate_remaining_chinese text).
Proof.
  unfold translate_remaining_chinese.
  destruct (is_empty_list _); [apply call_only_ret|].
  apply call_only_foldM. intros acc [[r a] b]. unfold replace_segment.
  apply call_only_bind; [|intros t; apply call_only_ret].
  unfold translator_translate.
  destruct (argos_translate r) as [t|];
    [exists (Ok t), [r] | exists (Raise (TranslationError r)), [r]];
    intros w; reflexivity.
Qed.

Lemma call_only_gap (parts : list str) (gap : str) : call_only (append_gap parts gap).
Proof.
  unfold append_gap. destruct (is_empty gap); [apply call_only_ret|].
  apply call_only_bind; [|intros g; apply call_only_ret].
  destruct (contains_chinese gap); [apply call_only_remaining | apply call_only_ret].
Qed.

Lemma call_only_name (name : str) : call_only (translate_name name).
Proof.
  unfold translate_name. destruct (negb (contains_chinese name)); [apply call_only_ret|].
  apply call_only_bind; [|intros t; apply call_only_ret].
  unfold translate_with_dictionary.
  destruct (matched_ranges _) as [matched|].
  2:{ exists OutOfFuel, []. intros w. rewrite add_calls_nil. reflexivity. }
  destruct (is_empty_list matched); [apply call_only_remaining|].
  apply call_only_bind.
  - apply call_only_foldM. intros [parts last_end] [[a b] r]. unfold append_match.
    apply call_only_bind; [apply call_only_gap | intros p; apply call_only_ret].
  - intros [parts last_end].
    apply call_only_bind; [apply call_only_gap | intros p; apply call_only_ret].
Qed.

Lemma translate_name_resolved (name : str) :
  exists cs, forall w, translate_name name w = (resolved name, add_calls w cs).
Proof.
  destruct (call_only_name name) as (o & cs & H). exists cs. intros w.
  unfold resolved. rewrite (H (empty_world File)), H. reflexivity.
Qed.

Lemma keeps_tree_name (name : str) : keeps_tree (translate_name name).
Proof.
  intros w o w' H. destruct (translate_name_resolved name) as (cs & Hc).
  rewrite Hc in H. injection H as _ <-. split; reflexivity.
Qed.


Lemma keeps_tree_exists (p : path) : keeps_tree (path_exists p).
Proof.
  intros w o w'. unfold path_exists.
  destruct (stat_permits p); intros [= <- <-]; split; reflexivity.
Qed.

Lemma keeps_tree_free_name (fuel : nat) (parent : path) (stem suffix : str) :
  forall new_name new_path counter,
    keeps_tree (free_name fuel parent stem suffix new_name new_path counter).
Proof.
  induction fuel as [|fuel IH]; intros new_name new_path counter; simpl.
  - intros w o w' [= <- <-]. split; reflexivity.
  - apply keeps_tree_bind; [apply keeps_tree_exists|].
    intros [|]; [apply IH | apply keeps_tree_ret].
Qed.

Lemma keeps_tree_find_target (old_path : path) (new_name : str) (taken : bool) :
  keeps_tree
    (if taken then
       fs <- get_fs ;;
       free_name (S (node_count fs)) (path_parent old_path)
                 (if is_empty (path_suffix (path_join (path_parent old_path) new_name))
                  then new_name
                  else path_stem (path_join (path_parent old_path) new_name))
                 (path_suffix (path_join (path_parent old_path) new_name))
                 new_name (path_join (path_parent old_path) new_name) 1
     else ret (new_name, path_join (path_parent old_path) new_name)).
Proof.
  destruct taken; [|apply keeps_tree_ret].
  apply keeps_tree_bind.
  - intros w o w' [= <- <-]. split; reflexivity.
  - intros fs. apply keeps_tree_free_name.
Qed.

(** In a dry run [rename_item] touches neither the tree nor the list of
    renames. *)
Lemma keeps_tree_rename_dry (old_path : path) (new_name : str) :
  keeps_tree (rename_item old_path new_name true).
Proof.
  unfold rename_item. destruct (path_eqb _ _); [apply keeps_tree_ret|].
  apply keeps_tree_bind; [apply keeps_tree_exists|]. intros taken.
  apply keeps_tree_bind; [apply keeps_tree_find_target|].
  intros [nm np]. apply keeps_tree_bind; [apply keeps_tree_print|].
  intros _. apply keeps_tree_ret.
Qed.

Lemma keeps_tree_process_dry (n : nat) (item : item_type * path) :
  keeps_tree (process_item true n item).
Proof.
  destruct item as [ty p]. unfold process_item.
  apply keeps_tree_bind; [apply keeps_tree_exists|]. intros present.
  destruct (negb present); [apply keeps_tree_ret|].
  apply keeps_tree_bind; [apply keeps_tree_name|]. intros new_name.
  destruct (negb (str_eqb _ _)); [|apply keeps_tree_ret].
  apply keeps_tree_bind; [apply keeps_tree_rename_dry|].
  intros _. apply keeps_tree_ret.
Qed.


End Runs.

(** ** Dry runs *)





Section DryRuns.
Context {E : Env}.








End DryRuns.

(** ** The target of a rename *)

Lemma bind_assoc {A B C : Type} (m : M A) (f : A -> M B) (k : B -> M C) (w : world) :
  bind (bind m f) k w = bind m (fun a => bind (f a) k) w.
Proof.
  unfold bind. destruct (m w) as [[a|e|] w1]; reflexivity.
Qed.

Lemma free_name_spec {E : Env} (parent : path) (stem suffix : str) (fuel : nat) :
  forall counter nm np w o w',
    free_name fuel parent stem suffix nm np counter w = (o, w') ->
    w' = w /\
    forall nm' np', o = Ok (nm', np') ->
      fs_exists (w_fs w) np' = false /\
      ((nm', np') = (nm, np) \/
       (fs_exists (w_fs w) np = true /\
        exists k, counter <= k /\
                  nm' = numbered stem k suffix /\ np' = path_join parent nm' /\
                  forall j, counter <= j < k ->
                    fs_exists (w_fs w) (path_join parent (numbered stem j suffix)) = true)).
Proof.
  induction fuel as [|fuel IH]; intros counter nm np w o w'; simpl.
  - intros [= <- <-]. split; [reflexivity | discriminate].
  - unfold bind at 1, path_exists at 1.
    destruct (stat_permits np); [|intros [= <- <-]; split; [reflexivity | discriminate]].
    destruct (fs_exists (w_fs w) np) eqn:Ex.
    + intros H. destruct (IH _ _ _ _ _ _ H) as [-> Hr]. split; [reflexivity|].
      intros nm' np' ->. destruct (Hr _ _ eq_refl) as [Hfree Hc]. split; [exact Hfree|].
      right. split; [reflexivity|].
      destruct Hc as [Heq|(Hex & k & Hk & -> & -> & Hj)].
      * injection Heq as -> ->. exists counter. repeat split; [lia|]. intros j Hlt. lia.
      * exists k. repeat split; [lia|]. intros j Hlt.
        destruct (Nat.eq_dec j counter) as [->|Hne]; [exact Hex | apply Hj; lia].
    + intros [= <- <-]. split; [reflexivity|].
      intros nm' np' [= <- <-]. split; [exact Ex | left; reflexivity].
Qed.

Lemma find_target_spec {E : Env} (old_path : path) (new_name : str) (w w' : world)
      (o : outcome (str * path)) :
  find_target old_path new_name w = (o, w') ->
  w' = w /\
  forall final_name target, o = Ok (final_name, target) ->
    target = path_join (path_parent old_path) final_name /\
    collision_rule (w_fs w) old_path new_name final_name.
Proof.
  unfold find_target, collision_rule. unfold bind at 1, path_exists at 1.
  destruct (stat_permits (path_join (path_parent old_path) new_name));
    [|intros [= <- <-]; split; [reflexivity | discriminate]].
  destruct (fs_exists (w_fs w) (path_join (path_parent old_path) new_name)) eqn:Ex.
  - unfold bind at 1, get_fs at 1. intros H.
    destruct (free_name_spec _ _ _ _ _ _ _ _ _ _ H) as [-> Hr]. split; [reflexivity|].
    intros final_name target ->.
    destruct (Hr _ _ eq_refl) as [Hfree [Heq|(_ & k & Hk & -> & -> & Hj)]].
    + injection Heq as -> ->. congruence.
    + split; [reflexivity|]. split; [exact Hfree|]. right. split; [reflexivity|].
      exists k. repeat split; [exact Hk | exact Hj].
  - intros [= <- <-]. split; [reflexivity|].
    intros final_name target [= <- <-].
    split; [reflexivity|]. split; [exact Ex | left; reflexivity].
Qed.

Section Targets.
Context {E : Env}.

(** [rename_item] is the search for the target followed by the rename or
    its announcement. *)
Lemma rename_item_split (old_path : path) (new_name : str) (dry_run : bool) (w : world) :
  rename_item old_path new_name dry_run w =
  if path_eqb old_path (path_join (path_parent old_path) new_name) then (Ok None, w)
  else
    match find_target old_path new_name w with
    | (Ok (final_name, target), _) =>
      if dry_run then
        (Ok (Some target), add_out w [PrintDryRun old_path final_name])
      else
        match fs_rename (w_fs w) old_path target with
        | Some fs' =>
          if os_permits old_path target then
            (Ok (Some target),
             World fs' (w_calls w) (w_renames w ++ [(old_path, target)])
                   (w_out w ++ [PrintRenamed old_path final_name]))
          else (Raise (OSError old_path target), w)
        | None => (Raise (OSError old_path target), w)
        end
    | (Raise e, _) => (Raise e, w)
    | (OutOfFuel, _) => (OutOfFuel, w)
    end.
Proof.
  unfold rename_item. destruct (path_eqb _ _); [reflexivity|].
  rewrite <- bind_assoc.
  change (bind (path_exists (path_join (path_parent old_path) new_name)) _)
    with (find_target old_path new_name).
  unfold bind at 1.
  destruct (find_target old_path new_name w) as [[[nm np]|e|] w1] eqn:Ef;
    destruct (find_target_spec _ _ _ _ _ Ef) as [-> _]; try reflexivity.
  destruct dry_run.
  - reflexivity.
  - unfold bind, os_rename, print, ret. cbn.
    destruct (os_permits old_path np); destruct (fs_rename (w_fs w) old_path np);
      reflexivity.
Qed.

End Targets.

Section DryRunClaim.
Context {E : Env}.



End DryRunClaim.



(** ** Errors *)

Section Errors.
Context {E : Env}.

(** A rename that raises has changed nothing. *)
Lemma rename_item_raise (old_path : path) (new_name : str) (dry_run : bool)
      (w w' : world) (e : exn) :
  rename_item old_path new_name dry_run w = (Raise e, w') -> w' = w.
Proof.
  rewrite rename_item_split. destruct (path_eqb _ _); [discriminate|].
  destruct (find_target old_path new_name w) as [[[nm np]|e'|] w1].
  - destruct dry_run; [discriminate|].
    destruct (fs_rename (w_fs w) old_path np); [destruct (os_permits old_path np)|];
      intros [= _ <-] || discriminate; reflexivity.
  - intros [= _ <-]. reflexivity.
  - discriminate.
Qed.

(** A turn of the loop that raises has at most asked the translator: the
    candidate is as it was and nothing was printed for it. *)
Lemma process_item_raise (dry_run : bool) (n : nat) (item : item_type * path)
      (w w' : world) (e : exn) :
  process_item dry_run n item w = (Raise e, w') -> exists cs, w' = add_calls w cs.
Proof.
  destruct item as [ty p]. unfold process_item.
  unfold bind at 1, path_exists at 1.
  destruct (stat_permits p);
    [|intros [= _ <-]; exists []; rewrite add_calls_nil; reflexivity].
  destruct (fs_exists (w_fs w) p); cbn [negb]; [|discriminate].
  destruct (translate_name_resolved (path_name p)) as (cs & Hc).
  unfold bind at 1. rewrite Hc.
  destruct (resolved (path_name p)) as [new_name|e'|].
  - destruct (negb (str_eqb (path_name p) new_name)); [|discriminate].
    intros H. destruct (bind_inv H) as [(r & w2 & _ & H2)|[(e2 & H1 & _)|(_ & He)]];
      try discriminate.
    apply rename_item_raise in H1. exists cs. exact H1.
  - intros [= _ <-]. exists cs. reflexivity.
  - discriminate.
Qed.

(** C3, as the code has it. No error is caught at the candidate boundary:
    when the turn of a candidate raises, after the turns of the candidates
    before it went through, [translate_directory] ends with that exception
    in the world of the failure. The candidates after it are not
    processed and no summary is printed; the failing candidate is as it
    was (the tree, the renames done and the output are those before its
    turn); and a root that is not a directory ends [main] before any
    scan, with the exit status 1 after the message, or with the error of
    [is_dir()] where [stat] fails. *)
Theorem candidate_error_ends_run
        (root_dir : path) (dry_run : bool) (w w1 w2 : world)
        (before after : list (item_type * path)) (item : item_type * path)
        (n1 : nat) (e : exn) :
  collect_items (w_fs w) root_dir = before ++ item :: after ->
  foldM (process_item dry_run) before 0
        (add_out w [PrintFound (length (before ++ item :: after))]) = (Ok n1, w1) ->
  process_item dry_run n1 item w1 = (Raise e, w2) ->
  translate_directory root_dir dry_run w = (Raise e, w2) /\
  w_fs w2 = w_fs w1 /\ w_renames w2 = w_renames w1 /\ w_out w2 = w_out w1 /\
  (forall v, fs_is_dir (w_fs v) root_dir = false ->
             main root_dir dry_run v
             = if stat_permits root_dir
               then (Raise (SystemExit 1), add_out v [PrintNotDirectory root_dir])
               else (Raise (StatError root_dir), v)).
Proof.
  intros Hitems Hbefore Hitem. split; [|split; [|split; [|split]]].
  - unfold translate_directory. unfold bind at 1, get_fs at 1. rewrite Hitems.
    replace (is_empty_list (before ++ item :: after)) with false
      by (destruct before; reflexivity).
    unfold bind at 1, print at 1. apply bind_raise.
    rewrite foldM_app. erewrite bind_ok by exact Hbefore.
    cbn [foldM]. apply bind_raise. exact Hitem.
  - destruct (process_item_raise _ _ _ _ _ _ Hitem) as (cs & ->). reflexivity.
  - destruct (process_item_raise _ _ _ _ _ _ Hitem) as (cs & ->). reflexivity.
  - destruct (process_item_raise _ _ _ _ _ _ Hitem) as (cs & ->). reflexivity.
  - intros v Hv. unfold main. unfold bind at 1, path_is_dir at 1.
    destruct (stat_permits root_dir); [|reflexivity]. rewrite Hv. reflexivity.
Qed.

End Errors.

Lemma candidate_error_ends_run_witness :
  collect_items mixed_tree [cp "proj"]
  = [] ++ (ItemFile, [cp "proj"; name_warehouse]) :: [(ItemFile, [cp "proj"; name_coal])] /\
  @translate_directory offline_env [cp "proj"] false (empty_world mixed_tree)
  = (Raise (TranslationError name_warehouse),
     World mixed_tree [name_warehouse] [] [PrintFound 2]).
Proof.
  split; [reflexivity|].
  exact (proj1 (@candidate_error_ends_run offline_env [cp "proj"] false
                  (empty_world mixed_tree)
                  (World mixed_tree [] [] [PrintFound 2])
                  (World mixed_tree [name_warehouse] [] [PrintFound 2])
                  [] [(ItemFile, [cp "proj"; name_coal])]
                  (ItemFile, [cp "proj"; name_warehouse]) 0
                  (TranslationError name_warehouse)
                  eq_refl eq_refl eq_refl)).
Defined.

(** C3 as stated fails where the translator is unreachable: the first
    candidate needs it, its exception leaves [main], and the second
    candidate, which the dictionary alone would rename, is never
    processed. *)
Lemma errors_isolated_fails :
  ~ @errors_isolated offline_env [cp "proj"] false (empty_world mixed_tree).
Proof.
  intros H.
  assert (R : @main offline_env [cp "proj"] false (empty_world mixed_tree)
              = (Raise (TranslationError name_warehouse),
                 World mixed_tree [name_warehouse] []
                       [PrintBanner [cp "proj"] false 235; PrintFound 2]))
    by (vm_compute; reflexivity).
  exact (H eq_refl _ _ R (TranslationError name_warehouse) eq_refl).
Qed.

(** ** The effect of a rename on the tree *)

Lemma prefix_cons (c : str) (p q : path) : prefix (c :: p) (c :: q) <-> prefix p q.
Proof.
  split; intros [r H]; exists r; simpl in *; congruence.
Qed.

Lemma prefix_nil (q : path) : prefix [] q.
Proof. exists q. reflexivity. Qed.

Lemma lookup_entry_remove_other (c d : str) (es : list (str * node)) :
  d <> c -> lookup_entry d (remove_entry c es) = lookup_entry d es.
Proof.
  intros Hd. induction es as [|[n x] es IH]; simpl; [reflexivity|].
  destruct (str_eqb n c) eqn:Ec.
  - apply str_eqb_eq in Ec. subst n.
    destruct (str_eqb c d) eqn:Ed; [apply str_eqb_eq in Ed; congruence | reflexivity].
  - simpl. destruct (str_eqb n d); [reflexivity | exact IH].
Qed.

Lemma lookup_entry_replace_other (c d : str) (y : node) (es : list (str * node)) :
  d <> c -> lookup_entry d (replace_entry c y es) = lookup_entry d es.
Proof.
  intros Hd. induction es as [|[n x] es IH]; simpl; [reflexivity|].
  destruct (str_eqb n c) eqn:Ec; simpl.
  - apply str_eqb_eq in Ec. subst n.
    destruct (str_eqb c d) eqn:Ed; [apply str_eqb_eq in Ed; congruence | reflexivity].
  - destruct (str_eqb n d); [reflexivity | exact IH].
Qed.

Lemma lookup_entry_replace_same (c : str) (x y : node) (es : list (str * node)) :
  lookup_entry c es = Some x -> lookup_entry c (replace_entry c y es) = Some y.
Proof.
  induction es as [|[n z] es IH]; simpl; [discriminate|].
  destruct (str_eqb n c) eqn:Ec; simpl; rewrite Ec; [reflexivity | exact IH].
Qed.

Lemma lookup_entry_snoc_old (d c : str) (x y : node) (es : list (str * node)) :
  lookup_entry d es = Some y -> lookup_entry d (es ++ [(c, x)]) = Some y.
Proof.
  induction es as [|[n z] es IH]; simpl; [discriminate|].
  destruct (str_eqb n d); [tauto | exact IH].
Qed.

Lemma lookup_entry_snoc_new (c : str) (x : node) (es : list (str * node)) :
  lookup_entry c es = None -> lookup_entry c (es ++ [(c, x)]) = Some x.
Proof.
  induction es as [|[n z] es IH]; simpl.
  - rewrite str_eqb_refl. reflexivity.
  - destruct (str_eqb n c); [discriminate | exact IH].
Qed.

Lemma str_eq_dec (a b : str) : {a = b} + {a <> b}.
Proof.
  destruct (str_eqb a b) eqn:Eab; [left; apply str_eqb_eq | right; apply str_eqb_neq];
    exact Eab.
Qed.

Lemma lookup_entry_snoc_other (d c : str) (x : node) (es : list (str * node)) :
  d <> c -> lookup_entry d (es ++ [(c, x)]) = lookup_entry d es.
Proof.
  intros Hd. induction es as [|[n z] es IH]; simpl.
  - destruct (str_eqb c d) eqn:Ed; [apply str_eqb_eq in Ed; congruence | reflexivity].
  - destruct (str_eqb n d); [reflexivity | exact IH].
Qed.

Lemma fs_take_cons (c : str) (old : path) (es : list (str * node)) :
  fs_take (Dir es) (c :: old) =
  match lookup_entry c es with
  | Some child =>
    match old with
    | [] => Some (child, Dir (remove_entry c es))
    | _ :: _ =>
      match fs_take child old with
      | Some (x, child') => Some (x, Dir (replace_entry c child' es))
      | None => None
      end
    end
  | None => None
  end.
Proof. destruct old; simpl; destruct (lookup_entry c es); reflexivity. Qed.

Lemma fs_put_cons (c : str) (new : path) (x : node) (es : list (str * node)) :
  fs_put (Dir es) (c :: new) x =
  match new with
  | [] =>
    match lookup_entry c es with
    | Some _ => None
    | None => Some (Dir (es ++ [(c, x)]))
    end
  | _ :: _ =>
    match lookup_entry c es with
    | Some child =>
      match fs_put child new x with
      | Some child' => Some (Dir (replace_entry c child' es))
      | None => None
      end
    | None => None
    end
  end.
Proof. destruct new; reflexivity. Qed.

(** Detaching the entry at [old] gives the entry that was there, and
    leaves every entry that is not at or below [old] in its place, a
    directory as a directory. *)
Lemma fs_take_shape (old : path) :
  forall fs x fs1,
    fs_take fs old = Some (x, fs1) ->
    lookup_path fs old = Some x /\
    forall q, ~ prefix old q ->
              option_map shape (lookup_path fs1 q) = option_map shape (lookup_path fs q).
Proof.
  induction old as [|c old IH]; intros fs x fs1; [discriminate|].
  destruct fs as [|es|target]; try (destruct old; discriminate).
  rewrite fs_take_cons.
  destruct (lookup_entry c es) as [child|] eqn:Ec; [|discriminate].
  destruct old as [|c' old].
  - intros [= <- <-]. split; [cbn [lookup_path]; rewrite Ec; reflexivity|].
    intros [|d q] Hn; [reflexivity|]. cbn [lookup_path].
    destruct (str_eq_dec d c) as [->|Hd].
    + exfalso. apply Hn. apply prefix_cons, prefix_nil.
    + rewrite lookup_entry_remove_other by exact Hd. reflexivity.
  - destruct (fs_take child (c' :: old)) as [[y child']|] eqn:Et; [|discriminate].
    intros [= <- <-]. destruct (IH child y child' Et) as [Hx Hkeep].
    split; [cbn [lookup_path] in *; rewrite Ec; exact Hx|].
    intros [|d q] Hn; [reflexivity|]. cbn [lookup_path].
    destruct (str_eq_dec d c) as [->|Hd].
    + rewrite Ec, (lookup_entry_replace_same c child child' es Ec).
      apply Hkeep. intros Hp. apply Hn. apply prefix_cons. exact Hp.
    + rewrite lookup_entry_replace_other by exact Hd. reflexivity.
Qed.

(** Attaching an entry at [new], where there was none, puts it there and
    leaves every entry that is not at or below [new] in its place. *)
Lemma fs_put_shape (new : path) :
  forall fs x fs',
    fs_put fs new x = Some fs' ->
    lookup_path fs new = None /\
    lookup_path fs' new = Some x /\
    forall q, ~ prefix new q ->
              option_map shape (lookup_path fs' q) = option_map shape (lookup_path fs q).
Proof.
  induction new as [|c new IH]; intros fs x fs'; [discriminate|].
  destruct fs as [|es|target]; try (destruct new; discriminate).
  rewrite fs_put_cons.
  destruct new as [|c' new].
  - destruct (lookup_entry c es) eqn:Ec; [discriminate|].
    intros [= <-]. split; [cbn [lookup_path]; rewrite Ec; reflexivity|]. split.
    + cbn [lookup_path]. rewrite (lookup_entry_snoc_new c x es Ec). reflexivity.
    + intros [|d q] Hn; [reflexivity|]. cbn [lookup_path].
      destruct (str_eq_dec d c) as [->|Hd].
      * exfalso. apply Hn. apply prefix_cons, prefix_nil.
      * rewrite lookup_entry_snoc_other by exact Hd. reflexivity.
  - destruct (lookup_entry c es) as [child|] eqn:Ec; [|discriminate].
    destruct (fs_put child (c' :: new) x) as [child'|] eqn:Ep; [|discriminate].
    intros [= <-]. destruct (IH child x child' Ep) as (Hfree & Hnew & Hkeep).
    split; [cbn [lookup_path] in *; rewrite Ec; exact Hfree|]. split.
    + cbn [lookup_path] in *. rewrite (lookup_entry_replace_same c child child' es Ec).
      exact Hnew.
    + intros [|d q] Hn; [reflexivity|]. cbn [lookup_path].
      destruct (str_eq_dec d c) as [->|Hd].
      * rewrite Ec, (lookup_entry_replace_same c child child' es Ec).
        apply Hkeep. intros Hp. apply Hn. apply prefix_cons. exact Hp.
      * rewrite lookup_entry_replace_other by exact Hd. reflexivity.
Qed.

(** The move of an entry: it arrives at [new], and every entry that is
    neither at or below [old] nor at or below [new] stays in its place. *)
Lemma move_entry_shape (fs fs' : node) (old new : path) :
  move_entry fs old new = Some fs' ->
  exists x,
    lookup_path fs old = Some x /\ lookup_path fs' new = Some x /\
    forall q, ~ prefix old q -> ~ prefix new q ->
              option_map shape (lookup_path fs' q) = option_map shape (lookup_path fs q).
Proof.
  unfold move_entry.
  destruct (fs_take fs old) as [[x fs1]|] eqn:Et; [|discriminate].
  destruct (fs_take_shape old fs x fs1 Et) as [Hx Hkeep1].
  intros H. exists x. split; [exact Hx|].
  destruct (fs_take fs1 new) as [[y fs2]|] eqn:Et2.
  - destruct (replaces x y); [|discriminate].
    destruct (fs_take_shape new fs1 y fs2 Et2) as [_ Hkeep2].
    destruct (fs_put_shape new fs2 x fs' H) as (_ & Hnew & Hkeep3).
    split; [exact Hnew|]. intros q Ho Hn.
    rewrite (Hkeep3 q Hn), (Hkeep2 q Hn). exact (Hkeep1 q Ho).
  - destruct (fs_put_shape new fs1 x fs' H) as (_ & Hnew & Hkeep3).
    split; [exact Hnew|]. intros q Ho Hn.
    rewrite (Hkeep3 q Hn). exact (Hkeep1 q Ho).
Qed.

Lemma plain_path_parent (p : path) : plain_path p = true -> plain_path (path_parent p) = true.
Proof.
  unfold path_parent, plain_path. induction p as [|c p IH]; [reflexivity|].
  cbn [forallb]. rewrite andb_true_iff. intros [Hc Hp].
  destruct p as [|d p]; [reflexivity|].
  change (removelast (c :: d :: p)) with (c :: removelast (d :: p)).
  cbn [forallb]. rewrite Hc. exact (IH Hp).
Qed.

Lemma plain_path_last (p : path) :
  plain_path p = true -> p <> [] -> plain_name (path_name p) = true.
Proof.
  unfold path_name, plain_path. induction p as [|c p IH]; [congruence|].
  cbn [forallb]. rewrite andb_true_iff. intros [Hc Hp] _.
  destruct p as [|d p]; [exact Hc|]. apply IH; [exact Hp | discriminate].
Qed.

Lemma path_split (p : path) : p <> [] -> p = path_parent p ++ [path_name p].
Proof. apply app_removelast_last. Qed.

(** A rename between plain paths whose folders are reached through
    directories is the move of the entry. *)
Lemma fs_rename_move (fs : node) (old new : path) (a b : node) :
  plain_path old = true -> plain_path new = true -> old <> [] -> new <> [] ->
  lookup_path fs (path_parent old) = Some a -> is_link a = false ->
  lookup_path fs (path_parent new) = Some b -> is_link b = false ->
  fs_rename fs old new = move_entry fs old new.
Proof.
  intros Po Pn Ho Hn La Ha Lb Hb. unfold fs_rename.
  destruct old as [|c old]; [congruence|]. destruct new as [|d new]; [congruence|].
  cbn [is_empty_list negb andb].
  rewrite (plain_path_last _ Po Ho), (plain_path_last _ Pn Hn). cbn [andb].
  rewrite (realpath_real fs max_links _ [] a (plain_path_parent _ Po) La Ha).
  rewrite (realpath_real fs max_links _ [] b (plain_path_parent _ Pn) Lb Hb).
  cbn [app]. rewrite <- (path_split _ Ho), <- (path_split _ Hn). reflexivity.
Qed.

(** ** Renames in a tree without links *)

Lemma link_free_remove (c : str) (es : list (str * node)) :
  link_free (Dir es) = true -> link_free (Dir (remove_entry c es)) = true.
Proof.
  cbn [link_free]. induction es as [|[n x] es IH]; cbn [remove_entry forallb snd];
    [reflexivity|].
  rewrite andb_true_iff. intros [Hx Hes].
  destruct (str_eqb n c); [exact Hes|].
  cbn [forallb snd]. rewrite Hx. exact (IH Hes).
Qed.

Lemma link_free_replace (c : str) (y : node) (es : list (str * node)) :
  link_free (Dir es) = true -> link_free y = true ->
  link_free (Dir (replace_entry c y es)) = true.
Proof.
  cbn [link_free]. intros Hes Hy.
  induction es as [|[n x] es IH]; cbn [replace_entry forallb snd] in *; [reflexivity|].
  apply andb_true_iff in Hes. destruct Hes as [Hx Hes].
  destruct (str_eqb n c); cbn [forallb snd].
  - rewrite Hy. exact Hes.
  - rewrite Hx. exact (IH Hes).
Qed.

Lemma link_free_take (p : path) :
  forall fs x fs1,
    link_free fs = true -> fs_take fs p = Some (x, fs1) ->
    link_free x = true /\ link_free fs1 = true.
Proof.
  induction p as [|c p IH]; intros fs x fs1 Hfs; [discriminate|].
  destruct fs as [|es|target]; try (destruct p; discriminate).
  rewrite fs_take_cons.
  destruct (lookup_entry c es) as [child|] eqn:Ec; [|discriminate].
  pose proof (link_free_entry es c child Hfs Ec) as Hchild.
  destruct p as [|c' p].
  - intros [= <- <-]. split; [exact Hchild | apply link_free_remove; exact Hfs].
  - destruct (fs_take child (c' :: p)) as [[y child']|] eqn:Et; [|discriminate].
    intros [= <- <-]. destruct (IH child y child' Hchild Et) as [Hy Hc'].
    split; [exact Hy | apply link_free_replace; assumption].
Qed.

Lemma link_free_put (p : path) :
  forall fs x fs',
    link_free fs = true -> link_free x = true -> fs_put fs p x = Some fs' ->
    link_free fs' = true.
Proof.
  induction p as [|c p IH]; intros fs x fs' Hfs Hx; [discriminate|].
  destruct fs as [|es|target]; try (destruct p; discriminate).
  rewrite fs_put_cons. destruct p as [|c' p].
  - destruct (lookup_entry c es); [discriminate|]. intros [= <-].
    cbn [link_free] in *. rewrite forallb_app, Hfs. cbn [forallb snd].
    rewrite Hx. reflexivity.
  - destruct (lookup_entry c es) as [child|] eqn:Ec; [|discriminate].
    destruct (fs_put child (c' :: p) x) as [child'|] eqn:Ep; [|discriminate].
    intros [= <-]. apply link_free_replace; [exact Hfs|].
    exact (IH child x child' (link_free_entry es c child Hfs Ec) Hx Ep).
Qed.

Lemma link_free_move (fs fs' : node) (old new : path) :
  link_free fs = true -> move_entry fs old new = Some fs' -> link_free fs' = true.
Proof.
  intros Hfs. unfold move_entry.
  destruct (fs_take fs old) as [[x fs1]|] eqn:Et; [|discriminate].
  destruct (link_free_take old fs x fs1 Hfs Et) as [Hx H1].
  destruct (fs_take fs1 new) as [[y fs2]|] eqn:Et2.
  - destruct (replaces x y); [|discriminate].
    destruct (link_free_take new fs1 y fs2 H1 Et2) as [_ H2].
    apply link_free_put; assumption.
  - apply link_free_put; assumption.
Qed.

Lemma fs_exists_lookup (fs : node) (q : path) :
  link_free fs = true -> plain_path q = true ->
  (fs_exists fs q = true <-> lookup_path fs q <> None).
Proof.
  intros Hfree Hq. rewrite fs_exists_plain by assumption.
  destruct (lookup_path fs q); split; congruence.
Qed.

Lemma lookup_path_prefix (p r : path) :
  forall n, lookup_path n (p ++ r) <> None -> lookup_path n p <> None.
Proof.
  intros n. rewrite lookup_path_app. destruct (lookup_path n p); congruence.
Qed.

Lemma shape_none (a b : option node) :
  option_map shape a = option_map shape b -> (a <> None <-> b <> None).
Proof. destruct a, b; simpl; split; congruence. Qed.

(** In a tree without links a rename between plain paths is the move of
    the entry. *)
Lemma fs_rename_link_free (fs fs' : node) (old new : path) :
  link_free fs = true -> plain_path old = true -> plain_path new = true ->
  fs_rename fs old new = Some fs' -> move_entry fs old new = Some fs'.
Proof.
  intros Hfree Po Pn. unfold fs_rename.
  destruct old as [|c old]; [discriminate|]. destruct new as [|d new]; [discriminate|].
  cbn [is_empty_list negb andb].
  destruct (plain_name (path_name (c :: old)) && plain_name (path_name (d :: new)));
    [|discriminate].
  rewrite (realpath_link_free fs max_links _ Hfree (plain_path_parent _ Po) [])
    by discriminate.
  rewrite (realpath_link_free fs max_links _ Hfree (plain_path_parent _ Pn) [])
    by discriminate.
  cbn [app].
  destruct (lookup_path fs (path_parent (c :: old))); [|discriminate].
  destruct (lookup_path fs (path_parent (d :: new))); [|discriminate].
  rewrite <- (path_split (c :: old)), <- (path_split (d :: new)) by discriminate.
  exact (fun H => H).
Qed.

(** A rename in a tree without links leaves a tree without links, makes
    its target exist, and the only paths it removes are at or below its
    source. *)
Lemma fs_rename_effect (fs fs' : node) (old new : path) :
  link_free fs = true -> plain_path old = true -> plain_path new = true ->
  fs_exists fs new = false ->
  fs_rename fs old new = Some fs' ->
  link_free fs' = true /\
  fs_exists fs' new = true /\
  forall q, plain_path q = true -> fs_exists fs q = true -> ~ prefix old q ->
            fs_exists fs' q = true.
Proof.
  intros Hfree Po Pn Efree Hr.
  pose proof (fs_rename_link_free fs fs' old new Hfree Po Pn Hr) as Hm.
  pose proof (link_free_move fs fs' old new Hfree Hm) as Hfree'.
  destruct (move_entry_shape fs fs' old new Hm) as (x & Hx & Hnew & Hkeep).
  split; [exact Hfree'|]. split.
  - apply fs_exists_lookup; [assumption..|]. congruence.
  - intros q Pq Hq Hn. apply fs_exists_lookup; [assumption..|].
    apply fs_exists_lookup in Hq; [|assumption..].
    apply (shape_none _ _ (Hkeep q Hn
             (fun Hp => ltac:(destruct Hp as [r ->];
                              apply lookup_path_prefix in Hq;
                              apply fs_exists_lookup in Hq; [congruence | assumption..])))).
    exact Hq.
Qed.

(** ** Names without a slash *)

Lemma returns_ret {A : Type} (P : A -> Prop) (a : A) : P a -> returns P (ret a).
Proof. intros H w a' w' [= <- _]. exact H. Qed.

Lemma returns_bind {A B : Type} (P : A -> Prop) (Q : B -> Prop) (m : M A) (k : A -> M B) :
  returns P m -> (forall a, P a -> returns Q (k a)) -> returns Q (bind m k).
Proof.
  intros Hm Hk w b w' H.
  destruct (bind_inv H) as [(a & w1 & H1 & H2)|[(e & _ & He)|(_ & He)]];
    try discriminate.
  exact (Hk a (Hm _ _ _ H1) _ _ _ H2).
Qed.

Lemma returns_foldM {A B : Type} (P : B -> Prop) (f : B -> A -> M B) (l : list A) :
  (forall acc x, In x l -> P acc -> returns P (f acc x)) ->
  forall acc, P acc -> returns P (foldM f l acc).
Proof.
  induction l as [|x l IH]; intros H acc Hacc; simpl.
  - apply returns_ret. exact Hacc.
  - apply returns_bind with (P := P).
    + apply H; [left; reflexivity | exact Hacc].
    + intros a Ha. apply IH; [|exact Ha].
      intros acc' y Hy. apply H. right; exact Hy.
Qed.

Lemma within_bounds_ret {A : Type} (a : A) : within_bounds (ret a).
Proof. intros w w'. discriminate. Qed.

Lemma within_bounds_bind {A B : Type} (m : M A) (k : A -> M B) :
  within_bounds m -> (forall a, within_bounds (k a)) -> within_bounds (bind m k).
Proof.
  intros Hm Hk w w' H.
  destruct (bind_inv H) as [(a & w1 & H1 & H2)|[(e & _ & He)|(H1 & _)]].
  - exact (Hk a _ _ H2).
  - discriminate.
  - exact (Hm _ _ H1).
Qed.

Lemma within_bounds_foldM {A B : Type} (f : B -> A -> M B) (l : list A) :
  (forall acc x, within_bounds (f acc x)) -> forall acc, within_bounds (foldM f l acc).
Proof.
  intros H. induction l as [|x l IH]; intros acc; simpl.
  - apply within_bounds_ret.
  - apply within_bounds_bind; [apply H | exact IH].
Qed.

Lemma no_slash_app (a b : str) : no_slash (a ++ b) <-> no_slash a /\ no_slash b.
Proof. unfold no_slash. rewrite existsb_app, orb_false_iff. tauto. Qed.

Lemma no_slash_forall (s : str) : no_slash s <-> forall c, In c s -> c <> slash.
Proof.
  unfold no_slash. split.
  - intros H c Hc ->. assert (Ht : existsb (Z.eqb slash) s = true).
    { apply existsb_exists. exists slash. split; [exact Hc | apply Z.eqb_refl]. }
    congruence.
  - intros H. destruct (existsb (Z.eqb slash) s) eqn:Ex; [|reflexivity].
    apply existsb_exists in Ex. destruct Ex as (c & Hc & He).
    apply Z.eqb_eq in He. subst c. exfalso. exact (H _ Hc eq_refl).
Qed.

Lemma no_slash_infix (a b : str) : infix a b -> no_slash b -> no_slash a.
Proof.
  intros (l1 & l2 & ->) H. apply no_slash_app in H. destruct H as [_ H].
  apply no_slash_app in H. tauto.
Qed.

Lemma no_slash_concat (parts : list str) :
  Forall no_slash parts -> no_slash (concat parts).
Proof.
  induction 1 as [|p parts Hp _ IH]; simpl; [reflexivity|].
  apply no_slash_app. split; assumption.
Qed.

Lemma sub_runs_chars (prev : bool) (s : str) (c : char) :
  In c (sub_runs_from is_hyphen [hyphen] prev s) -> In c s \/ c = hyphen.
Proof.
  revert prev. induction s as [|x s IH]; intros prev; simpl; [tauto|].
  destruct (is_hyphen x).
  - intros H. apply in_app_or in H. destruct H as [H|H].
    + destruct prev; simpl in H; [tauto|]. destruct H as [<-|[]]. right; reflexivity.
    + destruct (IH _ H); tauto.
  - intros [H|H]; [tauto | destruct (IH _ H); tauto].
Qed.

Lemma no_slash_sub_runs (prev : bool) (s : str) :
  no_slash s -> no_slash (sub_runs_from is_hyphen [hyphen] prev s).
Proof.
  rewrite !no_slash_forall. intros H c Hc.
  destruct (sub_runs_chars _ _ _ Hc) as [Hin| ->]; [apply H; exact Hin | discriminate].
Qed.

Lemma no_slash_normalize (s : str) : no_slash s -> no_slash (normalize_stem s).
Proof.
  intros H. unfold normalize_stem.
  destruct (strip_infix is_hyphen (re_sub_runs is_hyphen [hyphen] s)) as (l1 & l2 & Hs).
  apply (no_slash_infix _ (re_sub_runs is_hyphen [hyphen] s)).
  - exists l1, l2. exact Hs.
  - apply no_slash_sub_runs. exact H.
Qed.

Lemma dictionary_values_no_slash :
  forallb (fun kv => negb (existsb (Z.eqb slash) (snd kv))) DSP_DICTIONARY = true.
Proof. vm_compute. reflexivity. Qed.

Lemma matched_ranges_total (s : str) :
  exists l, matched_ranges s = Some l /\
            Forall (fun m => no_slash (span_text m)) l.
Proof.
  destruct (matched_ranges_in_spec DSP_DICTIONARY s) as (l & El & _ & _ & Hm & _).
  exists l. split; [exact El|].
  eapply Forall_impl; [|exact Hm].
  intros m (t & _ & Hg & _). apply dict_get_in in Hg.
  pose proof dictionary_values_no_slash as Hd. rewrite forallb_forall in Hd.
  apply Hd, negb_true_iff in Hg. exact Hg.
Qed.

Section NoSlash.
Context {E : Env}.
Hypothesis word_not_slash : is_word slash = false.

Lemma no_slash_clean (t : str) : no_slash (clean_translation t).
Proof.
  unfold clean_translation. apply no_slash_forall. intros c Hc ->.
  apply filter_In in Hc. destruct Hc as [_ Ha].
  unfold allowed_char in Ha. rewrite word_not_slash in Ha. discriminate Ha.
Qed.

Lemma returns_remaining (text : str) :
  no_slash text -> returns no_slash (translate_remaining_chinese text).
Proof.
  intros Ht. unfold translate_remaining_chinese.
  destruct (is_empty_list _); [apply returns_ret; exact Ht|].
  apply returns_foldM; [|exact Ht].
  intros acc [[r a] b] _ Hacc. unfold replace_segment.
  apply returns_bind with (P := fun _ => True); [intros w x w' _; exact I|].
  intros t _. apply returns_ret.
  apply no_slash_app. split; [apply (no_slash_infix _ acc (infix_firstn _ _) Hacc)|].
  apply no_slash_app. split; [apply no_slash_clean|].
  apply (no_slash_infix _ acc (infix_skipn _ _) Hacc).
Qed.

Lemma returns_gap (parts : list str) (gap : str) :
  Forall no_slash parts -> no_slash gap ->
  returns (Forall no_slash) (append_gap parts gap).
Proof.
  intros Hp Hg. unfold append_gap.
  destruct (is_empty gap); [apply returns_ret; exact Hp|].
  apply returns_bind with (P := no_slash).
  - destruct (contains_chinese gap);
      [apply returns_remaining | apply returns_ret]; exact Hg.
  - intros g Hgn. apply returns_ret. apply Forall_app. split; [exact Hp|].
    constructor; [exact Hgn | constructor].
Qed.

Lemma returns_dictionary (text : str) :
  no_slash text -> returns no_slash (translate_with_dictionary text).
Proof.
  intros Ht. unfold translate_with_dictionary.
  destruct (matched_ranges_total text) as (matched & -> & Hm).
  destruct (is_empty_list matched); [apply returns_remaining; exact Ht|].
  apply returns_bind with (P := fun st => Forall no_slash (fst st)).
  - apply returns_foldM; [|constructor].
    intros [parts last_end] [[a b] r] Hin Hacc. unfold append_match.
    apply returns_bind with (P := Forall no_slash).
    + apply returns_gap; [exact Hacc|].
      apply (no_slash_infix _ text (infix_slice _ _ _) Ht).
    + intros p Hp. apply returns_ret. cbn [fst]. apply Forall_app. split; [exact Hp|].
      constructor; [|constructor]. rewrite Forall_forall in Hm. exact (Hm _ Hin).
  - intros [parts last_end] Hp. cbn [fst] in Hp.
    apply returns_bind with (P := Forall no_slash).
    + apply returns_gap; [exact Hp|].
      apply (no_slash_infix _ text (infix_skipn _ _) Ht).
    + intros p Hpn. apply returns_ret. apply no_slash_concat. exact Hpn.
Qed.

(** A base name resolves to a base name. *)
Lemma returns_name (name : str) :
  no_slash name -> returns no_slash (translate_name name).
Proof.
  intros Hn. unfold translate_name.
  destruct (contains_chinese name) eqn:Ec; cbn [negb]; [|apply returns_ret; exact Hn].
  destruct (str_suffix_base_name name Hn Ec) as [Esuf Estem].
  assert (Hsuf : no_slash (str_suffix name)).
  { rewrite Esuf. apply (no_slash_infix _ name); [|exact Hn].
    exists (name_stem name), []. rewrite app_nil_r. symmetry. apply name_stem_suffix. }
  assert (Hstem : no_slash (if is_empty (str_suffix name) then name else str_stem name)).
  { destruct (is_empty (str_suffix name)); [exact Hn|]. rewrite Estem.
    apply (no_slash_infix _ name); [|exact Hn].
    exists [], (name_suffix name). symmetry. apply name_stem_suffix. }
  apply returns_bind with (P := no_slash).
  - apply returns_dictionary. exact Hstem.
  - intros t Ht. apply returns_ret. apply no_slash_app.
    split; [apply no_slash_normalize; exact Ht | exact Hsuf].
Qed.

End NoSlash.

Section Bounds.
Context {E : Env}.

Lemma within_bounds_remaining (text : str) :
  within_bounds (translate_remaining_chinese text).
Proof.
  unfold translate_remaining_chinese.
  destruct (is_empty_list _); [apply within_bounds_ret|].
  apply within_bounds_foldM. intros acc [[r a] b]. unfold replace_segment.
  apply within_bounds_bind; [|intros t; apply within_bounds_ret].
  intros w w'. unfold translator_translate. destruct (argos_translate r); discriminate.
Qed.

Lemma within_bounds_gap (parts : list str) (gap : str) :
  within_bounds (append_gap parts gap).
Proof.
  unfold append_gap. destruct (is_empty gap); [apply within_bounds_ret|].
  apply within_bounds_bind; [|intros g; apply within_bounds_ret].
  destruct (contains_chinese gap); [apply within_bounds_remaining | apply within_bounds_ret].
Qed.

(** [translate_name] always ends: the bound of the matching loop is never
    reached. *)
Lemma within_bounds_name (name : str) : within_bounds (translate_name name).
Proof.
  unfold translate_name. destruct (negb (contains_chinese name)); [apply within_bounds_ret|].
  apply within_bounds_bind; [|intros t; apply within_bounds_ret].
  unfold translate_with_dictionary.
  destruct (matched_ranges_total (if is_empty (str_suffix name) then name else str_stem name))
    as (matched & -> & _).
  destruct (is_empty_list matched); [apply within_bounds_remaining|].
  apply within_bounds_bind.
  - apply within_bounds_foldM. intros [parts last_end] [[a b] r]. unfold append_match.
    apply within_bounds_bind; [apply within_bounds_gap | intros p; apply within_bounds_ret].
  - intros [parts last_end].
    apply within_bounds_bind; [apply within_bounds_gap | intros p; apply within_bounds_ret].
Qed.

End Bounds.

(** ** The collision rule *)

Lemma digits_chars (u : Decimal.uint) (c : char) :
  In c (digits u) -> (48 <= c <= 57)%Z.
Proof.
  induction u; simpl; try tauto; intros [<-|H]; try lia; auto.
Qed.

Lemma digits_inj (u v : Decimal.uint) : digits u = digits v -> u = v.
Proof.
  revert v. induction u; intros v; destruct v; simpl; try discriminate;
    try reflexivity; intros [= H]; f_equal; auto.
Qed.

Lemma str_of_nat_inj (j k : nat) : str_of_nat j = str_of_nat k -> j = k.
Proof.
  unfold str_of_nat. intros H. apply digits_inj in H.
  apply DecimalNat.Unsigned.to_uint_inj. exact H.
Qed.

Lemma numbered_inj (stem suffix : str) (j k : nat) :
  numbered stem j suffix = numbered stem k suffix -> j = k.
Proof.
  unfold numbered. intros H. apply app_inv_head in H. simpl in H.
  injection H as H. apply app_inv_tail in H. apply str_of_nat_inj. exact H.
Qed.

Lemma numbered_plain (stem suffix : str) (k : nat) :
  no_slash stem -> no_slash suffix -> plain_name (numbered stem k suffix) = true.
Proof.
  intros Hs Hx.
  assert (Hu : In underscore (numbered stem k suffix)).
  { unfold numbered. apply in_or_app. right. left. reflexivity. }
  unfold plain_name. rewrite !andb_true_iff, !negb_true_iff. repeat split.
  - destruct (numbered stem k suffix); [destruct Hu | reflexivity].
  - apply str_eqb_neq. intros He. rewrite He in Hu.
    destruct Hu as [Hu|[]]. discriminate Hu.
  - apply str_eqb_neq. intros He. rewrite He in Hu.
    destruct Hu as [Hu|[Hu|[]]]; discriminate Hu.
  - unfold numbered. apply no_slash_app. split; [exact Hs|].
    apply no_slash_app. split; [reflexivity|].
    apply no_slash_app. split; [|exact Hx].
    apply no_slash_forall. intros c Hc ->.
    apply digits_chars in Hc. unfold slash in Hc. lia.
Qed.

Lemma no_slash_cases (s : str) :
  no_slash s -> s = [] \/ s = [period] \/ s = dotdot \/ plain_name s = true.
Proof.
  intros H. unfold plain_name. rewrite H.
  destruct s as [|c s]; [left; reflexivity|]. right. cbn [is_empty is_empty_list negb andb].
  destruct (str_eqb (c :: s) [period]) eqn:E1;
    [left; apply str_eqb_eq; exact E1|].
  destruct (str_eqb (c :: s) dotdot) eqn:E2;
    [right; left; apply str_eqb_eq; exact E2|].
  right; right. reflexivity.
Qed.

Lemma plain_name_no_slash (s : str) : plain_name s = true -> no_slash s.
Proof.
  unfold plain_name. intros H. apply andb_true_iff in H. destruct H as [_ H].
  apply negb_true_iff in H. exact H.
Qed.

Lemma plain_path_name (p : path) : plain_path p = true -> no_slash (path_name p).
Proof.
  unfold path_name, plain_path. induction p as [|c p IH]; simpl; [reflexivity|].
  rewrite andb_true_iff. intros [Hc Hp].
  destruct p as [|d p]; [apply plain_name_no_slash; exact Hc | apply IH; exact Hp].
Qed.

Lemma path_join_period (p : path) : path_join p [period] = p.
Proof. unfold path_join. cbn. apply app_nil_r. Qed.

Lemma path_join_dotdot (p : path) : path_join p dotdot = p ++ [dotdot].
Proof. reflexivity. Qed.

Lemma node_count_pos (n : node) : 1 <= node_count n.
Proof. destruct n; simpl; lia. Qed.

Lemma node_count_entries (es : list (str * node)) :
  length es <= list_sum (map (fun e => node_count (snd e)) es).
Proof.
  induction es as [|e es IH]; simpl; [lia|].
  pose proof (node_count_pos (snd e)). lia.
Qed.

Lemma lookup_entry_count (c : str) (es : list (str * node)) (x : node) :
  lookup_entry c es = Some x ->
  node_count x <= list_sum (map (fun e => node_count (snd e)) es).
Proof.
  induction es as [|[n y] es IH]; simpl; [discriminate|].
  destruct (str_eqb n c); [intros [= <-]; lia | intros H; specialize (IH H); lia].
Qed.

Lemma lookup_path_count (p : path) :
  forall fs m, lookup_path fs p = Some m -> node_count m <= node_count fs.
Proof.
  induction p as [|c p IH]; intros fs m; simpl.
  - intros [= <-]. lia.
  - destruct fs as [|es|target]; try discriminate.
    destruct (lookup_entry c es) as [x|] eqn:Ex; [|discriminate].
    intros H. specialize (IH _ _ H). apply lookup_entry_count in Ex. simpl. lia.
Qed.

Lemma lookup_entry_name (c : str) (es : list (str * node)) (x : node) :
  lookup_entry c es = Some x -> In c (map fst es).
Proof.
  induction es as [|[n y] es IH]; simpl; [discriminate|].
  destruct (str_eqb n c) eqn:En; [|auto].
  apply str_eqb_eq in En. auto.
Qed.

Lemma map_inj_nodup {A B : Type} (f : A -> B) (l : list A) :
  (forall a b, f a = f b -> a = b) -> NoDup l -> NoDup (map f l).
Proof.
  intros Hf. induction 1 as [|x l Hx Hl IH]; simpl; constructor; [|exact IH].
  intros Hin. apply in_map_iff in Hin. destruct Hin as (y & Hy & Hin).
  apply Hf in Hy. subst. contradiction.
Qed.

(** The loop that ran out of its bound found every numbered name up to
    the bound taken. *)
Lemma free_name_exhausted {E : Env} (parent : path) (stem suffix : str) (fuel : nat) :
  forall counter nm np w w',
    free_name fuel parent stem suffix nm np counter w = (OutOfFuel, w') ->
    (1 <= fuel -> fs_exists (w_fs w) np = true) /\
    forall j, counter <= j -> j + 2 <= counter + fuel ->
      fs_exists (w_fs w) (path_join parent (numbered stem j suffix)) = true.
Proof.
  induction fuel as [|fuel IH]; intros counter nm np w w'; simpl.
  - intros _. split; intros; lia.
  - unfold bind at 1, path_exists at 1.
    destruct (stat_permits np); [|discriminate].
    destruct (fs_exists (w_fs w) np) eqn:Ex; [|discriminate].
    intros H. destruct (IH _ _ _ _ _ H) as [Hfirst Hrest].
    split; [reflexivity|]. intros j Hj1 Hj2.
    destruct (Nat.eq_dec j counter) as [->|Hne].
    + apply Hfirst. lia.
    + apply Hrest; lia.
Qed.

Section Collisions.
Context {E : Env}.
Variable fs : node.
Variable old_path : path.
Variable new_name : str.
Hypothesis old_plain : plain_path old_path = true.
Hypothesis old_not_root : old_path <> [].
Hypothesis old_exists : fs_exists fs old_path = true.
Hypothesis new_no_slash : no_slash new_name.

Lemma old_split : old_path = path_parent old_path ++ [path_name old_path].
Proof. apply app_removelast_last. exact old_not_root. Qed.

Lemma parent_plain :
  plain_path (path_parent old_path) = true /\ plain_name (path_name old_path) = true.
Proof.
  pose proof old_plain as H. rewrite old_split, plain_path_app in H.
  apply andb_true_iff in H. destruct H as [H1 H2]. simpl in H2.
  rewrite andb_true_r in H2. split; assumption.
Qed.

(** The folder of the entry is a directory that [stat] finds. *)
Lemma parent_is_dir :
  exists links q es,
    realpath max_links fs [] (path_parent old_path) = Some (links, q) /\
    lookup_path fs q = Some (Dir es).
Proof.
  pose proof old_exists as H. rewrite old_split in H.
  destruct (fs_exists_snoc _ _ _ H) as (links & q & es & Hr & Hl & _).
  exists links, q, es. split; assumption.
Qed.

Lemma sibling_exists (name : str) (links : nat) (q : path) (es : list (str * node)) :
  plain_name name = true ->
  realpath max_links fs [] (path_parent old_path) = Some (links, q) ->
  lookup_path fs q = Some (Dir es) ->
  fs_exists fs (path_parent old_path ++ [name]) = true -> In name (map fst es).
Proof.
  intros Hn Hr He Hx.
  destruct (fs_exists_snoc _ _ _ Hx) as (links' & q' & es' & Hr' & Hl' & Hin).
  rewrite Hr in Hr'. injection Hr' as _ <-. rewrite He in Hl'. injection Hl' as <-.
  apply Hin. apply plain_name_not_dotdot. exact Hn.
Qed.

(** The name of the proposed path has no slash, so the numbered names are
    plain. *)
Lemma numbering_no_slash :
  no_slash (numbering_stem old_path new_name) /\
  no_slash (numbering_suffix old_path new_name).
Proof.
  destruct parent_plain as [Hp _].
  assert (Hname : no_slash (path_name (path_join (path_parent old_path) new_name))).
  { destruct (no_slash_cases _ new_no_slash) as [->|[->|[->|Hpl]]].
    - simpl. apply plain_path_name. exact Hp.
    - rewrite path_join_period. apply plain_path_name. exact Hp.
    - rewrite path_join_dotdot. unfold path_name. rewrite last_last. reflexivity.
    - rewrite path_join_plain by exact Hpl. unfold path_name. rewrite last_last.
      exact new_no_slash. }
  unfold numbering_stem, numbering_suffix, path_stem, path_suffix.
  set (name := path_name (path_join (path_parent old_path) new_name)) in *.
  assert (Hsuf : no_slash (name_suffix name)).
  { apply (no_slash_infix _ name); [|exact Hname].
    exists (name_stem name), []. rewrite app_nil_r. symmetry. apply name_stem_suffix. }
  split; [|exact Hsuf].
  destruct (is_empty (name_suffix name)); [exact new_no_slash|].
  apply (no_slash_infix _ name); [|exact Hname].
  exists [], (name_suffix name). symmetry. apply name_stem_suffix.
Qed.

Lemma parent_exists :
  fs_exists fs (path_parent old_path) = true /\
  fs_exists fs (path_parent old_path ++ [dotdot]) = true.
Proof.
  destruct parent_is_dir as (links & q & es & Hr & Hl).
  exact (fs_exists_dotdot _ _ _ _ _ Hr Hl).
Qed.

(** Under these conditions the search for a target ends within the bound
    of the model, and the target is a plain sibling of the source. *)
Lemma find_target_ends (w w' : world) (o : outcome (str * path)) :
  w_fs w = fs ->
  find_target old_path new_name w = (o, w') ->
  o <> OutOfFuel /\
  forall final_name target, o = Ok (final_name, target) ->
    plain_name final_name = true /\ target = path_parent old_path ++ [final_name].
Proof.
  intros Hfs Hf. destruct parent_is_dir as (links & q & es & Hreal & Hdir).
  destruct parent_plain as [Hp _]. destruct numbering_no_slash as [Hst Hsu].
  destruct parent_exists as [Epar Edot].
  assert (Hnum : forall k,
             plain_name (numbered (numbering_stem old_path new_name) k
                                  (numbering_suffix old_path new_name)) = true)
    by (intros k; apply numbered_plain; assumption).
  split.
  - intros ->. unfold find_target in Hf. unfold bind at 1, path_exists at 1 in Hf.
    destruct (stat_permits (path_join (path_parent old_path) new_name));
      [|discriminate].
    destruct (fs_exists (w_fs w) (path_join (path_parent old_path) new_name));
      [|discriminate].
    unfold bind at 1, get_fs at 1 in Hf.
    apply free_name_exhausted in Hf. destruct Hf as [_ Hall]. rewrite Hfs in Hall.
    set (name := fun k => numbered (numbering_stem old_path new_name) k
                                   (numbering_suffix old_path new_name)) in *.
    assert (Hincl : incl (map name (seq 1 (node_count fs))) (map fst es)).
    { intros x Hx. apply in_map_iff in Hx. destruct Hx as (k & <- & Hk).
      apply in_seq in Hk. apply (sibling_exists (name k) links q es (Hnum k) Hreal Hdir).
      rewrite <- path_join_plain by exact (Hnum k). apply Hall; lia. }
    apply NoDup_incl_length in Hincl.
    + rewrite !length_map, length_seq in Hincl.
      pose proof (lookup_path_count _ _ _ Hdir) as Hc. simpl in Hc.
      pose proof (node_count_entries es). lia.
    + apply map_inj_nodup; [|apply seq_NoDup].
      intros a b. apply numbered_inj.
  - intros final_name target ->.
    destruct (find_target_spec _ _ _ _ _ Hf) as [_ Hs].
    destruct (Hs _ _ eq_refl) as [-> [Hfree Hrule]]. rewrite Hfs in *.
    assert (Hplain : plain_name final_name = true).
    { destruct Hrule as [->|(_ & k & _ & -> & _)]; [|apply Hnum].
      destruct (no_slash_cases _ new_no_slash) as [->|[->|[->|Hpl]]]; try exact Hpl.
      - simpl in Hfree. congruence.
      - rewrite path_join_period in Hfree. congruence.
      - rewrite path_join_dotdot in Hfree. congruence. }
    split; [exact Hplain | apply path_join_plain; exact Hplain].
Qed.

End Collisions.

(** ** Live runs *)

Lemma prefix_snoc (a p : path) (x : str) :
  prefix a (p ++ [x]) -> a = p ++ [x] \/ prefix a p.
Proof.
  intros [r Hr]. destruct r as [|y r] using rev_ind.
  - left. rewrite app_nil_r in Hr. congruence.
  - right. rewrite app_assoc in Hr. apply app_inj_tail in Hr.
    destruct Hr as [-> _]. exists r. reflexivity.
Qed.

Lemma prefix_dec (p q : path) : {prefix p q} + {~ prefix p q}.
Proof.
  revert q. induction p as [|c p IH]; intros q.
  - left. apply prefix_nil.
  - destruct q as [|d q].
    + right. intros [r Hr]. discriminate.
    + destruct (str_eq_dec c d) as [->|Hne].
      * destruct (IH q) as [Hp|Hn]; [left | right]; rewrite prefix_cons; assumption.
      * right. intros [r Hr]. simpl in Hr. congruence.
Qed.

Lemma pairs_app_cross {A : Type} (R : A -> A -> Prop) (l1 l2 : list A) :
  ForallOrdPairs R (l1 ++ l2) -> forall x y, In x l1 -> In y l2 -> R x y.
Proof.
  induction l1 as [|a l1 IH]; simpl; intros H x y Hx Hy; [destruct Hx|].
  inversion H as [|? ? Ha Hl]; subst. destruct Hx as [<-|Hx].
  - rewrite Forall_forall in Ha. apply Ha. apply in_or_app. right; exact Hy.
  - exact (IH Hl x y Hx Hy).
Qed.

Lemma pairs_remove_mid {A : Type} (R : A -> A -> Prop) (l1 l2 : list A) (a : A) :
  ForallOrdPairs R (l1 ++ a :: l2) -> ForallOrdPairs R (l1 ++ l2).
Proof.
  induction l1 as [|b l1 IH]; simpl; intros H; inversion H as [|? ? Hb Hl]; subst.
  - exact Hl.
  - constructor; [|exact (IH Hl)].
    rewrite Forall_forall in *. intros y Hy. apply Hb.
    apply in_app_or in Hy. apply in_or_app. destruct Hy; [left | right; right]; assumption.
Qed.

Lemma nodup_app_disjoint {A : Type} (l1 l2 : list A) (x : A) :
  NoDup (l1 ++ l2) -> In x l1 -> In x l2 -> False.
Proof.
  induction l1 as [|a l1 IH]; simpl; intros H H1 H2; [exact H1|].
  inversion H as [|? ? Ha Hl]; subst. destruct H1 as [<-|H1].
  - apply Ha. apply in_or_app. right; exact H2.
  - exact (IH Hl H1 H2).
Qed.

Lemma targets_tracked_later (fs : node) (later later' : list path) (done : list (path * path)) :
  (forall q, In q later' -> In q later) ->
  targets_tracked fs later done -> targets_tracked fs later' done.
Proof.
  intros Hl. induction done as [|[o n] done IH]; simpl; [tauto|].
  intros (H1 & H2 & H3 & H4). repeat split; try assumption; [|exact (IH H4)].
  intros Hin. apply H2. apply in_app_or in Hin. apply in_or_app.
  destruct Hin; [left | right; apply Hl]; assumption.
Qed.

Lemma targets_tracked_in (fs : node) (later : list path) (done : list (path * path))
      (o n : path) :
  targets_tracked fs later done -> In (o, n) done ->
  exists rest : list (path * path),
    (forall a, In a (map fst rest) -> In a (map fst done)) /\
    (fs_exists fs n = true \/ exists a, In a (map fst rest) /\ prefix a n) /\
    ~ In n (map fst rest ++ later).
Proof.
  induction done as [|[o' n'] done IH]; simpl; [tauto|].
  intros (H1 & H2 & H3 & H4) [Heq|Hin].
  - injection Heq as -> ->. exists done. repeat split; auto.
  - destruct (IH H4 Hin) as (rest & Hsub & Hr). exists rest. split; [auto | exact Hr].
Qed.

Lemma targets_tracked_snoc (fs fs' : node) (p target : path) (rest : list path)
      (done : list (path * path)) :
  (forall q, plain_path q = true -> fs_exists fs q = true -> ~ prefix p q ->
             fs_exists fs' q = true) ->
  fs_exists fs' target = true -> plain_path target = true -> ~ In target rest ->
  targets_tracked fs (p :: rest) done ->
  targets_tracked fs' rest (done ++ [(p, target)]).
Proof.
  intros Ekeep Enew Pt Hnot. induction done as [|[o n] done IH]; simpl.
  - intros _. repeat split; auto.
  - intros (G1 & G2 & G3 & G4). repeat split.
    + destruct G1 as [Hq|(a & Ha & Hpre)].
      * destruct (prefix_dec p n) as [Hpq|Hnpq].
        -- right. exists p. split; [|exact Hpq].
           rewrite map_app. apply in_or_app. right. left. reflexivity.
        -- left. apply Ekeep; assumption.
      * right. exists a. split; [|exact Hpre].
        rewrite map_app. apply in_or_app. left. exact Ha.
    + intros Hin. apply G2. rewrite map_app, <- app_assoc in Hin. exact Hin.
    + exact G3.
    + exact (IH G4).
Qed.

(** A candidate that is left as it is goes off the list. *)
Lemma live_invariant_skip (fs : node) (p : path) (rest : list path)
      (done : list (path * path)) :
  live_invariant fs (p :: rest) done -> live_invariant fs rest done.
Proof.
  intros [Hf Ho Hn Ht Hg Hd]. constructor.
  - exact Hf.
  - exact (pairs_remove_mid _ _ _ _ Ho).
  - exact (NoDup_remove_1 _ _ _ Hn).
  - intros q Hq. apply Ht. right; exact Hq.
  - apply (targets_tracked_later fs (p :: rest)); [intros q Hq; right; exact Hq | exact Hg].
  - exact Hd.
Qed.

(** A candidate that is renamed to a free plain sibling keeps the
    invariant, and its target is a new one. *)
Lemma live_invariant_rename (fs fs' : node) (p target : path) (final_name : str)
      (rest : list path) (done : list (path * path)) :
  live_invariant fs (p :: rest) done ->
  fs_exists fs target = false ->
  fs_rename fs p target = Some fs' ->
  target = path_parent p ++ [final_name] ->
  plain_name final_name = true ->
  live_invariant fs' rest (done ++ [(p, target)]).
Proof.
  intros [Hf Ho Hn Ht Hg Hd] Efree Hr Htarget Hfinal.
  destruct (Ht p (or_introl eq_refl)) as (Hp0 & Pp & _).
  assert (Pt : plain_path target = true).
  { rewrite Htarget, plain_path_app, (plain_path_parent _ Pp). cbn [plain_path forallb].
    rewrite Hfinal. reflexivity. }
  destruct (fs_rename_effect _ _ _ _ Hf Pp Pt Efree Hr) as (Hf' & Enew & Ekeep).
  assert (Hsplit : p = path_parent p ++ [path_name p])
    by (apply app_removelast_last; exact Hp0).
  assert (Habove : forall a, In a (map fst done) -> prefix a target -> a = target).
  { intros a Ha Hpre. rewrite Htarget in Hpre.
    destruct (prefix_snoc _ _ _ Hpre) as [->|[r Hr']]; [symmetry; exact Htarget|].
    exfalso. apply (pairs_app_cross _ _ _ Ho a p Ha (or_introl eq_refl)).
    exists (r ++ [path_name p]). split.
    - rewrite app_assoc, <- Hr'. exact Hsplit.
    - destruct r; discriminate. }
  assert (Hmoved : forall q, plain_path q = true ->
             (fs_exists fs q = true \/ exists a, In a (map fst done) /\ prefix a q) ->
             (fs_exists fs' q = true \/
              exists a, In a (map fst (done ++ [(p, target)])) /\ prefix a q)).
  { intros q Pq [Hq|(a & Ha & Hpre)].
    - destruct (prefix_dec p q) as [Hpq|Hnpq].
      + right. exists p. split; [|exact Hpq].
        rewrite map_app. apply in_or_app. right. left. reflexivity.
      + left. apply Ekeep; assumption.
    - right. exists a. split; [|exact Hpre].
      rewrite map_app. apply in_or_app. left. exact Ha. }
  assert (Hnew_todo : ~ In target rest).
  { intros Hin. destruct (Ht target (or_intror Hin)) as (_ & _ & [Hx|(a & Ha & Hpre)]).
    - congruence.
    - rewrite (Habove a Ha Hpre) in Ha.
      apply (nodup_app_disjoint _ _ target Hn Ha). right; exact Hin. }
  assert (Hnew_done : ~ In target (map snd done)).
  { intros Hin. apply in_map_iff in Hin. destruct Hin as ([o n] & Hn' & Hin).
    simpl in Hn'. subst n.
    destruct (targets_tracked_in _ _ _ _ _ Hg Hin) as (later & Hsub & [Hx|(a & Ha & Hpre)] & Hnot).
    - congruence.
    - rewrite (Habove a (Hsub a Ha) Hpre) in Ha.
      apply Hnot. apply in_or_app. left. exact Ha. }
  constructor.
  - exact Hf'.
  - rewrite map_app, <- app_assoc. exact Ho.
  - rewrite map_app, <- app_assoc. exact Hn.
  - intros q Hq. destruct (Ht q (or_intror Hq)) as (H1 & H2 & H3).
    split; [exact H1|]. split; [exact H2|]. apply Hmoved; assumption.
  - apply (targets_tracked_snoc fs); assumption.
  - rewrite map_app. apply NoDup_app; [exact Hd | repeat constructor; intros [] |].
    intros a Ha [<-|[]]. exact (Hnew_done Ha).
Qed.

Section LiveRuns.
Context {E : Env}.
Hypothesis word_not_slash : is_word slash = false.



End LiveRuns.


Section TargetsClaim.
Context {E : Env}.


End TargetsClaim.



(** The example of the specification: two candidates of one directory
    that both resolve to [Coal] end as [Coal] and [Coal_1] in a live
    run. *)
Example twin_tree_live_run :
  @translate_directory stub_env [cp "proj"] false (empty_world twin_tree)
  = (Ok tt,
     World (Dir [(cp "proj", Dir [(cp "Coal", File); (cp "Coal_1", File)])])
           []
           [([cp "proj"; name_coal], [cp "proj"; cp "Coal"]);
            ([cp "proj"; name_coal_mine], [cp "proj"; cp "Coal_1"])]
           [PrintFound 2;
            PrintRenamed [cp "proj"; name_coal] (cp "Coal");
            PrintRenamed [cp "proj"; name_coal_mine] (cp "Coal_1");
            PrintSummary false 2]).
Proof. vm_compute. reflexivity. Qed.

(** * Further properties of the code *)

(** ** The shape of a normalised stem *)

Lemma filter_dropwhile (p : char -> bool) (s : str) :
  filter (fun c => negb (p c)) (dropwhile p s) = filter (fun c => negb (p c)) s.
Proof.
  induction s as [|c s IH]; simpl; [reflexivity|].
  destruct (p c) eqn:E; simpl; [exact IH | rewrite E; reflexivity].
Qed.

Lemma filter_strip (p : char -> bool) (s : str) :
  filter (fun c => negb (p c)) (strip p s) = filter (fun c => negb (p c)) s.
Proof.
  unfold strip.
  rewrite filter_rev, filter_dropwhile, filter_rev, rev_involutive.
  apply filter_dropwhile.
Qed.

Lemma filter_sub_runs (prev : bool) (s : str) :
  filter (fun c => negb (is_hyphen c)) (sub_runs_from is_hyphen [hyphen] prev s)
  = filter (fun c => negb (is_hyphen c)) s.
Proof.
  revert prev; induction s as [|c s IH]; intros prev; simpl; [reflexivity|].
  destruct (is_hyphen c) eqn:E; simpl.
  - destruct prev; simpl; [apply IH|].
    change (is_hyphen hyphen) with true. simpl. apply IH.
  - rewrite E. simpl. f_equal. apply IH.
Qed.

Lemma strip_ends_clear (p : char -> bool) (s : str) :
  starts_clear p (rev (strip p s)).
Proof. unfold strip. rewrite rev_involutive. apply dropwhile_clear. Qed.

Lemma strip_length (p : char -> bool) (s : str) : length (strip p s) <= length s.
Proof.
  destruct (strip_infix p s) as (l1 & l2 & H).
  rewrite H at 2. rewrite !length_app. lia.
Qed.

Lemma sub_runs_length (prev : bool) (s : str) :
  length (sub_runs_from is_hyphen [hyphen] prev s) <= length s.
Proof.
  revert prev; induction s as [|c s IH]; intros prev; simpl; [lia|].
  destruct (is_hyphen c); simpl.
  - destruct prev; simpl; specialize (IH true); lia.
  - specialize (IH false); lia.
Qed.

(** X1: whatever the translated stem is, its normal form has no two
    hyphens in a row, neither starts nor ends with a hyphen, is no longer
    than the stem, and holds the characters of the stem other than hyphens,
    all of them and in their order. *)
Theorem normalize_stem_shape (translated_stem : str) :
  no_double_hyphen (normalize_stem translated_stem) /\
  starts_clear is_hyphen (normalize_stem translated_stem) /\
  starts_clear is_hyphen (rev (normalize_stem translated_stem)) /\
  length (normalize_stem translated_stem) <= length translated_stem /\
  filter (fun c => negb (is_hyphen c)) (normalize_stem translated_stem)
  = filter (fun c => negb (is_hyphen c)) translated_stem.
Proof.
  unfold normalize_stem, re_sub_runs.
  repeat split.
  - destruct (strip_infix is_hyphen
                (sub_runs_from is_hyphen [hyphen] false translated_stem))
      as (l1 & l2 & H).
    apply (no_double_infix l1 _ l2). rewrite <- H.
    apply (squeezed_no_double false), sub_runs_squeezed.
  - apply strip_clear.
  - apply strip_ends_clear.
  - etransitivity; [apply strip_length | apply sub_runs_length].
  - rewrite filter_strip. apply filter_sub_runs.
Qed.

(** ** Names that are dictionary terms *)

Lemma pairs_single {A : Type} (R : A -> A -> Prop) (l : list A) (x : A) :
  (forall a b, R a b -> R b a) ->
  ForallOrdPairs R l -> In x l -> (forall m, In m l -> ~ R x m) -> l = [x].
Proof.
  intros Rsym Hp Hin Hno.
  destruct (in_split _ _ Hin) as (l1 & l2 & ->).
  destruct l1 as [|a l1].
  - destruct l2 as [|b l2]; [reflexivity|].
    exfalso. apply (Hno b); [right; left; reflexivity|].
    inversion Hp as [|? ? Hall _]; subst.
    inversion Hall; subst; assumption.
  - exfalso. apply (Hno a); [left; reflexivity|].
    apply Rsym.
    apply (pairs_app_cross R [a] (l1 ++ x :: l2)); [exact Hp | left; reflexivity|].
    apply in_or_app; right; left; reflexivity.
Qed.

Lemma occurs_at_whole (s t : str) (i : nat) :
  occurs_at s t i = true -> length s <= length t -> i = 0 /\ t = s.
Proof.
  intros H Hlen. apply occurs_at_iff in H. destruct H as (pre & post & Hs & Hi).
  assert (Hl : length s = length pre + (length t + length post)).
  { rewrite Hs at 1. rewrite !length_app. reflexivity. }
  assert (length pre = 0 /\ length post = 0) as [Hp Hq] by lia.
  destruct pre; [|discriminate]. destruct post; [|discriminate].
  simpl in Hs. rewrite app_nil_r in Hs. split; [lia | congruence].
Qed.

Lemma occurs_at_refl (s : str) : occurs_at s s 0 = true.
Proof. apply occurs_at_iff. exists [], []. rewrite app_nil_r. split; reflexivity. Qed.

Lemma keys_in (d : dict) (k v : str) : In (k, v) d -> In k (keys d).
Proof. intros H. apply (in_map fst) in H. exact H. Qed.

(** A text that is a key of the dictionary has one match: itself. *)
Lemma matched_ranges_key (d : dict) (term replacement : str) :
  forallb (fun k => negb (is_empty k)) (keys d) = true ->
  dict_get d term = Some replacement ->
  matched_ranges_in d term = Some [(0, length term, replacement)].
Proof.
  intros Hne Hget.
  assert (Hkey : In term (keys d)) by (eapply keys_in, dict_get_in; exact Hget).
  destruct (matched_ranges_in_spec d term) as (l & Hl & _ & Hdis & Hmatch & Hall).
  rewrite Hl. f_equal.
  rewrite Forall_forall in Hmatch.
  assert (Hin : forall m, In m l ->
            span_start m < span_end m /\ span_end m <= length term /\
            (length term <= span_len m -> m = (0, length term, replacement))).
  { intros m Hm. destruct (Hmatch m Hm) as (t & Ht & Htext & Hocc & Hend).
    assert (Hpos : 0 < length t).
    { rewrite forallb_forall in Hne. specialize (Hne t Ht).
      destruct t; [discriminate | simpl; lia]. }
    pose proof (occurs_at_bound _ _ _ Hocc) as Hb.
    split; [lia|]. split; [lia|].
    intros Hlen. unfold span_len in Hlen.
    destruct (occurs_at_whole _ _ _ Hocc) as [H0 ->]; [lia|].
    destruct m as [[s e] r]. unfold span_start, span_end, span_text in *.
    cbn [fst snd] in *. rewrite Hget in Htext. inversion Htext; subst.
    reflexivity. }
  assert (H0 : In (0, length term, replacement) l).
  { destruct (Hall term 0 Hkey (occurs_at_refl term)) as [[r Hr] | (m & Hm & Hov & Hlen)].
    - destruct (Hin _ Hr) as (_ & _ & Heq).
      rewrite <- Heq at 1; [exact Hr|].
      unfold span_len, span_end, span_start; cbn [fst snd]. lia.
    - destruct (Hin _ Hm) as (_ & _ & Heq). rewrite <- (Heq Hlen). exact Hm. }
  apply (pairs_single disjoint l _ disjoint_sym Hdis H0).
  intros m Hm [H | H]; destruct (Hin m Hm) as (Hlt & Hle & _);
    unfold span_start, span_end in *; cbn [fst snd] in *; lia.
Qed.

Lemma dictionary_terms_filled :
  forallb (fun k => negb (is_empty k)) (keys DSP_DICTIONARY) = true.
Proof. vm_compute. reflexivity. Qed.

(** The terms are Chinese throughout, so they have no extension, and the
    replacements are in normal form. *)
Lemma dictionary_entries_normal :
  forallb (fun kv => contains_chinese (fst kv) && is_empty (str_suffix (fst kv))
                     && str_eqb (normalize_stem (snd kv)) (snd kv))
          DSP_DICTIONARY = true.
Proof. vm_compute. reflexivity. Qed.

(** X2: a text that is a term of the dictionary is translated to the
    replacement the dictionary gives for it, and a file or folder with
    that name is renamed to exactly that replacement; the translator is
    not called. *)
Theorem dictionary_term_translates {E : Env} (term replacement : str) (w : world) :
  dict_get DSP_DICTIONARY term = Some replacement ->
  translate_with_dictionary term w = (Ok replacement, w) /\
  translate_name term w = (Ok replacement, w).
Proof.
  intros Hget.
  assert (Htwd : translate_with_dictionary term w = (Ok replacement, w)).
  { unfold translate_with_dictionary, matched_ranges.
    rewrite (matched_ranges_key _ _ _ dictionary_terms_filled Hget).
    cbn [is_empty_list foldM append_match]. unfold slice.
    rewrite Nat.sub_0_r. cbn [firstn append_gap is_empty is_empty_list].
    unfold bind, ret. cbn [app].
    rewrite skipn_all. cbn [append_gap is_empty is_empty_list].
    unfold ret. cbn [concat]. rewrite app_nil_r. reflexivity. }
  split; [exact Htwd|].
  pose proof dictionary_entries_normal as Hn. rewrite forallb_forall in Hn.
  specialize (Hn _ (dict_get_in _ _ _ Hget)). cbn [fst snd] in Hn.
  apply andb_true_iff in Hn. destruct Hn as [Hn Hnorm].
  apply andb_true_iff in Hn. destruct Hn as [Hch Hsuf].
  apply str_eqb_eq in Hnorm.
  unfold translate_name. rewrite Hch. cbn [negb]. rewrite Hsuf.
  unfold bind. rewrite Htwd. unfold ret. rewrite Hnorm.
  destruct (str_suffix term); [|discriminate]. rewrite app_nil_r. reflexivity.
Qed.

Lemma dictionary_term_translates_witness :
  dict_get DSP_DICTIONARY name_coal_mine = Some (cp "Coal") /\
  @translate_name stub_env name_coal_mine (empty_world File)
  = (Ok (cp "Coal"), empty_world File).
Proof.
  split; [reflexivity|].
  exact (proj2 (@dictionary_term_translates stub_env name_coal_mine (cp "Coal")
                  (empty_world File) eq_refl)).
Defined.

(** ** What the translator gets to see *)

Lemma calls_all_ret {A : Type} (P : str -> Prop) (a : A) : calls_all P (ret a).
Proof.
  intros w o w' [= <- <-]. exists []. rewrite add_calls_nil. split; constructor.
Qed.

Lemma calls_all_out_of_fuel {A : Type} (P : str -> Prop) : calls_all P (@out_of_fuel A).
Proof.
  intros w o w' [= <- <-]. exists []. rewrite add_calls_nil. split; constructor.
Qed.

(** The continuation only has to behave on what the first part returns. *)
Lemma calls_all_bind {A B : Type} (P : str -> Prop) (Q : A -> Prop)
      (m : M A) (k : A -> M B) :
  calls_all P m -> returns Q m -> (forall a, Q a -> calls_all P (k a)) ->
  calls_all P (bind m k).
Proof.
  intros Hm Hq Hk w o w'. unfold bind.
  destruct (m w) as [[a|e|] w1] eqn:Em;
    destruct (Hm _ _ _ Em) as (cs & Hw1 & Hcs).
  - intros Ek. destruct (Hk a (Hq _ _ _ Em) _ _ _ Ek) as (cs' & -> & Hcs').
    subst w1. exists (cs ++ cs'). rewrite add_calls_app. split; [reflexivity|].
    apply Forall_app; split; assumption.
  - intros [= <- <-]. exists cs. split; assumption.
  - intros [= <- <-]. exists cs. split; assumption.
Qed.

Lemma returns_any {A : Type} (m : M A) : returns (fun _ => True) m.
Proof. intros w a w' _. exact I. Qed.

(** A loop with an invariant that relates the accumulator to what is
    left of the list. *)
Lemma calls_all_foldM_inv {A B : Type} (P : str -> Prop) (Inv : B -> list A -> Prop)
      (f : B -> A -> M B) :
  (forall acc x rest, Inv acc (x :: rest) -> calls_all P (f acc x)) ->
  (forall acc x rest, Inv acc (x :: rest) ->
                      returns (fun acc' => Inv acc' rest) (f acc x)) ->
  forall l acc, Inv acc l ->
    calls_all P (foldM f l acc) /\
    returns (fun acc' => Inv acc' []) (foldM f l acc).
Proof.
  intros Hc Hr. induction l as [|x l IH]; intros acc Hinv; cbn [foldM].
  - split; [apply calls_all_ret | apply returns_ret; exact Hinv].
  - split.
    + apply (calls_all_bind P (fun acc' => Inv acc' l)).
      * exact (Hc _ _ _ Hinv).
      * exact (Hr _ _ _ Hinv).
      * intros a Ha. exact (proj1 (IH a Ha)).
    + apply (returns_bind (fun acc' => Inv acc' l)).
      * exact (Hr _ _ _ Hinv).
      * intros a Ha. exact (proj2 (IH a Ha)).
Qed.

Lemma occurs_at_in_infix (c text t : str) (l1 l2 : str) (i : nat) :
  text = l1 ++ c ++ l2 -> occurs_at c t i = true ->
  occurs_at text t (length l1 + i) = true.
Proof.
  intros -> H. apply occurs_at_iff in H. destruct H as (pre & post & -> & <-).
  apply occurs_at_iff. exists (l1 ++ pre), (post ++ l2).
  rewrite !length_app, <- !app_assoc. split; reflexivity.
Qed.

Lemma occurs_at_in_skipn (s t : str) (a j : nat) :
  t <> [] -> occurs_at (skipn a s) t j = true -> occurs_at s t (a + j) = true.
Proof.
  intros Ht H.
  destruct (Nat.le_gt_cases a (length s)) as [Ha | Ha].
  - pose proof (occurs_at_in_infix (skipn a s) s t (firstn a s) [] j) as Hi.
    rewrite app_nil_r, firstn_skipn, firstn_length_le in Hi by exact Ha.
    exact (Hi eq_refl H).
  - rewrite skipn_all2 in H by lia.
    apply occurs_at_bound in H. simpl in H. destruct t; [congruence | simpl in H; lia].
Qed.

Lemma occurs_at_in_firstn (s t : str) (n j : nat) :
  occurs_at (firstn n s) t j = true ->
  occurs_at s t j = true /\ j + length t <= n.
Proof.
  intros H. split.
  - rewrite <- (Nat.add_0_l j).
    apply (occurs_at_in_infix (firstn n s) s t [] (skipn n s));
      [symmetry; apply firstn_skipn | exact H].
  - apply occurs_at_bound in H. pose proof (firstn_le_length n s). lia.
Qed.

Lemma occurs_at_in_slice (s t : str) (a b j : nat) :
  t <> [] -> occurs_at (slice s a b) t j = true ->
  occurs_at s t (a + j) = true /\ a + j + length t <= b.
Proof.
  unfold slice. intros Ht H. apply occurs_at_in_firstn in H. destruct H as [H Hb].
  split; [apply occurs_at_in_skipn; assumption|].
  destruct t; [congruence | simpl in *; lia].
Qed.

(** Between matches no term of the dictionary occurs: an occurrence there
    would have been accepted. *)
Lemma zone_term_free (result : str) (l : list span) (a b : nat) :
  (forall t idx, In t (keys DSP_DICTIONARY) -> occurs_at result t idx = true ->
                 handled idx t l) ->
  (forall m, In m l -> span_end m <= a \/ b <= span_start m) ->
  forall t idx, In t (keys DSP_DICTIONARY) -> a <= idx -> idx + length t <= b ->
                occurs_at result t idx = false.
Proof.
  intros Hall Hzone t idx Ht Ha Hb.
  destruct (occurs_at result t idx) eqn:Hocc; [exfalso | reflexivity].
  assert (Hpos : 0 < length t).
  { pose proof dictionary_terms_filled as Hne. rewrite forallb_forall in Hne.
    specialize (Hne t Ht). destruct t; [discriminate | simpl; lia]. }
  destruct (Hall t idx Ht Hocc) as [[r Hr] | (m & Hm & Hov & _)].
  - destruct (Hzone _ Hr) as [H | H];
      unfold span_start, span_end in H; cbn [fst snd] in H; lia.
  - apply Hov. unfold apart. destruct (Hzone _ Hm) as [H | H]; lia.
Qed.

Section Precedence.
Context {E : Env}.

Lemma calls_all_translate (P : str -> Prop) (chinese : str) :
  P chinese -> calls_all P (translator_translate chinese).
Proof.
  intros Hp w o w'. unfold translator_translate.
  destruct (argos_translate chinese); intros [= <- <-];
    exists [chinese]; (split; [reflexivity | repeat constructor; exact Hp]).
Qed.

(** Gap resolution sends maximal runs of its text, and nothing else. *)
Lemma calls_all_remaining (text : str) :
  calls_all (fun c => exists seg, maximal_run text seg /\ c = seg_run seg)
            (translate_remaining_chinese text).
Proof.
  unfold translate_remaining_chinese.
  destruct (is_empty_list _); [apply calls_all_ret|].
  apply (calls_all_foldM_inv _ (fun _ rest => forall seg, In seg rest -> maximal_run text seg)).
  - intros acc [[r a] b] rest Hinv. unfold replace_segment.
    apply (calls_all_bind _ (fun _ => True)); [|apply returns_any|].
    + apply calls_all_translate. exists (r, a, b). split; [|reflexivity].
      apply Hinv. left; reflexivity.
    + intros t _. apply calls_all_ret.
  - intros acc seg rest Hinv w a w' _ seg' Hin. apply Hinv. right; exact Hin.
  - intros seg Hin. apply in_rev in Hin.
    pose proof (segments_maximal text) as Hm. rewrite Forall_forall in Hm.
    exact (Hm _ Hin).
Qed.

Lemma calls_all_mono {A : Type} (P Q : str -> Prop) (m : M A) :
  (forall c, P c -> Q c) -> calls_all P m -> calls_all Q m.
Proof.
  intros Hpq Hm w o w' Hw. destruct (Hm _ _ _ Hw) as (cs & -> & Hcs).
  exists cs. split; [reflexivity|].
  eapply Forall_impl; [|exact Hcs]. exact Hpq.
Qed.

(** A text in which no term of the dictionary lies: its runs are sent,
    and they are free of terms. *)
Lemma calls_all_remaining_free (text : str) :
  term_free text ->
  calls_all (fun c => chinese_run c /\ term_free c) (translate_remaining_chinese text).
Proof.
  intros Hfree. eapply calls_all_mono; [|apply calls_all_remaining].
  intros c (seg & (l1 & l2 & Htext & _ & _ & Hne & Hch & _) & ->).
  split; [split; assumption|].
  intros t i Ht. destruct (occurs_at (seg_run seg) t i) eqn:Hocc; [|reflexivity].
  rewrite <- (Hfree t (length l1 + i) Ht). symmetry.
  exact (occurs_at_in_infix _ _ _ _ _ _ Htext Hocc).
Qed.

Lemma calls_all_gap_free (parts : list str) (gap : str) :
  term_free gap ->
  calls_all (fun c => chinese_run c /\ term_free c) (append_gap parts gap).
Proof.
  intros Hfree. unfold append_gap.
  destruct (is_empty gap); [apply calls_all_ret|].
  apply (calls_all_bind _ (fun _ => True)); [|apply returns_any|].
  - destruct (contains_chinese gap); [|apply calls_all_ret].
    apply calls_all_remaining_free. exact Hfree.
  - intros g _. apply calls_all_ret.
Qed.

End Precedence.

Lemma key_not_empty (t : str) : In t (keys DSP_DICTIONARY) -> t <> [].
Proof.
  intros Ht ->. pose proof dictionary_terms_filled as Hne.
  rewrite forallb_forall in Hne. specialize (Hne _ Ht). discriminate.
Qed.

Lemma is_match_filled (result : str) (m : span) :
  is_match DSP_DICTIONARY result m -> span_start m < span_end m.
Proof.
  intros (t & Ht & _ & _ & Hend). apply key_not_empty in Ht.
  destruct t; [congruence | simpl in Hend; lia].
Qed.

Lemma matches_split_start (l : list span) :
  StronglySorted by_start l -> non_overlapping l -> matches_split l 0 l.
Proof.
  intros Hs Hd. exists []. repeat split; try assumption; [constructor|].
  apply Forall_forall. intros m _. lia.
Qed.

Lemma matches_split_zone (l : list span) (last_end : nat) (m0 : span) (rest : list span) :
  matches_split l last_end (m0 :: rest) ->
  forall m, In m l -> span_end m <= last_end \/ span_start m0 <= span_start m.
Proof.
  intros (passed & -> & Hp & Hr & Hs & _) m Hm.
  apply in_app_or in Hm. destruct Hm as [Hm | [<- | Hm]].
  - left. rewrite Forall_forall in Hp. exact (Hp _ Hm).
  - right. lia.
  - right. inversion Hs as [|? ? _ Hall]; subst.
    rewrite Forall_forall in Hall. exact (Hall _ Hm).
Qed.

Lemma matches_split_step (l : list span) (last_end : nat) (m0 : span) (rest : list span) :
  Forall (fun m => span_start m < span_end m) l ->
  matches_split l last_end (m0 :: rest) ->
  matches_split l (span_end m0) rest.
Proof.
  intros Hfill (passed & Hl & Hp & Hr & Hs & Hd).
  assert (H0 : span_start m0 < span_end m0).
  { rewrite Forall_forall in Hfill. apply Hfill. rewrite Hl.
    apply in_or_app; right; left; reflexivity. }
  inversion Hr as [|? ? Hle Hr']; subst.
  inversion Hs as [|? ? Hs' Hall]; subst.
  inversion Hd as [|? ? Hdis Hd']; subst.
  exists (passed ++ [m0]). rewrite <- app_assoc. split; [reflexivity|].
  split; [|split; [|split; assumption]].
  - apply Forall_app; split.
    + eapply Forall_impl; [|exact Hp]. intros m Hm. cbn beta in Hm. lia.
    + constructor; [lia | constructor].
  - rewrite Forall_forall in *. intros m Hm.
    assert (Hfm : span_start m < span_end m).
    { apply Hfill. apply in_or_app; right; right; exact Hm. }
    specialize (Hall m Hm). unfold by_start in Hall.
    destruct (Hdis m Hm) as [H | H]; lia.
Qed.

Lemma matches_split_end (l : list span) (last_end : nat) :
  matches_split l last_end [] ->
  forall m, In m l -> span_end m <= last_end.
Proof.
  intros (passed & -> & Hp & _) m Hm. rewrite app_nil_r in Hm.
  rewrite Forall_forall in Hp. exact (Hp _ Hm).
Qed.

Section PrecedenceClaim.
Context {E : Env}.

Lemma calls_all_dictionary (text : str) :
  calls_all (fun c => chinese_run c /\ term_free c) (translate_with_dictionary text).
Proof.
  unfold translate_with_dictionary, matched_ranges.
  destruct (matched_ranges_in_spec DSP_DICTIONARY text)
    as (l & Hl & Hsorted & Hdis & Hmatch & Hall).
  rewrite Hl.
  assert (Hfill : Forall (fun m => span_start m < span_end m) l).
  { eapply Forall_impl; [|exact Hmatch]. intros m. apply is_match_filled. }
  destruct (is_empty_list l) eqn:El.
  - destruct l; [|discriminate]. apply calls_all_remaining_free.
    intros t i Ht. destruct (occurs_at text t i) eqn:Hocc; [|reflexivity].
    destruct (Hall t i Ht Hocc) as [[r []] | (m & [] & _)].
  - destruct (calls_all_foldM_inv
                (fun c => chinese_run c /\ term_free c)
                (fun (acc : list str * nat) rest => matches_split l (snd acc) rest)
                (append_match text)) with (l := l) (acc := (@nil str, 0))
      as [Hcalls Hret].
    + intros [parts last_end] [[start end_] rep] rest Hinv. cbn [snd] in Hinv.
      unfold append_match.
      apply (calls_all_bind _ (fun _ => True)); [|apply returns_any|].
      * apply calls_all_gap_free. intros t i Ht.
        destruct (occurs_at (slice text last_end start) t i) eqn:Hocc; [|reflexivity].
        apply occurs_at_in_slice in Hocc; [|apply key_not_empty; exact Ht].
        destruct Hocc as [Hocc Hb].
        rewrite <- (zone_term_free text l last_end start Hall
                      (matches_split_zone _ _ _ _ Hinv) t (last_end + i) Ht);
          [symmetry; exact Hocc | lia | lia].
      * intros p _. apply calls_all_ret.
    + intros [parts last_end] [[start end_] rep] rest Hinv w a w' Hw.
      cbn [snd] in Hinv. unfold append_match in Hw.
      destruct (bind_inv Hw) as [(p & w1 & _ & Hk) | [(e & _ & He) | [_ He]]];
        try discriminate.
      unfold ret in Hk. injection Hk as <- _. cbn [snd].
      exact (matches_split_step _ _ _ _ Hfill Hinv).
    + cbn [snd]. apply matches_split_start; assumption.
    + apply (calls_all_bind _ (fun st => matches_split l (snd st) []));
        [exact Hcalls | exact Hret|].
      intros [parts last_end] Hinv. cbn [snd] in Hinv.
      apply (calls_all_bind _ (fun _ => True)); [|apply returns_any|].
      * apply calls_all_gap_free. intros t i Ht.
        destruct (occurs_at (skipn last_end text) t i) eqn:Hocc; [|reflexivity].
        apply occurs_at_in_skipn in Hocc; [|apply key_not_empty; exact Ht].
        rewrite <- (zone_term_free text l last_end (last_end + i + length t) Hall)
          with (t := t) (idx := last_end + i);
          [symmetry; exact Hocc | | exact Ht | lia | lia].
        intros m Hm. left. exact (matches_split_end _ _ Hinv m Hm).
      * intros p _. apply calls_all_ret.
Qed.

(** X3: the dictionary comes first. Whatever [translate_with_dictionary]
    and [translate_name] send to the translator is a non-empty run of
    Chinese characters in which no term of the dictionary occurs; text
    that is not Chinese and terms of the dictionary never reach it. This
    holds however the call ends. *)
Theorem translator_sees_no_term (text : str) (w : world) :
  (exists cs,
      snd (translate_with_dictionary text w) = add_calls w cs /\
      Forall (fun c => chinese_run c /\ term_free c) cs) /\
  (exists cs,
      snd (translate_name text w) = add_calls w cs /\
      Forall (fun c => chinese_run c /\ term_free c) cs).
Proof.
  split.
  - destruct (translate_with_dictionary text w) as [o w'] eqn:Hw.
    exact (calls_all_dictionary text _ _ _ Hw).
  - destruct (translate_name text w) as [o w'] eqn:Hw. cbn [snd].
    revert Hw. unfold translate_name.
    destruct (negb (contains_chinese text)).
    + intros [= <- <-]. exists []. rewrite add_calls_nil. split; constructor.
    + apply (calls_all_bind _ (fun _ => True));
        [apply calls_all_dictionary | apply returns_any|].
      intros t _. apply calls_all_ret.
Qed.

End PrecedenceClaim.

(** ** The result of [translate_with_dictionary], piece by piece *)

Lemma returns_foldM_inv {A B : Type} (Inv : B -> list A -> Prop) (f : B -> A -> M B) :
  (forall acc x rest, Inv acc (x :: rest) ->
                      returns (fun acc' => Inv acc' rest) (f acc x)) ->
  forall l acc, Inv acc l -> returns (fun acc' => Inv acc' []) (foldM f l acc).
Proof.
  intros Hr. induction l as [|x l IH]; intros acc Hinv; cbn [foldM].
  - apply returns_ret. exact Hinv.
  - apply (returns_bind (fun acc' => Inv acc' l)).
    + exact (Hr _ _ _ Hinv).
    + intros a Ha. exact (IH a Ha).
Qed.

Lemma firstn_slice (s : str) :
  forall a b, a <= b -> firstn b s = firstn a s ++ slice s a b.
Proof.
  unfold slice. induction s as [|c s IH]; intros a b Hab.
  - rewrite skipn_nil, !firstn_nil. reflexivity.
  - destruct a as [|a].
    + rewrite Nat.sub_0_r. reflexivity.
    + destruct b as [|b]; [lia|]. cbn [firstn skipn Nat.sub app].
      f_equal. apply IH. lia.
Qed.

Lemma occurs_at_slice (s t : str) (i : nat) :
  occurs_at s t i = true -> slice s i (i + length t) = t.
Proof.
  intros H. apply occurs_at_iff in H. destruct H as (pre & post & -> & <-).
  unfold slice. replace (length pre + length t - length pre) with (length t) by lia.
  rewrite skipn_app, skipn_all, Nat.sub_diag. cbn [skipn app].
  rewrite firstn_app, firstn_all, Nat.sub_diag. cbn [firstn]. apply app_nil_r.
Qed.

Lemma replace_loop_answers {E : Env} (l : list (str * nat * nat)) :
  forall acc w r w',
    foldM replace_segment l acc w = (Ok r, w') ->
    forall seg, In seg l -> argos_translate (seg_run seg) = Some (answer (seg_run seg)).
Proof.
  induction l as [|[[run a] b] l IH]; intros acc w r w' H seg Hin; [destruct Hin|].
  cbn [foldM] in H.
  destruct (bind_inv H) as [(acc1 & w1 & Hstep & Hrest) | [(e & _ & He) | [_ He]]];
    try discriminate.
  destruct Hin as [<- | Hin]; [|exact (IH _ _ _ _ Hrest seg Hin)].
  unfold seg_run, answer; cbn [fst].
  unfold replace_segment, translator_translate, bind in Hstep.
  destruct (argos_translate run); [reflexivity | discriminate].
Qed.

(** A gap resolution that returns has replaced every run by the cleaned
    answer of the translator. *)
Lemma remaining_returns_form {E : Env} (text : str) :
  returns (fun r => r = resolve_runs (fun run => clean_translation (answer run)) text [])
          (translate_remaining_chinese text).
Proof.
  intros w r w' H.
  assert (Hall : forall seg, In seg (extract_chinese_segments text) ->
                   argos_translate (seg_run seg) = Some (answer (seg_run seg))).
  { unfold translate_remaining_chinese in H.
    destruct (extract_chinese_segments text) as [|s0 l0] eqn:Es; [intros seg []|].
    rewrite <- Es in *. cbn [is_empty_list] in H.
    destruct (is_empty_list (extract_chinese_segments text)) eqn:Ee.
    - rewrite Es in Ee. discriminate.
    - intros seg Hin. apply (replace_loop_answers _ _ _ _ _ H).
      apply (proj1 (in_rev _ _)). exact Hin. }
  pose proof (replace_right_to_left (fun run => clean_translation (answer run))
                text [] [] 0 eq_refl) as R.
  cbn [app] in R. rewrite <- R. clear R.
  unfold translate_remaining_chinese in H.
  fold (extract_chinese_segments text).
  destruct (is_empty_list (extract_chinese_segments text)) eqn:Ee.
  - destruct (extract_chinese_segments text); [|discriminate].
    injection H as <- _. reflexivity.
  - rewrite (replace_loop_ok answer) in H
      by (intros seg Hin; apply Hall, in_rev; exact Hin).
    injection H as <- _.
    rewrite <- (fold_left_rev_right
                  (fun seg result => put_translation answer seg result)).
    rewrite rev_involutive. reflexivity.
Qed.

Section Pieces.
Context {E : Env}.
Variable R : str -> str -> Prop.
Hypothesis R_nil : R [] [].
Hypothesis R_app : forall a a' b b', R a a' -> R b b' -> R (a ++ b) (a' ++ b').
Hypothesis R_gap : forall gap, returns (R gap) (translate_remaining_chinese gap).
Hypothesis R_plain : forall gap, contains_chinese gap = false -> R gap gap.
Hypothesis R_match :
  forall term replacement,
    dict_get DSP_DICTIONARY term = Some replacement -> R term replacement.

Lemma returns_gap_piece (parts : list str) (gap done : str) :
  R done (concat parts) ->
  returns (fun parts' => R (done ++ gap) (concat parts')) (append_gap parts gap).
Proof.
  intros Hdone. unfold append_gap.
  destruct gap as [|c gap']; cbn [is_empty is_empty_list].
  - apply returns_ret. rewrite app_nil_r. exact Hdone.
  - apply (returns_bind (R (c :: gap'))).
    + destruct (contains_chinese (c :: gap')) eqn:Ec.
      * apply R_gap.
      * apply returns_ret, R_plain, Ec.
    + intros g Hg. apply returns_ret.
      rewrite concat_app. cbn [concat]. rewrite app_nil_r.
      apply R_app; assumption.
Qed.

(** When the relation [R] holds between every piece of the text and what
    the code puts in its place, it holds between the text and the
    result. *)
Lemma returns_pieces (text : str) : returns (R text) (translate_with_dictionary text).
Proof.
  unfold translate_with_dictionary, matched_ranges.
  destruct (matched_ranges_in_spec DSP_DICTIONARY text)
    as (l & Hl & Hsorted & Hdis & Hmatch & _).
  rewrite Hl.
  assert (Hfill : Forall (fun m => span_start m < span_end m) l).
  { eapply Forall_impl; [|exact Hmatch]. intros m. apply is_match_filled. }
  destruct (is_empty_list l); [apply R_gap|].
  apply (returns_bind
           (fun st : list str * nat =>
              matches_split l (snd st) [] /\ R (firstn (snd st) text) (concat (fst st)))).
  - apply (returns_foldM_inv
             (fun (st : list str * nat) rest =>
                matches_split l (snd st) rest /\
                R (firstn (snd st) text) (concat (fst st)))).
    + intros [parts last_end] [[start end_] rep] rest [Hsplit Hdone].
      cbn [fst snd] in *. unfold append_match.
      assert (Hin : In (start, end_, rep) l).
      { destruct Hsplit as (passed & -> & _). apply in_or_app; right; left; reflexivity. }
      assert (Hle : last_end <= start).
      { destruct Hsplit as (passed & _ & _ & Hr & _).
        inversion Hr; subst; assumption. }
      apply (returns_bind (fun parts' => R (firstn start text) (concat parts'))).
      * pose proof (returns_gap_piece parts (slice text last_end start) _ Hdone) as Hg.
        rewrite <- (firstn_slice text last_end start Hle) in Hg. exact Hg.
      * intros parts' Hparts. apply returns_ret. cbn [fst snd]. split.
        -- exact (matches_split_step _ _ _ _ Hfill Hsplit).
        -- rewrite Forall_forall in Hmatch.
           destruct (Hmatch _ Hin) as (t & _ & Hget & Hocc & Hend).
           unfold span_start, span_end, span_text in *. cbn [fst snd] in *.
           rewrite (firstn_slice text start end_) by lia.
           rewrite Hend, (occurs_at_slice _ _ _ Hocc).
           rewrite concat_app. cbn [concat]. rewrite app_nil_r.
           apply R_app; [exact Hparts | apply R_match; exact Hget].
    + split; [apply matches_split_start; assumption | exact R_nil].
  - intros [parts last_end] [_ Hdone]. cbn [fst snd] in Hdone.
    apply (returns_bind (fun parts' => R text (concat parts'))).
    + pose proof (returns_gap_piece parts (skipn last_end text) _ Hdone) as Hg.
      rewrite firstn_skipn in Hg. exact Hg.
    + intros parts' Hparts. apply returns_ret. exact Hparts.
Qed.

End Pieces.

(** ** Where Chinese characters remain, and what stays as it was *)

Lemma contains_chinese_app (a b : str) :
  contains_chinese (a ++ b) = contains_chinese a || contains_chinese b.
Proof. apply existsb_app. Qed.

Lemma no_chinese_iff (s : str) :
  contains_chinese s = false <-> forall c, In c s -> is_chinese c = false.
Proof.
  unfold contains_chinese. split.
  - intros H c Hc. destruct (is_chinese c) eqn:Ec; [|reflexivity].
    rewrite <- H. symmetry. apply existsb_exists. exists c. split; assumption.
  - intros H. destruct (existsb is_chinese s) eqn:Ex; [|reflexivity].
    apply existsb_exists in Ex. destruct Ex as (c & Hc & Ec).
    rewrite (H c Hc) in Ec. discriminate.
Qed.

Lemma no_chinese_subset (s s' : str) :
  (forall c, In c s' -> In c s \/ c = hyphen) ->
  contains_chinese s = false -> contains_chinese s' = false.
Proof.
  intros Hsub Hs. apply no_chinese_iff. intros c Hc.
  destruct (Hsub c Hc) as [H | ->]; [|reflexivity].
  exact (proj1 (no_chinese_iff s) Hs c H).
Qed.

Lemma sub_runs_from_chars (p : char -> bool) (rep : str) (prev : bool) (s : str) (c : char) :
  In c (sub_runs_from p rep prev s) -> In c s \/ In c rep.
Proof.
  revert prev; induction s as [|x s IH]; intros prev; simpl; [intros []|].
  destruct (p x).
  - intros H. apply in_app_or in H. destruct H as [H | H].
    + destruct prev; [destruct H | right; exact H].
    + destruct (IH _ H); auto.
  - intros [<- | H]; [auto|]. destruct (IH _ H); auto.
Qed.

Lemma strip_chars (p : char -> bool) (s : str) (c : char) :
  In c (strip p s) -> In c s.
Proof.
  intros H. destruct (strip_infix p s) as (l1 & l2 & Hs). rewrite Hs.
  apply in_or_app; right. apply in_or_app; left. exact H.
Qed.

Lemma clean_translation_chars {E : Env} (t : str) (c : char) :
  In c (clean_translation t) -> In c t \/ c = hyphen.
Proof.
  unfold clean_translation, re_sub_runs. intros H.
  apply filter_In in H. destruct H as [H _].
  apply sub_runs_from_chars in H. destruct H as [H | [<- | []]]; [|right; reflexivity].
  left. exact (strip_chars _ _ _ H).
Qed.

Lemma normalize_stem_chars (t : str) (c : char) :
  In c (normalize_stem t) -> In c t \/ c = hyphen.
Proof.
  unfold normalize_stem, re_sub_runs. intros H. apply strip_chars in H.
  apply sub_runs_from_chars in H. destruct H as [H | [<- | []]]; auto.
Qed.

Lemma resolve_runs_no_chinese (g : str -> str) (s : str) :
  (forall run, contains_chinese (g run) = false) ->
  forall run, contains_chinese (resolve_runs g s run) = false.
Proof.
  intros Hg. induction s as [|c s IH]; intros run; cbn [resolve_runs].
  - destruct (is_empty run); [reflexivity | apply Hg].
  - destruct (is_chinese c) eqn:Ec; [apply IH|].
    rewrite contains_chinese_app. cbn [contains_chinese existsb].
    rewrite Ec. fold (contains_chinese (resolve_runs g s [])). rewrite IH.
    destruct (is_empty run); [reflexivity | rewrite Hg; reflexivity].
Qed.

Lemma dictionary_values_no_chinese :
  forallb (fun kv => negb (contains_chinese (snd kv))) DSP_DICTIONARY = true.
Proof. vm_compute. reflexivity. Qed.

Lemma dictionary_terms_all_chinese :
  forallb (forallb is_chinese) (keys DSP_DICTIONARY) = true.
Proof. vm_compute. reflexivity. Qed.

Lemma keeps_rest_app (a a' b b' : str) :
  keeps_rest a a' -> keeps_rest b b' -> keeps_rest (a ++ b) (a' ++ b').
Proof.
  intros Ha Hb. induction Ha as [|c text result Hc _ IH|run rep text result Hne Hch _ IH].
  - exact Hb.
  - cbn [app]. apply keeps_char; assumption.
  - rewrite <- !app_assoc. apply keeps_run; assumption.
Qed.

Lemma keeps_rest_plain (s : str) : contains_chinese s = false -> keeps_rest s s.
Proof.
  induction s as [|c s IH]; intros H; [constructor|].
  cbn [contains_chinese existsb] in H. apply orb_false_iff in H. destruct H as [Hc Hs].
  apply keeps_char; [exact Hc | exact (IH Hs)].
Qed.

Lemma keeps_rest_resolve (g : str -> str) (s : str) :
  forall run, forallb is_chinese run = true ->
              keeps_rest (run ++ s) (resolve_runs g s run).
Proof.
  induction s as [|c s IH]; intros run Hrun; cbn [resolve_runs].
  - destruct run as [|x run]; cbn [is_empty is_empty_list]; [constructor|].
    rewrite <- (app_nil_r (g (x :: run))).
    apply keeps_run; [discriminate | exact Hrun | constructor].
  - destruct (is_chinese c) eqn:Ec.
    + replace (run ++ c :: s) with ((run ++ [c]) ++ s)
        by (rewrite <- app_assoc; reflexivity).
      apply IH. rewrite forallb_app, Hrun. cbn [forallb]. rewrite Ec. reflexivity.
    + destruct run as [|x run]; cbn [is_empty is_empty_list app].
      * apply keeps_char; [exact Ec | exact (IH [] eq_refl)].
      * apply (keeps_run (x :: run)); [discriminate | exact Hrun|].
        apply keeps_char; [exact Ec | exact (IH [] eq_refl)].
Qed.

Section ChineseFree.
Context {E : Env}.

(** X4: with a translator whose answers hold no Chinese character, no
    Chinese character is left in what [translate_with_dictionary]
    returns, and [translate_name] returns a name in which Chinese
    characters are left in the extension only: the name is a stem free of
    Chinese followed by the extension of the old name. *)
Theorem chinese_only_in_extension :
  (forall run t, argos_translate run = Some t -> contains_chinese t = false) ->
  (forall text w w' r,
      translate_with_dictionary text w = (Ok r, w') -> contains_chinese r = false) /\
  (forall name w w' r,
      contains_chinese name = true ->
      translate_name name w = (Ok r, w') ->
      exists stem, r = stem ++ str_suffix name /\ contains_chinese stem = false).
Proof.
  intros Htr.
  assert (Hclean : forall run, contains_chinese (clean_translation (answer run)) = false).
  { intros run. apply (no_chinese_subset (answer run)).
    - intros c. apply clean_translation_chars.
    - unfold answer. destruct (argos_translate run) eqn:Er; [|reflexivity].
      exact (Htr _ _ Er). }
  assert (Htwd : forall text, returns (fun r => contains_chinese r = false)
                                      (translate_with_dictionary text)).
  { intros text.
    apply (returns_pieces (fun _ r => contains_chinese r = false)).
    - reflexivity.
    - intros a a' b b' Ha Hb. rewrite contains_chinese_app, Ha, Hb. reflexivity.
    - intros gap w r w' H. rewrite (remaining_returns_form gap _ _ _ H).
      apply resolve_runs_no_chinese. exact Hclean.
    - intros gap Hgap. exact Hgap.
    - intros term rep Hget. apply dict_get_in in Hget.
      pose proof dictionary_values_no_chinese as Hv. rewrite forallb_forall in Hv.
      specialize (Hv _ Hget). cbn [snd] in Hv.
      destruct (contains_chinese rep); [discriminate | reflexivity]. }
  split; [intros text w w' r H; exact (Htwd text w r w' H)|].
  intros name w w' r Hname H. unfold translate_name in H.
  rewrite Hname in H. cbn [negb] in H.
  destruct (bind_inv H) as [(t & w1 & Ht & Hk) | [(e & _ & He) | [_ He]]];
    try discriminate.
  injection Hk as <- _. exists (normalize_stem t). split; [reflexivity|].
  apply (no_chinese_subset t); [intros c; apply normalize_stem_chars|].
  exact (Htwd _ _ _ _ Ht).
Qed.

(** X5: what [translate_with_dictionary] returns is its text with
    stretches of Chinese characters replaced; every other character is
    kept, in its place among the others. *)
Theorem other_characters_stay (text : str) (w w' : world) (r : str) :
  translate_with_dictionary text w = (Ok r, w') -> keeps_rest text r.
Proof.
  revert w r w'. change (returns (keeps_rest text) (translate_with_dictionary text)).
  apply (returns_pieces keeps_rest).
  - constructor.
  - exact keeps_rest_app.
  - intros gap w r w' H. rewrite (remaining_returns_form gap _ _ _ H).
    exact (keeps_rest_resolve _ gap [] eq_refl).
  - exact keeps_rest_plain.
  - intros term rep Hget.
    assert (Hkey : In term (keys DSP_DICTIONARY))
      by (eapply keys_in, dict_get_in; exact Hget).
    rewrite <- (app_nil_r term), <- (app_nil_r rep).
    apply keeps_run; [exact (key_not_empty _ Hkey) | | constructor].
    pose proof dictionary_terms_all_chinese as Hk. rewrite forallb_forall in Hk.
    exact (Hk _ Hkey).
Qed.

End ChineseFree.

Lemma chinese_only_in_extension_witness :
  (forall run t, @argos_translate stub_env run = Some t -> contains_chinese t = false) /\
  exists stem,
    cp "Ware-house.txt" = stem ++ str_suffix (name_warehouse ++ cp ".txt") /\
    contains_chinese stem = false.
Proof.
  assert (H : forall run t, @argos_translate stub_env run = Some t ->
                            contains_chinese t = false).
  { intros run t Ht. injection Ht as <-. reflexivity. }
  split; [exact H|].
  exact (proj2 (@chinese_only_in_extension stub_env H)
               (name_warehouse ++ cp ".txt") (empty_world File)
               (World File [name_warehouse] [] []) (cp "Ware-house.txt")
               eq_refl eq_refl).
Defined.

Lemma other_characters_stay_witness :
  @translate_with_dictionary stub_env (cp "a_" ++ name_warehouse ++ cp "-" ++ name_coal_mine)
                             (empty_world File)
  = (Ok (cp "a_Ware-house-Coal"), World File [name_warehouse] [] []) /\
  keeps_rest (cp "a_" ++ name_warehouse ++ cp "-" ++ name_coal_mine)
             (cp "a_Ware-house-Coal").
Proof.
  split; [reflexivity|].
  exact (@other_characters_stay stub_env
           (cp "a_" ++ name_warehouse ++ cp "-" ++ name_coal_mine)
           (empty_world File) (World File [name_warehouse] [] [])
           (cp "a_Ware-house-Coal") eq_refl).
Defined.

(** ** One turn of the live loop, case by case *)

Lemma path_eqb_eq (p q : path) : path_eqb p q = true <-> p = q.
Proof.
  revert q; induction p as [|a p IH]; intros [|b q]; simpl;
    try (split; [discriminate | discriminate]); [split; reflexivity|].
  rewrite andb_true_iff, str_eqb_eq, IH. split.
  - intros [-> ->]. reflexivity.
  - intros [= -> ->]. split; reflexivity.
Qed.

Lemma last_snoc {A : Type} (l : list A) (x d : A) : last (l ++ [x]) d = x.
Proof. apply last_last. Qed.

Lemma path_name_snoc (p : path) (c : str) : path_name (p ++ [c]) = c.
Proof. apply last_last. Qed.

Lemma path_parent_snoc (p : path) (c : str) : path_parent (p ++ [c]) = p.
Proof. apply removelast_last. Qed.

(** A slash-free name other than the name of the entry never gives the
    path of the entry itself. *)
Lemma path_join_other (p : path) (new_name : str) :
  plain_path p = true -> p <> [] -> no_slash new_name ->
  new_name <> path_name p ->
  path_eqb p (path_join (path_parent p) new_name) = false.
Proof.
  intros Pp Hne Hns Hnew.
  destruct (path_eqb p (path_join (path_parent p) new_name)) eqn:Eq; [|reflexivity].
  exfalso. apply path_eqb_eq in Eq.
  pose proof (old_split p Hne) as Hsplit.
  destruct (parent_plain p Pp Hne) as [_ Hname].
  destruct (no_slash_cases _ Hns) as [-> | [-> | [-> | Hplain]]].
  - cbn [path_join] in Eq. rewrite Eq in Hsplit at 1.
    apply (f_equal (@length str)) in Hsplit. rewrite length_app in Hsplit.
    cbn [length] in Hsplit. lia.
  - rewrite path_join_period in Eq. rewrite Eq in Hsplit at 1.
    apply (f_equal (@length str)) in Hsplit. rewrite length_app in Hsplit.
    cbn [length] in Hsplit. lia.
  - rewrite path_join_dotdot in Eq. rewrite Hsplit in Eq at 1.
    apply app_inj_tail in Eq. destruct Eq as [_ Eq].
    rewrite Eq in Hname. discriminate.
  - rewrite (path_join_plain _ _ Hplain) in Eq. rewrite Hsplit in Eq at 1.
    apply app_inj_tail in Eq. destruct Eq as [_ Eq]. congruence.
Qed.

Lemma translate_name_calls {E : Env} (name : str) (w : world) :
  translate_name name w = (resolved name, add_calls w (calls_of name)).
Proof.
  destruct (translate_name_resolved name) as (cs & Hc).
  unfold calls_of. rewrite (Hc (empty_world File)), Hc. reflexivity.
Qed.

Section LiveSteps.
Context {E : Env}.
Hypothesis word_not_slash : is_word slash = false.

(** One turn of the live loop on a candidate with a plain path. When
    [exists()] raises, so does the turn. A candidate for which [exists()]
    says no is passed over. For one that is there, its name is resolved;
    when the name changes the entry is renamed to a plain sibling for
    which [exists()] said no, one line is printed and the count goes up by
    one, and when it does not change nothing but the calls to the
    translator has happened. An error leaves the tree, the renames and the
    output as they were. *)
Lemma process_item_live_cases (n : nat) (ty : item_type) (p : path) (w w1 : world)
      (o1 : outcome nat) :
  plain_path p = true -> p <> [] ->
  process_item false n (ty, p) w = (o1, w1) ->
  (stat_permits p = false /\ o1 = Raise (StatError p) /\ w1 = w) \/
  (fs_exists (w_fs w) p = false /\ o1 = Ok n /\ w1 = w) \/
  (fs_exists (w_fs w) p = true /\
   let cs := calls_of (path_name p) in
     match o1 with
     | Ok n1 =>
       if name_changes (ty, p) then
         n1 = n + 1 /\
         exists final_name fs',
           plain_name final_name = true /\
           final_name <> path_name p /\
           fs_exists (w_fs w) (path_parent p ++ [final_name]) = false /\
           fs_rename (w_fs w) p (path_parent p ++ [final_name]) = Some fs' /\
           w1 = World fs' (w_calls w ++ cs)
                      (w_renames w ++ [(p, path_parent p ++ [final_name])])
                      (w_out w ++ [PrintRenamed p final_name])
       else n1 = n /\ w1 = add_calls w cs
     | Raise _ => w1 = add_calls w cs
     | OutOfFuel => False
     end).
Proof.
  intros Pp Hne. unfold process_item. unfold bind at 1, path_exists at 1.
  destruct (stat_permits p).
  2:{ intros [= <- <-]. left. auto. }
  destruct (fs_exists (w_fs w) p) eqn:Ex; cbn [negb].
  2:{ intros [= <- <-]. right. left. auto. }
  intros H. right. right. split; [reflexivity|].
  pose proof (translate_name_calls (path_name p)) as Hc.
  set (cs := calls_of (path_name p)) in *. cbv zeta.
  pose proof (Hc w) as Hcw. unfold bind at 1 in H. rewrite Hc in H.
  unfold name_changes. cbn [snd].
  destruct (resolved (path_name p)) as [new_name|e|].
  - assert (Hns : no_slash new_name).
    { apply (returns_name word_not_slash (path_name p) (plain_path_name p Pp) _ _ _ Hcw). }
    destruct (str_eqb (path_name p) new_name) eqn:Enew; cbn [negb] in *.
    { injection H as <- <-. auto. }
    apply str_eqb_neq in Enew.
    assert (Hother : path_eqb p (path_join (path_parent p) new_name) = false).
    { apply path_join_other; auto. }
    destruct (bind_inv H) as [(r & w2 & H1 & H2)|[(e & H1 & ->)|(H1 & ->)]].
    + injection H2 as <- <-.
      rewrite rename_item_split, Hother in H1.
      destruct (find_target p new_name (add_calls w cs))
        as [[[final_name target]|e|] w3] eqn:Ef; try discriminate.
      destruct (find_target_ends (w_fs w) p new_name Pp Hne Ex Hns
                  (add_calls w cs) _ _ eq_refl Ef) as [_ Hplain].
      destruct (Hplain _ _ eq_refl) as [Hfinal ->].
      destruct (find_target_spec _ _ _ _ _ Ef) as [_ Hrule].
      destruct (Hrule _ _ eq_refl) as [_ (Hfree & _)].
      rewrite path_join_plain in Hfree by exact Hfinal.
      cbn [w_fs add_calls w_calls w_renames w_out] in H1, Hfree.
      destruct (fs_rename (w_fs w) p (path_parent p ++ [final_name]))
        as [fs'|] eqn:Er; [|discriminate].
      destruct (os_permits p (path_parent p ++ [final_name])); [|discriminate].
      injection H1 as _ <-. split; [reflexivity|].
      exists final_name, fs'. repeat split; try assumption.
      intros ->. rewrite <- (old_split p Hne) in Hfree. congruence.
    + apply rename_item_raise in H1. exact H1.
    + rewrite rename_item_split, Hother in H1.
      destruct (find_target p new_name (add_calls w cs))
        as [[[final_name target]|e|] w3] eqn:Ef.
      * destruct (fs_rename _ _ _); [destruct (os_permits _ _)|]; discriminate.
      * discriminate.
      * destruct (find_target_ends (w_fs w) p new_name Pp Hne Ex Hns
                    (add_calls w cs) _ _ eq_refl Ef) as [Hno _]. congruence.
  - injection H as <- <-. reflexivity.
  - destruct (within_bounds_name (path_name p) _ _ Hcw).
Qed.

End LiveSteps.

(** ** The live loop, up to any of its turns *)

(** Bottom-up order makes the guard of the loop pass: the candidate whose
    turn it is has not been moved by an earlier rename. *)
Lemma live_invariant_head (fs : node) (p : path) (rest : list path)
      (done : list (path * path)) :
  live_invariant fs (p :: rest) done -> fs_exists fs p = true.
Proof.
  intros Hinv.
  destruct (inv_todo _ _ _ Hinv p (or_introl eq_refl)) as (_ & _ & [H | (a & Ha & Hpre)]);
    [exact H | exfalso].
  assert (Hp : In p (p :: rest)) by (left; reflexivity).
  pose proof (pairs_app_cross _ _ _ (inv_order _ _ _ Hinv) a p Ha Hp) as Hnot.
  apply Hnot. destruct Hpre as (r & Hr). exists r. split; [exact Hr|].
  intros ->. rewrite app_nil_r in Hr. subst a.
  exact (nodup_app_disjoint _ _ _ (inv_nodup _ _ _ Hinv) Ha Hp).
Qed.

Section LivePrefix.
Context {E : Env}.
Hypothesis word_not_slash : is_word slash = false.

(** The turns for [l1], with [l2] still to come. Whatever the outcome,
    the renames done are renames of candidates of [l1] to siblings, and
    each has its line. When the turns end normally, the candidates
    renamed are those whose name changes, in their order, the count has
    gone up by their number, and the invariant holds for [l2]. *)
Lemma live_prefix (l1 l2 : list (item_type * path)) :
  forall done n w o w1,
    live_invariant (w_fs w) (map snd (l1 ++ l2)) done ->
    foldM (process_item false) l1 n w = (o, w1) ->
    o <> OutOfFuel /\
    exists more,
      w_renames w1 = w_renames w ++ more /\
      w_out w1 = w_out w ++ map renamed_line more /\
      Forall sibling_rename more /\
      Forall (fun r => In (fst r) (map snd l1)) more /\
      forall n1, o = Ok n1 ->
        n1 = n + length more /\
        map fst more = map snd (filter name_changes l1) /\
        w_calls w1 = w_calls w ++ calls_for l1 /\
        live_invariant (w_fs w1) (map snd l2) (done ++ more).
Proof.
  induction l1 as [|[ty p] l1 IH]; intros done n w o w1 Hinv;
    cbn [foldM map snd app] in *.
  - intros [= <- <-]. split; [discriminate|]. exists [].
    cbn [map length filter]. rewrite !app_nil_r.
    split; [reflexivity|]. split; [reflexivity|].
    split; [constructor|]. split; [constructor|].
    intros n1 [= <-]. split; [lia|]. split; [reflexivity|].
    split; [reflexivity | exact Hinv].
  - intros H.
    destruct (inv_todo _ _ _ Hinv p (or_introl eq_refl)) as (Hne & Pp & _).
    pose proof (live_invariant_head _ _ _ _ Hinv) as Hex.
    destruct (bind_inv H) as [(n1 & w2 & H1 & H2)|[(e & H1 & ->)|(H1 & ->)]].
    + destruct (process_item_live_cases word_not_slash _ _ _ _ _ _ Pp Hne H1)
        as [(_ & Hraise & _) | [(Hmiss & _) | (_ & Hcase)]];
        [discriminate | congruence |].
      cbv zeta in Hcase. set (cs := calls_of (path_name p)) in *.
      unfold calls_for. cbn [filter flat_map snd]. fold cs.
      fold (calls_for l1).
      destruct (name_changes (ty, p)) eqn:Ech.
      * destruct Hcase as (-> & final_name & fs' & Hfinal & Hother & Hfree & Hr & ->).
        pose proof (live_invariant_rename _ _ _ _ _ _ _ Hinv Hfree Hr eq_refl Hfinal)
          as Hinv'.
        destruct ((fun Hi => IH _ _ _ _ _ Hi H2) Hinv')
          as (Hno & more & Hren & Hout & Hsib & Hsrc & Hok).
        split; [exact Hno|].
        exists ((p, path_parent p ++ [final_name]) :: more).
        cbn [w_renames w_out w_fs] in *.
        rewrite Hren, Hout, <- !app_assoc. cbn [map app].
        replace (renamed_line (p, path_parent p ++ [final_name]))
          with (PrintRenamed p final_name)
          by (unfold renamed_line; cbn [fst snd]; rewrite path_name_snoc; reflexivity).
        split; [reflexivity|]. split; [reflexivity|]. split; [|split].
        -- constructor; [|exact Hsib].
           exists final_name. cbn [fst snd]. repeat split; assumption.
        -- constructor; [left; reflexivity|].
           eapply Forall_impl; [|exact Hsrc]. intros r Hin. right; exact Hin.
        -- intros n2 Hn2. destruct (Hok _ Hn2) as (-> & Hm & Hcalls & Hfin).
           split; [cbn [length]; lia|]. split; [|split].
           ++ cbn [map fst snd]. rewrite Hm. reflexivity.
           ++ rewrite Hcalls. cbn [w_calls]. rewrite <- app_assoc. reflexivity.
           ++ rewrite <- app_assoc in Hfin. exact Hfin.
      * destruct Hcase as (-> & ->).
        assert (Hinv' : live_invariant (w_fs (add_calls w cs)) (map snd (l1 ++ l2)) done).
        { apply live_invariant_skip with (p := p). exact Hinv. }
        destruct (IH _ _ _ _ _ Hinv' H2) as (Hno & more & Hren & Hout & Hsib & Hsrc & Hok).
        split; [exact Hno|]. exists more.
        cbn [w_renames w_out w_fs add_calls] in *.
        split; [exact Hren|]. split; [exact Hout|]. split; [exact Hsib|]. split.
        -- eapply Forall_impl; [|exact Hsrc]. intros r Hin. right; exact Hin.
        -- intros n2 Hn2. destruct (Hok _ Hn2) as (Hn & Hm & Hcalls & Hfin).
           split; [exact Hn|]. split; [exact Hm|]. split; [|exact Hfin].
           rewrite Hcalls. cbn [w_calls add_calls]. rewrite <- app_assoc. reflexivity.
    + assert (Hsame : w_renames w1 = w_renames w /\ w_out w1 = w_out w).
      { destruct (process_item_live_cases word_not_slash _ _ _ _ _ _ Pp Hne H1)
          as [(_ & _ & ->) | [(_ & Hok & _) | (_ & ->)]];
          [split; reflexivity | discriminate | split; reflexivity]. }
      destruct Hsame as [Hr Ho].
      split; [discriminate|]. exists [].
      cbn [map]. rewrite !app_nil_r.
      split; [exact Hr|]. split; [exact Ho|].
      split; [constructor|]. split; [constructor|].
      intros n1 Hn1. discriminate.
    + destruct (process_item_live_cases word_not_slash _ _ _ _ _ _ Pp Hne H1)
        as [(_ & Hok & _) | [(_ & Hok & _) | (_ & [])]]; discriminate.
Qed.

End LivePrefix.

(** ** What a live run leaves in place, links or not *)

Lemma real_at_exists (fs : node) (q : path) :
  plain_path q = true -> real_at fs q -> fs_exists fs q = true.
Proof. intros Pq (n & Hl & Hn). exact (fs_exists_real fs q n Pq Hl Hn). Qed.

Lemma real_at_shape (fs fs' : node) (q : path) :
  option_map shape (lookup_path fs' q) = option_map shape (lookup_path fs q) ->
  real_at fs q -> real_at fs' q.
Proof.
  intros Hs (n & Hl & Hn). rewrite Hl in Hs.
  destruct (lookup_path fs' q) as [n'|] eqn:El; [|discriminate].
  exists n'. split; [exact El|]. injection Hs as Hs.
  destruct n, n'; try discriminate; reflexivity.
Qed.

Lemma real_at_prefix (fs : node) (p r : path) : real_at fs (p ++ r) -> real_at fs p.
Proof.
  intros (n & Hl & Hn). rewrite lookup_path_app in Hl.
  destruct (lookup_path fs p) as [m|] eqn:Em; [|discriminate].
  exists m. split; [exact Em|].
  destruct r as [|c r]; [cbn in Hl; congruence|].
  destruct m; try discriminate. reflexivity.
Qed.

Lemma real_at_parent (fs : node) (q : path) :
  q <> [] -> lookup_path fs q <> None -> real_at fs (path_parent q).
Proof.
  intros Hne Hl. rewrite (path_split q Hne), lookup_path_app in Hl.
  destruct (lookup_path fs (path_parent q)) as [m|] eqn:Em; [|congruence].
  exists m. split; [exact Em|]. destruct m; try reflexivity.
  cbn in Hl. congruence.
Qed.

Lemma prefix_parent (p c : path) :
  c <> [] -> prefix p (path_parent c) -> below p c.
Proof.
  intros Hc [r Hr]. exists (r ++ [path_name c]). split.
  - rewrite app_assoc, <- Hr. apply path_split. exact Hc.
  - destruct r; discriminate.
Qed.

Lemma prefix_below (p q : path) : prefix p q -> p = q \/ below p q.
Proof.
  intros [r Hr]. destruct r as [|c r].
  - left. rewrite app_nil_r in Hr. congruence.
  - right. exists (c :: r). split; [exact Hr | discriminate].
Qed.

Section Frame.
Context {E : Env}.
Hypothesis word_not_slash : is_word slash = false.

(** One turn of the live loop, on a candidate in a directory that is
    reached through directories: a file or directory that is neither the
    candidate nor below it stays where it is. *)
Lemma process_item_frame (n : nat) (ty : item_type) (p : path) (w w1 : world)
      (o1 : outcome nat) :
  plain_path p = true -> p <> [] -> real_at (w_fs w) (path_parent p) ->
  process_item false n (ty, p) w = (o1, w1) ->
  forall q, real_at (w_fs w) q -> ~ prefix p q ->
            option_map shape (lookup_path (w_fs w1) q)
            = option_map shape (lookup_path (w_fs w) q).
Proof.
  intros Pp Hne Hpar H q Hq Hnp.
  destruct (process_item_live_cases word_not_slash _ _ _ _ _ _ Pp Hne H)
    as [(_ & _ & ->) | [(_ & _ & ->) | (Hex & Hcase)]]; try reflexivity.
  cbv zeta in Hcase. destruct o1 as [n1|e|]; [|subst w1; reflexivity | destruct Hcase].
  destruct (name_changes (ty, p)); [|destruct Hcase as [_ ->]; reflexivity].
  destruct Hcase as (_ & final_name & fs' & Hfinal & _ & Hfree & Hr & ->).
  cbn [w_fs].
  assert (Pt : plain_path (path_parent p ++ [final_name]) = true).
  { rewrite plain_path_app, (plain_path_parent _ Pp). cbn [plain_path forallb].
    rewrite Hfinal. reflexivity. }
  destruct Hpar as (a & La & Ha).
  rewrite (fs_rename_move (w_fs w) p (path_parent p ++ [final_name]) a a) in Hr;
    try assumption;
    try (rewrite path_parent_snoc; assumption);
    try (destruct (path_parent p); discriminate).
  destruct (move_entry_shape _ _ _ _ Hr) as (x & _ & _ & Hkeep).
  apply Hkeep; [exact Hnp|].
  intros [r ->]. apply real_at_prefix in Hq.
  rewrite (real_at_exists _ _ Pt Hq) in Hfree. discriminate.
Qed.

(** The live loop over candidates in bottom-up order, each in a directory
    reached through directories: however the loop ends, a file or
    directory that is not a candidate and not below one stays where it
    is. *)
Lemma live_loop_frame (l : list (item_type * path)) :
  forall n w o w1,
    bottom_up (map snd l) ->
    (forall c, In c (map snd l) ->
               c <> [] /\ plain_path c = true /\ real_at (w_fs w) (path_parent c)) ->
    foldM (process_item false) l n w = (o, w1) ->
    forall q, real_at (w_fs w) q ->
              (forall c, In c (map snd l) -> ~ prefix c q) ->
              option_map shape (lookup_path (w_fs w1) q)
              = option_map shape (lookup_path (w_fs w) q).
Proof.
  induction l as [|[ty p] l IH]; intros n w o w1 Hord Hall; cbn [foldM map snd] in *.
  - intros [= _ <-] q Hq _. reflexivity.
  - intros H q Hq Hnot.
    destruct (Hall p (or_introl eq_refl)) as (Hne & Pp & Hpar).
    inversion Hord as [|? ? Hhead Htail]; subst.
    destruct (bind_inv H) as [(n1 & w2 & H1 & H2)|[(e & H1 & ->)|(H1 & ->)]].
    + pose proof (process_item_frame _ _ _ _ _ _ Pp Hne Hpar H1) as Hstep.
      pose proof (Hstep q Hq (Hnot p (or_introl eq_refl))) as Hq2.
      rewrite <- Hq2.
      refine (IH n1 w2 o w1 Htail _ H2 q (real_at_shape _ _ _ Hq2 Hq) _).
      * intros c Hc. destruct (Hall c (or_intror Hc)) as (Hcne & Pc & Hcpar).
        split; [exact Hcne|]. split; [exact Pc|].
        apply (real_at_shape (w_fs w)); [|exact Hcpar].
        apply Hstep; [exact Hcpar|].
        intros Hpre. rewrite Forall_forall in Hhead.
        exact (Hhead c Hc (prefix_parent _ _ Hcne Hpre)).
      * intros c Hc. apply Hnot. right. exact Hc.
    + exact (process_item_frame _ _ _ _ _ _ Pp Hne Hpar H1 q Hq
               (Hnot p (or_introl eq_refl))).
    + exact (process_item_frame _ _ _ _ _ _ Pp Hne Hpar H1 q Hq
               (Hnot p (or_introl eq_refl))).
Qed.

(** The turn of a candidate that is there and whose name changes, when
    it ends normally: the entry has moved, with what it holds, to a plain
    sibling name, and that is the rename recorded. *)
Lemma process_item_moves (n n1 : nat) (ty : item_type) (p : path) (w w1 : world) :
  plain_path p = true -> p <> [] -> real_at (w_fs w) (path_parent p) ->
  fs_exists (w_fs w) p = true -> name_changes (ty, p) = true ->
  process_item false n (ty, p) w = (Ok n1, w1) ->
  exists final_name,
    plain_name final_name = true /\ final_name <> path_name p /\
    w_renames w1 = w_renames w ++ [(p, path_parent p ++ [final_name])] /\
    lookup_path (w_fs w1) (path_parent p ++ [final_name]) = lookup_path (w_fs w) p.
Proof.
  intros Pp Hne Hpar Hex Hch H.
  destruct (process_item_live_cases word_not_slash _ _ _ _ _ _ Pp Hne H)
    as [(_ & Hraise & _) | [(Hmiss & _) | (_ & Hcase)]];
    [discriminate | congruence |].
  cbv zeta in Hcase. rewrite Hch in Hcase.
  destruct Hcase as (_ & final_name & fs' & Hfinal & Hother & Hfree & Hr & ->).
  exists final_name. split; [exact Hfinal|]. split; [exact Hother|].
  split; [reflexivity|]. cbn [w_fs].
  assert (Pt : plain_path (path_parent p ++ [final_name]) = true).
  { rewrite plain_path_app, (plain_path_parent _ Pp). cbn [plain_path forallb].
    rewrite Hfinal. reflexivity. }
  destruct Hpar as (a & La & Ha).
  rewrite (fs_rename_move (w_fs w) p (path_parent p ++ [final_name]) a a) in Hr;
    try assumption;
    try (rewrite path_parent_snoc; assumption);
    try (destruct (path_parent p); discriminate).
  destruct (move_entry_shape _ _ _ _ Hr) as (x & Hx & Hnew & _).
  congruence.
Qed.

End Frame.

(** The candidates below a root directory that is reached through
    directories are entries in directories reached through
    directories. *)
Lemma collect_items_real (fs : node) (root_dir : path) :
  wf_node fs = true -> plain_path root_dir = true -> real_at fs root_dir ->
  forall q, In q (map snd (collect_items fs root_dir)) ->
    q <> [] /\ plain_path q = true /\ lookup_path fs q <> None /\
    real_at fs (path_parent q).
Proof.
  intros Hwf Hroot (n0 & Hl0 & Hn0) q Hq.
  destruct (collect_items_scan fs root_dir Hwf) as (_ & _ & Q).
  destruct (Q q Hq) as (n & r & En & -> & Hne & Hpl & Hl).
  rewrite (fs_stat_real fs root_dir n0 Hroot Hl0 Hn0) in En. injection En as <-.
  assert (Hq0 : root_dir ++ r <> []) by (destruct root_dir; destruct r; simpl; congruence).
  assert (Hlq : lookup_path fs (root_dir ++ r) <> None)
    by (rewrite lookup_path_app, Hl0; exact Hl).
  split; [exact Hq0|]. split.
  - rewrite plain_path_app, Hroot, Hpl. reflexivity.
  - split; [exact Hlq | exact (real_at_parent _ _ Hq0 Hlq)].
Qed.
(** ** What a live run renames, and what it reports *)

Lemma live_invariant_start {E : Env} (fs : node) (root_dir : path) :
  wf_node fs = true -> link_free fs = true -> plain_path root_dir = true ->
  live_invariant fs (map snd (collect_items fs root_dir)) [].
Proof.
  intros Hwf Hfree Hroot.
  destruct (collect_items_good fs root_dir Hwf Hfree Hroot) as (B & N & Q).
  constructor; cbn [map fst app].
  - exact Hfree.
  - exact B.
  - exact N.
  - intros q Hq. destruct (Q q Hq) as (Q1 & Q2 & Q3). auto.
  - exact I.
  - constructor.
Qed.

(** In the candidate list no candidate is at or above a later one. *)
Lemma earlier_not_prefix (fs : node) (root_dir : path)
      (before after : list (item_type * path)) (item : item_type * path) :
  wf_node fs = true ->
  collect_items fs root_dir = before ++ item :: after ->
  bottom_up (map snd before) /\
  forall c, In c (map snd before) -> ~ prefix c (snd item).
Proof.
  intros Hwf Hitems.
  destruct (collect_items_scan fs root_dir Hwf) as (B & N & _).
  rewrite Hitems, map_app in B, N. cbn [map] in B, N. split.
  - clear N. induction (map snd before) as [|x l IH]; [constructor|].
    inversion B as [|? ? Hx Hl]; subst. constructor; [|exact (IH Hl)].
    rewrite Forall_forall in *. intros y Hy. apply Hx.
    apply in_or_app. left. exact Hy.
  - intros c Hc Hpre. destruct (prefix_below _ _ Hpre) as [->|Hb].
    + exact (nodup_app_disjoint _ _ _ N Hc (or_introl eq_refl)).
    + exact (pairs_app_cross _ _ _ B c (snd item) Hc (or_introl eq_refl) Hb).
Qed.

Section LiveSummary.
Context {E : Env}.

(** X6: the guard of the processing loop fires for symbolic links only.
    In a run, live or dry, over a well-formed tree whose root directory is
    given by its resolved path, a candidate that is a file or a directory
    is still at its path when its turn comes: the scan lists what lies in
    a folder before the folder, and no earlier rename has moved or
    replaced it. A candidate for which the guard fires is a symbolic
    link. *)
Theorem candidate_present_at_its_turn
        (root_dir : path) (dry_run : bool) (w w0 w1 : world)
        (before after : list (item_type * path)) (item : item_type * path)
        (n n1 : nat) :
  is_word slash = false -> wf_node (w_fs w) = true -> plain_path root_dir = true ->
  real_at (w_fs w) root_dir ->
  collect_items (w_fs w) root_dir = before ++ item :: after ->
  w_fs w0 = w_fs w ->
  foldM (process_item dry_run) before n w0 = (Ok n1, w1) ->
  fs_exists (w_fs w1) (snd item) = true \/
  exists target, lookup_path (w_fs w) (snd item) = Some (Link target).
Proof.
  intros Hword Hwf Hroot Hreal Hitems Hfs Hrun.
  pose proof (collect_items_real _ root_dir Hwf Hroot Hreal) as Q.
  assert (Hin : In (snd item) (map snd (collect_items (w_fs w) root_dir))).
  { rewrite Hitems, map_app. apply in_or_app; right; left; reflexivity. }
  destruct (Q _ Hin) as (Hne & Pq & Hl & _).
  destruct (lookup_path (w_fs w) (snd item)) as [x|] eqn:Ex; [|congruence].
  destruct (is_link x) eqn:Elink.
  { right. destruct x; try discriminate. exists target. reflexivity. }
  left. apply real_at_exists; [exact Pq|].
  assert (Hq : real_at (w_fs w0) (snd item))
    by (rewrite Hfs; exists x; split; assumption).
  destruct dry_run.
  - destruct (keeps_tree_foldM (process_item true) before
                (fun acc x => keeps_tree_process_dry acc x) n _ _ _ Hrun) as [-> _].
    exact Hq.
  - destruct (earlier_not_prefix _ _ _ _ _ Hwf Hitems) as [Hord Hnot].
    apply (real_at_shape (w_fs w0)); [|exact Hq].
    refine (live_loop_frame Hword before n w0 _ w1 Hord _ Hrun _ Hq Hnot).
    intros c Hc. rewrite Hfs.
    assert (Hc' : In c (map snd (collect_items (w_fs w) root_dir))).
    { rewrite Hitems, map_app. apply in_or_app; left; exact Hc. }
    destruct (Q c Hc') as (H1 & H2 & _ & H4). auto.
Qed.

(** X7: what a live run over a well-formed tree without symbolic links
    renames. However the run ends, every rename it has made took a
    candidate of the scan and gave it another plain name in the same
    folder. When it ends normally, the entries renamed are the candidates
    whose name resolves to another name, all of them and in scan order;
    one line is printed for each, and the count of the summary is their
    number. *)
Theorem live_run_renames_changed_names (root_dir : path) (w w' : world) (o : outcome unit) :
  is_word slash = false -> wf_node (w_fs w) = true ->
  link_free (w_fs w) = true -> plain_path root_dir = true ->
  translate_directory root_dir false w = (o, w') ->
  exists more,
    w_renames w' = w_renames w ++ more /\
    Forall sibling_rename more /\
    Forall (fun r => In (fst r) (map snd (collect_items (w_fs w) root_dir))) more /\
    (o = Ok tt -> collect_items (w_fs w) root_dir <> [] ->
     map fst more = map snd (filter name_changes (collect_items (w_fs w) root_dir)) /\
     w_out w' = w_out w ++ [PrintFound (length (collect_items (w_fs w) root_dir))]
                      ++ map renamed_line more
                      ++ [PrintSummary false (length more)]).
Proof.
  intros Hword Hwf Hfree Hroot H. unfold translate_directory in H.
  unfold bind at 1, get_fs at 1 in H.
  pose proof (live_invariant_start (w_fs w) root_dir Hwf Hfree Hroot) as Hinv.
  remember (collect_items (w_fs w) root_dir) as items eqn:Ei.
  destruct (is_empty_list items) eqn:Ee.
  { destruct items; [|discriminate]. cbn in H. injection H as <- <-.
    exists []. cbn [w_renames]. rewrite app_nil_r.
    split; [reflexivity|]. split; [constructor|]. split; [constructor|].
    intros _ Hne. congruence. }
  destruct (bind_inv H) as [(u & w0 & H0 & H1)|[(e & H0 & _)|(H0 & _)]];
    try discriminate.
  injection H0 as _ <-.
  rewrite <- (app_nil_r items) in Hinv.
  destruct (bind_inv H1) as [(n & w2 & H2 & H3)|[(e & H2 & ->)|(H2 & ->)]].
  - destruct ((fun Hi => live_prefix Hword items [] [] _ _ _ _ Hi H2) Hinv)
      as (_ & more & Hr & Ho & Hsib & Hsrc & Hok).
    injection H3 as <- <-. exists more.
    cbn [w_renames w_out] in *.
    split; [exact Hr|]. split; [exact Hsib|]. split; [exact Hsrc|].
    intros _ _. destruct (Hok _ eq_refl) as (-> & Hm & _).
    split; [exact Hm|]. rewrite Ho, <- !app_assoc. reflexivity.
  - destruct ((fun Hi => live_prefix Hword items [] [] _ _ _ _ Hi H2) Hinv)
      as (_ & more & Hr & Ho & Hsib & Hsrc & Hok).
    exists more. cbn [w_renames] in Hr.
    split; [exact Hr|]. split; [exact Hsib|]. split; [exact Hsrc|].
    intros Hno. discriminate.
  - destruct ((fun Hi => live_prefix Hword items [] [] _ _ _ _ Hi H2) Hinv)
      as (Hno & _). congruence.
Qed.

(** C8, as the code has it. In the candidate list of a tree, a candidate
    that lies below another candidate comes before it, and the processing
    loop takes it first. When the root directory is given by its resolved
    path and the descendant is a file or a directory, a live run finds it
    at its path when its turn comes, under the ancestor that is still at
    its own path; when the turn renames it, the entry moves with what it
    holds to a plain sibling name, the rename recorded starts from the
    path the scan found, and the ancestor is still at its path after the
    turn, to be renamed later. *)
Theorem candidates_bottom_up
        (fs : node) (root_dir : path)
        (i j : nat) (ti tj : item_type) (p q : path) :
  wf_node fs = true -> plain_path root_dir = true ->
  nth_error (collect_items fs root_dir) i = Some (ti, p) ->
  nth_error (collect_items fs root_dir) j = Some (tj, q) ->
  below p q ->
  j < i /\
  exists l1 l2 l3,
    collect_items fs root_dir = l1 ++ (tj, q) :: l2 ++ (ti, p) :: l3 /\
    (forall dry_run n w,
       foldM (process_item dry_run) (collect_items fs root_dir) n w =
       (n1 <- foldM (process_item dry_run) l1 n ;;
        n2 <- process_item dry_run n1 (tj, q) ;;
        n3 <- foldM (process_item dry_run) l2 n2 ;;
        n4 <- process_item dry_run n3 (ti, p) ;;
        foldM (process_item dry_run) l3 n4) w) /\
    (is_word slash = false -> real_at fs root_dir -> real_at fs q ->
     forall n w n1 w1,
       w_fs w = fs ->
       foldM (process_item false) l1 n w = (Ok n1, w1) ->
       fs_exists (w_fs w1) q = true /\ real_at (w_fs w1) p /\
       forall n2 w2,
         process_item false n1 (tj, q) w1 = (Ok n2, w2) ->
         real_at (w_fs w2) p /\
         (name_changes (tj, q) = true ->
          exists final_name,
            plain_name final_name = true /\ final_name <> path_name q /\
            w_renames w2 = w_renames w1 ++ [(q, path_parent q ++ [final_name])] /\
            lookup_path (w_fs w2) (path_parent q ++ [final_name])
            = lookup_path (w_fs w1) q)).
Proof.
  intros Hw Hp Hi Hj Hb.
  destruct (collect_items_scan fs root_dir Hw) as (B & _ & _).
  assert (Hlt : j < i).
  { destruct (Nat.lt_trichotomy i j) as [Hlt|[Heq|Hgt]]; [| |exact Hgt].
    - exfalso. refine (pairs_nth _ _ B i j p q Hlt _ _ Hb);
        rewrite nth_error_map; [rewrite Hi | rewrite Hj]; reflexivity.
    - subst. rewrite Hi in Hj. injection Hj as _ ->. exfalso. exact (below_irrefl _ Hb). }
  split; [exact Hlt|].
  destruct (nth_error_split _ _ Hj) as (l1 & rest & Hl & Hlen).
  rewrite Hl in Hi. rewrite nth_error_app2 in Hi by lia.
  replace (i - length l1) with (S (i - j - 1)) in Hi by lia. simpl in Hi.
  destruct (nth_error_split _ _ Hi) as (l2 & l3 & -> & _).
  exists l1, l2, l3. split; [exact Hl|]. split.
  { intros dry_run n w. rewrite Hl, foldM_app.
    apply bind_ext. intros n1 w1. cbn [foldM].
    apply bind_ext. intros n2 w2. rewrite foldM_app.
    apply bind_ext. intros n3 w3. reflexivity. }
  intros Hword Hreal Hq n w n1 w1 Hfs Hrun. subst fs.
  pose proof (collect_items_real _ root_dir Hw Hp Hreal) as Q.
  assert (Hinq : In q (map snd (collect_items (w_fs w) root_dir))).
  { rewrite Hl, map_app. apply in_or_app; right; left; reflexivity. }
  destruct (Q _ Hinq) as (Hqne & Pq & _ & Hqpar).
  assert (Hpreal : real_at (w_fs w) p).
  { destruct Hb as (r & -> & _). exact (real_at_prefix _ _ _ Hq). }
  destruct (earlier_not_prefix _ _ l1 _ (tj, q) Hw Hl) as [Hord Hnotq].
  assert (Hnotp : forall c, In c (map snd l1) -> ~ prefix c p).
  { replace (l1 ++ (tj, q) :: l2 ++ (ti, p) :: l3)
      with ((l1 ++ (tj, q) :: l2) ++ (ti, p) :: l3) in Hl
      by (rewrite <- app_assoc; reflexivity).
    destruct (earlier_not_prefix _ _ _ _ (ti, p) Hw Hl) as [_ Hnot].
    intros c Hc. apply Hnot. rewrite map_app. apply in_or_app. left. exact Hc. }
  assert (Hall : forall c, In c (map snd l1) ->
             c <> [] /\ plain_path c = true /\ real_at (w_fs w) (path_parent c)).
  { intros c Hc.
    assert (Hc' : In c (map snd (collect_items (w_fs w) root_dir))).
    { rewrite Hl, map_app. apply in_or_app; left; exact Hc. }
    destruct (Q c Hc') as (H1 & H2 & _ & H4). auto. }
  assert (Hframe : forall x, real_at (w_fs w) x ->
             (forall c, In c (map snd l1) -> ~ prefix c x) -> real_at (w_fs w1) x).
  { intros x Hx Hnot. apply (real_at_shape (w_fs w)); [|exact Hx].
    exact (live_loop_frame Hword l1 n w _ w1 Hord Hall Hrun x Hx Hnot). }
  pose proof (Hframe q Hq Hnotq) as Hq1.
  pose proof (Hframe p Hpreal Hnotp) as Hp1.
  pose proof (Hframe _ Hqpar
                (fun c Hc Hpre => Hnotq c Hc
                   ltac:(destruct Hpre as [r Hr]; exists (r ++ [path_name q]);
                         rewrite app_assoc, <- Hr; apply path_split; exact Hqne)))
    as Hqpar1.
  split; [exact (real_at_exists _ _ Pq Hq1)|]. split; [exact Hp1|].
  intros n2 w2 Hturn. split.
  - apply (real_at_shape (w_fs w1)); [|exact Hp1].
    apply (process_item_frame Hword _ _ _ _ _ _ Pq Hqne Hqpar1 Hturn p Hp1).
    intros Hpre. destruct Hb as (r & Hr & Hrne). destruct Hpre as [r' Hr'].
    rewrite Hr, <- app_assoc in Hr'. rewrite <- (app_nil_r p) in Hr' at 1.
    apply app_inv_head in Hr'. destruct r; [congruence | discriminate].
  - intros Hch.
    exact (process_item_moves Hword _ _ _ _ _ _ Pq Hqne Hqpar1
             (real_at_exists _ _ Pq Hq1) Hch Hturn).
Qed.

End LiveSummary.

Lemma candidate_present_at_its_turn_witness :
  @is_word stub_env slash = false /\
  wf_node nested_tree = true /\
  real_at nested_tree [cp "proj"] /\
  collect_items nested_tree [cp "proj"]
  = [(ItemFile, [cp "proj"; name_coal; name_coal_mine])]
      ++ (ItemDir, [cp "proj"; name_coal]) :: [] /\
  @foldM _ _ (@process_item stub_env false)
         [(ItemFile, [cp "proj"; name_coal; name_coal_mine])] 0 (empty_world nested_tree)
  = (Ok 1,
     World (Dir [(cp "proj", Dir [(name_coal, Dir [(cp "Coal", File)])])])
           []
           [([cp "proj"; name_coal; name_coal_mine], [cp "proj"; name_coal; cp "Coal"])]
           [PrintRenamed [cp "proj"; name_coal; name_coal_mine] (cp "Coal")]) /\
  (fs_exists (Dir [(cp "proj", Dir [(name_coal, Dir [(cp "Coal", File)])])])
             [cp "proj"; name_coal] = true \/
   exists target, lookup_path nested_tree [cp "proj"; name_coal] = Some (Link target)).
Proof.
  assert (Hreal : real_at nested_tree [cp "proj"])
    by (eexists; split; [reflexivity | reflexivity]).
  assert (Hitems : collect_items nested_tree [cp "proj"]
                   = [(ItemFile, [cp "proj"; name_coal; name_coal_mine])]
                       ++ (ItemDir, [cp "proj"; name_coal]) :: [])
    by (vm_compute; reflexivity).
  assert (Hrun : @foldM _ _ (@process_item stub_env false)
                   [(ItemFile, [cp "proj"; name_coal; name_coal_mine])] 0
                   (empty_world nested_tree)
                 = (Ok 1,
                    World (Dir [(cp "proj", Dir [(name_coal, Dir [(cp "Coal", File)])])])
                          []
                          [([cp "proj"; name_coal; name_coal_mine],
                            [cp "proj"; name_coal; cp "Coal"])]
                          [PrintRenamed [cp "proj"; name_coal; name_coal_mine] (cp "Coal")]))
    by (vm_compute; reflexivity).
  split; [reflexivity|]. split; [reflexivity|]. split; [exact Hreal|].
  split; [exact Hitems|]. split; [exact Hrun|].
  exact (@candidate_present_at_its_turn stub_env [cp "proj"] false
           (empty_world nested_tree) (empty_world nested_tree) _ _ _ _ 0 1
           eq_refl eq_refl eq_refl Hreal Hitems eq_refl Hrun).
Defined.

Lemma live_run_renames_changed_names_witness :
  @is_word stub_env slash = false /\
  wf_node twin_tree = true /\
  link_free twin_tree = true /\
  @translate_directory stub_env [cp "proj"] false (empty_world twin_tree)
  = (Ok tt,
     World (Dir [(cp "proj", Dir [(cp "Coal", File); (cp "Coal_1", File)])])
           []
           [([cp "proj"; name_coal], [cp "proj"; cp "Coal"]);
            ([cp "proj"; name_coal_mine], [cp "proj"; cp "Coal_1"])]
           [PrintFound 2;
            PrintRenamed [cp "proj"; name_coal] (cp "Coal");
            PrintRenamed [cp "proj"; name_coal_mine] (cp "Coal_1");
            PrintSummary false 2]) /\
  exists more,
    [([cp "proj"; name_coal], [cp "proj"; cp "Coal"]);
     ([cp "proj"; name_coal_mine], [cp "proj"; cp "Coal_1"])] = [] ++ more /\
    Forall sibling_rename more.
Proof.
  assert (Hrun : @translate_directory stub_env [cp "proj"] false (empty_world twin_tree)
                 = (Ok tt,
                    World (Dir [(cp "proj", Dir [(cp "Coal", File); (cp "Coal_1", File)])])
                          []
                          [([cp "proj"; name_coal], [cp "proj"; cp "Coal"]);
                           ([cp "proj"; name_coal_mine], [cp "proj"; cp "Coal_1"])]
                          [PrintFound 2;
                           PrintRenamed [cp "proj"; name_coal] (cp "Coal");
                           PrintRenamed [cp "proj"; name_coal_mine] (cp "Coal_1");
                           PrintSummary false 2]))
    by (vm_compute; reflexivity).
  split; [reflexivity|]. split; [reflexivity|]. split; [reflexivity|].
  split; [exact Hrun|].
  destruct (@live_run_renames_changed_names stub_env [cp "proj"]
              (empty_world twin_tree) _ _ eq_refl eq_refl eq_refl eq_refl Hrun)
    as (more & Hr & Hsib & _).
  exists more. split; [exact Hr | exact Hsib].
Defined.

Lemma candidates_bottom_up_witness :
  wf_node nested_tree = true /\ plain_path [cp "proj"] = true /\
  nth_error (collect_items nested_tree [cp "proj"]) 1
  = Some (ItemDir, [cp "proj"; name_coal]) /\
  nth_error (collect_items nested_tree [cp "proj"]) 0
  = Some (ItemFile, [cp "proj"; name_coal; name_coal_mine]) /\
  below [cp "proj"; name_coal] [cp "proj"; name_coal; name_coal_mine] /\
  0 < 1.
Proof.
  assert (B : below [cp "proj"; name_coal] [cp "proj"; name_coal; name_coal_mine]).
  { exists [name_coal_mine]. split; [reflexivity | discriminate]. }
  repeat (split; [first [reflexivity | exact B]|]).
  exact (proj1 (@candidates_bottom_up stub_env nested_tree [cp "proj"] 1 0
                  ItemDir ItemFile [cp "proj"; name_coal]
                  [cp "proj"; name_coal; name_coal_mine]
                  eq_refl eq_refl eq_refl eq_refl B)).
Defined.

(** C8 as stated fails for a child that is a symbolic link: the file it
    points to is renamed first, so when the turn of the link comes
    [exists()] says no and the link is passed over, although its name
    resolves to another name; the folder above it is renamed next. *)
Lemma children_renamed_fails :
  ~ @children_renamed stub_env [cp "proj"] (empty_world link_child_tree).
Proof.
  intros H.
  assert (R : @translate_directory stub_env [cp "proj"] false (empty_world link_child_tree)
              = (Ok tt,
                 World (Dir [(cp "proj",
                              Dir [(cp "Coal",
                                    Dir [(name_coal_mine, Link name_warehouse);
                                         (cp "Ware-house", File)])])])
                       [name_warehouse]
                       [([cp "proj"; name_coal; name_warehouse],
                         [cp "proj"; name_coal; cp "Ware-house"]);
                        ([cp "proj"; name_coal], [cp "proj"; cp "Coal"])]
                       [PrintFound 3;
                        PrintRenamed [cp "proj"; name_coal; name_warehouse] (cp "Ware-house");
                        PrintRenamed [cp "proj"; name_coal] (cp "Coal");
                        PrintSummary false 2]))
    by (vm_compute; reflexivity).
  assert (Hb : below [cp "proj"; name_coal] [cp "proj"; name_coal; name_coal_mine]).
  { exists [name_coal_mine]. split; [reflexivity | discriminate]. }
  assert (Hp : In (ItemDir, [cp "proj"; name_coal])
                  (collect_items (w_fs (empty_world link_child_tree)) [cp "proj"]))
    by (vm_compute; auto).
  assert (Hq : In (ItemFile, [cp "proj"; name_coal; name_coal_mine])
                  (collect_items (w_fs (empty_world link_child_tree)) [cp "proj"]))
    by (vm_compute; auto).
  assert (Hch : @name_changes stub_env (ItemFile, [cp "proj"; name_coal; name_coal_mine])
                = true) by (vm_compute; reflexivity).
  specialize (H _ _ _ _ _ R Hp Hq Hb Hch). vm_compute in H.
  destruct H as [H|[H|[]]]; discriminate H.
Qed.

(** ** A dry run and a live run side by side *)

Section DryLive.
Context {E : Env}.
Hypothesis word_not_slash : is_word slash = false.

(** One turn of the dry loop, as [process_item_live_cases] has it for the
    live loop. *)
Lemma process_item_dry_cases (n : nat) (ty : item_type) (p : path) (w w1 : world)
      (o1 : outcome nat) :
  plain_path p = true -> p <> [] ->
  process_item true n (ty, p) w = (o1, w1) ->
  (stat_permits p = false /\ o1 = Raise (StatError p) /\ w1 = w) \/
  (fs_exists (w_fs w) p = false /\ o1 = Ok n /\ w1 = w) \/
  (fs_exists (w_fs w) p = true /\
   let cs := calls_of (path_name p) in
     match o1 with
     | Ok n1 =>
       if name_changes (ty, p) then
         n1 = n + 1 /\
         exists final_name,
           plain_name final_name = true /\
           w1 = add_out (add_calls w cs) [PrintDryRun p final_name]
       else n1 = n /\ w1 = add_calls w cs
     | Raise _ => w1 = add_calls w cs
     | OutOfFuel => False
     end).
Proof.
  intros Pp Hne. unfold process_item. unfold bind at 1, path_exists at 1.
  destruct (stat_permits p).
  2:{ intros [= <- <-]. left. auto. }
  destruct (fs_exists (w_fs w) p) eqn:Ex; cbn [negb].
  2:{ intros [= <- <-]. right. left. auto. }
  intros H. right. right. split; [reflexivity|].
  pose proof (translate_name_calls (path_name p)) as Hc.
  set (cs := calls_of (path_name p)) in *. cbv zeta.
  pose proof (Hc w) as Hcw. unfold bind at 1 in H. rewrite Hc in H.
  unfold name_changes. cbn [snd].
  destruct (resolved (path_name p)) as [new_name|e|].
  - assert (Hns : no_slash new_name).
    { apply (returns_name word_not_slash (path_name p) (plain_path_name p Pp) _ _ _ Hcw). }
    destruct (str_eqb (path_name p) new_name) eqn:Enew; cbn [negb] in *.
    { injection H as <- <-. auto. }
    apply str_eqb_neq in Enew.
    assert (Hother : path_eqb p (path_join (path_parent p) new_name) = false).
    { apply path_join_other; auto. }
    destruct (bind_inv H) as [(r & w2 & H1 & H2)|[(e & H1 & ->)|(H1 & ->)]].
    + injection H2 as <- <-.
      rewrite rename_item_split, Hother in H1.
      destruct (find_target p new_name (add_calls w cs))
        as [[[final_name target]|e|] w3] eqn:Ef; try discriminate.
      destruct (find_target_ends (w_fs w) p new_name Pp Hne Ex Hns
                  (add_calls w cs) _ _ eq_refl Ef) as [_ Hplain].
      destruct (Hplain _ _ eq_refl) as [Hfinal ->].
      injection H1 as _ <-. split; [reflexivity|].
      exists final_name. split; [exact Hfinal | reflexivity].
    + apply rename_item_raise in H1. exact H1.
    + rewrite rename_item_split, Hother in H1.
      destruct (find_target p new_name (add_calls w cs))
        as [[[final_name target]|e|] w3] eqn:Ef; try discriminate.
      destruct (find_target_ends (w_fs w) p new_name Pp Hne Ex Hns
                  (add_calls w cs) _ _ eq_refl Ef) as [Hno _]. congruence.
  - injection H as <- <-. reflexivity.
  - destruct (within_bounds_name (path_name p) _ _ Hcw).
Qed.

(** The dry loop over candidates that are there. *)
Lemma dry_loop_lines (items : list (item_type * path)) :
  forall n w n1 w1,
    (forall item, In item items ->
                  plain_path (snd item) = true /\ snd item <> [] /\
                  fs_exists (w_fs w) (snd item) = true) ->
    foldM (process_item true) items n w = (Ok n1, w1) ->
    exists lines,
      map fst lines = map snd (filter name_changes items) /\
      w_out w1 = w_out w ++ map dry_line lines /\
      n1 = n + length lines /\
      w_calls w1 = w_calls w ++ calls_for items /\
      w_fs w1 = w_fs w.
Proof.
  induction items as [|[ty p] items IH]; intros n w n1 w1 Hall; cbn [foldM].
  - intros [= <- <-]. exists []. cbn [map length filter calls_for flat_map].
    rewrite !app_nil_r. repeat split. lia.
  - intros H.
    destruct (Hall (ty, p) (or_introl eq_refl)) as (Pp & Hne & Hex). cbn [snd] in *.
    destruct (bind_inv H) as [(n2 & w2 & H1 & H2)|[(e & _ & He)|(_ & He)]];
      try discriminate.
    destruct (process_item_dry_cases _ _ _ _ _ _ Pp Hne H1)
      as [(_ & Hraise & _) | [(Hmiss & _) | (_ & Hcase)]];
      [discriminate | congruence |].
    cbv zeta in Hcase. set (cs := calls_of (path_name p)) in *.
    unfold calls_for. cbn [filter flat_map snd]. fold cs. fold (calls_for items).
    assert (Hfs : w_fs w2 = w_fs w).
    { destruct (name_changes (ty, p)).
      - destruct Hcase as (_ & final_name & _ & ->). reflexivity.
      - destruct Hcase as (_ & ->). reflexivity. }
    assert (Hall' : forall item, In item items ->
              plain_path (snd item) = true /\ snd item <> [] /\
              fs_exists (w_fs w2) (snd item) = true).
    { intros item Hin. rewrite Hfs. apply Hall. right; exact Hin. }
    destruct (IH _ _ _ _ Hall' H2) as (lines & Hsrc & Hout & Hn & Hcalls & Hfs').
    destruct (name_changes (ty, p)).
    + destruct Hcase as (-> & final_name & _ & ->).
      exists ((p, final_name) :: lines).
      cbn [map fst snd length w_out w_calls w_fs add_out add_calls] in *.
      rewrite Hsrc, Hout, Hcalls, <- !app_assoc. repeat split; [lia | exact Hfs'].
    + destruct Hcase as (-> & ->). exists lines.
      cbn [w_out w_calls w_fs add_calls] in *.
      rewrite Hcalls, <- app_assoc. repeat split; assumption.
Qed.

End DryLive.

(** X8: a dry run tells what a live run will do, up to the names. When a
    dry run and a live run over the same well-formed tree without symbolic
    links both end normally, they send the same texts to the translator,
    they print their rename lines for the same entries in the same order,
    and their summaries give the same count. (The names after the arrow
    can differ: a dry run does not see the renames before.) *)
Theorem dry_run_foretells_live_run {E : Env} (root_dir : path) (w wd wl : world) :
  is_word slash = false -> wf_node (w_fs w) = true ->
  link_free (w_fs w) = true -> plain_path root_dir = true ->
  translate_directory root_dir true w = (Ok tt, wd) ->
  translate_directory root_dir false w = (Ok tt, wl) ->
  w_calls wd = w_calls wl /\
  ((collect_items (w_fs w) root_dir = [] /\
    w_out wd = w_out w ++ [PrintNoneFound] /\
    w_out wl = w_out w ++ [PrintNoneFound]) \/
   (exists dry_lines live_lines,
       map fst dry_lines = map fst live_lines /\
       w_out wd = w_out w ++ [PrintFound (length (collect_items (w_fs w) root_dir))]
                        ++ map dry_line dry_lines
                        ++ [PrintSummary true (length dry_lines)] /\
       w_out wl = w_out w ++ [PrintFound (length (collect_items (w_fs w) root_dir))]
                        ++ map live_line live_lines
                        ++ [PrintSummary false (length live_lines)])).
Proof.
  intros Hword Hwf Hfree Hroot Hd Hl. unfold translate_directory in Hd, Hl.
  unfold bind at 1, get_fs at 1 in Hd. unfold bind at 1, get_fs at 1 in Hl.
  pose proof (live_invariant_start (w_fs w) root_dir Hwf Hfree Hroot) as Hinv.
  destruct (collect_items_good (w_fs w) root_dir Hwf Hfree Hroot) as (_ & _ & Q).
  remember (collect_items (w_fs w) root_dir) as items eqn:Ei.
  destruct (is_empty_list items) eqn:Ee.
  { destruct items; [|discriminate]. cbn in Hd, Hl.
    injection Hd as <-. injection Hl as <-. split; [reflexivity|]. left. auto. }
  destruct (bind_inv Hd) as [(u & w0 & H0 & H1)|[(e & H0 & _)|(H0 & _)]];
    try discriminate.
  injection H0 as _ <-.
  destruct (bind_inv H1) as [(nd & w2 & H2 & H3)|[(e & _ & He)|(_ & He)]];
    try discriminate.
  injection H3 as <-.
  assert (Hall : forall item, In item items ->
            plain_path (snd item) = true /\ snd item <> [] /\
            fs_exists (w_fs w) (snd item) = true).
  { intros item Hin. destruct (Q (snd item)) as (Q1 & Q2 & Q3).
    - apply in_map. exact Hin.
    - auto. }
  destruct ((fun Ha => dry_loop_lines Hword items _ _ _ _ Ha H2) Hall)
    as (dry_lines & Hdsrc & Hdout & Hdn & Hdcalls & _).
  clear Hd H1 H2.
  destruct (bind_inv Hl) as [(u' & w0' & H0 & H1)|[(e & H0 & _)|(H0 & _)]];
    try discriminate.
  injection H0 as _ <-.
  destruct (bind_inv H1) as [(nl & w3 & H2 & H3)|[(e & _ & He)|(_ & He)]];
    try discriminate.
  injection H3 as <-.
  rewrite <- (app_nil_r items) in Hinv.
  destruct ((fun Hi => live_prefix Hword items [] [] _ _ _ _ Hi H2) Hinv)
    as (_ & more & _ & Hlout & _ & _ & Hok).
  destruct (Hok _ eq_refl) as (Hln & Hlsrc & Hlcalls & _).
  cbn [w_calls w_out] in *. split; [congruence|]. right.
  exists dry_lines, (map (fun r => (fst r, path_name (snd r))) more).
  rewrite length_map, !map_map. cbn [fst].
  split; [rewrite Hdsrc, <- Hlsrc; reflexivity|]. split.
  - rewrite Hdout, Hdn, <- !app_assoc. reflexivity.
  - rewrite Hlout, Hln, <- !app_assoc. reflexivity.
Qed.

Lemma dry_run_foretells_live_run_witness :
  @is_word stub_env slash = false /\ wf_node twin_tree = true /\
  link_free twin_tree = true /\
  @translate_directory stub_env [cp "proj"] true (empty_world twin_tree)
  = (Ok tt,
     World twin_tree [] []
           [PrintFound 2;
            PrintDryRun [cp "proj"; name_coal] (cp "Coal");
            PrintDryRun [cp "proj"; name_coal_mine] (cp "Coal");
            PrintSummary true 2]) /\
  @translate_directory stub_env [cp "proj"] false (empty_world twin_tree)
  = (Ok tt,
     World (Dir [(cp "proj", Dir [(cp "Coal", File); (cp "Coal_1", File)])])
           []
           [([cp "proj"; name_coal], [cp "proj"; cp "Coal"]);
            ([cp "proj"; name_coal_mine], [cp "proj"; cp "Coal_1"])]
           [PrintFound 2;
            PrintRenamed [cp "proj"; name_coal] (cp "Coal");
            PrintRenamed [cp "proj"; name_coal_mine] (cp "Coal_1");
            PrintSummary false 2]) /\
  exists dry_lines live_lines : list (path * str),
    map fst dry_lines = map fst live_lines /\
    length dry_lines = length live_lines.
Proof.
  assert (Hd : @translate_directory stub_env [cp "proj"] true (empty_world twin_tree)
               = (Ok tt,
                  World twin_tree [] []
                        [PrintFound 2;
                         PrintDryRun [cp "proj"; name_coal] (cp "Coal");
                         PrintDryRun [cp "proj"; name_coal_mine] (cp "Coal");
                         PrintSummary true 2]))
    by (vm_compute; reflexivity).
  assert (Hl : @translate_directory stub_env [cp "proj"] false (empty_world twin_tree)
               = (Ok tt,
                  World (Dir [(cp "proj", Dir [(cp "Coal", File); (cp "Coal_1", File)])])
                        []
                        [([cp "proj"; name_coal], [cp "proj"; cp "Coal"]);
                         ([cp "proj"; name_coal_mine], [cp "proj"; cp "Coal_1"])]
                        [PrintFound 2;
                         PrintRenamed [cp "proj"; name_coal] (cp "Coal");
                         PrintRenamed [cp "proj"; name_coal_mine] (cp "Coal_1");
                         PrintSummary false 2]))
    by (vm_compute; reflexivity).
  split; [reflexivity|]. split; [reflexivity|]. split; [reflexivity|].
  split; [exact Hd|]. split; [exact Hl|].
  destruct (@dry_run_foretells_live_run stub_env [cp "proj"]
              (empty_world twin_tree) _ _ eq_refl eq_refl eq_refl eq_refl Hd Hl)
    as (_ & [(Hnone & _) | (dry_lines & live_lines & Hsrc & _)]).
  - vm_compute in Hnone. discriminate Hnone.
  - exists dry_lines, live_lines. split; [exact Hsrc|].
    rewrite <- (length_map (@fst path str) dry_lines), Hsrc. apply length_map.
Defined.

(** ** What the scan finds *)

Lemma lookup_entry_found (c : str) (es : list (str * node)) (x : node) :
  lookup_entry c es = Some x -> In (c, x) es.
Proof.
  intros H. destruct (lookup_entry_some es c (lookup_entry_name _ _ _ H))
    as (x' & Hx' & Hin).
  rewrite H in Hx'. injection Hx' as <-. exact Hin.
Qed.

(** [os.walk] visits the directories of the tree, each once, and no
    other place. *)
Lemma walk_node_spec (fs : node) (n : node) :
  wf_node n = true ->
  forall top d,
    In d (walk_node fs top n) <->
    exists r es, lookup_path n r = Some (Dir es) /\
                 d = (top ++ r, dirnames_of fs (top ++ r) es,
                      filenames_of fs (top ++ r) es).
Proof.
  induction n as [|es IH|target] using node_induction; intros Hwf top d.
  3:{ cbn [walk_node]. split; [intros []|].
      intros (r & es & Hl & _). destruct r; discriminate. }
  - cbn [walk_node]. split; [intros []|].
    intros (r & es & Hl & _). destruct r; discriminate.
  - destruct (wf_dir _ Hwf) as (Hnd & _ & Hsub).
    rewrite Forall_forall in IH, Hsub.
    cbn [walk_node]. rewrite in_app_iff, in_flat_map. split.
    + intros [(e & He & Hd) | [<- | []]].
      * apply (IH e He (Hsub e He)) in Hd. destruct Hd as (r & es' & Hl & ->).
        exists (fst e :: r), es'. split.
        -- cbn [lookup_path]. rewrite (lookup_entry_in es (fst e) (snd e) Hnd).
           ++ exact Hl.
           ++ destruct e; exact He.
        -- rewrite <- app_assoc. reflexivity.
      * exists [], es. rewrite app_nil_r. split; reflexivity.
    + intros (r & es' & Hl & ->). destruct r as [|c r].
      * injection Hl as <-. right. left. rewrite app_nil_r. reflexivity.
      * left. cbn [lookup_path] in Hl.
        destruct (lookup_entry c es) as [child|] eqn:Ec; [|discriminate].
        apply lookup_entry_found in Ec. exists (c, child). split; [exact Ec|].
        apply (IH _ Ec (Hsub _ Ec)). exists r, es'. split; [exact Hl|].
        cbn [fst]. rewrite <- app_assoc. reflexivity.
Qed.

Lemma filenames_of_in (fs : node) (top : path) (es : list (str * node)) (name : str) :
  In name (filenames_of fs top es) <->
  exists x, In (name, x) es /\ is_dir_entry fs top (name, x) = false.
Proof.
  unfold filenames_of. rewrite in_map_iff. split.
  - intros ([c x] & <- & Hin). apply filter_In in Hin. destruct Hin as [Hin Hx].
    exists x. split; [exact Hin|]. cbn [fst].
    destruct (is_dir_entry fs top (c, x)); [discriminate | reflexivity].
  - intros (x & Hin & Hx). exists (name, x). split; [reflexivity|].
    apply filter_In. split; [exact Hin|]. rewrite Hx. reflexivity.
Qed.

Lemma dirnames_of_in (fs : node) (top : path) (es : list (str * node)) (name : str) :
  In name (dirnames_of fs top es) <->
  exists x, In (name, x) es /\ is_dir_entry fs top (name, x) = true.
Proof.
  unfold dirnames_of. rewrite in_map_iff. split.
  - intros ([c x] & <- & Hin). apply filter_In in Hin. destruct Hin as [Hin Hx].
    exists x. split; [exact Hin | exact Hx].
  - intros (x & Hin & Hx). exists (name, x). split; [reflexivity|].
    apply filter_In. split; [exact Hin | exact Hx].
Qed.

Lemma skipped_names_plain_ascii :
  contains_chinese git_name = false /\ contains_chinese venv_name = false.
Proof. split; reflexivity. Qed.

Lemma lookup_path_snoc (n : node) (r : path) (name : str) (x : node) :
  lookup_path n (r ++ [name]) = Some x <->
  exists es, lookup_path n r = Some (Dir es) /\ lookup_entry name es = Some x.
Proof.
  rewrite lookup_path_app. split.
  - destruct (lookup_path n r) as [[|es|target]|]; cbn [lookup_path]; try discriminate.
    intros H. exists es. split; [reflexivity|].
    destruct (lookup_entry name es); [exact H | discriminate].
  - intros (es & -> & Hx). cbn [lookup_path]. rewrite Hx. reflexivity.
Qed.

(** Every candidate is an entry below the root with a Chinese name and
    no skipped folder on the way. *)
Lemma candidates_sound (fs : node) (root_dir : path) (ty : item_type) (q : path) :
  wf_node fs = true ->
  In (ty, q) (collect_items fs root_dir) ->
  below root_dir q /\
  in_parts git_name (path_parent q) = false /\
  in_parts venv_name (path_parent q) = false /\
  contains_chinese (path_name q) = true /\
  exists n r x,
    fs_stat fs root_dir = Some n /\ q = root_dir ++ r /\
    lookup_path n r = Some x /\
    ty = if is_dir_entry fs (path_parent q) (path_name q, x) then ItemDir else ItemFile.
Proof.
  intros Hwf. unfold collect_items at 1, os_walk.
  destruct (fs_stat fs root_dir) as [n|] eqn:En; [|intros []].
  destruct (fs_stat_entry _ _ _ En) as (q0 & Hq0).
  pose proof (lookup_path_wf _ _ _ Hwf Hq0) as Hn.
  rewrite in_flat_map. intros ([[dirpath dirnames] filenames] & Hd & Hin).
  apply (walk_node_spec fs n Hn) in Hd. destruct Hd as (r & es & Hl & [= -> -> ->]).
  destruct (wf_dir es (lookup_path_wf _ _ _ Hn Hl)) as (Hnd & Hplain & _).
  rewrite forallb_forall in Hplain.
  unfold collect_triple in Hin.
  destruct (in_parts git_name (root_dir ++ r) || in_parts venv_name (root_dir ++ r))
    eqn:Eg; [destruct Hin|].
  apply orb_false_iff in Eg. destruct Eg as [Eg Ev].
  assert (Hgoal : forall name x,
            In (name, x) es -> contains_chinese name = true ->
            ty = (if is_dir_entry fs (root_dir ++ r) (name, x)
                  then ItemDir else ItemFile) ->
            q = path_join (root_dir ++ r) name ->
            below root_dir q /\
            in_parts git_name (path_parent q) = false /\
            in_parts venv_name (path_parent q) = false /\
            contains_chinese (path_name q) = true /\
            exists n0 r0 x0,
              Some n = Some n0 /\ q = root_dir ++ r0 /\
              lookup_path n0 r0 = Some x0 /\
              ty = if is_dir_entry fs (path_parent q) (path_name q, x0)
                   then ItemDir else ItemFile).
  { intros name x Hx Hc Hty ->.
    rewrite path_join_plain by (apply Hplain, (in_map fst _ _ Hx)).
    rewrite path_parent_snoc, path_name_snoc.
    split; [exists (r ++ [name]); rewrite app_assoc; split;
            [reflexivity | destruct r; discriminate]|].
    split; [exact Eg|]. split; [exact Ev|]. split; [exact Hc|].
    exists n, (r ++ [name]), x. split; [reflexivity|].
    split; [rewrite app_assoc; reflexivity|]. split; [|exact Hty].
    apply lookup_path_snoc. exists es. split; [exact Hl|].
    apply lookup_entry_in; assumption. }
  apply in_app_or in Hin. destruct Hin as [Hin | Hin];
    apply in_map_iff in Hin; destruct Hin as (name & [= <- <-] & Hin);
    apply filter_In in Hin; destruct Hin as [Hin Hc].
  - apply filenames_of_in in Hin. destruct Hin as (x & Hx & Hfile).
    apply (Hgoal name x Hx Hc); [rewrite Hfile|]; reflexivity.
  - apply andb_true_iff in Hc. destruct Hc as [_ Hc].
    apply dirnames_of_in in Hin. destruct Hin as (x & Hx & Hdir).
    apply (Hgoal name x Hx Hc); [rewrite Hdir|]; reflexivity.
Qed.




(** ** A root directory inside a skipped folder *)

Lemma walk_node_below (fs : node) (n : node) :
  forall top d, In d (walk_node fs top n) -> exists r, fst (fst d) = top ++ r.
Proof.
  induction n as [|es IH|target] using node_induction; intros top d; cbn [walk_node].
  3:{ intros []. }
  - intros [].
  - rewrite Forall_forall in IH. rewrite in_app_iff, in_flat_map.
    intros [(e & He & Hd) | [<- | []]].
    + destruct (IH e He _ _ Hd) as (r & Hr). exists (fst e :: r).
      rewrite Hr, <- app_assoc. reflexivity.
    + exists []. rewrite app_nil_r. reflexivity.
Qed.

Lemma flat_map_nil {A B : Type} (f : A -> list B) (l : list A) :
  (forall x, In x l -> f x = []) -> flat_map f l = [].
Proof.
  induction l as [|x l IH]; intros H; cbn [flat_map]; [reflexivity|].
  rewrite (H x (or_introl eq_refl)), IH; [reflexivity|].
  intros y Hy. apply H. right; exact Hy.
Qed.

Lemma in_parts_app (name : str) (p r : path) :
  in_parts name (p ++ r) = in_parts name p || in_parts name r.
Proof. apply existsb_app. Qed.

(** X10: the test for [.git] and [.venv] looks at the whole path of a
    folder, the part above the root directory included. A run on a root
    directory that has a component [.git] or [.venv] finds no candidate,
    whatever the tree holds: it prints that nothing was found and does
    nothing else. *)
Theorem root_inside_skipped_folder {E : Env} (root_dir : path) (dry_run : bool) (w : world) :
  in_parts git_name root_dir || in_parts venv_name root_dir = true ->
  collect_items (w_fs w) root_dir = [] /\
  translate_directory root_dir dry_run w = (Ok tt, add_out w [PrintNoneFound]).
Proof.
  intros Hroot.
  assert (Hnone : collect_items (w_fs w) root_dir = []).
  { unfold collect_items, os_walk.
    destruct (fs_stat (w_fs w) root_dir) as [n|]; [|reflexivity].
    apply flat_map_nil. intros [[dirpath dirnames] filenames] Hd.
    destruct (walk_node_below _ _ _ _ Hd) as (r & Hr). cbn [fst] in Hr. subst dirpath.
    unfold collect_triple. rewrite !in_parts_app.
    apply orb_true_iff in Hroot. destruct Hroot as [-> | ->];
      rewrite ?orb_true_r; reflexivity. }
  split; [exact Hnone|].
  unfold translate_directory, bind, get_fs. rewrite Hnone. reflexivity.
Qed.

Lemma root_inside_skipped_folder_witness :
  in_parts git_name [cp ".venv"; cp "proj"]
  || in_parts venv_name [cp ".venv"; cp "proj"] = true /\
  plain_name name_coal = true /\
  fs_exists venv_tree [cp ".venv"; cp "proj"; name_coal] = true /\
  @translate_directory stub_env [cp ".venv"; cp "proj"] false (empty_world venv_tree)
  = (Ok tt, add_out (empty_world venv_tree) [PrintNoneFound]).
Proof.
  split; [reflexivity|]. split; [reflexivity|]. split; [reflexivity|].
  exact (proj2 (@root_inside_skipped_folder stub_env [cp ".venv"; cp "proj"] false
                  (empty_world venv_tree) eq_refl)).
Defined.

(** ** What a live run leaves where it is *)

Section Untouched.
Context {E : Env}.

(** X11: a live run leaves alone what it has no reason to touch. In a
    live run over a well-formed tree whose root directory is given by its
    resolved path, however the run ends, a file or a directory that is no
    candidate and does not lie below a candidate is afterwards still at
    its path, a file as a file and a directory as a directory. This holds
    for every file or directory on whose path no name has a Chinese
    character. *)
Theorem live_run_keeps_other_entries (root_dir : path) (w w' : world) (o : outcome unit)
        (q : path) :
  is_word slash = false -> wf_node (w_fs w) = true -> plain_path root_dir = true ->
  real_at (w_fs w) root_dir ->
  translate_directory root_dir false w = (o, w') ->
  real_at (w_fs w) q ->
  ((forall item, In item (collect_items (w_fs w) root_dir) -> ~ prefix (snd item) q) ->
   option_map shape (lookup_path (w_fs w') q)
   = option_map shape (lookup_path (w_fs w) q) /\
   real_at (w_fs w') q /\
   (plain_path q = true -> fs_exists (w_fs w') q = true)) /\
  (forallb (fun c => negb (contains_chinese c)) q = true ->
   option_map shape (lookup_path (w_fs w') q)
   = option_map shape (lookup_path (w_fs w) q) /\
   real_at (w_fs w') q).
Proof.
  intros Hword Hwf Hroot Hreal H Hq.
  assert (Hgen : (forall item, In item (collect_items (w_fs w) root_dir) ->
                               ~ prefix (snd item) q) ->
                 option_map shape (lookup_path (w_fs w') q)
                 = option_map shape (lookup_path (w_fs w) q)).
  { intros Hno. unfold translate_directory in H.
    unfold bind at 1, get_fs at 1 in H.
    pose proof (collect_items_real _ root_dir Hwf Hroot Hreal) as Q.
    destruct (collect_items_scan (w_fs w) root_dir Hwf) as (B & _ & _).
    destruct (is_empty_list (collect_items (w_fs w) root_dir)).
    - cbn in H. injection H as _ <-. reflexivity.
    - destruct (bind_inv H) as [(u & w0 & H0 & H1)|[(e & H0 & _)|(H0 & _)]];
        try discriminate.
      injection H0 as _ <-.
      assert (Hloop : forall n o2 w2,
                 foldM (process_item false) (collect_items (w_fs w) root_dir) n
                       (World (w_fs w) (w_calls w) (w_renames w)
                              (w_out w ++ [PrintFound (length (collect_items (w_fs w)
                                                                 root_dir))]))
                 = (o2, w2) ->
                 option_map shape (lookup_path (w_fs w2) q)
                 = option_map shape (lookup_path (w_fs w) q)).
      { intros n o2 w2 H2.
        refine (live_loop_frame Hword _ n _ o2 w2 B _ H2 q Hq _).
        - intros c Hc. destruct (Q c Hc) as (H3 & H4 & _ & H5). auto.
        - intros c Hc. apply in_map_iff in Hc. destruct Hc as (item & <- & Hin).
          exact (Hno item Hin). }
      destruct (bind_inv H1) as [(n & w2 & H2 & H3)|[(e & H2 & _)|(H2 & _)]].
      + injection H3 as _ <-. cbn [w_fs]. exact (Hloop _ _ _ H2).
      + exact (Hloop _ _ _ H2).
      + exact (Hloop _ _ _ H2). }
  split.
  - intros Hno. pose proof (Hgen Hno) as Hs.
    pose proof (real_at_shape _ _ _ Hs Hq) as Hq'.
    split; [exact Hs|]. split; [exact Hq'|].
    intros Pq. exact (real_at_exists _ _ Pq Hq').
  - intros Hplain.
    assert (Hno : forall item, In item (collect_items (w_fs w) root_dir) ->
                               ~ prefix (snd item) q).
    { intros [ty p] Hin (r & Hr). cbn [snd] in Hr.
      destruct (candidates_sound _ _ _ _ Hwf Hin) as ((r' & Hp & Hne) & _ & _ & Hc & _).
      assert (Hpne : p <> []) by (subst p; destruct root_dir; destruct r'; simpl; congruence).
      rewrite forallb_forall in Hplain.
      assert (Hname : In (path_name p) q).
      { rewrite Hr, (old_split p Hpne), path_name_snoc.
        apply in_or_app; left. apply in_or_app; right; left; reflexivity. }
      specialize (Hplain _ Hname). rewrite Hc in Hplain. discriminate. }
    pose proof (Hgen Hno) as Hs. split; [exact Hs | exact (real_at_shape _ _ _ Hs Hq)].
Qed.

End Untouched.

Lemma live_run_keeps_other_entries_witness :
  @is_word stub_env slash = false /\ wf_node readme_tree = true /\
  real_at readme_tree [cp "proj"] /\
  real_at readme_tree [cp "proj"; cp "readme.txt"] /\
  @translate_directory stub_env [cp "proj"] false (empty_world readme_tree)
  = (Ok tt,
     World (Dir [(cp "proj", Dir [(cp "readme.txt", File); (cp "Coal", File)])])
           []
           [([cp "proj"; name_coal], [cp "proj"; cp "Coal"])]
           [PrintFound 1;
            PrintRenamed [cp "proj"; name_coal] (cp "Coal");
            PrintSummary false 1]) /\
  real_at (Dir [(cp "proj", Dir [(cp "readme.txt", File); (cp "Coal", File)])])
          [cp "proj"; cp "readme.txt"].
Proof.
  assert (Hroot : real_at readme_tree [cp "proj"])
    by (eexists; split; reflexivity).
  assert (Hq : real_at readme_tree [cp "proj"; cp "readme.txt"])
    by (eexists; split; reflexivity).
  assert (Hrun : @translate_directory stub_env [cp "proj"] false (empty_world readme_tree)
                 = (Ok tt,
                    World (Dir [(cp "proj",
                                 Dir [(cp "readme.txt", File); (cp "Coal", File)])])
                          []
                          [([cp "proj"; name_coal], [cp "proj"; cp "Coal"])]
                          [PrintFound 1;
                           PrintRenamed [cp "proj"; name_coal] (cp "Coal");
                           PrintSummary false 1]))
    by (vm_compute; reflexivity).
  split; [reflexivity|]. split; [reflexivity|]. split; [exact Hroot|].
  split; [exact Hq|]. split; [exact Hrun|].
  exact (proj2 (proj2 (@live_run_keeps_other_entries stub_env [cp "proj"]
                         (empty_world readme_tree) _ _ [cp "proj"; cp "readme.txt"]
                         eq_refl eq_refl eq_refl Hroot Hrun Hq)
                      eq_refl)).
Defined.

(** ** A new name that is empty *)

(** X12: an empty new name (a translation of which cleaning leaves
    nothing) does not leave the entry alone. [old_path.parent / ""] is the
    folder itself, which exists; so the entry gets a numbered name, and
    the name is built from the stem and the extension of the folder: in a
    folder [pack.v2] the first try is [pack_1.v2], in a folder without an
    extension it is [_1]. *)
Theorem empty_name_is_numbered {E : Env} (old_path : path) (dry_run : bool)
        (w w' : world) (o : outcome (option path)) :
  plain_path old_path = true -> old_path <> [] ->
  fs_exists (w_fs w) old_path = true ->
  rename_item old_path [] dry_run w = (o, w') ->
  o <> OutOfFuel /\ o <> Ok None /\
  forall target, o = Ok (Some target) ->
    exists counter,
      1 <= counter /\
      target = path_parent old_path
               ++ [numbered (if is_empty (path_suffix (path_parent old_path)) then []
                             else path_stem (path_parent old_path))
                            counter
                            (path_suffix (path_parent old_path))] /\
      fs_exists (w_fs w) target = false.
Proof.
  intros Pp Hne Hex H.
  assert (Hns : no_slash []) by reflexivity.
  assert (Hother : path_eqb old_path (path_join (path_parent old_path) []) = false).
  { apply path_join_other; try assumption.
    destruct (parent_plain old_path Pp Hne) as [_ Hname].
    intros Heq. rewrite <- Heq in Hname. discriminate. }
  rewrite rename_item_split, Hother in H.
  destruct (find_target old_path [] w) as [[[final_name target]|e|] w1] eqn:Ef.
  - destruct (find_target_ends (w_fs w) old_path [] Pp Hne Hex Hns w _ _ eq_refl Ef)
      as [_ Hplain].
    destruct (Hplain _ _ eq_refl) as [Hfinal ->].
    destruct (find_target_spec _ _ _ _ _ Ef) as [_ Hrule].
    destruct (Hrule _ _ eq_refl) as [_ (Hfree & Hcases)].
    assert (Hres : forall r, o = Ok (Some r) ->
              r = path_parent old_path ++ [final_name]).
    { intros r ->. destruct dry_run.
      - injection H as <- _. reflexivity.
      - destruct (fs_rename _ _ _); [destruct (os_permits _ _)|]; try discriminate.
        injection H as <- _. reflexivity. }
    split; [|split].
    + destruct dry_run; [injection H as <- _; discriminate|].
      destruct (fs_rename _ _ _); [destruct (os_permits _ _)|];
        injection H as <- _; discriminate.
    + destruct dry_run; [injection H as <- _; discriminate|].
      destruct (fs_rename _ _ _); [destruct (os_permits _ _)|];
        injection H as <- _; discriminate.
    + intros r Hr. rewrite (Hres r Hr).
      destruct Hcases as [-> | (_ & counter & Hc & -> & _)]; [discriminate Hfinal|].
      exists counter. split; [exact Hc|]. split; [reflexivity|].
      rewrite path_join_plain in Hfree by exact Hfinal. exact Hfree.
  - injection H as <- _. repeat split; try discriminate.
  - destruct (find_target_ends (w_fs w) old_path [] Pp Hne Hex Hns w _ _ eq_refl Ef)
      as [Hno _]. congruence.
Qed.

Lemma empty_name_is_numbered_witness :
  plain_path [cp "pack.v2"; name_coal] = true /\
  fs_exists versioned_tree [cp "pack.v2"; name_coal] = true /\
  @rename_item stub_env [cp "pack.v2"; name_coal] [] false (empty_world versioned_tree)
  = (Ok (Some [cp "pack.v2"; cp "pack_1.v2"]),
     World (Dir [(cp "pack.v2", Dir [(cp "pack_1.v2", File)])])
           []
           [([cp "pack.v2"; name_coal], [cp "pack.v2"; cp "pack_1.v2"])]
           [PrintRenamed [cp "pack.v2"; name_coal] (cp "pack_1.v2")]) /\
  exists counter,
    1 <= counter /\
    [cp "pack.v2"; cp "pack_1.v2"]
    = path_parent [cp "pack.v2"; name_coal]
      ++ [numbered (if is_empty (path_suffix (path_parent [cp "pack.v2"; name_coal]))
                    then []
                    else path_stem (path_parent [cp "pack.v2"; name_coal]))
                   counter
                   (path_suffix (path_parent [cp "pack.v2"; name_coal]))] /\
    fs_exists (w_fs (empty_world versioned_tree)) [cp "pack.v2"; cp "pack_1.v2"] = false.
Proof.
  assert (Hrun : @rename_item stub_env [cp "pack.v2"; name_coal] [] false
                              (empty_world versioned_tree)
                 = (Ok (Some [cp "pack.v2"; cp "pack_1.v2"]),
                    World (Dir [(cp "pack.v2", Dir [(cp "pack_1.v2", File)])])
                          []
                          [([cp "pack.v2"; name_coal], [cp "pack.v2"; cp "pack_1.v2"])]
                          [PrintRenamed [cp "pack.v2"; name_coal] (cp "pack_1.v2")]))
    by (vm_compute; reflexivity).
  split; [reflexivity|]. split; [reflexivity|]. split; [exact Hrun|].
  assert (Hne : [cp "pack.v2"; name_coal] <> []) by discriminate.
  exact (proj2 (proj2 (@empty_name_is_numbered stub_env [cp "pack.v2"; name_coal] false
                         (empty_world versioned_tree) _ _ eq_refl Hne eq_refl Hrun))
               _ eq_refl).
Defined.

(** ** The blueprint tool: modifications *)

Section BlueprintData.
Import ModifyBlueprint.

Lemma find_occurs (s key : str) :
  (exists i, find s key 0 = Some i) <-> (exists i, occurs_at s key i = true).
Proof.
  split.
  - intros (i & Hi). exists i. exact (proj1 (proj2 (find_some _ _ _ _ Hi))).
  - intros (i & Hi). destruct (find s key 0) as [j|] eqn:Ef; [exists j; reflexivity|].
    rewrite (find_none _ _ _ Ef i (Nat.le_0_l i)) in Hi. discriminate.
Qed.

Lemma member_exists (key : str) (members : list (str * json)) :
  existsb (fun m => str_eqb (fst m) key) members = true <->
  exists v, member key members = Some v.
Proof.
  induction members as [|[k v] members IH]; cbn [existsb member fst].
  - split; [discriminate | intros (v & Hv); discriminate].
  - destruct (str_eqb k key); cbn [orb].
    + split; [intros _; exists v; reflexivity | reflexivity].
    + exact IH.
Qed.

Lemma equals_string_in (key : str) (items : list json) :
  existsb (equals_string key) items = true <-> In (JString key) items.
Proof.
  rewrite existsb_exists. split.
  - intros (x & Hx & He). destruct x; try discriminate.
    cbn [equals_string] in He. apply str_eqb_eq in He. subst. exact Hx.
  - intros H. exists (JString key). split; [exact H|].
    apply str_eqb_refl.
Qed.

Lemma iterate_fails (v : json) : iterate v = Failed TypeError <-> not_iterable v.
Proof. destruct v; cbn; split; try discriminate; try tauto; reflexivity. Qed.

Lemma iterate_cases (v : json) : iterate v = Done tt \/ iterate v = Failed TypeError.
Proof. destruct v; cbn; auto. Qed.

(** One block: it passes, or it raises a [TypeError], and it raises
    exactly for the modifications described by [section_fails]. *)
Lemma visit_section_spec (key : str) (modifications : json) :
  (visit_section key modifications = Done tt \/
   visit_section key modifications = Failed TypeError) /\
  (visit_section key modifications = Failed TypeError <-> section_fails key modifications).
Proof.
  unfold visit_section.
  destruct modifications as [| b | n | z | s | items | members];
    cbn [contains section_fails]; try (split; [right; reflexivity | tauto]).
  - destruct (find s key 0) as [i|] eqn:Ef; cbn [getitem].
    + split; [right; reflexivity|]. split; [intros _ | reflexivity].
      apply find_occurs. exists i. exact Ef.
    + split; [left; reflexivity|]. split; [discriminate|].
      intros H. apply find_occurs in H. destruct H as (i & Hi). congruence.
  - destruct (existsb (equals_string key) items) eqn:Ex; cbn [getitem].
    + split; [right; reflexivity|]. split; [intros _ | reflexivity].
      apply equals_string_in. exact Ex.
    + split; [left; reflexivity|]. split; [discriminate|].
      intros H. apply equals_string_in in H. congruence.
  - destruct (existsb (fun m => str_eqb (fst m) key) members) eqn:Ex; cbn [getitem].
    + destruct (proj1 (member_exists key members) Ex) as (v & Hv). rewrite Hv.
      split; [apply iterate_cases|]. rewrite iterate_fails. split.
      * intros H. exists v. split; [reflexivity | exact H].
      * intros (v' & [= <-] & H). exact H.
    + split; [left; reflexivity|]. split; [discriminate|].
      intros (v & Hv & _).
      assert (Hex : existsb (fun m => str_eqb (fst m) key) members = true)
        by (apply member_exists; exists v; exact Hv).
      congruence.
Qed.

(** X13: [modify_blueprint_data] changes nothing. Whatever the
    modifications are, it returns the very data it was given, or it
    raises a [TypeError]; and it raises exactly when the modifications
    are no list, dict or string, or are a list that holds one of the
    words [buildings] and [logistics_stations], or a string in which one
    of them occurs, or a dict that gives one of them a value that is no
    list, dict or string. *)
Theorem modify_blueprint_data_returns_its_input
        {D : Type} (bp_data : D) (modifications : json) :
  (modify_blueprint_data bp_data modifications = Done bp_data \/
   modify_blueprint_data bp_data modifications = Failed TypeError) /\
  (modify_blueprint_data bp_data modifications = Failed TypeError <->
   section_fails buildings_key modifications \/
   section_fails logistics_stations_key modifications).
Proof.
  unfold modify_blueprint_data.
  destruct (visit_section_spec buildings_key modifications) as [[Hb | Hb] Hbf];
    destruct (visit_section_spec logistics_stations_key modifications) as [[Hl | Hl] Hlf];
    rewrite Hb, ?Hl.
  - split; [left; reflexivity|]. split; [discriminate|].
    intros [H | H]; [apply Hbf in H | apply Hlf in H]; congruence.
  - split; [right; reflexivity|]. split; [intros _; right; apply Hlf; exact Hl | reflexivity].
  - split; [right; reflexivity|]. split; [intros _; left; apply Hbf; exact Hb | reflexivity].
  - split; [right; reflexivity|]. split; [intros _; left; apply Hbf; exact Hb | reflexivity].
Qed.

End BlueprintData.

(** ** The blueprint tool: what is written *)

Section BlueprintTool.
Import ModifyBlueprint.
Context {P : Type} {L : Library P}.


Lemma tbind_done {A B : Type} (m : T A) (k : A -> T B) (log log1 : list (action P)) (a : A) :
  m log = (Done a, log1) -> tbind m k log = k a log1.
Proof. intros H. unfold tbind. rewrite H. reflexivity. Qed.





End BlueprintTool.


(** ** The blueprint tool: the dump *)

Lemma list_sum_perm (l l' : list nat) : Permutation l l' -> list_sum l = list_sum l'.
Proof.
  induction 1 as [|x l l' _ IH|x y l|l l' l'' _ IH1 _ IH2]; simpl; lia.
Qed.

Section Dump.
Import ModifyBlueprint.

Lemma counter_add_count (counter : list (Z * nat)) (item_id j : Z) :
  count_of (counter_add counter item_id) j
  = count_of counter j + (if (item_id =? j)%Z then 1 else 0).
Proof.
  induction counter as [|[k n] counter IH]; cbn [counter_add count_of].
  - lia.
  - destruct (k =? item_id)%Z eqn:Ek; cbn [count_of].
    + apply Z.eqb_eq in Ek. subst k. destruct (item_id =? j)%Z; lia.
    + rewrite IH. lia.
Qed.

Lemma counter_add_keys (counter : list (Z * nat)) (item_id j : Z) :
  In j (map fst (counter_add counter item_id)) <->
  In j (map fst counter) \/ j = item_id.
Proof.
  induction counter as [|[k n] counter IH]; cbn [counter_add map fst In].
  - intuition.
  - destruct (k =? item_id)%Z eqn:Ek; cbn [map fst In].
    + apply Z.eqb_eq in Ek. subst k. intuition.
    + rewrite IH. intuition.
Qed.

Lemma counter_add_nodup (counter : list (Z * nat)) (item_id : Z) :
  NoDup (map fst counter) -> NoDup (map fst (counter_add counter item_id)).
Proof.
  induction counter as [|[k n] counter IH]; cbn [counter_add map fst]; intros H.
  - constructor; [intros [] | constructor].
  - inversion H as [|? ? Hk Hrest]; subst.
    destruct (k =? item_id)%Z eqn:Ek; cbn [map fst].
    + constructor; assumption.
    + constructor; [|exact (IH Hrest)].
      rewrite counter_add_keys. intros [Hin | ->]; [exact (Hk Hin)|].
      rewrite Z.eqb_refl in Ek. discriminate.
Qed.

Lemma counter_add_positive (counter : list (Z * nat)) (item_id : Z) :
  Forall (fun e => 0 < snd e) counter ->
  Forall (fun e => 0 < snd e) (counter_add counter item_id).
Proof.
  induction counter as [|[k n] counter IH]; cbn [counter_add]; intros H.
  - constructor; [cbn; lia | constructor].
  - inversion H as [|? ? Hn Hrest]; subst.
    destruct (k =? item_id)%Z; constructor; cbn [snd] in *; auto; lia.
Qed.

Lemma counter_add_sum (counter : list (Z * nat)) (item_id : Z) :
  list_sum (map snd (counter_add counter item_id)) = list_sum (map snd counter) + 1.
Proof.
  induction counter as [|[k n] counter IH]; cbn [counter_add].
  - reflexivity.
  - destruct (k =? item_id)%Z; simpl in *; lia.
Qed.

(** The counting loop, from any counter on. *)
Lemma counting_loop (buildings : list building) :
  forall counter,
    NoDup (map fst counter) -> Forall (fun e => 0 < snd e) counter ->
    NoDup (map fst (fold_left counter_add buildings counter)) /\
    Forall (fun e => 0 < snd e) (fold_left counter_add buildings counter) /\
    list_sum (map snd (fold_left counter_add buildings counter))
    = list_sum (map snd counter) + length buildings /\
    forall j, count_of (fold_left counter_add buildings counter) j
              = count_of counter j + count_occ Z.eq_dec buildings j.
Proof.
  induction buildings as [|b buildings IH]; intros counter Hnd Hpos; cbn [fold_left].
  - repeat split; try assumption; simpl; lia.
  - destruct (IH _ (counter_add_nodup _ b Hnd) (counter_add_positive _ b Hpos))
      as (H1 & H2 & H3 & H4).
    split; [exact H1|]. split; [exact H2|]. split.
    + rewrite H3, counter_add_sum. simpl. lia.
    + intros j. rewrite H4, counter_add_count. cbn [count_occ].
      destruct (Z.eq_dec b j) as [->|Hbj].
      * rewrite Z.eqb_refl. lia.
      * destruct (b =? j)%Z eqn:Eb; [apply Z.eqb_eq in Eb; congruence | lia].
Qed.

Lemma count_of_entry (counter : list (Z * nat)) (item_id : Z) (n : nat) :
  NoDup (map fst counter) -> In (item_id, n) counter -> count_of counter item_id = n.
Proof.
  induction counter as [|[k m] counter IH]; cbn [map fst count_of]; intros Hnd Hin;
    [destruct Hin|].
  inversion Hnd as [|? ? Hk Hrest]; subst.
  assert (Hzero : forall c, ~ In item_id (map fst c) -> count_of c item_id = 0).
  { induction c as [|[k' m'] c IHc]; cbn [map fst count_of In]; intros Hno; [reflexivity|].
    destruct (k' =? item_id)%Z eqn:Ek; [apply Z.eqb_eq in Ek; tauto|].
    rewrite IHc by tauto. reflexivity. }
  destruct Hin as [[= -> ->] | Hin].
  - rewrite Z.eqb_refl, (Hzero _ Hk). lia.
  - destruct (k =? item_id)%Z eqn:Ek.
    + apply Z.eqb_eq in Ek. subst k. exfalso. apply Hk.
      apply (in_map fst) in Hin. exact Hin.
    + rewrite (IH Hrest Hin). reflexivity.
Qed.

Lemma count_of_missing (counter : list (Z * nat)) (item_id : Z) :
  0 < count_of counter item_id -> exists n, In (item_id, n) counter.
Proof.
  induction counter as [|[k m] counter IH]; cbn [count_of]; [lia|].
  destruct (k =? item_id)%Z eqn:Ek.
  - apply Z.eqb_eq in Ek. subst k. intros _. exists m. left; reflexivity.
  - intros H. destruct (IH H) as (n & Hn). exists n. right; exact Hn.
Qed.

Lemma most_common_perm (counter : list (Z * nat)) :
  Permutation (most_common counter) counter.
Proof. apply sort_by_perm. Qed.

Lemma most_common_sorted (counter : list (Z * nat)) :
  StronglySorted (fun a b => snd b <= snd a) (most_common counter).
Proof.
  apply (StronglySorted_impl (fun a b => (snd b <=? snd a) = true)).
  - intros a b H. apply Nat.leb_le. exact H.
  - apply sort_by_sorted.
    + intros a b. destruct (Nat.le_ge_cases (snd b) (snd a)) as [H | H];
        [left | right]; apply Nat.leb_le; exact H.
    + intros a b c Hab Hbc. apply Nat.leb_le in Hab, Hbc. apply Nat.leb_le. lia.
Qed.

Context {P : Type} {L : Library P}.

(** X15: the tally of a dump. For a blueprint that can be read and
    decoded, the dump ends normally with the line of the building count
    followed by the item lines and nothing after them. The item lines
    are in order of falling counts; every item of the blueprint has one
    line and no other item has one; the count on the line of an item is
    the number of buildings of that item; and the counts add up to the
    building count. *)
Theorem dump_tallies_buildings
        (input_file : str) (ignore_corrupt : bool) (log : list (action P))
        (bp : blueprint P) (buildings : list building) :
  read_from_file input_file (negb ignore_corrupt) = Some bp ->
  decoded_data bp = Some buildings ->
  (exists head,
      dump_blueprint_info input_file ignore_corrupt log
      = (Done tt,
         log ++ head ++ PrintBuildingCount (length buildings)
             :: item_lines (most_common (count_buildings buildings))) /\
      Forall (fun a => forall n name, a <> PrintItem n name) head) /\
  StronglySorted (fun a b => snd b <= snd a) (most_common (count_buildings buildings)) /\
  NoDup (map fst (most_common (count_buildings buildings))) /\
  (forall item_id count,
      In (item_id, count) (most_common (count_buildings buildings)) <->
      0 < count /\ count = count_occ Z.eq_dec buildings item_id) /\
  list_sum (map snd (most_common (count_buildings buildings))) = length buildings.
Proof.
  intros Hread Hdec.
  destruct (counting_loop buildings [] (NoDup_nil _) (Forall_nil _))
    as (Hnd & Hpos & Hsum & Hcount).
  fold (count_buildings buildings) in Hnd, Hpos, Hsum, Hcount.
  pose proof (most_common_perm (count_buildings buildings)) as Hperm.
  split; [|split; [|split; [|split]]].
  - unfold dump_blueprint_info, tbind, from_option, tret, emit.
    rewrite Hread, Hdec.
    exists ((if negb (is_empty (short_desc bp)) then [PrintText (short_desc bp)] else [])
            ++ (if negb (is_empty (long_desc bp))
                then [PrintDescription (long_desc bp)] else [])
            ++ [PrintGameVersion (game_version bp)]).
    split.
    + unfold item_lines.
      destruct (negb (is_empty (short_desc bp)));
        destruct (negb (is_empty (long_desc bp))); cbn [app];
        rewrite <- ?app_assoc; reflexivity.
    + destruct (negb (is_empty (short_desc bp)));
        destruct (negb (is_empty (long_desc bp))); cbn [app];
        repeat constructor; discriminate.
  - apply most_common_sorted.
  - apply (Permutation_NoDup (l := map fst (count_buildings buildings)));
      [|exact Hnd].
    apply Permutation_map, Permutation_sym, Hperm.
  - intros item_id count. split.
    + intros Hin. apply (Permutation_in _ Hperm) in Hin.
      rewrite Forall_forall in Hpos. split; [exact (Hpos _ Hin)|].
      rewrite <- (count_of_entry _ _ _ Hnd Hin), Hcount. reflexivity.
    + intros [Hp ->]. apply (Permutation_in _ (Permutation_sym Hperm)).
      destruct (count_of_missing (count_buildings buildings) item_id) as (n & Hn).
      * rewrite Hcount. cbn [count_of]. lia.
      * rewrite <- (count_of_entry _ _ _ Hnd Hn), Hcount in Hn. exact Hn.
  - rewrite (list_sum_perm _ (map snd (count_buildings buildings))).
    + rewrite Hsum. reflexivity.
    + apply Permutation_map, Hperm.
Qed.

End Dump.

Lemma dump_tallies_buildings_witness :
  @ModifyBlueprint.dump_blueprint_info unit stub_library (cp "in.txt") false []
  = (ModifyBlueprint.Done tt,
     [ModifyBlueprint.PrintText (cp "old");
      ModifyBlueprint.PrintGameVersion (cp "0.10.30");
      ModifyBlueprint.PrintBuildingCount 4;
      ModifyBlueprint.PrintItem 3 (cp "ConveyorBeltMKI");
      ModifyBlueprint.PrintItem 1 (cp "[2011]")]) /\
  list_sum (map snd (ModifyBlueprint.most_common
                       (ModifyBlueprint.count_buildings [2001; 2011; 2001; 2001]%Z)))
  = length [2001; 2011; 2001; 2001]%Z.
Proof.
  split; [vm_compute; reflexivity|].
  exact (proj2 (proj2 (proj2 (proj2
    (@dump_tallies_buildings unit stub_library (cp "in.txt") false [] stub_blueprint
       [2001; 2011; 2001; 2001]%Z eq_refl eq_refl))))).
Defined.

(** ** Setting up the translator *)

Lemma find_first {A : Type} (p : A -> bool) (l : list A) :
  match List.find p l with
  | Some x => exists before after,
                l = before ++ x :: after /\ p x = true /\
                forall y, In y before -> p y = false
  | None => forall y, In y l -> p y = false
  end.
Proof.
  induction l as [|a l IH]; cbn [List.find].
  - intros y [].
  - destruct (p a) eqn:Ea.
    + exists [], l. split; [reflexivity|]. split; [exact Ea | intros y []].
    + destruct (List.find p l) as [x|].
      * destruct IH as (before & after & -> & Hx & Hb).
        exists (a :: before), after. split; [reflexivity|]. split; [exact Hx|].
        intros y [<- | Hy]; [exact Ea | exact (Hb y Hy)].
      * intros y [<- | Hy]; [exact Ea | exact (IH y Hy)].
Qed.

(** X16: what [setup_translation] decides. It ends the program with
    status 1 exactly when the package index offers no package from
    Chinese to English, and it does so even when such a package is
    installed already; nothing is installed then. Otherwise it returns
    after asking for the translation; it installs nothing when a package
    from Chinese to English is installed, and else installs one package:
    the first of the index from Chinese to English. *)
Theorem setup_translation_decisions (available_packages installed_packages : list package) :
  (fst (setup_translation available_packages installed_packages) = Raise (SystemExit 1) <->
   forall pkg, In pkg available_packages -> translates zh en pkg = false) /\
  (fst (setup_translation available_packages installed_packages) = Raise (SystemExit 1) ->
   snd (setup_translation available_packages installed_packages)
   = [UpdatePackageIndex; PrintNoPackage zh en]) /\
  (fst (setup_translation available_packages installed_packages) <> Raise (SystemExit 1) ->
   fst (setup_translation available_packages installed_packages) = Ok tt /\
   last (snd (setup_translation available_packages installed_packages)) UpdatePackageIndex
   = GetTranslation zh en /\
   (existsb (translates zh en) installed_packages = true ->
    installs (snd (setup_translation available_packages installed_packages)) = []) /\
   (existsb (translates zh en) installed_packages = false ->
    exists pkg before after,
      available_packages = before ++ pkg :: after /\
      translates zh en pkg = true /\
      (forall other, In other before -> translates zh en other = false) /\
      installs (snd (setup_translation available_packages installed_packages)) = [pkg])).
Proof.
  unfold setup_translation.
  pose proof (find_first (translates zh en) available_packages) as Hfind.
  destruct (List.find (translates zh en) available_packages) as [pkg|]; cbn [fst snd].
  - destruct Hfind as (before & after & Havail & Hpkg & Hbefore).
    split; [|split; [discriminate|]].
    + split; [discriminate|]. intros Hnone. exfalso.
      rewrite (Hnone pkg) in Hpkg; [discriminate|].
      rewrite Havail. apply in_or_app; right; left; reflexivity.
    + intros _. split; [reflexivity|].
      destruct (existsb (translates zh en) installed_packages); cbn [negb app].
      * split; [reflexivity|]. split; [reflexivity | discriminate].
      * split; [reflexivity|]. split; [discriminate|]. intros _.
        exists pkg, before, after. repeat split; assumption.
  - split; [|split; [reflexivity | congruence]].
    split; [intros _; exact Hfind | reflexivity].
Qed.

(** ** The first pass as one sweep over the occurrences *)

Lemma filter_none {A : Type} (p : A -> bool) (l : list A) :
  (forall x, In x l -> p x = false) -> filter p l = [].
Proof.
  induction l as [|x l IH]; intros H; cbn [filter]; [reflexivity|].
  rewrite (H x (or_introl eq_refl)). apply IH. intros y Hy. apply H. right; exact Hy.
Qed.

Lemma positions_none (text term : str) (start : nat) :
  (forall j, start <= j -> occurs_at text term j = false) ->
  positions_from text term start = [].
Proof.
  intros H. unfold positions_from. apply filter_none.
  intros j Hj. apply in_seq in Hj. apply H. lia.
Qed.

Lemma positions_next (text term : str) (start idx : nat) :
  start <= idx -> occurs_at text term idx = true ->
  (forall j, start <= j -> j < idx -> occurs_at text term j = false) ->
  positions_from text term start = idx :: positions_from text term (idx + 1).
Proof.
  intros Hle Hocc Hbefore.
  pose proof (occurs_at_bound _ _ _ Hocc) as Hb.
  unfold positions_from.
  replace (length text + 1 - start)
    with ((idx - start) + S (length text + 1 - (idx + 1))) by lia.
  rewrite seq_app, filter_app.
  rewrite filter_none.
  - replace (start + (idx - start)) with idx by lia.
    cbn [seq filter app]. rewrite Hocc.
    replace (S idx) with (idx + 1) by lia. reflexivity.
  - intros j Hj. apply in_seq in Hj. apply Hbefore; lia.
Qed.

Lemma accept_span_at (d : dict) (term replacement : str) (idx : nat)
      (matched : list span) :
  dict_get d term = Some replacement ->
  accept matched (span_at d term idx)
  = if overlaps idx (idx + length term) matched then matched
    else matched ++ [(idx, idx + length term, replacement)].
Proof.
  intros Hget. unfold accept, span_at, replacement_of, span_start, span_end.
  rewrite Hget. reflexivity.
Qed.

(** The [while] loop for one term accepts, in rising order, every
    occurrence from [start] on that overlaps nothing accepted before. *)
Lemma scan_term_sweep (d : dict) (text term replacement : str) :
  dict_get d term = Some replacement ->
  forall fuel start matched,
    start <= length text + 1 -> length text + 2 <= fuel + start ->
    scan_term fuel d text term start matched
    = Some (accept_all (map (span_at d term) (positions_from text term start)) matched).
Proof.
  intros Hget. induction fuel as [|fuel IH]; intros start matched Hs Hf; [lia|].
  cbn [scan_term]. destruct (find text term start) as [idx|] eqn:Ef.
  - destruct (find_some _ _ _ _ Ef) as (Hle & Hocc & Hbefore).
    pose proof (occurs_at_bound _ _ _ Hocc) as Hb.
    rewrite (positions_next _ _ _ _ Hle Hocc Hbefore).
    cbn [map]. unfold accept_all. cbn [fold_left].
    rewrite (accept_span_at _ _ _ _ _ Hget), Hget.
    destruct (overlaps idx (idx + length term) matched); apply IH; lia.
  - rewrite positions_none; [reflexivity|].
    intros j Hj. exact (find_none _ _ _ Ef j Hj).
Qed.

Lemma accept_all_app (c1 c2 matched : list span) :
  accept_all (c1 ++ c2) matched = accept_all c2 (accept_all c1 matched).
Proof. apply fold_left_app. Qed.

Lemma first_pass_sweep (d : dict) (text : str) (terms : list str) :
  (forall t, In t terms -> In t (keys d)) ->
  forall matched,
    first_pass (length text + 2) d text terms matched
    = Some (accept_all (occurrences d text terms) matched).
Proof.
  induction terms as [|term terms IH]; intros Hkeys matched; cbn [first_pass].
  - reflexivity.
  - destruct (dict_get_key d term (Hkeys term (or_introl eq_refl))) as (r & Hr).
    rewrite (scan_term_sweep d text term r Hr) by lia.
    unfold occurrences. cbn [flat_map]. rewrite accept_all_app.
    apply IH. intros t Ht. apply Hkeys. right; exact Ht.
Qed.

(** The match list: the sweep over all occurrences, longest terms first,
    sorted by start. *)
Lemma matched_ranges_sweep (text : str) :
  matched_ranges text
  = Some (sort_by (fun a b => span_start a <=? span_start b)
                  (accept_all (occurrences DSP_DICTIONARY text
                                           (sorted_terms DSP_DICTIONARY)) [])).
Proof.
  unfold matched_ranges, matched_ranges_in.
  rewrite first_pass_sweep; [reflexivity|].
  intros t Ht. unfold sorted_terms in Ht. apply sort_by_in in Ht. exact Ht.
Qed.

(** ** A character that is not Chinese separates the matching *)

Lemma startswith_separator (term b : str) (c : char) :
  forallb is_chinese term = true -> is_chinese c = false ->
  forall x, startswith (x ++ c :: b) term = startswith x term.
Proof.
  intros Hterm Hc. induction term as [|t term IH]; intros x; [reflexivity|].
  cbn [forallb] in Hterm. apply andb_true_iff in Hterm. destruct Hterm as [Ht Hterm].
  destruct x as [|y x]; cbn [app startswith].
  - destruct (t =? c)%Z eqn:E; [|reflexivity].
    apply Z.eqb_eq in E. subst t. congruence.
  - rewrite (IH Hterm x). reflexivity.
Qed.

Lemma occurs_at_separator (term a b : str) (c : char) (i : nat) :
  forallb is_chinese term = true -> is_chinese c = false ->
  occurs_at (a ++ c :: b) term i
  = if i <=? length a then occurs_at a term i
    else occurs_at b term (i - (length a + 1)).
Proof.
  intros Hterm Hc. unfold occurs_at. rewrite length_app. cbn [length].
  destruct (i <=? length a) eqn:Ei.
  - apply Nat.leb_le in Ei.
    replace (i <=? length a + S (length b)) with true
      by (symmetry; apply Nat.leb_le; lia).
    rewrite skipn_app. replace (i - length a) with 0 by lia. cbn [skipn andb].
    apply startswith_separator; assumption.
  - apply Nat.leb_gt in Ei.
    rewrite skipn_app, skipn_all2 by lia. cbn [app].
    replace (i - length a) with (S (i - (length a + 1))) by lia. cbn [skipn].
    f_equal. destruct (i <=? length a + S (length b)) eqn:E1;
      destruct (i - (length a + 1) <=? length b) eqn:E2; try reflexivity;
      [apply Nat.leb_le in E1; apply Nat.leb_gt in E2
      |apply Nat.leb_gt in E1; apply Nat.leb_le in E2]; lia.
Qed.

Lemma filter_map_swap {A B : Type} (p : B -> bool) (f : A -> B) (l : list A) :
  filter p (map f l) = map f (filter (fun x => p (f x)) l).
Proof.
  induction l as [|x l IH]; cbn [map filter]; [reflexivity|].
  destruct (p (f x)); cbn [map]; rewrite IH; reflexivity.
Qed.

Lemma seq_shifted (k n : nat) : seq k n = map (fun i => i + k) (seq 0 n).
Proof.
  revert k; induction n as [|n IH]; intros k; cbn [seq map]; [reflexivity|].
  f_equal. rewrite (IH (S k)), (IH 1), map_map. apply map_ext. intros i. lia.
Qed.

Lemma positions_separator (term a b : str) (c : char) :
  forallb is_chinese term = true -> is_chinese c = false ->
  positions_from (a ++ c :: b) term 0
  = positions_from a term 0
    ++ map (fun i => i + (length a + 1)) (positions_from b term 0).
Proof.
  intros Hterm Hc. unfold positions_from. rewrite length_app. cbn [length].
  rewrite !Nat.sub_0_r.
  replace (length a + S (length b) + 1) with ((length a + 1) + (length b + 1)) by lia.
  rewrite seq_app, filter_app. cbn [Nat.add]. f_equal.
  - apply filter_ext_in. intros i Hi. apply in_seq in Hi.
    rewrite (occurs_at_separator term a b c i Hterm Hc).
    replace (i <=? length a) with true by (symmetry; apply Nat.leb_le; lia).
    reflexivity.
  - rewrite seq_shifted, filter_map_swap. f_equal.
    apply filter_ext. intros i.
    rewrite (occurs_at_separator term a b c _ Hterm Hc).
    replace (i + (length a + 1) <=? length a) with false
      by (symmetry; apply Nat.leb_gt; lia).
    f_equal. lia.
Qed.

Lemma span_at_shift (d : dict) (term : str) (i k : nat) :
  span_at d term (i + k) = shift k (span_at d term i).
Proof.
  unfold span_at, shift, span_start, span_end, span_text. cbn [fst snd].
  f_equal. f_equal. lia.
Qed.

(** *** Ranges on two sides *)

Lemma overlaps_other_side (k : nat) (side : bool) (m : span) (matched : list span) :
  sided k m -> Forall (sided k) matched -> is_left k m = side ->
  overlaps (span_start m) (span_end m) matched
  = overlaps (span_start m) (span_end m)
             (filter (fun x => Bool.eqb (is_left k x) side) matched).
Proof.
  intros [Hm Hmr] Hall Hside. induction Hall as [|x matched [Hx Hxr] _ IH];
    [reflexivity|].
  cbn [overlaps existsb filter]. fold (overlaps (span_start m) (span_end m) matched).
  rewrite IH. destruct (Bool.eqb (is_left k x) side) eqn:Ex.
  - reflexivity.
  - replace (negb ((span_end m <=? span_start x) || (span_end x <=? span_start m)))
      with false; [reflexivity|].
    symmetry. apply negb_false_iff, orb_true_iff.
    unfold is_left in *. subst side.
    destruct (span_end m <? k) eqn:Em; destruct (span_end x <? k) eqn:Exk;
      try discriminate Ex.
    + apply Nat.ltb_lt in Em. specialize (Hxr eq_refl).
      left. apply Nat.leb_le. lia.
    + apply Nat.ltb_lt in Exk. specialize (Hmr eq_refl).
      right. apply Nat.leb_le. lia.
Qed.

Lemma accept_sided (k : nat) (matched : list span) (m : span) :
  sided k m -> Forall (sided k) matched -> Forall (sided k) (accept matched m).
Proof.
  intros Hm Hall. unfold accept. destruct (overlaps _ _ _); [exact Hall|].
  apply Forall_app. split; [exact Hall | constructor; [exact Hm | constructor]].
Qed.

(** The sweep over occurrences on two sides is, side by side, the sweep
    over the occurrences of that side. *)
Lemma accept_all_side (k : nat) (side : bool) (candidates : list span) :
  Forall (sided k) candidates ->
  forall matched,
    Forall (sided k) matched ->
    filter (fun x => Bool.eqb (is_left k x) side) (accept_all candidates matched)
    = accept_all (filter (fun x => Bool.eqb (is_left k x) side) candidates)
                 (filter (fun x => Bool.eqb (is_left k x) side) matched).
Proof.
  unfold accept_all.
  induction 1 as [|m candidates Hm _ IH]; intros matched Hall; cbn [fold_left filter].
  - reflexivity.
  - rewrite (IH _ (accept_sided k matched m Hm Hall)).
    destruct (Bool.eqb (is_left k m) side) eqn:Es.
    + cbn [fold_left]. f_equal. unfold accept.
      apply Bool.eqb_prop in Es.
      rewrite <- (overlaps_other_side k side m matched Hm Hall Es).
      destruct (overlaps _ _ matched); [reflexivity|].
      rewrite filter_app. cbn [filter].
      rewrite (proj2 (Bool.eqb_true_iff _ _) Es). reflexivity.
    + f_equal. unfold accept. destruct (overlaps _ _ matched); [reflexivity|].
      rewrite filter_app. cbn [filter]. rewrite Es. apply app_nil_r.
Qed.

Lemma accept_all_sided (k : nat) (candidates : list span) :
  Forall (sided k) candidates ->
  forall matched, Forall (sided k) matched ->
                  Forall (sided k) (accept_all candidates matched).
Proof.
  unfold accept_all. induction 1 as [|m candidates Hm _ IH]; intros matched Hall;
    cbn [fold_left]; [exact Hall|].
  apply IH. apply accept_sided; assumption.
Qed.

(** *** Sorting ranges on two sides *)

Lemma insert_by_front {A : Type} (le : A -> A -> bool) (x : A) (l r : list A) :
  (forall y, In y r -> le x y = true) ->
  insert_by le x (l ++ r) = insert_by le x l ++ r.
Proof.
  intros Hr. induction l as [|z l IH]; cbn [app insert_by].
  - destruct r as [|y r]; [reflexivity|].
    cbn [insert_by]. rewrite (Hr y (or_introl eq_refl)). reflexivity.
  - destruct (le x z); [reflexivity|]. rewrite IH. reflexivity.
Qed.

Lemma insert_by_back {A : Type} (le : A -> A -> bool) (x : A) (l r : list A) :
  (forall y, In y l -> le x y = false) ->
  insert_by le x (l ++ r) = l ++ insert_by le x r.
Proof.
  intros Hl. induction l as [|z l IH]; cbn [app insert_by]; [reflexivity|].
  rewrite (Hl z (or_introl eq_refl)), IH; [reflexivity|].
  intros y Hy. apply Hl. right; exact Hy.
Qed.

Lemma sort_by_sides (k : nat) (l : list span) :
  Forall (sided k) l ->
  sort_by (fun a b => span_start a <=? span_start b) l
  = sort_by (fun a b => span_start a <=? span_start b) (filter (is_left k) l)
    ++ sort_by (fun a b => span_start a <=? span_start b)
               (filter (fun x => negb (is_left k x)) l).
Proof.
  induction 1 as [|x l [Hx Hxr] Hall IH]; [reflexivity|].
  cbn [sort_by fold_right filter].
  fold (sort_by (fun a b => span_start a <=? span_start b) l). rewrite IH.
  rewrite Forall_forall in Hall.
  destruct (is_left k x) eqn:Ex; cbn [negb sort_by fold_right].
  - apply insert_by_front. intros y Hy. apply sort_by_in, filter_In in Hy.
    destruct Hy as [Hy Hyl]. destruct (Hall y Hy) as [_ Hyr].
    apply negb_true_iff in Hyl. specialize (Hyr Hyl).
    unfold is_left in Ex. apply Nat.ltb_lt in Ex. apply Nat.leb_le. lia.
  - apply insert_by_back. intros y Hy. apply sort_by_in, filter_In in Hy.
    destruct Hy as [Hy Hyl]. destruct (Hall y Hy) as [Hys _].
    specialize (Hxr eq_refl).
    unfold is_left in Hyl. apply Nat.ltb_lt in Hyl. apply Nat.leb_gt. lia.
Qed.

(** *** Moving ranges *)

Lemma leb_shift (a b k : nat) : (a + k <=? b + k) = (a <=? b).
Proof.
  destruct (a <=? b) eqn:E; [apply Nat.leb_le in E; apply Nat.leb_le
                            |apply Nat.leb_gt in E; apply Nat.leb_gt]; lia.
Qed.

Lemma overlaps_shift (k idx end_ : nat) (matched : list span) :
  overlaps (idx + k) (end_ + k) (map (shift k) matched) = overlaps idx end_ matched.
Proof.
  unfold overlaps. induction matched as [|m matched IH]; cbn [map existsb];
    [reflexivity|].
  rewrite IH. f_equal.
  unfold shift, span_start, span_end. cbn [fst snd]. rewrite !leb_shift. reflexivity.
Qed.

Lemma accept_all_shift (k : nat) (candidates : list span) :
  forall matched,
    accept_all (map (shift k) candidates) (map (shift k) matched)
    = map (shift k) (accept_all candidates matched).
Proof.
  unfold accept_all. induction candidates as [|m candidates IH]; intros matched;
    cbn [map fold_left]; [reflexivity|].
  rewrite <- IH. f_equal. unfold accept.
  change (span_start (shift k m)) with (span_start m + k).
  change (span_end (shift k m)) with (span_end m + k).
  rewrite overlaps_shift. destruct (overlaps _ _ matched); [reflexivity|].
  rewrite map_app. reflexivity.
Qed.

Lemma insert_by_map {A B : Type} (le : B -> B -> bool) (f : A -> B) (x : A) (l : list A) :
  insert_by le (f x) (map f l) = map f (insert_by (fun a b => le (f a) (f b)) x l).
Proof.
  induction l as [|y l IH]; cbn [map insert_by]; [reflexivity|].
  destruct (le (f x) (f y)); cbn [map]; [reflexivity | rewrite IH; reflexivity].
Qed.

Lemma sort_by_shift (k : nat) (l : list span) :
  sort_by (fun a b => span_start a <=? span_start b) (map (shift k) l)
  = map (shift k) (sort_by (fun a b => span_start a <=? span_start b) l).
Proof.
  induction l as [|x l IH]; [reflexivity|].
  cbn [map sort_by fold_right].
  fold (sort_by (fun a b => span_start a <=? span_start b) (map (shift k) l)).
  fold (sort_by (fun a b => span_start a <=? span_start b) l).
  rewrite IH, insert_by_map. f_equal.
  assert (Hle : forall a b : span,
             (span_start (shift k a) <=? span_start (shift k b))
             = (span_start a <=? span_start b)).
  { intros a b. unfold shift, span_start. cbn [fst]. apply leb_shift. }
  generalize (sort_by (fun a b => span_start a <=? span_start b) l). intros s.
  induction s as [|y s IHs]; cbn [insert_by]; [reflexivity|].
  rewrite Hle, IHs. reflexivity.
Qed.

(** *** The match list of a text with a separator *)

Lemma filter_all {A : Type} (p : A -> bool) (l : list A) :
  (forall x, In x l -> p x = true) -> filter p l = l.
Proof.
  induction l as [|x l IH]; intros H; cbn [filter]; [reflexivity|].
  rewrite (H x (or_introl eq_refl)), IH; [reflexivity|].
  intros y Hy. apply H. right; exact Hy.
Qed.

Lemma positions_occur (text term : str) (start i : nat) :
  In i (positions_from text term start) -> occurs_at text term i = true.
Proof. unfold positions_from. intros H. apply filter_In in H. exact (proj2 H). Qed.

Section Separator.
Variable d : dict.
Variables a b : str.
Variable c : char.
Hypothesis c_plain : is_chinese c = false.

Let k := length a + 1.

Lemma left_occurrence_sided (term : str) (i : nat) :
  In i (positions_from a term 0) ->
  sided k (span_at d term i) /\ is_left k (span_at d term i) = true.
Proof.
  intros Hi. apply positions_occur, occurs_at_bound in Hi.
  unfold sided, is_left, span_at, span_start, span_end. cbn [fst snd].
  assert (Hl : (i + length term <? k) = true) by (apply Nat.ltb_lt; unfold k; lia).
  rewrite Hl. split; [split; [lia | discriminate] | reflexivity].
Qed.

Lemma right_occurrence_sided (term : str) (i : nat) :
  sided k (shift k (span_at d term i)) /\
  is_left k (shift k (span_at d term i)) = false.
Proof.
  unfold sided, is_left, shift, span_at, span_start, span_end. cbn [fst snd].
  assert (Hl : (i + length term + k <? k) = false) by (apply Nat.ltb_ge; lia).
  rewrite Hl. split; [split; [lia | intros _; lia] | reflexivity].
Qed.

Lemma occurrences_of_term (term : str) :
  forallb is_chinese term = true ->
  map (span_at d term) (positions_from (a ++ c :: b) term 0)
  = map (span_at d term) (positions_from a term 0)
    ++ map (shift k) (map (span_at d term) (positions_from b term 0)).
Proof.
  intros Hterm. rewrite (positions_separator term a b c Hterm c_plain), map_app.
  f_equal. rewrite !map_map. apply map_ext. intros i. apply span_at_shift.
Qed.

Lemma occurrences_separator (terms : list str) :
  (forall t, In t terms -> forallb is_chinese t = true) ->
  Forall (sided k) (occurrences d (a ++ c :: b) terms) /\
  filter (is_left k) (occurrences d (a ++ c :: b) terms) = occurrences d a terms /\
  filter (fun x => negb (is_left k x)) (occurrences d (a ++ c :: b) terms)
  = map (shift k) (occurrences d b terms).
Proof.
  unfold occurrences. induction terms as [|term terms IH]; intros Hterms;
    cbn [flat_map]; [repeat split; constructor|].
  destruct IH as (IH1 & IH2 & IH3); [intros t Ht; apply Hterms; right; exact Ht|].
  rewrite (occurrences_of_term term (Hterms term (or_introl eq_refl))).
  assert (HA : forall x, In x (map (span_at d term) (positions_from a term 0)) ->
                         sided k x /\ is_left k x = true).
  { intros x Hx. apply in_map_iff in Hx. destruct Hx as (i & <- & Hi).
    apply left_occurrence_sided. exact Hi. }
  assert (HB : forall x, In x (map (shift k) (map (span_at d term)
                                                 (positions_from b term 0))) ->
                         sided k x /\ is_left k x = false).
  { intros x Hx. rewrite map_map in Hx. apply in_map_iff in Hx.
    destruct Hx as (i & <- & _). apply right_occurrence_sided. }
  split; [|split].
  - apply Forall_app. split; [apply Forall_app; split|exact IH1];
      apply Forall_forall; intros x Hx; [apply HA | apply HB]; exact Hx.
  - rewrite !filter_app, IH2. f_equal.
    rewrite (filter_all (is_left k)) by (intros x Hx; apply HA; exact Hx).
    rewrite (filter_none (is_left k)) by (intros x Hx; apply HB; exact Hx).
    apply app_nil_r.
  - rewrite !filter_app, IH3, map_app. f_equal.
    rewrite (filter_none (fun x => negb (is_left k x)))
      by (intros x Hx; destruct (HA x Hx) as [_ ->]; reflexivity).
    rewrite (filter_all (fun x => negb (is_left k x)))
      by (intros x Hx; destruct (HB x Hx) as [_ ->]; reflexivity).
    reflexivity.
Qed.

End Separator.

(** The match list of [a ++ c :: b], for a character [c] that is not
    Chinese, is the match list of [a] followed by the match list of [b]
    moved behind [c]. *)
Lemma matched_ranges_separator (a b : str) (c : char) :
  is_chinese c = false ->
  exists la lb,
    matched_ranges a = Some la /\ matched_ranges b = Some lb /\
    matched_ranges (a ++ c :: b) = Some (la ++ map (shift (length a + 1)) lb).
Proof.
  intros Hc. rewrite !matched_ranges_sweep.
  eexists. eexists. split; [reflexivity|]. split; [reflexivity|]. f_equal.
  set (terms := sorted_terms DSP_DICTIONARY).
  set (k := length a + 1).
  destruct (occurrences_separator DSP_DICTIONARY a b c Hc terms) as (Hs & HL & HR).
  { intros t Ht. unfold terms, sorted_terms in Ht. apply sort_by_in in Ht.
    pose proof dictionary_terms_all_chinese as Hk. rewrite forallb_forall in Hk.
    exact (Hk t Ht). }
  fold k in Hs, HL, HR.
  pose proof (accept_all_sided k _ Hs [] (Forall_nil _)) as Hall.
  rewrite (sort_by_sides k _ Hall). f_equal.
  - f_equal.
    rewrite (filter_ext (is_left k) (fun x => Bool.eqb (is_left k x) true))
      by (intros x; destruct (is_left k x); reflexivity).
    rewrite (accept_all_side k true _ Hs [] (Forall_nil _)). cbn [filter].
    rewrite <- (filter_ext (is_left k) (fun x => Bool.eqb (is_left k x) true))
      by (intros x; destruct (is_left k x); reflexivity).
    rewrite HL. reflexivity.
  - rewrite <- sort_by_shift. f_equal.
    rewrite (filter_ext (fun x => negb (is_left k x))
                        (fun x => Bool.eqb (is_left k x) false))
      by (intros x; destruct (is_left k x); reflexivity).
    rewrite (accept_all_side k false _ Hs [] (Forall_nil _)). cbn [filter].
    rewrite <- (filter_ext (fun x => negb (is_left k x))
                           (fun x => Bool.eqb (is_left k x) false))
      by (intros x; destruct (is_left k x); reflexivity).
    rewrite HR. exact (accept_all_shift k _ []).
Qed.

(** ** The result of [translate_with_dictionary] in closed form *)

Lemma resolve_runs_plain (g : str -> str) (s : str) :
  contains_chinese s = false -> resolve_runs g s [] = s.
Proof.
  induction s as [|x s IH]; intros H; [reflexivity|].
  cbn [contains_chinese existsb] in H. apply orb_false_iff in H. destruct H as [Hx Hs].
  cbn [resolve_runs]. rewrite Hx. cbn [is_empty is_empty_list app].
  rewrite (IH Hs). reflexivity.
Qed.

Lemma resolve_runs_separator (g : str -> str) (c : char) (y : str) :
  is_chinese c = false ->
  forall x run,
    resolve_runs g (x ++ c :: y) run
    = resolve_runs g x run ++ c :: resolve_runs g y [].
Proof.
  intros Hc. induction x as [|z x IH]; intros run; cbn [app resolve_runs].
  - rewrite Hc. reflexivity.
  - destruct (is_chinese z); [apply IH|].
    rewrite IH, <- app_assoc. reflexivity.
Qed.

Lemma succeeds_ret {A : Type} (a : A) : succeeds (ret a).
Proof. intros w. exists a, w. reflexivity. Qed.

Lemma succeeds_bind {A B : Type} (m : M A) (k : A -> M B) :
  succeeds m -> (forall a, succeeds (k a)) -> succeeds (bind m k).
Proof.
  intros Hm Hk w. destruct (Hm w) as (a & w1 & Ha).
  destruct (Hk a w1) as (b & w2 & Hb). exists b, w2.
  unfold bind. rewrite Ha. exact Hb.
Qed.

Lemma succeeds_foldM {A B : Type} (f : B -> A -> M B) (l : list A) :
  (forall acc x, succeeds (f acc x)) -> forall acc, succeeds (foldM f l acc).
Proof.
  intros Hf. induction l as [|x l IH]; intros acc; cbn [foldM].
  - apply succeeds_ret.
  - apply succeeds_bind; [apply Hf | exact IH].
Qed.

Section Render.
Context {E : Env}.

Lemma gap_returns_form (parts : list str) (gap : str) :
  returns (fun parts' =>
             concat parts'
             = concat parts ++ resolve_runs (fun run => clean_translation (answer run)) gap [])
          (append_gap parts gap).
Proof.
  unfold append_gap. destruct gap as [|x gap]; cbn [is_empty is_empty_list].
  - apply returns_ret. cbn [resolve_runs is_empty is_empty_list]. rewrite app_nil_r.
    reflexivity.
  - apply (returns_bind
             (fun g' => g' = resolve_runs (fun run => clean_translation (answer run))
                                          (x :: gap) [])).
    + destruct (contains_chinese (x :: gap)) eqn:Ec.
      * apply remaining_returns_form.
      * apply returns_ret. symmetry. apply resolve_runs_plain. exact Ec.
    + intros g' ->. apply returns_ret.
      rewrite concat_app. cbn [concat]. rewrite app_nil_r. reflexivity.
Qed.

(** What [translate_with_dictionary] returns is the rendering of the
    text along its match list. *)
Lemma dictionary_returns_render (text : str) (l : list span) :
  matched_ranges text = Some l ->
  returns (fun r => r = render (fun run => clean_translation (answer run)) text l 0)
          (translate_with_dictionary text).
Proof.
  intros Hl. unfold translate_with_dictionary. rewrite Hl.
  set (g := fun run => clean_translation (answer run)).
  destruct l as [|m0 l0] eqn:El; cbn [is_empty_list].
  - cbn [render skipn]. apply remaining_returns_form.
  - rewrite <- El. clear El m0 l0 Hl.
    apply (returns_bind
             (fun st : list str * nat =>
                concat (fst st) ++ render g text [] (snd st) = render g text l 0)).
    + apply (returns_foldM_inv
               (fun (st : list str * nat) rest =>
                  concat (fst st) ++ render g text rest (snd st) = render g text l 0)).
      * intros [parts last_end] [[start end_] rep] rest Hinv. cbn [fst snd] in *.
        unfold append_match.
        apply (returns_bind
                 (fun parts' =>
                    concat parts'
                    = concat parts ++ resolve_runs g (slice text last_end start) [])).
        -- apply gap_returns_form.
        -- intros parts' Hparts. apply returns_ret. cbn [fst snd].
           rewrite <- Hinv, concat_app, Hparts. cbn [concat render].
           rewrite app_nil_r, <- !app_assoc. reflexivity.
      * reflexivity.
    + intros [parts last_end] Hinv. cbn [fst snd] in Hinv.
      apply (returns_bind
               (fun parts' =>
                  concat parts'
                  = concat parts ++ resolve_runs g (skipn last_end text) [])).
      * apply gap_returns_form.
      * intros parts' Hparts. apply returns_ret. rewrite Hparts. exact Hinv.
Qed.

(** With a translator that answers every run, the calls return. *)
Lemma remaining_succeeds (text : str) :
  (forall run, argos_translate run <> None) ->
  succeeds (translate_remaining_chinese text).
Proof.
  intros Htotal w. unfold translate_remaining_chinese.
  destruct (is_empty_list (extract_chinese_segments text)).
  - exists text, w. reflexivity.
  - eexists. eexists. apply (replace_loop_ok answer).
    intros seg _. unfold answer.
    destruct (argos_translate (seg_run seg)) eqn:Ea; [reflexivity|].
    exfalso. exact (Htotal _ Ea).
Qed.

Lemma gap_succeeds (parts : list str) (gap : str) :
  (forall run, argos_translate run <> None) -> succeeds (append_gap parts gap).
Proof.
  intros Htotal. unfold append_gap. destruct (is_empty gap); [apply succeeds_ret|].
  apply succeeds_bind; [|intros g; apply succeeds_ret].
  destruct (contains_chinese gap); [apply remaining_succeeds; exact Htotal|].
  apply succeeds_ret.
Qed.

Lemma dictionary_succeeds (text : str) :
  (forall run, argos_translate run <> None) ->
  succeeds (translate_with_dictionary text).
Proof.
  intros Htotal. unfold translate_with_dictionary. rewrite matched_ranges_sweep.
  destruct (is_empty_list _); [apply remaining_succeeds; exact Htotal|].
  apply succeeds_bind.
  - apply succeeds_foldM. intros [parts last_end] [[start end_] rep].
    unfold append_match. apply succeeds_bind; [apply gap_succeeds; exact Htotal|].
    intros p. apply succeeds_ret.
  - intros [parts last_end]. apply succeeds_bind; [apply gap_succeeds; exact Htotal|].
    intros p. apply succeeds_ret.
Qed.

End Render.

(** *** Rendering on both sides of a separator *)

Section RenderSeparator.
Variable g : str -> str.
Variables a b : str.
Variable c : char.
Hypothesis c_plain : is_chinese c = false.

Lemma skipn_behind (n : nat) :
  skipn (n + (length a + 1)) (a ++ c :: b) = skipn n b.
Proof.
  rewrite skipn_app, skipn_all2 by lia. cbn [app].
  replace (n + (length a + 1) - length a) with (S n) by lia. reflexivity.
Qed.

Lemma slice_behind (i j : nat) :
  slice (a ++ c :: b) (i + (length a + 1)) (j + (length a + 1)) = slice b i j.
Proof.
  unfold slice. rewrite skipn_behind. f_equal. lia.
Qed.

Lemma render_behind (lb : list span) :
  forall last_end,
    render g (a ++ c :: b) (map (shift (length a + 1)) lb) (last_end + (length a + 1))
    = render g b lb last_end.
Proof.
  induction lb as [|[[start end_] rep] lb IH]; intros last_end; cbn [map render].
  - rewrite skipn_behind. reflexivity.
  - unfold shift, span_start, span_end, span_text. cbn [fst snd render].
    rewrite slice_behind, IH. reflexivity.
Qed.

Lemma skipn_front (n : nat) :
  n <= length a -> skipn n (a ++ c :: b) = skipn n a ++ c :: b.
Proof.
  intros Hn. rewrite skipn_app. replace (n - length a) with 0 by lia. reflexivity.
Qed.

Lemma slice_front (i j : nat) :
  j <= length a -> slice (a ++ c :: b) i j = slice a i j.
Proof.
  intros Hj. unfold slice.
  destruct (Nat.le_gt_cases i (length a)) as [Hi | Hi].
  - rewrite skipn_front by exact Hi. rewrite firstn_app, length_skipn.
    replace (j - i - (length a - i)) with 0 by lia. cbn [firstn]. apply app_nil_r.
  - replace (j - i) with 0 by lia. reflexivity.
Qed.

Lemma slice_across (i j : nat) :
  i <= length a ->
  slice (a ++ c :: b) i (j + (length a + 1)) = skipn i a ++ c :: firstn j b.
Proof.
  intros Hi. unfold slice. rewrite skipn_front by exact Hi.
  rewrite firstn_app, length_skipn.
  rewrite firstn_all2 by (rewrite length_skipn; lia).
  replace (j + (length a + 1) - i - (length a - i)) with (S j) by lia.
  reflexivity.
Qed.

Lemma render_separator (lb : list span) (la : list span) :
  forall last_end,
    last_end <= length a ->
    Forall (fun m => span_start m <= length a /\ span_end m <= length a) la ->
    render g (a ++ c :: b) (la ++ map (shift (length a + 1)) lb) last_end
    = render g a la last_end ++ c :: render g b lb 0.
Proof.
  induction la as [|[[start end_] rep] la IH]; intros last_end Hlast Hla; cbn [app].
  - destruct lb as [|[[start end_] rep] lb]; cbn [map render].
    + rewrite skipn_front by exact Hlast.
      apply resolve_runs_separator. exact c_plain.
    + unfold shift at 1, span_start, span_end, span_text. cbn [fst snd render].
      rewrite slice_across by exact Hlast.
      rewrite (resolve_runs_separator g c _ c_plain).
      rewrite (render_behind lb end_).
      unfold slice. rewrite Nat.sub_0_r. cbn [skipn].
      rewrite <- app_assoc. reflexivity.
  - inversion Hla as [|? ? [Hs He] Hla']; subst.
    unfold span_start, span_end in Hs, He. cbn [fst snd] in Hs, He.
    cbn [render]. rewrite slice_front by exact Hs.
    rewrite (IH end_ He Hla'), <- !app_assoc. reflexivity.
Qed.

End RenderSeparator.

Section SeparatorClaim.
Context {E : Env}.

(** X17: a character that is not Chinese separates the translation.
    [translate_with_dictionary] deals with the text before such a
    character and the text after it each by itself: whenever the three
    calls return, the result for [a ++ c :: b] is the result for [a],
    then [c], then the result for [b]. With a translator that answers
    every run, the calls do return. *)
Theorem separator_splits_translation (a b : str) (c : char) :
  is_chinese c = false ->
  (forall w ra wa v rb wb u r u',
      translate_with_dictionary a w = (Ok ra, wa) ->
      translate_with_dictionary b v = (Ok rb, wb) ->
      translate_with_dictionary (a ++ c :: b) u = (Ok r, u') ->
      r = ra ++ c :: rb) /\
  ((forall run, argos_translate run <> None) ->
   forall text w, exists r w', translate_with_dictionary text w = (Ok r, w')).
Proof.
  intros Hc. split; [|intros Htotal text; exact (dictionary_succeeds text Htotal)].
  intros w ra wa v rb wb u r u' Ha Hb Hab.
  destruct (matched_ranges_separator a b c Hc) as (la & lb & Hla & Hlb & Hl).
  rewrite (dictionary_returns_render a la Hla _ _ _ Ha).
  rewrite (dictionary_returns_render b lb Hlb _ _ _ Hb).
  rewrite (dictionary_returns_render _ _ Hl _ _ _ Hab).
  apply render_separator; [exact Hc | lia|].
  destruct (matched_ranges_in_spec DSP_DICTIONARY a) as (l & Hl' & _ & _ & Hmatch & _).
  fold (matched_ranges a) in Hl'. rewrite Hla in Hl'. injection Hl' as <-.
  eapply Forall_impl; [|exact Hmatch].
  intros m (t & _ & _ & Hocc & Hend). apply occurs_at_bound in Hocc. lia.
Qed.

End SeparatorClaim.

Lemma separator_splits_translation_witness :
  is_chinese 95%Z = false /\
  @translate_with_dictionary stub_env name_warehouse (empty_world File)
  = (Ok (cp "Ware-house"), World File [name_warehouse] [] []) /\
  @translate_with_dictionary stub_env name_coal_mine (empty_world File)
  = (Ok (cp "Coal"), empty_world File) /\
  @translate_with_dictionary stub_env (name_warehouse ++ 95%Z :: name_coal_mine)
                             (empty_world File)
  = (Ok (cp "Ware-house_Coal"), World File [name_warehouse] [] []) /\
  cp "Ware-house_Coal" = cp "Ware-house" ++ 95%Z :: cp "Coal".
Proof.
  assert (Ha : @translate_with_dictionary stub_env name_warehouse (empty_world File)
               = (Ok (cp "Ware-house"), World File [name_warehouse] [] []))
    by (vm_compute; reflexivity).
  assert (Hb : @translate_with_dictionary stub_env name_coal_mine (empty_world File)
               = (Ok (cp "Coal"), empty_world File))
    by (vm_compute; reflexivity).
  assert (Hab : @translate_with_dictionary stub_env
                  (name_warehouse ++ 95%Z :: name_coal_mine) (empty_world File)
                = (Ok (cp "Ware-house_Coal"), World File [name_warehouse] [] []))
    by (vm_compute; reflexivity).
  split; [reflexivity|]. split; [exact Ha|]. split; [exact Hb|]. split; [exact Hab|].
  exact (proj1 (@separator_splits_translation stub_env name_warehouse name_coal_mine
                  95%Z eq_refl)
               _ _ _ _ _ _ _ _ _ Ha Hb Hab).
Defined.

(** ** How a run ends *)






Section Refusals.
Context {E : Env}.







Hypothesis word_not_slash : is_word slash = false.





End Refusals.


